(** * StaticRTree: a shallow embedding of [include/util/static_rtree.hpp]

    The bulk-loaded R-tree of the routing engine: three packers (Hilbert,
    STR, OMT), the window search [SearchInBox] and the best-first search
    [Nearest].  Integers of the source are [Z]; arrays and vectors are
    lists read with [nth]; the loops of the source are step functions
    over an explicit machine state that are iterated with fuel. *)

From Stdlib Require Import ZArith List Bool Lia Permutation Sorted.
Import ListNotations.
Local Open Scope Z_scope.

(* ------------------------------------------------------------------ *)
(** ** Fixed-point coordinates and rectangles *)

Record Coordinate := mkCoordinate { lon : Z; lat : Z }.

(** [Coordinate()] of the source: both components at the smallest int32. *)
Definition Coordinate_default : Coordinate :=
  {| lon := - 2147483648; lat := - 2147483648 |}.

Record RectangleInt2D := mkRectangle
  { min_lon : Z; max_lon : Z; min_lat : Z; max_lat : Z }.

Module Rectangle.

(** Modelled from the spec: [util/rectangle.hpp] is not part of the
    sources at hand.  "An empty rectangle is represented by sentinel
    extrema so that any Extend makes it valid." *)
Definition empty : RectangleInt2D :=
  {| min_lon := 2147483647; max_lon := - 2147483648;
     min_lat := 2147483647; max_lat := - 2147483648 |}.

(** Modelled from the spec: [extend(point)] of [util/rectangle.hpp]. *)
Definition Extend (r : RectangleInt2D) (x y : Z) : RectangleInt2D :=
  {| min_lon := Z.min (min_lon r) x; max_lon := Z.max (max_lon r) x;
     min_lat := Z.min (min_lat r) y; max_lat := Z.max (max_lat r) y |}.

(** Modelled from the spec: [extend(rect)] (union) of
    [util/rectangle.hpp]; the source calls it [MergeBoundingBoxes] in
    the Hilbert and STR packers and [Extend] in the OMT packer. *)
Definition MergeBoundingBoxes (r o : RectangleInt2D) : RectangleInt2D :=
  {| min_lon := Z.min (min_lon r) (min_lon o);
     max_lon := Z.max (max_lon r) (max_lon o);
     min_lat := Z.min (min_lat r) (min_lat o);
     max_lat := Z.max (max_lat r) (max_lat o) |}.

(** Modelled from the spec: [intersects(rect)] of [util/rectangle.hpp],
    the usual test on closed boxes. *)
Definition Intersects (r o : RectangleInt2D) : bool :=
  negb ((max_lon r <? min_lon o) || (max_lon o <? min_lon r)
        || (max_lat r <? min_lat o) || (max_lat o <? min_lat r)).

(** Modelled from the spec: the point-inside test behind
    [min_squared_dist_to] of [util/rectangle.hpp]. *)
Definition Contains (r : RectangleInt2D) (p : Coordinate) : bool :=
  (min_lon r <=? lon p) && (lon p <=? max_lon r)
  && (min_lat r <=? lat p) && (lat p <=? max_lat r).

(** Modelled from the spec: [centroid()] of [util/rectangle.hpp]. *)
Definition Centroid (r : RectangleInt2D) : Coordinate :=
  {| lon := (min_lon r + max_lon r) / 2; lat := (min_lat r + max_lat r) / 2 |}.

Definition IsValid (r : RectangleInt2D) : bool :=
  (min_lon r <=? max_lon r) && (min_lat r <=? max_lat r).

(** [inside a b]: every point of [a] is a point of [b]. *)
Definition inside (a b : RectangleInt2D) : bool :=
  (min_lon b <=? min_lon a) && (max_lon a <=? max_lon b)
  && (min_lat b <=? min_lat a) && (max_lat a <=? max_lat b).

End Rectangle.

(** Modelled from the spec: [coordinate_calculation::squaredEuclideanDistance]
    is not part of the sources at hand.  "Squared Euclidean distances in
    projected fixed-point units, held as u64 to avoid overflow." *)
Definition squaredEuclideanDistance (a b : Coordinate) : Z :=
  (lon a - lon b) * (lon a - lon b) + (lat a - lat b) * (lat a - lat b).

Definition clamp (lo hi x : Z) : Z := Z.max lo (Z.min hi x).

(** Modelled from the spec: [min_squared_dist_to(point)] of
    [util/rectangle.hpp]: "0 if point inside; else the squared distance
    to the nearest edge/corner in fixed-point units squared". *)
Definition GetMinSquaredDist (r : RectangleInt2D) (p : Coordinate) : Z :=
  if Rectangle.Contains r p then 0
  else squaredEuclideanDistance p
         {| lon := clamp (min_lon r) (max_lon r) (lon p);
            lat := clamp (min_lat r) (max_lat r) (lat p) |}.

(* ------------------------------------------------------------------ *)
(** ** Edges, tree nodes and leaf pages *)

Record SegmentID := mkSegmentID { id : Z; enabled : bool }.

(** The members of [EdgeDataT] that the index reads: two indices into the
    coordinate table and the two segment ids with their enabled bits. *)
Record EdgeData := mkEdge
  { u : Z; v : Z;
    forward_segment_id : SegmentID;
    reverse_segment_id : SegmentID }.

Definition EdgeData_default : EdgeData :=
  {| u := 0; v := 0;
     forward_segment_id := {| id := 0; enabled := false |};
     reverse_segment_id := {| id := 0; enabled := false |} |}.

Record CandidateSegment := mkCandidate
  { cs_fixed_projected_coordinate : Coordinate; data : EdgeData }.

(** [index : 31] and [is_leaf : 1] of the source. *)
Record TreeIndex := mkTreeIndexRaw { index : Z; is_leaf : bool }.

(** [TreeIndex(std::size_t index, bool is_leaf)]: the bit-field keeps the
    low 31 bits of the index. *)
Definition mkTreeIndex (i : Z) (l : bool) : TreeIndex :=
  {| index := i mod 2147483648; is_leaf := l |}.

(** [TreeIndex()]. *)
Definition TreeIndex_default : TreeIndex := {| index := 0; is_leaf := false |}.

Record TreeNode := mkTreeNode
  { child_count : Z;
    minimum_bounding_rectangle : RectangleInt2D;
    children : list TreeIndex }.

Record LeafNode := mkLeafNode
  { object_count : Z;
    leaf_minimum_bounding_rectangle : RectangleInt2D;
    objects : list EdgeData }.

(** [TreeNode()] for a branching factor [B]. *)
Definition TreeNode_default (B : Z) : TreeNode :=
  {| child_count := 0;
     minimum_bounding_rectangle := Rectangle.empty;
     children := repeat TreeIndex_default (Z.to_nat B) |}.

(** [LeafNode()] for a leaf capacity [L]. *)
Definition LeafNode_default (L : Z) : LeafNode :=
  {| object_count := 0;
     leaf_minimum_bounding_rectangle := Rectangle.empty;
     objects := repeat EdgeData_default (Z.to_nat L) |}.

(** [LEAF_NODE_SIZE]: the number of edges of [sizeof_edge] bytes that fit
    a page after the count (4 bytes) and the rectangle (16 bytes). *)
Definition LEAF_NODE_SIZE (LEAF_PAGE_SIZE sizeof_edge : Z) : Z :=
  (LEAF_PAGE_SIZE - 4 - 16) / sizeof_edge.

(** The state of a loaded index: node array, leaf pages, coordinate table. *)
Record StaticRTree := mkIndex
  { m_search_tree : list TreeNode;
    m_leaves : list LeafNode;
    m_coordinate_list : list Coordinate }.

(** Array reads.  Reading past the end is undefined in the source; the
    model reads a default-constructed element there. *)
Definition at_ {A} (d : A) (l : list A) (i : Z) : A := nth (Z.to_nat i) l d.

Definition node_at (t : StaticRTree) (i : Z) : TreeNode :=
  at_ (TreeNode_default 0) (m_search_tree t) i.
Definition leaf_at (t : StaticRTree) (i : Z) : LeafNode :=
  at_ (LeafNode_default 0) (m_leaves t) i.
Definition coord_at (cs : list Coordinate) (i : Z) : Coordinate :=
  at_ Coordinate_default cs i.
Definition child_at (n : TreeNode) (i : Z) : TreeIndex :=
  at_ TreeIndex_default (children n) i.
Definition object_at (l : LeafNode) (i : Z) : EdgeData :=
  at_ EdgeData_default (objects l) i.

(** [irange(0u, n)] and the counting loops [for (i = 0; i < n; ++i)]. *)
Definition irange (n : Z) : list Z := map Z.of_nat (seq 0 (Z.to_nat n)).

(* ------------------------------------------------------------------ *)
(** ** Query candidates and the priority queue *)

Definition UINT32_MAX : Z := 4294967295.

Record QueryCandidate := mkQueryCandidate
  { squared_min_dist : Z;
    tree_index : TreeIndex;
    segment_index : Z;
    fixed_projected_coordinate : Coordinate }.

(** [QueryCandidate(squared_min_dist, tree_index)]: a node entry. *)
Definition QueryCandidate_node (d : Z) (t : TreeIndex) : QueryCandidate :=
  {| squared_min_dist := d; tree_index := t;
     segment_index := UINT32_MAX;
     fixed_projected_coordinate := Coordinate_default |}.

(** [QueryCandidate(squared_min_dist, tree_index, segment_index, coordinate)]:
    a segment entry. *)
Definition QueryCandidate_segment (d : Z) (t : TreeIndex) (i : Z) (c : Coordinate)
  : QueryCandidate :=
  {| squared_min_dist := d; tree_index := t;
     segment_index := i; fixed_projected_coordinate := c |}.

Definition is_segment (q : QueryCandidate) : bool :=
  negb (segment_index q =? UINT32_MAX).

(** [operator<]: reversed, because [std::priority_queue] is a max queue. *)
Definition QueryCandidate_lt (a b : QueryCandidate) : bool :=
  squared_min_dist b <? squared_min_dist a.

(** [std::priority_queue<QueryCandidate>].  [top] is an entry that is not
    [operator<] any other, that is, one of least [squared_min_dist]; the
    standard leaves the choice among equal keys to the heap layout, the
    model takes the one pushed first. *)
Module PQ.

Definition t := list QueryCandidate.

Definition empty : t := [].

Definition push (q : t) (x : QueryCandidate) : t := q ++ [x].

(** The first entry of least key, and the queue without it. *)
Fixpoint pop (q : t) : option (QueryCandidate * t) :=
  match q with
  | [] => None
  | x :: q' =>
      match pop q' with
      | None => Some (x, [])
      | Some (y, r) =>
          if QueryCandidate_lt x y then Some (y, x :: r) else Some (x, q')
      end
  end.

End PQ.

(* ------------------------------------------------------------------ *)
(** ** The query engine *)

Section Queries.

(** The Mercator latitude map on fixed-point values,
    [toFixed (latToY (toFloating lat))] in the source; the
    floating-point function itself lives in [util/web_mercator.hpp]. *)
Variable latToY : Z -> Z.

(** [nearest_on_segment cu cv q] stands for
    [Coordinate{projectPointOnSegment(fromWGS84(cu), fromWGS84(cv),
    fromWGS84(q)).second}]: the clamped foot of the perpendicular from
    the projected query point on the projected segment, back on the
    fixed-point grid.  The floating-point computation lives in
    [util/coordinate_calculation.hpp]. *)
Variable nearest_on_segment : Coordinate -> Coordinate -> Coordinate -> Coordinate.

(** Modelled from the spec: [Coordinate{web_mercator::fromWGS84(c)}],
    "x = lon, y = latToY(lat)". *)
Definition fromWGS84 (c : Coordinate) : Coordinate :=
  {| lon := lon c; lat := latToY (lat c) |}.

(** The rectangle of a child, read from the leaf pages or from the node
    array according to [is_leaf]. *)
Definition child_rectangle (t : StaticRTree) (child_id : TreeIndex) : RectangleInt2D :=
  if is_leaf child_id
  then leaf_minimum_bounding_rectangle (leaf_at t (index child_id))
  else minimum_bounding_rectangle (node_at t (index child_id)).

(** The squared distance that [ExploreLeafNode] gives the edge [e]. *)
Definition segment_distance (cs : list Coordinate) (input_coordinate : Coordinate)
           (e : EdgeData) : Z :=
  squaredEuclideanDistance (fromWGS84 input_coordinate)
    (nearest_on_segment (coord_at cs (u e)) (coord_at cs (v e)) input_coordinate).

Definition ExploreLeafNode (t : StaticRTree) (leaf_id : TreeIndex)
           (projected_input_coordinate_fixed input_coordinate : Coordinate)
           (traversal_queue : PQ.t) : PQ.t :=
  let current_leaf_node := leaf_at t (index leaf_id) in
  fold_left
    (fun queue i =>
       let current_edge := object_at current_leaf_node i in
       let projected_nearest :=
         nearest_on_segment (coord_at (m_coordinate_list t) (u current_edge))
                            (coord_at (m_coordinate_list t) (v current_edge))
                            input_coordinate in
       let squared_distance :=
         squaredEuclideanDistance projected_input_coordinate_fixed projected_nearest in
       PQ.push queue
         (QueryCandidate_segment squared_distance leaf_id i projected_nearest))
    (irange (object_count current_leaf_node))
    traversal_queue.

Definition ExploreTreeNode (t : StaticRTree) (parent_id : TreeIndex)
           (fixed_projected_input_coordinate : Coordinate)
           (traversal_queue : PQ.t) : PQ.t :=
  let parent := node_at t (index parent_id) in
  fold_left
    (fun queue i =>
       let child_id := child_at parent i in
       let squared_lower_bound_to_element :=
         GetMinSquaredDist (child_rectangle t child_id)
                           fixed_projected_input_coordinate in
       PQ.push queue (QueryCandidate_node squared_lower_bound_to_element child_id))
    (irange (child_count parent))
    traversal_queue.

(** *** Nearest *)

(** The state of the [while] loop of [Nearest].  The index itself is
    part of the state, so that what a query does to it can be stated. *)
Record NearestState := mkNearestState
  { n_index : StaticRTree;
    n_queue : PQ.t;
    n_results : list EdgeData }.

Inductive Outcome (S : Type) : Type :=
| Continue : S -> Outcome S
| Return : S -> Outcome S.
Arguments Continue {S} _.
Arguments Return {S} _.

Definition FilterT := CandidateSegment -> bool * bool.
Definition TerminationT := Z -> CandidateSegment -> bool.

(** [edge_data.forward_segment_id.enabled &= use_segment.first] and the
    same for the reverse id, on the local copy [edge_data]. *)
Definition mask_enabled (edge_data : EdgeData) (use_segment : bool * bool) : EdgeData :=
  {| u := u edge_data; v := v edge_data;
     forward_segment_id :=
       {| id := id (forward_segment_id edge_data);
          enabled := enabled (forward_segment_id edge_data) && fst use_segment |};
     reverse_segment_id :=
       {| id := id (reverse_segment_id edge_data);
          enabled := enabled (reverse_segment_id edge_data) && snd use_segment |} |}.

(** One turn of the loop: [Return] when the queue is empty or the
    terminator fires, [Continue] otherwise. *)
Definition Nearest_step (input_coordinate : Coordinate)
           (filter : FilterT) (terminate : TerminationT)
           (s : NearestState) : Outcome NearestState :=
  let projected_coordinate := fromWGS84 input_coordinate in
  match PQ.pop (n_queue s) with
  | None => Return s
  | Some (current_query_node, traversal_queue) =>
      let current_tree_index := tree_index current_query_node in
      if negb (is_segment current_query_node) then
        if is_leaf current_tree_index then
          Continue {| n_index := n_index s;
                      n_queue := ExploreLeafNode (n_index s) current_tree_index
                                   projected_coordinate input_coordinate
                                   traversal_queue;
                      n_results := n_results s |}
        else
          Continue {| n_index := n_index s;
                      n_queue := ExploreTreeNode (n_index s) current_tree_index
                                   projected_coordinate traversal_queue;
                      n_results := n_results s |}
      else
        let edge_data :=
          object_at (leaf_at (n_index s) (index current_tree_index))
                    (segment_index current_query_node) in
        let current_candidate :=
          {| cs_fixed_projected_coordinate :=
               fixed_projected_coordinate current_query_node;
             data := edge_data |} in
        if terminate (Z.of_nat (length (n_results s))) current_candidate then
          Return {| n_index := n_index s;
                    n_queue := traversal_queue;
                    n_results := n_results s |}
        else
          let use_segment := filter current_candidate in
          if negb (fst use_segment) && negb (snd use_segment) then
            Continue {| n_index := n_index s;
                        n_queue := traversal_queue;
                        n_results := n_results s |}
          else
            Continue {| n_index := n_index s;
                        n_queue := traversal_queue;
                        n_results := n_results s ++ [mask_enabled edge_data use_segment] |}
  end.

(** The loop, run for at most [fuel] turns; [None] when the fuel is
    spent before the loop ends. *)
Fixpoint Nearest_loop (fuel : nat) (input_coordinate : Coordinate)
         (filter : FilterT) (terminate : TerminationT)
         (s : NearestState) : option NearestState :=
  match fuel with
  | O => None
  | S fuel' =>
      match Nearest_step input_coordinate filter terminate s with
      | Return s' => Some s'
      | Continue s' => Nearest_loop fuel' input_coordinate filter terminate s'
      end
  end.

(** The state after exactly [n] turns, as long as the loop runs. *)
Fixpoint Nearest_run (n : nat) (input_coordinate : Coordinate)
         (filter : FilterT) (terminate : TerminationT)
         (s : NearestState) : NearestState :=
  match n with
  | O => s
  | S n' =>
      match Nearest_step input_coordinate filter terminate s with
      | Return s' => s'
      | Continue s' => Nearest_run n' input_coordinate filter terminate s'
      end
  end.

(** The queue is seeded with the root: [QueryCandidate{0, TreeIndex{}}]. *)
Definition Nearest_init (t : StaticRTree) : NearestState :=
  {| n_index := t;
     n_queue := PQ.push PQ.empty (QueryCandidate_node 0 TreeIndex_default);
     n_results := [] |}.

(** [Nearest(input_coordinate, filter, terminate)]: the result vector
    together with the index the query leaves behind. *)
Definition Nearest (fuel : nat) (t : StaticRTree) (input_coordinate : Coordinate)
           (filter : FilterT) (terminate : TerminationT)
  : option (list EdgeData * StaticRTree) :=
  match Nearest_loop fuel input_coordinate filter terminate (Nearest_init t) with
  | Some s => Some (n_results s, n_index s)
  | None => None
  end.

(** [Nearest(input_coordinate, max_results)]. *)
Definition Nearest_max (fuel : nat) (t : StaticRTree) (input_coordinate : Coordinate)
           (max_results : Z) : option (list EdgeData * StaticRTree) :=
  Nearest fuel t input_coordinate
          (fun _ => (true, true))
          (fun num_results _ => max_results <=? num_results).

(** *** SearchInBox *)

Record SearchState := mkSearchState
  { s_index : StaticRTree;
    s_queue : list TreeIndex;
    s_results : list EdgeData }.

(** The rectangle of an edge in geographic coordinates. *)
Definition edge_bbox (cs : list Coordinate) (current_edge : EdgeData) : RectangleInt2D :=
  {| min_lon := Z.min (lon (coord_at cs (u current_edge))) (lon (coord_at cs (v current_edge)));
     max_lon := Z.max (lon (coord_at cs (u current_edge))) (lon (coord_at cs (v current_edge)));
     min_lat := Z.min (lat (coord_at cs (u current_edge))) (lat (coord_at cs (v current_edge)));
     max_lat := Z.max (lat (coord_at cs (u current_edge))) (lat (coord_at cs (v current_edge))) |}.

Definition projected_rectangle (search_rectangle : RectangleInt2D) : RectangleInt2D :=
  {| min_lon := min_lon search_rectangle;
     max_lon := max_lon search_rectangle;
     min_lat := latToY (min_lat search_rectangle);
     max_lat := latToY (max_lat search_rectangle) |}.

Definition SearchInBox_step (search_rectangle : RectangleInt2D)
           (s : SearchState) : Outcome SearchState :=
  match s_queue s with
  | [] => Return s
  | current_tree_index :: traversal_queue =>
      if is_leaf current_tree_index then
        let current_leaf_node := leaf_at (s_index s) (index current_tree_index) in
        Continue
          {| s_index := s_index s;
             s_queue := traversal_queue;
             s_results :=
               fold_left
                 (fun results i =>
                    let current_edge := object_at current_leaf_node i in
                    if Rectangle.Intersects
                         (edge_bbox (m_coordinate_list (s_index s)) current_edge)
                         search_rectangle
                    then results ++ [current_edge] else results)
                 (irange (object_count current_leaf_node))
                 (s_results s) |}
      else
        let current_tree_node := node_at (s_index s) (index current_tree_index) in
        Continue
          {| s_index := s_index s;
             s_queue :=
               fold_left
                 (fun queue i =>
                    let child_id := child_at current_tree_node i in
                    if Rectangle.Intersects (child_rectangle (s_index s) child_id)
                                            (projected_rectangle search_rectangle)
                    then queue ++ [child_id] else queue)
                 (irange (child_count current_tree_node))
                 traversal_queue;
             s_results := s_results s |}
  end.

Fixpoint SearchInBox_loop (fuel : nat) (search_rectangle : RectangleInt2D)
         (s : SearchState) : option SearchState :=
  match fuel with
  | O => None
  | S fuel' =>
      match SearchInBox_step search_rectangle s with
      | Return s' => Some s'
      | Continue s' => SearchInBox_loop fuel' search_rectangle s'
      end
  end.

Definition SearchInBox_init (t : StaticRTree) : SearchState :=
  {| s_index := t; s_queue := [TreeIndex_default]; s_results := [] |}.

Definition SearchInBox (fuel : nat) (t : StaticRTree)
           (search_rectangle : RectangleInt2D)
  : option (list EdgeData * StaticRTree) :=
  match SearchInBox_loop fuel search_rectangle (SearchInBox_init t) with
  | Some s => Some (s_results s, s_index s)
  | None => None
  end.

End Queries.

Arguments Continue {S} _.
Arguments Return {S} _.

(* ------------------------------------------------------------------ *)
(** ** The packers *)

(** An array write [a[i] = x]; the callers keep [i] inside the array. *)
Definition set_at {A} (l : list A) (i : Z) (x : A) : list A :=
  firstn (Z.to_nat i) l ++ x :: skipn (S (Z.to_nat i)) l.

(** [std::sort (first + b, first + e, lt)] for a sort routine [sort]. *)
Definition sort_range {A} (sort : list A -> list A) (l : list A) (b e : Z) : list A :=
  firstn (Z.to_nat b) l
  ++ sort (firstn (Z.to_nat e - Z.to_nat b) (skipn (Z.to_nat b) l))
  ++ skipn (Z.to_nat b + (Z.to_nat e - Z.to_nat b)) l.

Definition UINT32_MOD : Z := 4294967296.

Record HilbertInputElement := mkHilbertInputElement
  { m_hilbert_value : Z; m_array_index : Z }.

Definition HilbertInputElement_lt (a b : HilbertInputElement) : bool :=
  m_hilbert_value a <? m_hilbert_value b.

Section Packers.

Variable BRANCHING_FACTOR : Z.
Variable LEAF_NODE_SIZE_ : Z.

Variable latToY : Z -> Z.

(** [coordinate_calculation::centroid] and [GetHilbertCode], from
    [util/coordinate_calculation.hpp] and [util/hilbert_value.hpp]. *)
Variable centroid : Coordinate -> Coordinate -> Coordinate.
Variable GetHilbertCode : Coordinate -> Z.

(** [std::sort] and [tbb::parallel_sort] with a comparison. *)
Variable sort : forall A : Type, (A -> A -> bool) -> list A -> list A.

(** The sub-ranges [(begin, end)] that [tbb::parallel_for] hands to its
    body for [blocked_range (0, size, grainsize)]. *)
Variable blocked_ranges : Z -> Z -> list (Z * Z).

Variable m_coordinate_list_ : list Coordinate.

Definition edge_centroid (e : EdgeData) : Coordinate :=
  centroid (coord_at m_coordinate_list_ (u e)) (coord_at m_coordinate_list_ (v e)).

Definition longitude_compare (a b : EdgeData) : bool :=
  lon (edge_centroid a) <? lon (edge_centroid b).

Definition latitude_compare (a b : EdgeData) : bool :=
  lat (edge_centroid a) <? lat (edge_centroid b).

(** *** Leaf packing, shared by the Hilbert and STR packers *)

(** The body of the innermost loop: store the object and grow the
    rectangle of the leaf by its two projected end points. *)
Definition leaf_add (current_leaf : LeafNode) (object_index : Z) (object : EdgeData)
  : LeafNode :=
  let projected_u := fromWGS84 latToY (coord_at m_coordinate_list_ (u object)) in
  let projected_v := fromWGS84 latToY (coord_at m_coordinate_list_ (v object)) in
  let rectangle := leaf_minimum_bounding_rectangle current_leaf in
  {| object_count := object_count current_leaf + 1;
     leaf_minimum_bounding_rectangle :=
       {| min_lon := Z.min (min_lon rectangle) (Z.min (lon projected_u) (lon projected_v));
          max_lon := Z.max (max_lon rectangle) (Z.max (lon projected_u) (lon projected_v));
          min_lat := Z.min (min_lat rectangle) (Z.min (lat projected_u) (lat projected_v));
          max_lat := Z.max (max_lat rectangle) (Z.max (lat projected_u) (lat projected_v)) |};
     objects := set_at (objects current_leaf) object_index object |}.

(** [for (object_index = 0; object_index < LEAF_NODE_SIZE &&
    wrapped_element_index < size; ++object_index, ++wrapped_element_index)];
    [n] counts the turns left before [object_index] reaches the capacity,
    [objs] are the elements from [wrapped_element_index] on. *)
Fixpoint fill_leaf (n : nat) (object_index : Z) (current_leaf : LeafNode)
         (objs : list EdgeData) : LeafNode * list EdgeData :=
  match n, objs with
  | S n', object :: rest =>
      fill_leaf n' (object_index + 1) (leaf_add current_leaf object_index object) rest
  | _, _ => (current_leaf, objs)
  end.

(** [for (leaf_index = 0; leaf_index < BRANCHING_FACTOR &&
    wrapped_element_index < size; ++leaf_index)]. *)
Fixpoint fill_node (n : nat) (node_index leaf_index : Z) (current_node : TreeNode)
         (objs : list EdgeData) (leaf_node_file : list LeafNode)
  : TreeNode * list EdgeData * list LeafNode :=
  match n, objs with
  | S n', _ :: _ =>
      let '(current_leaf, rest) :=
        fill_leaf (Z.to_nat LEAF_NODE_SIZE_) 0 (LeafNode_default LEAF_NODE_SIZE_) objs in
      let current_node' :=
        {| child_count := child_count current_node + 1;
           minimum_bounding_rectangle :=
             Rectangle.MergeBoundingBoxes
               (minimum_bounding_rectangle current_node)
               (leaf_minimum_bounding_rectangle current_leaf);
           children :=
             set_at (children current_node) leaf_index
               (mkTreeIndex ((node_index * BRANCHING_FACTOR + leaf_index) mod UINT32_MOD)
                            true) |} in
      fill_node n' node_index (leaf_index + 1) current_node' rest
                (leaf_node_file ++ [current_leaf])
  | _, _ => (current_node, objs, leaf_node_file)
  end.

(** [for (node_index = 0; wrapped_element_index < size; ++node_index)]:
    the leaf file and the nodes above the leaves. *)
Fixpoint pack_leaves (fuel : nat) (node_index : Z) (objs : list EdgeData)
         (leaf_node_file : list LeafNode) (tree_nodes_in_level : list TreeNode)
  : option (list LeafNode * list TreeNode) :=
  match objs with
  | [] => Some (leaf_node_file, tree_nodes_in_level)
  | _ :: _ =>
      match fuel with
      | O => None
      | S fuel' =>
          let '(current_node, rest, leaf_node_file') :=
            fill_node (Z.to_nat BRANCHING_FACTOR) node_index 0
                      (TreeNode_default BRANCHING_FACTOR) objs leaf_node_file in
          pack_leaves fuel' ((node_index + 1) mod UINT32_MOD) rest leaf_node_file'
                      (tree_nodes_in_level ++ [current_node])
      end
  end.

(** *** Packing one level into the next *)

(** [for (current_child_node_index = 0; current_child_node_index <
    BRANCHING_FACTOR; ++current_child_node_index)] with its guard
    [processed_tree_nodes_in_level < tree_nodes_in_level.size()];
    [level_rest] are the nodes from [processed_tree_nodes_in_level] on. *)
Fixpoint fill_parent (n : nat) (current_child_node_index : Z) (parent_node : TreeNode)
         (level_rest : list TreeNode) (search_tree : list TreeNode)
  : TreeNode * list TreeNode * list TreeNode :=
  match n with
  | O => (parent_node, level_rest, search_tree)
  | S n' =>
      match level_rest with
      | [] => fill_parent n' (current_child_node_index + 1) parent_node [] search_tree
      | current_child_node :: rest =>
          let parent_node' :=
            {| child_count := child_count parent_node + 1;
               minimum_bounding_rectangle :=
                 Rectangle.MergeBoundingBoxes
                   (minimum_bounding_rectangle parent_node)
                   (minimum_bounding_rectangle current_child_node);
               children :=
                 set_at (children parent_node) current_child_node_index
                        (mkTreeIndex (Z.of_nat (length search_tree)) false) |} in
          fill_parent n' (current_child_node_index + 1) parent_node' rest
                      (search_tree ++ [current_child_node])
      end
  end.

(** [while (processed_tree_nodes_in_level < tree_nodes_in_level.size())]. *)
Fixpoint pack_level (fuel : nat) (level_rest : list TreeNode)
         (search_tree : list TreeNode) (tree_nodes_in_next_level : list TreeNode)
  : option (list TreeNode * list TreeNode) :=
  match level_rest with
  | [] => Some (search_tree, tree_nodes_in_next_level)
  | _ :: _ =>
      match fuel with
      | O => None
      | S fuel' =>
          let '(parent_node, rest, search_tree') :=
            fill_parent (Z.to_nat BRANCHING_FACTOR) 0
                        (TreeNode_default BRANCHING_FACTOR) level_rest search_tree in
          pack_level fuel' rest search_tree' (tree_nodes_in_next_level ++ [parent_node])
      end
  end.

(** [while (1 < tree_nodes_in_level.size())]; [prepare] is what a packer
    does to the level before it is packed (nothing for Hilbert, the two
    sorts for STR). *)
Fixpoint pack_levels (prepare : list TreeNode -> list TreeNode) (fuel : nat)
         (tree_nodes_in_level : list TreeNode) (search_tree : list TreeNode)
  : option (list TreeNode * list TreeNode) :=
  if (1 <? Z.of_nat (length tree_nodes_in_level)) then
    match fuel with
    | O => None
    | S fuel' =>
        let level := prepare tree_nodes_in_level in
        match pack_level (length level) level search_tree [] with
        | None => None
        | Some (search_tree', tree_nodes_in_next_level) =>
            pack_levels prepare fuel' tree_nodes_in_next_level search_tree'
        end
    end
  else Some (tree_nodes_in_level, search_tree).

(** *** Reverse and renumber *)

(** The inner loop of the renumbering: every child that is not a leaf
    gets [new_id = search_tree_size - old_id - 1]. *)
Definition renumber_node (search_tree_size : Z) (current_tree_node : TreeNode) : TreeNode :=
  {| child_count := child_count current_tree_node;
     minimum_bounding_rectangle := minimum_bounding_rectangle current_tree_node;
     children :=
       fold_left
         (fun cs j =>
            let c := at_ TreeIndex_default cs j in
            if negb (is_leaf c) then
              let old_id := index c in
              let new_id := (search_tree_size - old_id - 1) mod UINT32_MOD in
              set_at cs j {| index := new_id mod 2147483648; is_leaf := is_leaf c |}
            else cs)
         (irange (child_count current_tree_node))
         (children current_tree_node) |}.

(** The root is stored last, then the array is reversed and renumbered. *)
Definition finalize_tree (tree_nodes_in_level search_tree : list TreeNode) : list TreeNode :=
  let search_tree1 := search_tree ++ [at_ (TreeNode_default 0) tree_nodes_in_level 0] in
  let search_tree2 := rev search_tree1 in
  let search_tree_size := Z.of_nat (length search_tree2) mod UINT32_MOD in
  map (renumber_node search_tree_size) search_tree2.

(** The part of both packers after the order of the objects is fixed. *)
Definition pack_sorted (prepare : list TreeNode -> list TreeNode)
           (objs : list EdgeData) : option StaticRTree :=
  match pack_leaves (length objs) 0 objs [] [] with
  | None => None
  | Some (leaf_node_file, tree_nodes_in_level) =>
      match pack_levels prepare (length tree_nodes_in_level) tree_nodes_in_level [] with
      | None => None
      | Some (tree_nodes_in_level', search_tree) =>
          Some {| m_search_tree := finalize_tree tree_nodes_in_level' search_tree;
                  m_leaves := leaf_node_file;
                  m_coordinate_list := m_coordinate_list_ |}
      end
  end.

(** *** PackWithHilbert *)

(** The Hilbert value of an edge: the code of its centroid with the
    latitude in Mercator. *)
Definition hilbert_value_of (current_element : EdgeData) : Z :=
  let current_centroid := edge_centroid current_element in
  GetHilbertCode {| lon := lon current_centroid; lat := latToY (lat current_centroid) |}.

Definition input_wrapper_vector (input_data_vector : list EdgeData)
  : list HilbertInputElement :=
  map (fun element_counter =>
         {| m_hilbert_value :=
              hilbert_value_of (at_ EdgeData_default input_data_vector element_counter);
            m_array_index := element_counter mod UINT32_MOD |})
      (irange (Z.of_nat (length input_data_vector))).

Definition hilbert_order (input_data_vector : list EdgeData) : list EdgeData :=
  map (fun w => at_ EdgeData_default input_data_vector (m_array_index w))
      (sort _ HilbertInputElement_lt (input_wrapper_vector input_data_vector)).

Definition PackWithHilbert (input_data_vector : list EdgeData) : option StaticRTree :=
  pack_sorted (fun level => level) (hilbert_order input_data_vector).

(** *** PackWithSTR *)

(** Sort each slice that [parallel_for] hands out. *)
Definition sort_slices {A} (lt : A -> A -> bool) (grainsize : Z) (l : list A) : list A :=
  fold_left (fun acc r => sort_range (sort A lt) acc (fst r) (snd r))
            (blocked_ranges (Z.of_nat (length l)) grainsize) l.

Definition str_order (input_data_vector : list EdgeData) : list EdgeData :=
  let copy := sort _ longitude_compare input_data_vector in
  let leaf_K := Z.sqrt (Z.of_nat (length copy) / LEAF_NODE_SIZE_) in
  sort_slices latitude_compare leaf_K copy.

Definition str_prepare (tree_nodes_in_level : list TreeNode) : list TreeNode :=
  let by_lon :=
    sort _ (fun a b => lon (Rectangle.Centroid (minimum_bounding_rectangle a))
                       <? lon (Rectangle.Centroid (minimum_bounding_rectangle b)))
         tree_nodes_in_level in
  let tree_K := Z.sqrt (Z.of_nat (length by_lon) / BRANCHING_FACTOR) in
  sort_slices (fun a b => lat (Rectangle.Centroid (minimum_bounding_rectangle a))
                          <? lat (Rectangle.Centroid (minimum_bounding_rectangle b)))
              tree_K by_lon.

Definition PackWithSTR (input_data_vector : list EdgeData) : option StaticRTree :=
  pack_sorted str_prepare (str_order input_data_vector).

End Packers.

(* ------------------------------------------------------------------ *)
(** ** PackWithOMT *)

Record Range := mkRange { parent : Z; left : Z; right : Z; height : Z }.

(** The variables of [PackWithOMT] that its loop changes. *)
Record OMTState := mkOMTState
  { o_leaves : list EdgeData;
    o_queue : list Range;
    o_search_tree : list TreeNode;
    o_leaf_node_file : list LeafNode;
    o_leaf_node_count : Z }.

Section OMT.

Variable BRANCHING_FACTOR : Z.
Variable LEAF_NODE_SIZE_ : Z.
Variable latToY : Z -> Z.
Variable centroid : Coordinate -> Coordinate -> Coordinate.
Variable sort : forall A : Type, (A -> A -> bool) -> list A -> list A.
Variable m_coordinate_list_ : list Coordinate.

(** The three floating-point expressions of the packer:
    [std::ceil (std::log (N) / std::log (M))],
    [std::ceil (N / std::pow (M, e))] and [std::ceil (std::sqrt (M))]. *)
Variable ceil_log_ratio : Z -> Z -> Z.
Variable ceil_div_pow : Z -> Z -> Z -> Z.
Variable ceil_sqrt : Z -> Z.

(** The leaf of a range: [object_count = N - 1], the objects copied from
    [leaves.begin () + r.left] up to [leaves.begin () + r.right], and
    the rectangle grown over the first [object_count] objects. *)
Definition omt_leaf (leaves : list EdgeData) (r : Range) : LeafNode :=
  let N := right r - left r + 1 in
  let copied := firstn (Z.to_nat (right r) - Z.to_nat (left r))
                       (skipn (Z.to_nat (left r)) leaves) in
  let objects0 :=
    copied ++ skipn (length copied) (repeat EdgeData_default (Z.to_nat LEAF_NODE_SIZE_)) in
  let count := (N - 1) mod UINT32_MOD in
  {| object_count := count;
     leaf_minimum_bounding_rectangle :=
       fold_left
         (fun rect edge =>
            let projected_u := fromWGS84 latToY (coord_at m_coordinate_list_ (u edge)) in
            let projected_v := fromWGS84 latToY (coord_at m_coordinate_list_ (v edge)) in
            Rectangle.Extend
              (Rectangle.Extend rect (lon projected_u) (lat projected_u))
              (lon projected_v) (lat projected_v))
         (firstn (Z.to_nat count) objects0)
         Rectangle.empty;
     objects := objects0 |}.

(** [m_search_tree[p].children[child_count] = {index, is_leaf};
    ++child_count], with the rectangle of the parent grown by [grow]
    when the child is a leaf.  Undefined, hence [None], when [p] is not
    a node of the tree or the child array is full. *)
Definition omt_attach (search_tree : list TreeNode) (p : Z) (child_index : Z)
           (leaf : bool) (grow : option RectangleInt2D) : option (list TreeNode) :=
  if (0 <=? p) && (p <? Z.of_nat (length search_tree)) then
    let n := at_ (TreeNode_default 0) search_tree p in
    if (0 <=? child_count n) && (child_count n <? BRANCHING_FACTOR) then
      Some (set_at search_tree p
              {| child_count := child_count n + 1;
                 minimum_bounding_rectangle :=
                   match grow with
                   | Some rect =>
                       Rectangle.MergeBoundingBoxes (minimum_bounding_rectangle n) rect
                   | None => minimum_bounding_rectangle n
                   end;
                 children :=
                   set_at (children n) (child_count n)
                          {| index := child_index mod 2147483648; is_leaf := leaf |} |})
    else None
  else None.

(** [for (auto j = i; j <= right2; j += N2)]: the ranges it enqueues. *)
Fixpoint omt_groups (fuel : nat) (N2 j right2 parent_ height_ : Z) : option (list Range) :=
  if j <=? right2 then
    match fuel with
    | O => None
    | S fuel' =>
        let right3 := Z.min (j + N2 - 1) right2 in
        match omt_groups fuel' N2 (j + N2) right2 parent_ height_ with
        | Some rs =>
            Some ({| parent := parent_; left := j; right := right3; height := height_ |} :: rs)
        | None => None
        end
    end
  else Some [].

(** [for (auto i = r.left; i < r.right; i += N1)]. *)
Fixpoint omt_slabs (fuel : nat) (N1 N2 i right_ parent_ height_ : Z)
         (leaves : list EdgeData) (queue : list Range)
  : option (list EdgeData * list Range) :=
  if i <? right_ then
    match fuel with
    | O => None
    | S fuel' =>
        let right2 := Z.min (i + N1 - 1) right_ in
        let leaves' :=
          sort_range (sort _ (latitude_compare centroid m_coordinate_list_))
                     leaves i right2 in
        match omt_groups (S (Z.to_nat (right2 - i))) N2 i right2 parent_ height_ with
        | Some rs =>
            omt_slabs fuel' N1 N2 (i + N1) right_ parent_ height_ leaves' (queue ++ rs)
        | None => None
        end
    end
  else Some (leaves, queue).

(** One turn of [while (!queue.empty ())], for the range [r] at the
    front and the rest [queue] of the queue. *)
Definition OMT_step (s : OMTState) (r : Range) (queue : list Range) : option OMTState :=
  let N := right r - left r + 1 in
  let M := BRANCHING_FACTOR in
  if N <=? M then
    (* We're processing a leaf *)
    if N - 1 <=? LEAF_NODE_SIZE_ then
      let current_leaf := omt_leaf (o_leaves s) r in
      match omt_attach (o_search_tree s) (parent r) (o_leaf_node_count s) true
                       (Some (leaf_minimum_bounding_rectangle current_leaf)) with
      | Some search_tree' =>
          Some {| o_leaves := o_leaves s;
                  o_queue := queue;
                  o_search_tree := search_tree';
                  o_leaf_node_file := o_leaf_node_file s ++ [current_leaf];
                  o_leaf_node_count := o_leaf_node_count s + 1 |}
      | None => None
      end
    else None
  else
    let search_tree1 := o_search_tree s ++ [TreeNode_default BRANCHING_FACTOR] in
    let here := Z.of_nat (length search_tree1) - 1 in
    let '(height1, M1, attached) :=
      if height r =? 0 then
        let h := ceil_log_ratio N M in
        (h, ceil_div_pow N M (h - 1) mod UINT32_MOD, Some search_tree1)
      else
        (height r, M, omt_attach search_tree1 (parent r) here false None) in
    match attached with
    | None => None
    | Some search_tree2 =>
        if M1 =? 0 then None
        else
          let N2 := N / M1 in
          let N1 := N2 * ceil_sqrt M1 in
          let leaves1 :=
            sort_range (sort _ (longitude_compare centroid m_coordinate_list_))
                       (o_leaves s) (left r) (right r) in
          match omt_slabs (S (Z.to_nat (right r - left r))) N1 N2 (left r) (right r)
                          here (height1 - 1) leaves1 queue with
          | Some (leaves2, queue') =>
              Some {| o_leaves := leaves2;
                      o_queue := queue';
                      o_search_tree := search_tree2;
                      o_leaf_node_file := o_leaf_node_file s;
                      o_leaf_node_count := o_leaf_node_count s |}
          | None => None
          end
    end.

Fixpoint OMT_loop (fuel : nat) (s : OMTState) : option OMTState :=
  match o_queue s with
  | [] => Some s
  | r :: queue =>
      match fuel with
      | O => None
      | S fuel' =>
          match OMT_step s r queue with
          | Some s' => OMT_loop fuel' s'
          | None => None
          end
      end
  end.

(** The pass over the nodes in reverse: the body for the node at [k]. *)
Definition omt_propagate_node (search_tree : option (list TreeNode)) (k : Z)
  : option (list TreeNode) :=
  match search_tree with
  | None => None
  | Some tree =>
      let n := at_ (TreeNode_default 0) tree k in
      if (child_count n =? 0) || is_leaf (child_at n 0) then Some tree
      else
        fold_left
          (fun acc i =>
             match acc with
             | None => None
             | Some tree' =>
                 let n' := at_ (TreeNode_default 0) tree' k in
                 let c := index (child_at n' i) in
                 if c <? Z.of_nat (length tree') then
                   Some (set_at tree' k
                           {| child_count := child_count n';
                              minimum_bounding_rectangle :=
                                Rectangle.MergeBoundingBoxes
                                  (minimum_bounding_rectangle n')
                                  (minimum_bounding_rectangle
                                     (at_ (TreeNode_default 0) tree' c));
                              children := children n' |})
                 else None
             end)
          (irange (child_count n))
          (Some tree)
  end.

Definition omt_propagate (search_tree : list TreeNode) : option (list TreeNode) :=
  fold_left omt_propagate_node (rev (irange (Z.of_nat (length search_tree))))
            (Some search_tree).

Definition OMT_init (input_data_vector : list EdgeData) : OMTState :=
  {| o_leaves := input_data_vector;
     o_queue := [ {| parent := 0; left := 0;
                     right := Z.of_nat (length input_data_vector); height := 0 |} ];
     o_search_tree := [];
     o_leaf_node_file := [];
     o_leaf_node_count := 0 |}.

(** The node array and the leaf file that the packer writes. *)
Definition PackWithOMT (fuel : nat) (input_data_vector : list EdgeData)
  : option (list TreeNode * list LeafNode) :=
  match OMT_loop fuel (OMT_init input_data_vector) with
  | None => None
  | Some s =>
      match omt_propagate (o_search_tree s) with
      | None => None
      | Some search_tree => Some (search_tree, o_leaf_node_file s)
      end
  end.

End OMT.

(* ------------------------------------------------------------------ *)
(** ** Mapping the leaf file *)

(** What [MapLeafNodesFile] finds on disk: [None] when
    [mapped_file_source::open] throws, the bytes of the file otherwise. *)
Definition LeafFile := option (list Z).

Inductive MapResult :=
| MapException : MapResult
| Mapped (num_leaves : Z) (region : list Z) : MapResult.

(** [num_leaves = m_leaves_region.size () / sizeof (LeafNode)] and
    [m_leaves.reset (data_ptr, num_leaves)]: the view spans the first
    [num_leaves] pages of the region. *)
Definition MapLeafNodesFile (sizeof_LeafNode : Z) (leaf_file : LeafFile) : MapResult :=
  match leaf_file with
  | None => MapException
  | Some bytes =>
      let num_leaves := Z.of_nat (length bytes) / sizeof_LeafNode in
      Mapped num_leaves (firstn (Z.to_nat (num_leaves * sizeof_LeafNode)) bytes)
  end.

(* ------------------------------------------------------------------ *)
(** ** Well-formed indexes *)

(** The box spanned by the two end points of a segment. *)
Definition segment_box (a b : Coordinate) : RectangleInt2D :=
  {| min_lon := Z.min (lon a) (lon b); max_lon := Z.max (lon a) (lon b);
     min_lat := Z.min (lat a) (lat b); max_lat := Z.max (lat a) (lat b) |}.

Section WellFormed.

Variable latToY : Z -> Z.

(** The rectangle of a leaf covers the projected end points of its
    first [object_count] edges; the count is a [uint32] within the
    array. *)
Definition leaf_covers (cs : list Coordinate) (l : LeafNode) : bool :=
  (0 <=? object_count l) && (object_count l <=? Z.of_nat (length (objects l)))
  && (object_count l <=? UINT32_MAX)
  && forallb
       (fun i =>
          let e := object_at l i in
          Rectangle.Contains (leaf_minimum_bounding_rectangle l)
                             (fromWGS84 latToY (coord_at cs (u e)))
          && Rectangle.Contains (leaf_minimum_bounding_rectangle l)
                                (fromWGS84 latToY (coord_at cs (v e))))
       (irange (object_count l)).

(** A child entry of the node at [k]: it names an existing leaf, or a
    node further down the array, with a valid rectangle inside the
    rectangle of the node. *)
Definition child_ok (t : StaticRTree) (k : Z) (c : TreeIndex) : bool :=
  let r := child_rectangle t c in
  (if is_leaf c
   then (0 <=? index c) && (index c <? Z.of_nat (length (m_leaves t)))
   else (k <? index c) && (index c <? Z.of_nat (length (m_search_tree t))))
  && Rectangle.IsValid r
  && Rectangle.inside r (minimum_bounding_rectangle (node_at t k)).

Definition node_ok (t : StaticRTree) (k : Z) : bool :=
  let n := node_at t k in
  (0 <=? child_count n) && (child_count n <=? Z.of_nat (length (children n)))
  && forallb (fun i => child_ok t k (child_at n i)) (irange (child_count n)).

(** Every leaf and every node but the root is the child of a node. *)
Definition has_child (t : StaticRTree) (c : TreeIndex) : bool :=
  existsb
    (fun k =>
       let n := node_at t k in
       existsb (fun i => (index (child_at n i) =? index c)
                         && Bool.eqb (is_leaf (child_at n i)) (is_leaf c))
               (irange (child_count n)))
    (irange (Z.of_nat (length (m_search_tree t)))).

Definition all_linked (t : StaticRTree) : bool :=
  forallb (fun l => has_child t {| index := l; is_leaf := true |})
          (irange (Z.of_nat (length (m_leaves t))))
  && forallb (fun k => (k =? 0) || has_child t {| index := k; is_leaf := false |})
             (irange (Z.of_nat (length (m_search_tree t)))).

Definition index_ok (t : StaticRTree) : bool :=
  (0 <? Z.of_nat (length (m_search_tree t)))
  && forallb (node_ok t) (irange (Z.of_nat (length (m_search_tree t))))
  && forallb (leaf_covers (m_coordinate_list t)) (m_leaves t).

End WellFormed.

(** The clamped foot lies on the segment, hence in the box that the
    projected end points span. *)
Definition foot_on_segment (latToY : Z -> Z)
           (nearest_on_segment : Coordinate -> Coordinate -> Coordinate -> Coordinate)
  : Prop :=
  forall cu cv q,
    Rectangle.Contains (segment_box (fromWGS84 latToY cu) (fromWGS84 latToY cv))
                       (nearest_on_segment cu cv q) = true.

(** The weight of an entry bounds the number of loop turns that it and
    everything below it can still take: a leaf with its objects, a node
    with its children.  [depth] bounds the recursion; the array length is
    enough when children lie further down the array. *)
Fixpoint weight (depth : nat) (t : StaticRTree) (c : TreeIndex) : nat :=
  if is_leaf c then S (Z.to_nat (object_count (leaf_at t (index c))))
  else
    match depth with
    | O => 1%nat
    | S depth' =>
        S (fold_left (fun acc i => (acc + weight depth' t (child_at (node_at t (index c)) i))%nat)
                     (irange (child_count (node_at t (index c))))
                     0%nat)
    end.

(* ------------------------------------------------------------------ *)
(** ** Reference instances of the library routines *)

(** Insertion sort, one routine that meets the contract of [std::sort]. *)
Fixpoint insert_sorted {A} (lt : A -> A -> bool) (x : A) (l : list A) : list A :=
  match l with
  | [] => [x]
  | y :: l' => if lt y x then y :: insert_sorted lt x l' else x :: l
  end.

Fixpoint insertion_sort (A : Type) (lt : A -> A -> bool) (l : list A) : list A :=
  match l with
  | [] => []
  | x :: l' => insert_sorted lt x (insertion_sort A lt l')
  end.

(** [parallel_for] that runs the whole range as one slice. *)
Definition one_range (size grainsize : Z) : list (Z * Z) := [(0, size)].

(** Modelled from the spec: [coordinate_calculation::centroid], "the
    centroid of its two endpoints". *)
Definition midpoint (a b : Coordinate) : Coordinate :=
  {| lon := (lon a + lon b) / 2; lat := (lat a + lat b) / 2 |}.

(** Modelled from the spec: [projectPointOnSegment (a, b, p)] "returns the
    foot of perpendicular from p onto segment a-b, clamped to the segment.
    It must handle the degenerate a == b case (return a)."  The foot is
    computed exactly and rounded down to the fixed-point grid. *)
Definition projectPointOnSegment (a b p : Coordinate) : Coordinate :=
  let dx := lon b - lon a in
  let dy := lat b - lat a in
  let unnormed_ratio := dx * (lon p - lon a) + dy * (lat p - lat a) in
  let squared_length := dx * dx + dy * dy in
  if squared_length =? 0 then a
  else if unnormed_ratio <=? 0 then a
  else if squared_length <=? unnormed_ratio then b
  else {| lon := lon a + (dx * unnormed_ratio) / squared_length;
          lat := lat a + (dy * unnormed_ratio) / squared_length |}.

Definition nearest_on_segment_exact (latToY : Z -> Z) (cu cv q : Coordinate) : Coordinate :=
  projectPointOnSegment (fromWGS84 latToY cu) (fromWGS84 latToY cv) (fromWGS84 latToY q).

(** The three expressions of the OMT packer in exact arithmetic. *)
Fixpoint ceil_log_from (fuel : nat) (N M h p : Z) : Z :=
  match fuel with
  | O => h
  | S fuel' => if p <? N then ceil_log_from fuel' N M (h + 1) (p * M) else h
  end.

Definition ceil_log_ratio_exact (N M : Z) : Z := ceil_log_from 64 N M 0 1.

Definition ceil_div_pow_exact (N M e : Z) : Z := (N + M ^ e - 1) / (M ^ e).

Definition ceil_sqrt_exact (M : Z) : Z :=
  if Z.sqrt M * Z.sqrt M =? M then Z.sqrt M else Z.sqrt M + 1.

(* ------------------------------------------------------------------ *)
(** ** A small network: the unit square *)

Module UnitSquare.

(** The four corners (0,0), (1,0), (0,1), (1,1) in degrees. *)
Definition coordinates : list Coordinate :=
  [ {| lon := 0; lat := 0 |}; {| lon := 1000000; lat := 0 |};
    {| lon := 0; lat := 1000000 |}; {| lon := 1000000; lat := 1000000 |} ].

Definition edge (a b k : Z) (fwd : bool) : EdgeData :=
  {| u := a; v := b;
     forward_segment_id := {| id := k; enabled := fwd |};
     reverse_segment_id := {| id := k; enabled := true |} |}.

(** Bottom, top, left and right side; the right side has its forward
    direction disabled. *)
Definition edges : list EdgeData :=
  [ edge 0 1 0 true; edge 2 3 1 true; edge 0 2 2 true; edge 1 3 3 false ].

(** A stand-in for the Mercator map and for the Hilbert code. *)
Definition latToY (y : Z) : Z := y.
Definition GetHilbertCode (c : Coordinate) : Z := 2 * lat c + lon c.

Definition hilbert : option StaticRTree :=
  PackWithHilbert 4 2 latToY midpoint GetHilbertCode insertion_sort coordinates edges.

Definition str : option StaticRTree :=
  PackWithSTR 4 2 latToY midpoint insertion_sort one_range coordinates edges.

Definition tree : StaticRTree :=
  match hilbert with
  | Some t => t
  | None => {| m_search_tree := []; m_leaves := []; m_coordinate_list := [] |}
  end.

(** The same network packed two leaves to a node, which gives a tree
    of three levels. *)
Definition deep_tree : StaticRTree :=
  match PackWithHilbert 2 1 latToY midpoint GetHilbertCode insertion_sort
                        coordinates edges with
  | Some t => t
  | None => {| m_search_tree := []; m_leaves := []; m_coordinate_list := [] |}
  end.

End UnitSquare.

(** The objects that a leaf page holds: the first [object_count] ones. *)
Definition stored_objects (l : LeafNode) : list EdgeData :=
  firstn (Z.to_nat (object_count l)) (objects l).

(* ------------------------------------------------------------------ *)
(** ** A second network: a chain of 128 segments *)

Module Chain.

(** 129 points on a diagonal, a thousandth of a degree apart. *)
Definition coordinates : list Coordinate :=
  map (fun i => {| lon := 1000 * i; lat := 1000 * i |}) (irange 129).

(** Segment [i] joins point [i] to point [i + 1]. *)
Definition edges : list EdgeData :=
  map (fun i => {| u := i; v := i + 1;
                   forward_segment_id := {| id := i; enabled := true |};
                   reverse_segment_id := {| id := i; enabled := true |} |})
      (irange 128).

(** The OMT packer with the default branching factor 128 and a leaf
    capacity of 203 (20-byte edges in a 4096-byte page). *)
Definition omt : option (list TreeNode * list LeafNode) :=
  PackWithOMT 128 (LEAF_NODE_SIZE 4096 20) UnitSquare.latToY midpoint insertion_sort
              coordinates ceil_log_ratio_exact ceil_div_pow_exact ceil_sqrt_exact
              10 edges.

End Chain.

(* ------------------------------------------------------------------ *)
(** ** The turns of the [Nearest] loop, case by case *)

(** The state a turn leads to. *)
Definition after {S} (o : Outcome S) : S :=
  match o with Continue s => s | Return s => s end.

Section Turns.

Variable latToY : Z -> Z.
Variable nearest_on_segment : Coordinate -> Coordinate -> Coordinate -> Coordinate.

(** The entry that [ExploreLeafNode] pushes for the object at [i]. *)
Definition leaf_entry (t : StaticRTree) (leaf_id : TreeIndex)
         (p q : Coordinate) (i : Z) : QueryCandidate :=
let e := object_at (leaf_at t (index leaf_id)) i in
let foot := nearest_on_segment (coord_at (m_coordinate_list t) (u e))
                               (coord_at (m_coordinate_list t) (v e)) q in
QueryCandidate_segment (squaredEuclideanDistance p foot) leaf_id i foot.

(** The entry that [ExploreTreeNode] pushes for the child at [i]. *)
Definition node_entry (t : StaticRTree) (parent_id : TreeIndex)
         (p : Coordinate) (i : Z) : QueryCandidate :=
let child_id := child_at (node_at t (index parent_id)) i in
QueryCandidate_node (GetMinSquaredDist (child_rectangle t child_id) p) child_id.

(** What a turn does, case by case. *)
Inductive turn (q : Coordinate) (filter : FilterT) (terminate : TerminationT)
        (s : NearestState) : Outcome NearestState -> Prop :=
| turn_empty :
  n_queue s = [] -> turn q filter terminate s (Return s)
| turn_leaf x r :
  PQ.pop (n_queue s) = Some (x, r) -> is_segment x = false ->
  is_leaf (tree_index x) = true ->
  turn q filter terminate s
       (Continue {| n_index := n_index s;
                    n_queue := r ++ map (leaf_entry (n_index s) (tree_index x)
                                                    (fromWGS84 latToY q) q)
                                        (irange (object_count
                                                   (leaf_at (n_index s)
                                                            (index (tree_index x)))));
                    n_results := n_results s |})
| turn_node x r :
  PQ.pop (n_queue s) = Some (x, r) -> is_segment x = false ->
  is_leaf (tree_index x) = false ->
  turn q filter terminate s
       (Continue {| n_index := n_index s;
                    n_queue := r ++ map (node_entry (n_index s) (tree_index x)
                                                    (fromWGS84 latToY q))
                                        (irange (child_count
                                                   (node_at (n_index s)
                                                            (index (tree_index x)))));
                    n_results := n_results s |})
| turn_terminate x r :
  PQ.pop (n_queue s) = Some (x, r) -> is_segment x = true ->
  terminate (Z.of_nat (length (n_results s)))
            {| cs_fixed_projected_coordinate := fixed_projected_coordinate x;
               data := object_at (leaf_at (n_index s) (index (tree_index x)))
                                 (segment_index x) |} = true ->
  turn q filter terminate s
       (Return {| n_index := n_index s; n_queue := r; n_results := n_results s |})
| turn_discard x r :
  PQ.pop (n_queue s) = Some (x, r) -> is_segment x = true ->
  let c := {| cs_fixed_projected_coordinate := fixed_projected_coordinate x;
              data := object_at (leaf_at (n_index s) (index (tree_index x)))
                                (segment_index x) |} in
  terminate (Z.of_nat (length (n_results s))) c = false ->
  filter c = (false, false) ->
  turn q filter terminate s
       (Continue {| n_index := n_index s; n_queue := r; n_results := n_results s |})
| turn_admit x r :
  PQ.pop (n_queue s) = Some (x, r) -> is_segment x = true ->
  let c := {| cs_fixed_projected_coordinate := fixed_projected_coordinate x;
              data := object_at (leaf_at (n_index s) (index (tree_index x)))
                                (segment_index x) |} in
  terminate (Z.of_nat (length (n_results s))) c = false ->
  filter c <> (false, false) ->
  turn q filter terminate s
       (Continue {| n_index := n_index s; n_queue := r;
                    n_results := n_results s ++ [mask_enabled (data c) (filter c)] |}).

End Turns.

(* ------------------------------------------------------------------ *)
(** ** Measures and invariants of the two query loops *)

(** The depth that [weight] needs: the length of the node array. *)
Definition depth_of (t : StaticRTree) : nat := length (m_search_tree t).

Definition entry_weight (t : StaticRTree) (x : QueryCandidate) : nat :=
  if is_segment x then 1%nat else weight (depth_of t) t (tree_index x).

(** The turns that a queue of [Nearest] can still take. *)
Definition potential (t : StaticRTree) (q : list QueryCandidate) : nat :=
  list_sum (map (entry_weight t) q).

(** The turns that a queue of [SearchInBox] can still take. *)
Definition search_potential (t : StaticRTree) (q : list TreeIndex) : nat :=
  list_sum (map (weight (depth_of t) t) q).

(** A tree index that names an existing leaf or node. *)
Definition index_valid (t : StaticRTree) (c : TreeIndex) : Prop :=
  if is_leaf c
  then 0 <= index c < Z.of_nat (length (m_leaves t))
  else 0 <= index c < Z.of_nat (length (m_search_tree t)).

(** A queue entry is a segment of an existing leaf or names an existing
    leaf or node. *)
Definition entry_valid (t : StaticRTree) (x : QueryCandidate) : Prop :=
  if is_segment x
  then is_leaf (tree_index x) = true
       /\ 0 <= index (tree_index x) < Z.of_nat (length (m_leaves t))
       /\ 0 <= segment_index x < object_count (leaf_at t (index (tree_index x)))
  else index_valid t (tree_index x).

(** The invariant of the [Nearest] loop on the index [t]: the index is
    still [t] and the queue names existing leaves, nodes and segments. *)
Definition nearest_inv (t : StaticRTree) (s : NearestState) : Prop :=
  n_index s = t /\ Forall (entry_valid t) (n_queue s).

Section SortedInvariant.

Variable latToY : Z -> Z.
Variable nearest_on_segment : Coordinate -> Coordinate -> Coordinate -> Coordinate.
Variable t : StaticRTree.
Variable q : Coordinate.

(** The distance of a result to the query point. *)
Definition result_distance (e : EdgeData) : Z :=
segment_distance latToY nearest_on_segment (m_coordinate_list t) q e.

(** The key of a queue entry is what the loop computed for it: the
  distance of the segment, the lower bound of the rectangle, or 0 for
  the root. *)
Definition entry_key_ok (x : QueryCandidate) : Prop :=
if is_segment x
then squared_min_dist x
     = result_distance (object_at (leaf_at t (index (tree_index x))) (segment_index x))
else x = QueryCandidate_node 0 TreeIndex_default
     \/ (squared_min_dist x
         = GetMinSquaredDist (child_rectangle t (tree_index x)) (fromWGS84 latToY q)
         /\ Rectangle.IsValid (child_rectangle t (tree_index x)) = true).

(** Everything in the queue is at least [bound] away, everything in the
  results at most, and the results are in order. *)
Definition sorted_inv (s : NearestState) : Prop :=
nearest_inv t s
/\ exists bound,
    (forall x, In x (n_queue s) -> bound <= squared_min_dist x /\ entry_key_ok x)
    /\ StronglySorted (fun a b => result_distance a <= result_distance b) (n_results s)
    /\ (forall e, In e (n_results s) -> result_distance e <= bound).

End SortedInvariant.

(** A queue entry was built by one of the two constructors of
    [QueryCandidate], and [is_segment] tells which: node entries carry the
    sentinel, segment entries an index below the object count of their
    leaf, which is at most the leaf capacity [L], which is below the
    sentinel. *)
Definition entry_classified (L : Z) (t : StaticRTree) (x : QueryCandidate) : Prop :=
  (exists d c,
      x = QueryCandidate_node d c /\ segment_index x = UINT32_MAX /\ is_segment x = false)
  \/ (exists d c i p,
         x = QueryCandidate_segment d c i p
         /\ 0 <= i < object_count (leaf_at t (index c))
         /\ object_count (leaf_at t (index c)) <= L
         /\ L < UINT32_MAX
         /\ is_segment x = true).

(* ------------------------------------------------------------------ *)
(** ** Notions for the window search *)

(** The Mercator map keeps the order of latitudes. *)
Definition monotone (f : Z -> Z) : Prop := forall a b, a <= b -> f a <= f b.

(** [e] is one of the first [object_count] objects of a leaf page. *)
Definition stored (t : StaticRTree) (e : EdgeData) : Prop :=
  exists l i,
    0 <= l < Z.of_nat (length (m_leaves t))
    /\ 0 <= i < object_count (leaf_at t l)
    /\ e = object_at (leaf_at t l) i.

(** [route t pr c l]: the search goes from the entry [c] down to the leaf
    [l], every child on the way having a rectangle that meets [pr]. *)
Inductive route (t : StaticRTree) (pr : RectangleInt2D) : TreeIndex -> Z -> Prop :=
| route_leaf : forall c, is_leaf c = true -> route t pr c (index c)
| route_node : forall c i l,
    is_leaf c = false ->
    0 <= i < child_count (node_at t (index c)) ->
    Rectangle.Intersects (child_rectangle t (child_at (node_at t (index c)) i)) pr = true ->
    route t pr (child_at (node_at t (index c)) i) l ->
    route t pr c l.

(** The objects of a leaf whose rectangle meets the search rectangle, in
    the order of the leaf. *)
Definition leaf_matches (t : StaticRTree) (search_rectangle : RectangleInt2D) (l : Z)
  : list EdgeData :=
  map (object_at (leaf_at t l))
      (filter (fun i => Rectangle.Intersects
                          (edge_bbox (m_coordinate_list t) (object_at (leaf_at t l) i))
                          search_rectangle)
              (irange (object_count (leaf_at t l)))).

(** The invariant of the [SearchInBox] loop on the index [t]. *)
Definition search_inv (t : StaticRTree) (s : SearchState) : Prop :=
  s_index s = t /\ Forall (index_valid t) (s_queue s).

(* ------------------------------------------------------------------ *)
(** ** What the packers are to establish *)

(** The box of an edge in projected coordinates. *)
Definition projected_box (latToY : Z -> Z) (cs : list Coordinate) (e : EdgeData)
  : RectangleInt2D :=
  segment_box (fromWGS84 latToY (coord_at cs (u e))) (fromWGS84 latToY (coord_at cs (v e))).

(** The union of a list of rectangles. *)
Definition union_of (rs : list RectangleInt2D) : RectangleInt2D :=
  fold_left Rectangle.MergeBoundingBoxes rs Rectangle.empty.

(** The rectangle of a leaf is the union of the projected boxes of the
    edges it holds. *)
Definition leaf_exact (latToY : Z -> Z) (cs : list Coordinate) (l : LeafNode) : Prop :=
  leaf_minimum_bounding_rectangle l = union_of (map (projected_box latToY cs) (stored_objects l)).

(** The rectangle of a node is the union of the rectangles of its
    [child_count] children. *)
Definition node_exact (t : StaticRTree) (n : TreeNode) : Prop :=
  minimum_bounding_rectangle n
  = union_of (map (fun i => child_rectangle t (child_at n i)) (irange (child_count n))).

Definition mbr_exact (latToY : Z -> Z) (t : StaticRTree) : Prop :=
  (forall k, 0 <= k < Z.of_nat (length (m_search_tree t)) -> node_exact t (node_at t k))
  /\ (forall l, In l (m_leaves t) -> leaf_exact latToY (m_coordinate_list t) l).

(** A value of type [int32]. *)
Definition int32 (z : Z) : Prop := - 2147483648 <= z <= 2147483647.

(** The leaf that the Hilbert and STR packers make of the objects [es]:
    the count, the union of the boxes, the objects and the rest of the
    array as [LeafNode ()] left it. *)
Definition leaf_of (latToY : Z -> Z) (cs : list Coordinate) (L : Z) (es : list EdgeData)
  : LeafNode :=
  {| object_count := Z.of_nat (length es);
     leaf_minimum_bounding_rectangle := union_of (map (projected_box latToY cs) es);
     objects := es ++ repeat EdgeData_default (Z.to_nat L - length es) |}.

(** The next [n] runs of at most [sz] elements, and what is left. *)
Fixpoint take_chunks {A} (n sz : nat) (l : list A) : list (list A) * list A :=
  match n, l with
  | S n', _ :: _ =>
      let (cs, rest) := take_chunks n' sz (skipn sz l) in (firstn sz l :: cs, rest)
  | _, _ => ([], l)
  end.

(** The objects of each leaf, grouped by the node above the leaf. *)
Fixpoint group_leaves {A} (fuel B L : nat) (objs : list A) : list (list (list A)) :=
  match fuel, objs with
  | S fuel', _ :: _ =>
      let (cs, rest) := take_chunks B L objs in cs :: group_leaves fuel' B L rest
  | _, _ => []
  end.

Fixpoint number_from {A} (i : Z) (l : list A) : list (Z * A) :=
  match l with
  | [] => []
  | x :: l' => (i, x) :: number_from (i + 1) l'
  end.

(** The node that the Hilbert and STR packers put above the leaves [ls],
    as node number [node_index] of the level. *)
Definition node0_of (B : Z) (node_index : Z) (ls : list LeafNode) : TreeNode :=
  {| child_count := Z.of_nat (length ls);
     minimum_bounding_rectangle := union_of (map leaf_minimum_bounding_rectangle ls);
     children :=
       map (fun i => mkTreeIndex ((node_index * B + i) mod UINT32_MOD) true)
           (irange (Z.of_nat (length ls)))
       ++ repeat TreeIndex_default (Z.to_nat B - length ls) |}.

(** The parent that the level loop makes of the nodes [kids], which it
    stores in the node array from position [base] on. *)
Definition parent_of (B : Z) (base : Z) (kids : list TreeNode) : TreeNode :=
  {| child_count := Z.of_nat (length kids);
     minimum_bounding_rectangle := union_of (map minimum_bounding_rectangle kids);
     children :=
       map (fun i => mkTreeIndex (base + i) false) (irange (Z.of_nat (length kids)))
       ++ repeat TreeIndex_default (Z.to_nat B - length kids) |}.

(** The parents of a level, [B] nodes to a parent. *)
Fixpoint parents_of (fuel : nat) (B : Z) (base : Z) (level : list TreeNode) : list TreeNode :=
  match fuel, level with
  | S fuel', _ :: _ =>
      parent_of B base (firstn (Z.to_nat B) level)
      :: parents_of fuel' B (base + Z.of_nat (length (firstn (Z.to_nat B) level)))
                    (skipn (Z.to_nat B) level)
  | _, _ => []
  end.

(** What the library sort is relied on for: it permutes its input. *)
Definition sort_permutes (sort : forall A : Type, (A -> A -> bool) -> list A -> list A) : Prop :=
  forall (A : Type) (lt : A -> A -> bool) (l : list A), Permutation (sort A lt l) l.

(** A rectangle with [int32] components. *)
Definition rect32 (r : RectangleInt2D) : Prop :=
  int32 (min_lon r) /\ int32 (max_lon r) /\ int32 (min_lat r) /\ int32 (max_lat r).

(** A rectangle that holds a point and has [int32] components. *)
Definition proper (r : RectangleInt2D) : Prop :=
  Rectangle.IsValid r = true /\ rect32 r.

(* ------------------------------------------------------------------ *)
(** ** The node array before it is reversed *)

Section PreFinal.

Variable B : Z.
Variable lf : list LeafNode.
Variable cs : list Coordinate.

(** The index as it stands while the levels are packed. *)
Definition pre (st : list TreeNode) : StaticRTree :=
{| m_search_tree := st; m_leaves := lf; m_coordinate_list := cs |}.

(** A child entry names a leaf of the file or a node below [bound]. *)
Definition child_pre (bound : Z) (c : TreeIndex) : Prop :=
0 <= index c
/\ (if is_leaf c then index c < Z.of_nat (length lf) else index c < bound).

Definition node_pre (st : list TreeNode) (bound : Z) (n : TreeNode) : Prop :=
length (children n) = Z.to_nat B
/\ 1 <= child_count n <= B
/\ (forall i, 0 <= i < child_count n -> child_pre bound (child_at n i))
/\ node_exact (pre st) n
/\ proper (minimum_bounding_rectangle n).

(** The nodes stored so far have their children before them; the nodes
of the level at hand have theirs among the nodes stored so far. *)
Definition forest_pre (st level : list TreeNode) : Prop :=
(forall p, 0 <= p < Z.of_nat (length st) ->
       node_pre st p (at_ (TreeNode_default 0) st p))
/\ (forall n, In n level -> node_pre st (Z.of_nat (length st)) n).

Definition is_child_in (nodes : list TreeNode) (c : TreeIndex) : Prop :=
exists n i, In n nodes /\ 0 <= i < child_count n /\ child_at n i = c.

(** Every leaf and every node stored so far is the child of a node. *)
Definition linked_pre (st level : list TreeNode) : Prop :=
(forall g, 0 <= g < Z.of_nat (length lf) ->
       is_child_in (st ++ level) {| index := g; is_leaf := true |})
/\ (forall p, 0 <= p < Z.of_nat (length st) ->
          is_child_in (st ++ level) {| index := p; is_leaf := false |}).

End PreFinal.

(** Groups of at most [B], none empty, all full but the last. *)
Fixpoint regular {A} (B : nat) (G : list (list A)) : Prop :=
  match G with
  | [] => True
  | g :: G' =>
      g <> [] /\ (length g <= B)%nat /\ (G' <> [] -> length g = B) /\ regular B G'
  end.

(** What the renumbering does to one child entry. *)
Definition renumber_child (search_tree_size : Z) (c : TreeIndex) : TreeIndex :=
  if negb (is_leaf c)
  then {| index := ((search_tree_size - index c - 1) mod UINT32_MOD) mod 2147483648;
          is_leaf := is_leaf c |}
  else c.

(** The projected end points of an edge have [int32] components. *)
Definition edge_int32 (latToY : Z -> Z) (cs : list Coordinate) (e : EdgeData) : Prop :=
  int32 (lon (coord_at cs (u e))) /\ int32 (latToY (lat (coord_at cs (u e))))
  /\ int32 (lon (coord_at cs (v e))) /\ int32 (latToY (lat (coord_at cs (v e)))).

(** The edges that the leaves of a file hold. *)
Definition stored_edges (leaves : list LeafNode) : list EdgeData :=
  concat (map stored_objects leaves).

(* ------------------------------------------------------------------ *)
(** ** The state of the OMT packer while it runs *)

(** The number of objects that the packer counts for a range:
    [N = r.right - r.left + 1]. *)
Definition width (r : Range) : Z := right r - left r + 1.

Definition total_width (rs : list Range) : Z :=
  fold_right (fun r a => width r + a) 0 rs.

(** The ranges that a node of [N] objects puts on the queue, [q] objects
    to a range: all of [q] objects, or else [N] objects in all; and
    none larger than the first. *)
Definition groups_of (q N here h : Z) (rs : list Range) : Prop :=
  Forall (fun r => parent r = here /\ height r = h /\ width r <= q) rs
  /\ (Forall (fun r => width r = q) rs \/ total_width rs = N)
  /\ match rs with
     | [] => True
     | r0 :: rest => width r0 = q \/ rest = []
     end.

(** The kinds of the children of a node, leaf or not: first of the
    children attached so far, then of the ranges that wait on the
    queue.  After the first leaf come leaves only; below the root and
    with at most [B] children, all are of one kind. *)
Definition kinds_ok (B : Z) (is_root : bool) (l : list bool) : Prop :=
  match l with
  | [] => True
  | b :: rest =>
      (b = true -> Forall (fun b' => b' = true) rest)
      /\ (is_root = false -> Z.of_nat (length l) <= B -> b = false ->
          Forall (fun b' => b' = false) rest)
  end.

(** The rectangle of a node is the least one that holds the empty
    rectangle and the rectangles of the leaves among its children. *)
Definition joins (t : StaticRTree) (n : TreeNode) : Prop :=
  Rectangle.inside Rectangle.empty (minimum_bounding_rectangle n) = true
  /\ (forall i, 0 <= i < child_count n -> is_leaf (child_at n i) = true ->
                Rectangle.inside (child_rectangle t (child_at n i))
                                 (minimum_bounding_rectangle n) = true)
  /\ (forall X, Rectangle.inside Rectangle.empty X = true ->
                (forall i, 0 <= i < child_count n -> is_leaf (child_at n i) = true ->
                           Rectangle.inside (child_rectangle t (child_at n i)) X = true) ->
                Rectangle.inside (minimum_bounding_rectangle n) X = true).

Section OMTInvariant.

Variable BRANCHING_FACTOR : Z.
Variable latToY : Z -> Z.
Variable cs : list Coordinate.

(** The index as the packer has it at hand. *)
Definition omt_index (s : OMTState) : StaticRTree :=
{| m_search_tree := o_search_tree s;
 m_leaves := o_leaf_node_file s;
 m_coordinate_list := cs |}.

Definition omt_node (s : OMTState) (k : Z) : TreeNode :=
at_ (TreeNode_default 0) (o_search_tree s) k.

Definition kinds (s : OMTState) (k : Z) : list bool :=
map (fun i => is_leaf (child_at (omt_node s k) i)) (irange (child_count (omt_node s k)))
++ map (fun r => width r <=? BRANCHING_FACTOR)
 (filter (fun r => parent r =? k) (o_queue s)).

(** What every turn of the loop keeps, once the root is made. *)
Record omt_good (s : OMTState) : Prop := mk_omt_good
{ good_nonempty : 0 < Z.of_nat (length (o_search_tree s));
good_count : o_leaf_node_count s = Z.of_nat (length (o_leaf_node_file s));
good_shape :
forall k, 0 <= k < Z.of_nat (length (o_search_tree s)) ->
      length (children (omt_node s k)) = Z.to_nat BRANCHING_FACTOR
      /\ 0 <= child_count (omt_node s k) <= BRANCHING_FACTOR;
good_queue :
Forall (fun r => 0 <= parent r < Z.of_nat (length (o_search_tree s))
             /\ width r <= BRANCHING_FACTOR ^ height r)
   (o_queue s);
good_child :
forall k i, 0 <= k < Z.of_nat (length (o_search_tree s)) ->
        0 <= i < child_count (omt_node s k) ->
        let c := child_at (omt_node s k) i in
        0 <= index c
        /\ (if is_leaf c
            then index c < Z.of_nat (length (o_leaf_node_file s))
            else k < index c < Z.of_nat (length (o_search_tree s)));
good_joins :
forall k, 0 <= k < Z.of_nat (length (o_search_tree s)) ->
      joins (omt_index s) (omt_node s k);
good_linked :
forall k, 1 <= k < Z.of_nat (length (o_search_tree s)) ->
      exists p i, 0 <= p < k /\ 0 <= i < child_count (omt_node s p)
                  /\ child_at (omt_node s p) i = {| index := k; is_leaf := false |};
good_kinds :
forall k, 0 <= k < Z.of_nat (length (o_search_tree s)) ->
      kinds_ok BRANCHING_FACTOR (k =? 0) (kinds s k);
good_leaves : Forall (leaf_exact latToY cs) (o_leaf_node_file s) }.

End OMTInvariant.

(** The height [h] and the fan-out [M] that the packer computes for the
    root of [n] objects are not below the exact ones:
    [N <= M * B ^ (h - 1)] for [N = n + 1]. *)
Definition omt_root_fits (B : Z) (ceil_log_ratio : Z -> Z -> Z)
           (ceil_div_pow : Z -> Z -> Z -> Z) (n : Z) : Prop :=
  let N := n + 1 in
  let h := ceil_log_ratio N B in
  let M := ceil_div_pow N B (h - 1) mod UINT32_MOD in
  N <= M * B ^ (h - 1).

(** Where the pass over the nodes in reverse stands when it has done the
    nodes from [m] on: the nodes keep their children, those before [m]
    are as the loop left them in [T0], and those from [m] on have the
    union of the rectangles of their children. *)
Definition propagated (T0 : list TreeNode) (F : list LeafNode) (cs : list Coordinate)
           (m : Z) (T : list TreeNode) : Prop :=
  length T = length T0
  /\ (forall k, 0 <= k < Z.of_nat (length T0) ->
                child_count (at_ (TreeNode_default 0) T k)
                = child_count (at_ (TreeNode_default 0) T0 k)
                /\ children (at_ (TreeNode_default 0) T k)
                   = children (at_ (TreeNode_default 0) T0 k))
  /\ (forall k, 0 <= k < m ->
                at_ (TreeNode_default 0) T k = at_ (TreeNode_default 0) T0 k)
  /\ (forall k, m <= k < Z.of_nat (length T0) ->
                node_exact {| m_search_tree := T; m_leaves := F; m_coordinate_list := cs |}
                           (at_ (TreeNode_default 0) T k)).

(** A bound on the nodes and leaves written so far and still to come:
    a range of [w] objects on the queue stands for at most [2 * w - 1]
    of them. *)
Definition omt_weight (s : OMTState) : Z :=
  Z.of_nat (length (o_search_tree s)) + Z.of_nat (length (o_leaf_node_file s))
  + (2 * total_width (o_queue s) - Z.of_nat (length (o_queue s))).

Definition omt_bounded (bound : Z) (s : OMTState) : Prop :=
  Forall (fun r => 1 <= width r) (o_queue s) /\ omt_weight s <= bound.

(** [edge_int32] as a test. *)
Definition int32b (z : Z) : bool := (- 2147483648 <=? z) && (z <=? 2147483647).

Definition edge_int32b (latToY : Z -> Z) (cs : list Coordinate) (e : EdgeData) : bool :=
  int32b (lon (coord_at cs (u e))) && int32b (latToY (lat (coord_at cs (u e))))
  && int32b (lon (coord_at cs (v e))) && int32b (latToY (lat (coord_at cs (v e)))).

(* ------------------------------------------------------------------ *)
(** ** Notions for what [Nearest] returns *)

(** [reaches t c l]: the leaf [l] is the entry [c] or lies below it. *)
Inductive reaches (t : StaticRTree) : TreeIndex -> Z -> Prop :=
| reaches_leaf : forall c, is_leaf c = true -> reaches t c (index c)
| reaches_node : forall c i l,
    is_leaf c = false ->
    0 <= i < child_count (node_at t (index c)) ->
    reaches t (child_at (node_at t (index c)) i) l ->
    reaches t c l.

(** Object [i] of leaf [l] is one of the stored objects. *)
Definition position (t : StaticRTree) (l i : Z) : Prop :=
  0 <= l < Z.of_nat (length (m_leaves t)) /\ 0 <= i < object_count (leaf_at t l).

Section NearestResults.

Variable latToY : Z -> Z.
Variable nearest_on_segment : Coordinate -> Coordinate -> Coordinate -> Coordinate.
Variable t : StaticRTree.
Variable q : Coordinate.
Variable filter : FilterT.

(** The candidate that the loop hands to the filter and the terminator
  for object [i] of leaf [l]. *)
Definition candidate_at (l i : Z) : CandidateSegment :=
let e := object_at (leaf_at t l) i in
{| cs_fixed_projected_coordinate :=
     nearest_on_segment (coord_at (m_coordinate_list t) (u e))
                        (coord_at (m_coordinate_list t) (v e)) q;
   data := e |}.

(** The queue entry of object [i] of leaf [l]. *)
Definition segment_entry (l i : Z) : QueryCandidate :=
leaf_entry nearest_on_segment t {| index := l; is_leaf := true |}
           (fromWGS84 latToY q) q i.

(** What the loop appends for object [i] of leaf [l] when the filter
  lets it pass. *)
Definition result_at (l i : Z) : EdgeData :=
mask_enabled (object_at (leaf_at t l) i) (filter (candidate_at l i)).

(** The object has been dealt with: dropped by the filter or returned. *)
Definition settled (results : list EdgeData) (l i : Z) : Prop :=
filter (candidate_at l i) = (false, false) \/ In (result_at l i) results.

(** The object is still to come: its entry is in the queue, or an entry
  of a node or leaf above it. *)
Definition pending (queue : PQ.t) (l i : Z) : Prop :=
In (segment_entry l i) queue
\/ exists x, In x queue /\ is_segment x = false /\ reaches t (tree_index x) l.

(** The invariant of the loop: the order of [sorted_inv]; every segment
  entry of the queue is the entry of a stored object; every result
  comes from a stored object that the filter let pass; and every
  stored object is settled or pending. *)
Definition complete_inv (s : NearestState) : Prop :=
sorted_inv latToY nearest_on_segment t q s
/\ (forall x, In x (n_queue s) -> is_segment x = true ->
              exists l i, position t l i /\ x = segment_entry l i)
/\ (forall r, In r (n_results s) ->
              exists l i, position t l i
                          /\ filter (candidate_at l i) <> (false, false)
                          /\ r = result_at l i)
/\ (forall l i, position t l i -> settled (n_results s) l i \/ pending (n_queue s) l i).

End NearestResults.

(* ------------------------------------------------------------------ *)
(** ** Counting the objects of the OMT packer *)

(** The objects that the pages of a leaf file count. *)
Definition total_objects (leaves : list LeafNode) : Z :=
  fold_right Z.add 0 (map object_count leaves).

(** The objects in the pages written so far, and those that the ranges
    on the queue can still bring: a leaf of a range of [N] counts
    [N - 1] objects. *)
Definition omt_pending (s : OMTState) : Z :=
  total_objects (o_leaf_node_file s)
  + (total_width (o_queue s) - Z.of_nat (length (o_queue s))).

(** The packer falls short of [n] objects: it has lost one already, or
    a range on the queue is still to be split. *)
Definition omt_short (B n : Z) (s : OMTState) : Prop :=
  Forall (fun r => 1 <= width r) (o_queue s)
  /\ Forall (fun l => 0 <= object_count l) (o_leaf_node_file s)
  /\ (omt_pending s < n
      \/ (omt_pending s <= n /\ Exists (fun r => B < width r) (o_queue s))).

(* ------------------------------------------------------------------ *)
(** ** The shape of the node array *)

(** The child entries of a node, and of all nodes in the order of the
    array. *)
Definition node_slots (n : TreeNode) : list TreeIndex :=
  map (child_at n) (irange (child_count n)).

Definition child_slots (t : StaticRTree) : list TreeIndex :=
  flat_map node_slots (m_search_tree t).

(** The number of child entries of a list of nodes. *)
Definition total_children (nodes : list TreeNode) : Z :=
  fold_right Z.add 0 (map child_count nodes).

(** No leaf and no node is the child of two nodes, or twice the child of
    one. *)
Definition tree_shaped (t : StaticRTree) : Prop :=
  forall k i k' i',
    0 <= k < Z.of_nat (length (m_search_tree t)) ->
    0 <= i < child_count (node_at t k) ->
    0 <= k' < Z.of_nat (length (m_search_tree t)) ->
    0 <= i' < child_count (node_at t k') ->
    child_at (node_at t k) i = child_at (node_at t k') i' ->
    k = k' /\ i = i'.

(* ------------------------------------------------------------------ *)
(** ** The entries that [SearchInBox] has visited *)

(** A state of [SearchInBox] on the index [t] after it has popped the
    entries [visited]: no entry is visited or queued twice, every entry
    but the root is a child of a visited node, the results are the
    matches of the visited leaves in the order of the visits, and every
    leaf with a match is visited or lies on a route from a queued
    entry. *)
Definition search_visited (latToY : Z -> Z) (t : StaticRTree)
           (search_rectangle : RectangleInt2D) (visited : list TreeIndex)
           (s : SearchState) : Prop :=
  s_index s = t
  /\ NoDup (visited ++ s_queue s)
  /\ Forall (index_valid t) (visited ++ s_queue s)
  /\ (forall x, In x (visited ++ s_queue s) ->
                x = TreeIndex_default
                \/ exists c i, In c visited /\ is_leaf c = false
                               /\ 0 <= i < child_count (node_at t (index c))
                               /\ child_at (node_at t (index c)) i = x)
  /\ s_results s
     = flat_map (fun c => leaf_matches t search_rectangle (index c))
                (filter is_leaf visited)
  /\ (forall l, 0 <= l < Z.of_nat (length (m_leaves t)) ->
                leaf_matches t search_rectangle l <> [] ->
                In {| index := l; is_leaf := true |} visited
                \/ exists c, In c (s_queue s)
                             /\ route t (projected_rectangle latToY search_rectangle) c l).

(* ------------------------------------------------------------------ *)
(** ** The entries that [Nearest] has visited *)

(** The stored objects by leaf and place, in the order of the leaf
    file. *)
Definition all_positions (t : StaticRTree) : list (Z * Z) :=
  flat_map (fun l => map (pair l) (irange (object_count (leaf_at t l))))
           (irange (Z.of_nat (length (m_leaves t)))).

(** The leaves and nodes that wait in the queue, and the leaf and place
    of the segments that wait there. *)
Definition node_entries (queue : PQ.t) : list TreeIndex :=
  map tree_index (filter (fun x => negb (is_segment x)) queue).

Definition entry_position (x : QueryCandidate) : Z * Z :=
  (index (tree_index x), segment_index x).

Definition segment_positions (queue : PQ.t) : list (Z * Z) :=
  map entry_position (filter is_segment queue).

Section NearestVisits.

Variable latToY : Z -> Z.
Variable nearest_on_segment : Coordinate -> Coordinate -> Coordinate -> Coordinate.
Variable t : StaticRTree.
Variable q : Coordinate.
Variable use : FilterT.

(** The filter lets the object at [p] pass. *)
Definition passes (p : Z * Z) : bool :=
let use_segment := use (candidate_at nearest_on_segment t q (fst p) (snd p)) in
negb (negb (fst use_segment) && negb (snd use_segment)).

(** A state of [Nearest] on the index [t] after it has popped the leaves
  and nodes [visited] and the segments at [done]: no leaf or node is
  visited or queued twice and each but the root is a child of a
  visited node; no segment is popped or queued twice, and the segments
  popped or queued are those of the visited leaves; the results come
  from the popped segments that the filter let pass, in the order of
  the pops; every leaf is visited or lies below a queued entry. *)
Definition nearest_visited (visited : list TreeIndex) (done : list (Z * Z))
         (s : NearestState) : Prop :=
complete_inv latToY nearest_on_segment t q use s
/\ NoDup (visited ++ node_entries (n_queue s))
/\ (forall x, In x (visited ++ node_entries (n_queue s)) ->
              x = TreeIndex_default
              \/ exists c i, In c visited /\ is_leaf c = false
                             /\ 0 <= index c < Z.of_nat (length (m_search_tree t))
                             /\ 0 <= i < child_count (node_at t (index c))
                             /\ child_at (node_at t (index c)) i = x)
/\ NoDup (done ++ segment_positions (n_queue s))
/\ (forall l i, position t l i ->
                (In {| index := l; is_leaf := true |} visited
                 <-> In (l, i) (done ++ segment_positions (n_queue s))))
/\ (forall p, In p done -> position t (fst p) (snd p))
/\ n_results s
   = map (fun p => result_at nearest_on_segment t q use (fst p) (snd p))
         (filter passes done)
/\ (forall l, 0 <= l < Z.of_nat (length (m_leaves t)) ->
              In {| index := l; is_leaf := true |} visited
              \/ exists x, In x (n_queue s) /\ is_segment x = false
                           /\ reaches t (tree_index x) l).

End NearestVisits.

(** The candidate that [Nearest] makes of a stored edge: the edge and
    the foot of the perpendicular from the query point on it. *)
Definition candidate_of
           (nearest_on_segment : Coordinate -> Coordinate -> Coordinate -> Coordinate)
           (cs : list Coordinate) (input_coordinate : Coordinate) (e : EdgeData)
  : CandidateSegment :=
  {| cs_fixed_projected_coordinate :=
       nearest_on_segment (coord_at cs (u e)) (coord_at cs (v e)) input_coordinate;
     data := e |}.

(** [use_segment.first || use_segment.second]: the filter admits the
    candidate. *)
Definition admits (use : FilterT) (c : CandidateSegment) : bool :=
  negb (negb (fst (use c)) && negb (snd (use c))).

(* ------------------------------------------------------------------ *)
(** ** [grouped_partial_sort] *)

Section GroupedPartialSort.

Variable A : Type.

(** [std::partial_sort (first, middle, last, compare)] on the elements
  [range] of [first, last), with [m = middle - first]: the range as it
  is afterwards. *)
Variable partial_sort : (A -> A -> bool) -> list A -> Z -> list A.

(** [std::ceil (static_cast<double> (d) / n / 2.)]. *)
Variable ceil_half_ratio : Z -> Z -> Z.

(** The array, and the stack of iterators as offsets into the array,
  the top first. *)
Record GroupState := mkGroupState { g_data : list A; g_stack : list Z }.

(** One turn of [while (!stack.empty ())].  [None] where the source is
  undefined: [top] of an empty stack, [n = 0] (the quotient is not a
  number), and a [mid] outside the range handed to
  [std::partial_sort].  [std::distance (left, right) <= n] compares
  with the unsigned [n], so a negative distance is not below it. *)
Definition grouped_step (n : Z) (compare : A -> A -> bool) (s : GroupState)
: option (Outcome GroupState) :=
match g_stack s with
| [] => Some (Return s)
| [_] => None
| right_ :: left_ :: stack =>
    let distance := right_ - left_ in
    if (0 <=? distance) && (distance <=? n) then
      Some (Continue {| g_data := g_data s; g_stack := stack |})
    else if n =? 0 then None
    else
      let mid := left_ + ceil_half_ratio distance n * n in
      if (left_ <=? mid) && (mid <=? right_) then
        Some (Continue
                {| g_data :=
                     sort_range (fun range => partial_sort compare range (mid - left_))
                                (g_data s) left_ right_;
                   g_stack := right_ :: mid :: mid :: left_ :: stack |})
      else None
end.

Fixpoint grouped_loop (fuel : nat) (n : Z) (compare : A -> A -> bool) (s : GroupState)
: option GroupState :=
match fuel with
| O => None
| S fuel' =>
    match grouped_step n compare s with
    | None => None
    | Some (Return s') => Some s'
    | Some (Continue s') => grouped_loop fuel' n compare s'
    end
end.

(** [grouped_partial_sort (begin + left, begin + right, n, compare)] on
  the array [data]: the array as it is afterwards. *)
Definition grouped_partial_sort (fuel : nat) (data : list A) (left_ right_ n : Z)
         (compare : A -> A -> bool) : option (list A) :=
match grouped_loop fuel n compare {| g_data := data; g_stack := [right_; left_] |} with
| Some s => Some (g_data s)
| None => None
end.

End GroupedPartialSort.

Arguments g_data {A} _.
Arguments g_stack {A} _.

(** What [std::partial_sort] is relied on for: it rearranges the range,
    and afterwards no element from [middle] on is less than one before
    [middle]. *)
Definition partial_sort_ok {A} (partial_sort : (A -> A -> bool) -> list A -> Z -> list A)
           (compare : A -> A -> bool) : Prop :=
  forall range m,
    0 <= m <= Z.of_nat (length range) ->
    Permutation (partial_sort compare range m) range
    /\ forall d i j,
        0 <= i < m -> m <= j < Z.of_nat (length range) ->
        compare (at_ d (partial_sort compare range m) j)
                (at_ d (partial_sort compare range m) i) = false.

(** The ceiling of [d / (2 n)], which the floating-point expression
    gives as long as the quotient is exact enough. *)
Definition ceil_half_ratio_exact (d n : Z) : Z := (d + 2 * n - 1) / (2 * n).

(** A routine that meets the contract of [std::partial_sort]: sort the
    whole range. *)
Definition partial_sort_all {A} (compare : A -> A -> bool) (range : list A) (m : Z)
  : list A :=
  insertion_sort A compare range.

(** The ranges on the stack, the top one first: they follow one another
    from [lo] up to [hi]. *)
Inductive chain (lo : Z) : Z -> list (Z * Z) -> Prop :=
| chain_nil : chain lo lo []
| chain_cons : forall a hi rs, chain lo a rs -> a <= hi -> chain lo hi ((a, hi) :: rs).

Definition flatten_ranges (rs : list (Z * Z)) : list Z :=
  flat_map (fun r => [snd r; fst r]) rs.

(** The turns that the ranges on the stack can still take. *)
Definition group_weight (rs : list (Z * Z)) : Z :=
  fold_right (fun r acc => Z.max 1 (2 * (snd r - fst r) - 1) + acc) 0 rs.

(** The invariant of the loop, for the ranges [rs] on the stack: they
    partition [left0, frontier), all bounds are a multiple of [n] away
    from [left0] (but for the end of the whole range), the array is a
    rearrangement that has left the outside of [left0, right0) alone,
    and two elements of different groups are in order unless a range on
    the stack holds both. *)
Definition grouped_inv {A} (compare : A -> A -> bool) (n left0 right0 : Z)
           (data0 : list A) (frontier : Z) (rs : list (Z * Z)) (s : GroupState A) : Prop :=
  g_stack s = flatten_ranges rs
  /\ chain left0 frontier rs
  /\ frontier <= right0
  /\ (frontier = right0 \/ (frontier - left0) mod n = 0)
  /\ Forall (fun r => (fst r - left0) mod n = 0) rs
  /\ Permutation (g_data s) data0
  /\ (forall d p, 0 <= p < left0 \/ right0 <= p -> at_ d (g_data s) p = at_ d data0 p)
  /\ (forall d p p',
         left0 <= p -> p < p' -> p' < right0 ->
         (p - left0) / n < (p' - left0) / n ->
         (forall a b, In (a, b) rs -> ~ (a <= p /\ p' < b)) ->
         compare (at_ d (g_data s) p') (at_ d (g_data s) p) = false).

(* ================================================================== *)
(** * Properties *)

(** ** Arrays and counting loops *)

Lemma irange_spec (n i : Z) : In i (irange n) <-> 0 <= i < n.
Proof.
  unfold irange. rewrite in_map_iff. split.
  - intros [k [<- Hk]]. apply in_seq in Hk. lia.
  - intros H. exists (Z.to_nat i). split; [lia|]. apply in_seq. lia.
Qed.

Lemma irange_length (n : Z) : length (irange n) = Z.to_nat n.
Proof. unfold irange. now rewrite length_map, length_seq. Qed.

Lemma irange_nth (n : Z) (k : nat) (d : Z) :
  (k < Z.to_nat n)%nat -> nth k (irange n) d = Z.of_nat k.
Proof.
  intros H. unfold irange.
  rewrite nth_indep with (d' := Z.of_nat 0) by (rewrite length_map, length_seq; lia).
  rewrite map_nth, seq_nth by lia. reflexivity.
Qed.

Lemma fold_left_push {A B} (f : B -> A) (l : list B) (q : list A) :
  fold_left (fun acc i => acc ++ [f i]) l q = q ++ map f l.
Proof.
  revert q. induction l as [|x l IH]; intros q; simpl.
  - now rewrite app_nil_r.
  - rewrite IH, <- app_assoc. reflexivity.
Qed.

Lemma fold_left_push_if {A B} (p : B -> bool) (f : B -> A) (l : list B) (q : list A) :
  fold_left (fun acc i => if p i then acc ++ [f i] else acc) l q
  = q ++ map f (filter p l).
Proof.
  revert q. induction l as [|x l IH]; intros q; simpl.
  - now rewrite app_nil_r.
  - rewrite IH. destruct (p x); simpl; [rewrite <- app_assoc|]; reflexivity.
Qed.

(** ** The priority queue *)

Lemma pop_none (q : PQ.t) : PQ.pop q = None -> q = [].
Proof.
  destruct q as [|y q']; [reflexivity|]. simpl.
  destruct (PQ.pop q') as [[? ?]|]; [destruct (QueryCandidate_lt _ _)|]; discriminate.
Qed.

Lemma pop_perm (q : PQ.t) x r : PQ.pop q = Some (x, r) -> Permutation q (x :: r).
Proof.
  revert x r. induction q as [|y q IH]; intros x r H; simpl in H; [discriminate|].
  destruct (PQ.pop q) as [[z r']|] eqn:E.
  - destruct (QueryCandidate_lt y z); inversion H; subst; clear H.
    + specialize (IH _ _ eq_refl).
      eapply perm_trans; [apply perm_skip, IH|]. apply perm_swap.
    + apply Permutation_refl.
  - inversion H; subst. apply pop_none in E. subst. apply Permutation_refl.
Qed.

Lemma pop_min (q : PQ.t) x r :
  PQ.pop q = Some (x, r) ->
  forall y, In y r -> squared_min_dist x <= squared_min_dist y.
Proof.
  revert x r. induction q as [|z q IH]; intros x r H y Hy; simpl in H; [discriminate|].
  destruct (PQ.pop q) as [[m r']|] eqn:E.
  - unfold QueryCandidate_lt in H.
    destruct (squared_min_dist m <? squared_min_dist z) eqn:C; inversion H; subst; clear H.
    + apply Z.ltb_lt in C. destruct Hy as [<-|Hy]; [lia|]. eapply IH; eauto.
    + apply Z.ltb_ge in C.
      pose proof (pop_perm _ _ _ E) as P.
      apply (Permutation_in _ P) in Hy. destruct Hy as [<-|Hy]; [lia|].
      specialize (IH _ _ eq_refl _ Hy). lia.
  - inversion H; subst. destruct Hy.
Qed.

Lemma pop_in (q : PQ.t) x r : PQ.pop q = Some (x, r) -> In x q /\ incl r q.
Proof.
  intros H. pose proof (pop_perm _ _ _ H) as P. split.
  - apply Permutation_in with (l := x :: r); [now apply Permutation_sym|now left].
  - intros y Hy. apply Permutation_in with (l := x :: r); [now apply Permutation_sym|now right].
Qed.

(** ** The loop of [Nearest], turn by turn *)

Section NearestProperties.

Variable latToY : Z -> Z.
Variable nearest_on_segment : Coordinate -> Coordinate -> Coordinate -> Coordinate.

Abbreviation step := (Nearest_step latToY nearest_on_segment).
Abbreviation run := (Nearest_run latToY nearest_on_segment).
Abbreviation loop := (Nearest_loop latToY nearest_on_segment).

Lemma ExploreLeafNode_eq t leaf_id p q queue :
  ExploreLeafNode nearest_on_segment t leaf_id p q queue
  = queue ++ map (leaf_entry nearest_on_segment t leaf_id p q)
                 (irange (object_count (leaf_at t (index leaf_id)))).
Proof. unfold ExploreLeafNode, PQ.push. apply fold_left_push. Qed.

Lemma ExploreTreeNode_eq t parent_id p queue :
  ExploreTreeNode t parent_id p queue
  = queue ++ map (node_entry t parent_id p)
                 (irange (child_count (node_at t (index parent_id)))).
Proof. unfold ExploreTreeNode, PQ.push. apply fold_left_push. Qed.

Lemma step_turn q filter terminate s :
  turn latToY nearest_on_segment q filter terminate s (step q filter terminate s).
Proof.
  unfold Nearest_step.
  destruct (PQ.pop (n_queue s)) as [[x r]|] eqn:E.
  - destruct (is_segment x) eqn:Hs; simpl.
    + destruct (terminate _ _) eqn:Ht.
      * now apply turn_terminate with (x := x).
      * destruct (filter _) as [a b] eqn:Hf. simpl.
        destruct a, b; simpl;
          try (rewrite <- Hf; apply turn_admit with (x := x); auto; rewrite Hf; discriminate).
        now apply turn_discard with (x := x).
    + destruct (is_leaf (tree_index x)) eqn:Hl.
      * rewrite ExploreLeafNode_eq. now apply turn_leaf.
      * rewrite ExploreTreeNode_eq. now apply turn_node.
  - apply pop_none in E. destruct s as [t qu res]; simpl in *; subst.
    now apply turn_empty.
Qed.

Lemma run_invariant (P : NearestState -> Prop) q filter terminate :
  (forall s, P s -> P (after (step q filter terminate s))) ->
  forall n s, P s -> P (run n q filter terminate s).
Proof.
  intros Hstep. induction n as [|n IH]; intros s Hs; simpl; [exact Hs|].
  specialize (Hstep s Hs). destruct (step q filter terminate s); simpl in Hstep; auto.
Qed.

Lemma loop_run fuel q filter terminate s s' :
  loop fuel q filter terminate s = Some s' ->
  exists n, run n q filter terminate s = s'.
Proof.
  revert s. induction fuel as [|fuel IH]; intros s H; simpl in H; [discriminate|].
  destruct (step q filter terminate s) as [s1|s1] eqn:E.
  - destruct (IH _ H) as [n Hn]. exists (S n). simpl. now rewrite E.
  - inversion H; subst. exists 1%nat. simpl. now rewrite E.
Qed.

Lemma loop_invariant (P : NearestState -> Prop) q filter terminate :
  (forall s, P s -> P (after (step q filter terminate s))) ->
  forall fuel s s', P s -> loop fuel q filter terminate s = Some s' -> P s'.
Proof.
  intros Hstep fuel s s' Hs H. apply loop_run in H. destruct H as [n <-].
  now apply run_invariant.
Qed.

End NearestProperties.

(** ** Well-formed indexes: what the checker gives *)

Section WellFormedFacts.

Variable latToY : Z -> Z.
Variable t : StaticRTree.
Hypothesis Hok : index_ok latToY t = true.

Lemma ok_nonempty : 0 < Z.of_nat (length (m_search_tree t)).
Proof.
  unfold index_ok in Hok. apply andb_prop in Hok as [H _].
  apply andb_prop in H as [H _]. now apply Z.ltb_lt in H.
Qed.

Lemma ok_node k : 0 <= k < Z.of_nat (length (m_search_tree t)) -> node_ok t k = true.
Proof.
  intros Hk. unfold index_ok in Hok. apply andb_prop in Hok as [H _].
  apply andb_prop in H as [_ H]. rewrite forallb_forall in H.
  apply H. now apply irange_spec.
Qed.

Lemma ok_leaf l :
  0 <= l < Z.of_nat (length (m_leaves t)) ->
  leaf_covers latToY (m_coordinate_list t) (leaf_at t l) = true.
Proof.
  intros Hl. unfold index_ok in Hok. apply andb_prop in Hok as [_ H].
  rewrite forallb_forall in H. apply H. unfold leaf_at, at_. apply nth_In. lia.
Qed.

Lemma ok_child k i :
  0 <= k < Z.of_nat (length (m_search_tree t)) ->
  0 <= i < child_count (node_at t k) ->
  child_ok t k (child_at (node_at t k) i) = true.
Proof.
  intros Hk Hi. pose proof (ok_node k Hk) as H. unfold node_ok in H.
  apply andb_prop in H as [_ H]. rewrite forallb_forall in H.
  apply H. now apply irange_spec.
Qed.

Lemma child_ok_valid k c :
  0 <= k -> child_ok t k c = true ->
  index_valid t c /\ (is_leaf c = false -> k < index c)
  /\ Rectangle.IsValid (child_rectangle t c) = true
  /\ Rectangle.inside (child_rectangle t c)
                      (minimum_bounding_rectangle (node_at t k)) = true.
Proof.
  intros Hk H. unfold child_ok in H.
  apply andb_prop in H as [H Hin]. apply andb_prop in H as [H Hv].
  unfold index_valid. destruct (is_leaf c).
  - apply andb_prop in H as [H1 H2]. apply Z.leb_le in H1. apply Z.ltb_lt in H2.
    repeat split; auto; try lia; try discriminate.
  - apply andb_prop in H as [H1 H2]. apply Z.ltb_lt in H1. apply Z.ltb_lt in H2.
    repeat split; auto; try lia.
Qed.

Lemma leaf_covers_count l :
  leaf_covers latToY (m_coordinate_list t) l = true ->
  0 <= object_count l <= UINT32_MAX.
Proof.
  unfold leaf_covers. intros H.
  apply andb_prop in H as [H _]. apply andb_prop in H as [H H3].
  apply andb_prop in H as [H1 H2].
  apply Z.leb_le in H1. apply Z.leb_le in H3. lia.
Qed.

Lemma leaf_covers_object l i :
  leaf_covers latToY (m_coordinate_list t) l = true ->
  0 <= i < object_count l ->
  Rectangle.Contains (leaf_minimum_bounding_rectangle l)
                     (fromWGS84 latToY (coord_at (m_coordinate_list t) (u (object_at l i)))) = true
  /\ Rectangle.Contains (leaf_minimum_bounding_rectangle l)
                        (fromWGS84 latToY (coord_at (m_coordinate_list t) (v (object_at l i)))) = true.
Proof.
  unfold leaf_covers. intros H Hi.
  apply andb_prop in H as [_ H]. rewrite forallb_forall in H.
  specialize (H i (proj2 (irange_spec _ _) Hi)). now apply andb_prop in H.
Qed.

(** *** The weight does not depend on the depth, once it is enough *)

Lemma weight_leaf d c :
  is_leaf c = true -> weight d t c = S (Z.to_nat (object_count (leaf_at t (index c)))).
Proof. intros H. destruct d; simpl; now rewrite H. Qed.

Lemma weight_node_S d c :
  is_leaf c = false ->
  weight (S d) t c
  = S (list_sum (map (fun i => weight d t (child_at (node_at t (index c)) i))
                     (irange (child_count (node_at t (index c)))))).
Proof.
  intros H. simpl. rewrite H. f_equal.
  generalize (irange (child_count (node_at t (index c)))). intros l.
  assert (G : forall a, fold_left
               (fun acc i => (acc + weight d t (child_at (node_at t (index c)) i))%nat) l a
             = (a + list_sum (map (fun i => weight d t (child_at (node_at t (index c)) i)) l))%nat).
  { induction l as [|x l IH]; intros a; simpl; [lia|]. rewrite IH. lia. }
  now rewrite G.
Qed.

Lemma node_at_beyond k :
  Z.of_nat (length (m_search_tree t)) <= k -> child_count (node_at t k) = 0.
Proof.
  intros H. unfold node_at, at_. rewrite nth_overflow by lia. reflexivity.
Qed.

Lemma weight_stable d1 :
  forall d2 c, 0 <= index c ->
    Z.of_nat (length (m_search_tree t)) - index c <= Z.of_nat d1 ->
    Z.of_nat (length (m_search_tree t)) - index c <= Z.of_nat d2 ->
    weight d1 t c = weight d2 t c.
Proof.
  induction d1 as [|d1 IH]; intros d2 c H0 H1 H2.
  - destruct (is_leaf c) eqn:L; [now rewrite !weight_leaf|].
    destruct d2 as [|d2]; [reflexivity|].
    rewrite weight_node_S by assumption. rewrite node_at_beyond by lia.
    simpl. now rewrite L.
  - destruct (is_leaf c) eqn:L; [now rewrite !weight_leaf|].
    destruct (Z_lt_le_dec (index c) (Z.of_nat (length (m_search_tree t)))) as [Hin|Hout].
    + destruct d2 as [|d2]; [lia|].
      rewrite !weight_node_S by assumption. do 2 f_equal.
      apply map_ext_in. intros i Hi. apply irange_spec in Hi.
      pose proof (ok_child (index c) i (conj H0 Hin) Hi) as Hc.
      apply child_ok_valid in Hc; [|assumption].
      destruct Hc as (Hv & Hlt & _).
      destruct (is_leaf (child_at (node_at t (index c)) i)) eqn:L'.
      * now rewrite !weight_leaf.
      * specialize (Hlt eq_refl). apply IH; lia.
    + rewrite weight_node_S by assumption. rewrite node_at_beyond by lia.
      destruct d2 as [|d2]; [simpl; now rewrite L|].
      rewrite weight_node_S by assumption. now rewrite node_at_beyond by lia.
Qed.

Lemma weight_node c :
  is_leaf c = false -> 0 <= index c < Z.of_nat (length (m_search_tree t)) ->
  weight (depth_of t) t c
  = S (list_sum (map (fun i => weight (depth_of t) t (child_at (node_at t (index c)) i))
                     (irange (child_count (node_at t (index c)))))).
Proof.
  intros L Hc. unfold depth_of.
  destruct (length (m_search_tree t)) as [|n] eqn:E; [simpl in Hc; lia|].
  rewrite weight_node_S by assumption. do 2 f_equal.
  apply map_ext_in. intros i Hi. apply irange_spec in Hi.
  assert (Hc' : 0 <= index c < Z.of_nat (length (m_search_tree t))) by (rewrite E; lia).
  pose proof (ok_child (index c) i Hc' Hi) as Hk.
  apply child_ok_valid in Hk; [|lia]. destruct Hk as (Hv & Hlt & _).
  destruct (is_leaf (child_at (node_at t (index c)) i)) eqn:L'.
  - now rewrite !weight_leaf.
  - specialize (Hlt eq_refl). apply weight_stable; rewrite ?E; lia.
Qed.

End WellFormedFacts.

(** ** [Nearest] ends on a well-formed index *)

Lemma list_sum_perm (l l' : list nat) : Permutation l l' -> list_sum l = list_sum l'.
Proof. induction 1; simpl; lia. Qed.

Lemma list_sum_ones {A} (f : A -> nat) (l : list A) :
  (forall x, In x l -> f x = 1%nat) -> list_sum (map f l) = length l.
Proof.
  induction l as [|x l IH]; intros H; simpl; [reflexivity|].
  rewrite H by now left. rewrite IH; [reflexivity|]. intros y Hy. apply H. now right.
Qed.

Lemma is_segment_below (d : Z) c i p :
  0 <= i < UINT32_MAX -> is_segment (QueryCandidate_segment d c i p) = true.
Proof.
  intros H. unfold is_segment, QueryCandidate_segment. simpl.
  apply negb_true_iff. apply Z.eqb_neq. lia.
Qed.

Section NearestTermination.

Variable latToY : Z -> Z.
Variable nearest_on_segment : Coordinate -> Coordinate -> Coordinate -> Coordinate.
Variable t : StaticRTree.
Hypothesis Hok : index_ok latToY t = true.

Abbreviation step := (Nearest_step latToY nearest_on_segment).
Abbreviation loop := (Nearest_loop latToY nearest_on_segment).

Lemma potential_app q1 q2 :
  potential t (q1 ++ q2) = (potential t q1 + potential t q2)%nat.
Proof. unfold potential. now rewrite map_app, list_sum_app. Qed.

Lemma potential_pop q x r :
  PQ.pop q = Some (x, r) -> potential t q = (entry_weight t x + potential t r)%nat.
Proof.
  intros H. apply pop_perm in H. unfold potential.
  rewrite (list_sum_perm _ _ (Permutation_map (entry_weight t) H)). reflexivity.
Qed.

Lemma leaf_entries_valid leaf_id p q :
  is_leaf leaf_id = true ->
  0 <= index leaf_id < Z.of_nat (length (m_leaves t)) ->
  forall x,
    In x (map (leaf_entry nearest_on_segment t leaf_id p q)
              (irange (object_count (leaf_at t (index leaf_id))))) ->
    is_segment x = true /\ entry_valid t x.
Proof.
  intros L Hl x Hx. apply in_map_iff in Hx as [i [<- Hi]]. apply irange_spec in Hi.
  pose proof (leaf_covers_count latToY t _ (ok_leaf latToY t Hok _ Hl)) as Hc.
  assert (S : is_segment (leaf_entry nearest_on_segment t leaf_id p q i) = true)
    by (apply is_segment_below; lia).
  split; [exact S|]. unfold entry_valid. rewrite S. simpl. auto.
Qed.

Lemma node_entries_valid parent_id p :
  is_leaf parent_id = false ->
  0 <= index parent_id < Z.of_nat (length (m_search_tree t)) ->
  forall x,
    In x (map (node_entry t parent_id p)
              (irange (child_count (node_at t (index parent_id))))) ->
    is_segment x = false /\ entry_valid t x.
Proof.
  intros L Hp x Hx. apply in_map_iff in Hx as [i [<- Hi]]. apply irange_spec in Hi.
  split; [reflexivity|]. unfold entry_valid. simpl.
  pose proof (ok_child latToY t Hok _ _ Hp Hi) as Hc.
  apply child_ok_valid in Hc; [|lia]. apply Hc.
Qed.

Abbreviation loop_inv := (nearest_inv t).

Lemma step_decreases q filter terminate s s' :
  loop_inv s -> step q filter terminate s = Continue s' ->
  loop_inv s' /\ (potential t (n_queue s') < potential t (n_queue s))%nat.
Proof.
  intros [Hi Hq] E. pose proof (step_turn latToY nearest_on_segment q filter terminate s) as T.
  rewrite E in T. rewrite Forall_forall in Hq. unfold nearest_inv.
  inversion T as [Hn|x r Hp Hs Hl Heq|x r Hp Hs Hl Heq|x r Hp Hs Ht|x r Hp Hs c Ht Hf Heq
                  |x r Hp Hs c Ht Hf Heq]; subst s'; simpl;
    pose proof (pop_in _ _ _ Hp) as [Hx Hr];
    pose proof (potential_pop _ _ _ Hp) as Hpot;
    pose proof (Hq x Hx) as Vx; unfold entry_valid in Vx; rewrite Hs in Vx;
    try (unfold index_valid in Vx; rewrite Hl in Vx); rewrite Hi in *.
  - (* a leaf is opened *)
    split; [split; [reflexivity|]|].
    + apply Forall_forall. intros y Hy. apply in_app_or in Hy as [Hy|Hy].
      * apply Hq, Hr, Hy.
      * eapply leaf_entries_valid; eauto.
    + assert (Wx : entry_weight t x
                   = S (Z.to_nat (object_count (leaf_at t (index (tree_index x))))))
        by (unfold entry_weight; rewrite Hs; now apply weight_leaf).
      rewrite potential_app, Hpot, Wx.
      assert (Wn : potential t (map (leaf_entry nearest_on_segment t (tree_index x)
                                                (fromWGS84 latToY q) q)
                                    (irange (object_count
                                               (leaf_at t (index (tree_index x))))))
                   = Z.to_nat (object_count (leaf_at t (index (tree_index x))))).
      { unfold potential. rewrite list_sum_ones.
        - now rewrite length_map, irange_length.
        - intros y Hy. unfold entry_weight.
          now rewrite (proj1 (leaf_entries_valid _ _ _ Hl Vx y Hy)). }
      rewrite Wn. lia.
  - (* a node is opened *)
    split; [split; [reflexivity|]|].
    + apply Forall_forall. intros y Hy. apply in_app_or in Hy as [Hy|Hy].
      * apply Hq, Hr, Hy.
      * eapply node_entries_valid; eauto.
    + assert (Wx : entry_weight t x
                   = S (list_sum
                          (map (fun i => weight (depth_of t) t
                                                (child_at (node_at t (index (tree_index x))) i))
                               (irange (child_count (node_at t (index (tree_index x))))))))
        by (unfold entry_weight; rewrite Hs; now apply (weight_node latToY t Hok)).
      rewrite potential_app, Hpot, Wx.
      assert (Wn : potential t (map (node_entry t (tree_index x) (fromWGS84 latToY q))
                                    (irange (child_count
                                               (node_at t (index (tree_index x))))))
                   = list_sum
                       (map (fun i => weight (depth_of t) t
                                             (child_at (node_at t (index (tree_index x))) i))
                            (irange (child_count (node_at t (index (tree_index x))))))).
      { unfold potential. rewrite map_map. reflexivity. }
      rewrite Wn. lia.
  - (* a segment is dropped by the filter *)
    split; [split; [reflexivity|]|].
    + apply Forall_forall. intros y Hy. apply Hq, Hr, Hy.
    + rewrite Hpot. unfold entry_weight. rewrite Hs. lia.
  - (* a segment is admitted *)
    split; [split; [reflexivity|]|].
    + apply Forall_forall. intros y Hy. apply Hq, Hr, Hy.
    + rewrite Hpot. unfold entry_weight. rewrite Hs. lia.
Qed.

Lemma step_return_inv q filter terminate s s' :
  loop_inv s -> step q filter terminate s = Return s' -> n_index s' = t.
Proof.
  intros [Hi _] E. pose proof (step_turn latToY nearest_on_segment q filter terminate s) as T.
  rewrite E in T. inversion T; subst s'; simpl; assumption.
Qed.

Lemma loop_terminates q filter terminate :
  forall fuel s, loop_inv s -> (potential t (n_queue s) < fuel)%nat ->
                 exists s', loop fuel q filter terminate s = Some s' /\ n_index s' = t.
Proof.
  induction fuel as [|fuel IH]; intros s Hs Hp; [lia|]. simpl.
  destruct (step q filter terminate s) as [s1|s1] eqn:E.
  - destruct (step_decreases _ _ _ _ _ Hs E) as [Hs1 Hlt]. apply IH; [assumption|lia].
  - exists s1. split; [reflexivity|]. eapply step_return_inv; eauto.
Qed.

Lemma init_inv : loop_inv (Nearest_init t).
Proof.
  split; [reflexivity|]. simpl. constructor; [|constructor].
  unfold entry_valid, index_valid. simpl. pose proof (ok_nonempty latToY t Hok). lia.
Qed.

(** With fuel beyond the weight of the root the search returns. *)
Lemma Nearest_terminates q filter terminate fuel :
  (weight (depth_of t) t TreeIndex_default < fuel)%nat ->
  exists results,
    Nearest latToY nearest_on_segment fuel t q filter terminate = Some (results, t).
Proof.
  intros Hf. unfold Nearest.
  destruct (loop_terminates q filter terminate fuel (Nearest_init t) init_inv) as [s' [E Hi]].
  - simpl. unfold potential, entry_weight. simpl. lia.
  - rewrite E. exists (n_results s'). now rewrite Hi.
Qed.

End NearestTermination.

(** ** Rectangles and distances *)

Lemma squaredEuclideanDistance_nonneg a b : 0 <= squaredEuclideanDistance a b.
Proof.
  unfold squaredEuclideanDistance.
  pose proof (Z.square_nonneg (lon a - lon b)). pose proof (Z.square_nonneg (lat a - lat b)).
  lia.
Qed.

Lemma square_le a b : 0 <= a <= b -> a * a <= b * b.
Proof. intros H. apply Z.mul_le_mono_nonneg; lia. Qed.

Lemma clamp_closer lo hi p q :
  lo <= p <= hi -> (q - clamp lo hi q) * (q - clamp lo hi q) <= (q - p) * (q - p).
Proof.
  intros H. unfold clamp.
  destruct (Z_lt_le_dec q lo) as [A|A].
  - rewrite Z.max_l by lia.
    replace ((q - lo) * (q - lo)) with ((lo - q) * (lo - q)) by ring.
    replace ((q - p) * (q - p)) with ((p - q) * (p - q)) by ring.
    apply square_le. lia.
  - destruct (Z_lt_le_dec hi q) as [B|B].
    + rewrite Z.min_l by lia. rewrite Z.max_r by lia. apply square_le. lia.
    + rewrite Z.min_r by lia. rewrite Z.max_r by lia.
      replace (q - q) with 0 by ring. simpl. apply Z.square_nonneg.
Qed.

Lemma clamp_between lo hi q : lo <= hi -> lo <= clamp lo hi q <= hi.
Proof. unfold clamp. lia. Qed.

Lemma Contains_spec r p :
  Rectangle.Contains r p = true
  <-> min_lon r <= lon p <= max_lon r /\ min_lat r <= lat p <= max_lat r.
Proof.
  unfold Rectangle.Contains. rewrite !andb_true_iff, !Z.leb_le. lia.
Qed.

Lemma inside_spec a b :
  Rectangle.inside a b = true
  <-> min_lon b <= min_lon a /\ max_lon a <= max_lon b
      /\ min_lat b <= min_lat a /\ max_lat a <= max_lat b.
Proof.
  unfold Rectangle.inside. rewrite !andb_true_iff, !Z.leb_le. lia.
Qed.

Lemma IsValid_spec r :
  Rectangle.IsValid r = true <-> min_lon r <= max_lon r /\ min_lat r <= max_lat r.
Proof. unfold Rectangle.IsValid. rewrite !andb_true_iff, !Z.leb_le. lia. Qed.

Lemma Intersects_spec r o :
  Rectangle.Intersects r o = true
  <-> min_lon o <= max_lon r /\ min_lon r <= max_lon o
      /\ min_lat o <= max_lat r /\ min_lat r <= max_lat o.
Proof.
  unfold Rectangle.Intersects. rewrite negb_true_iff, !orb_false_iff, !Z.ltb_ge. lia.
Qed.

Lemma GetMinSquaredDist_nonneg r p : 0 <= GetMinSquaredDist r p.
Proof.
  unfold GetMinSquaredDist. destruct (Rectangle.Contains r p); [lia|].
  apply squaredEuclideanDistance_nonneg.
Qed.

(** The lower bound of a rectangle is below the distance to any of its
    points. *)
Lemma GetMinSquaredDist_le_point r p x :
  Rectangle.Contains r x = true ->
  GetMinSquaredDist r p <= squaredEuclideanDistance p x.
Proof.
  intros H. apply Contains_spec in H. unfold GetMinSquaredDist.
  destruct (Rectangle.Contains r p); [apply squaredEuclideanDistance_nonneg|].
  unfold squaredEuclideanDistance. simpl.
  pose proof (clamp_closer (min_lon r) (max_lon r) (lon x) (lon p) (proj1 H)).
  pose proof (clamp_closer (min_lat r) (max_lat r) (lat x) (lat p) (proj2 H)).
  lia.
Qed.

(** A rectangle inside another has the larger lower bound. *)
Lemma GetMinSquaredDist_inside a b p :
  Rectangle.IsValid a = true -> Rectangle.inside a b = true ->
  GetMinSquaredDist b p <= GetMinSquaredDist a p.
Proof.
  intros Hv Hi. apply IsValid_spec in Hv. apply inside_spec in Hi.
  unfold GetMinSquaredDist at 2.
  destruct (Rectangle.Contains a p) eqn:C.
  - apply Contains_spec in C.
    assert (C' : Rectangle.Contains b p = true) by (apply Contains_spec; lia).
    unfold GetMinSquaredDist. rewrite C'. lia.
  - apply GetMinSquaredDist_le_point. apply Contains_spec. simpl.
    pose proof (clamp_between (min_lon a) (max_lon a) (lon p) (proj1 Hv)).
    pose proof (clamp_between (min_lat a) (max_lat a) (lat p) (proj2 Hv)).
    lia.
Qed.

Lemma segment_box_inside r a b x :
  Rectangle.Contains r a = true -> Rectangle.Contains r b = true ->
  Rectangle.Contains (segment_box a b) x = true ->
  Rectangle.Contains r x = true.
Proof.
  rewrite !Contains_spec. unfold segment_box. simpl. lia.
Qed.

Lemma StronglySorted_snoc {A} (R : A -> A -> Prop) (l : list A) (x : A) :
  StronglySorted R l -> (forall y, In y l -> R y x) -> StronglySorted R (l ++ [x]).
Proof.
  induction 1 as [|a l Hs IH Ha]; intros H; simpl.
  - constructor; constructor.
  - constructor.
    + apply IH. intros y Hy. apply H. now right.
    + apply Forall_app. split; [assumption|]. constructor; [|constructor]. apply H. now left.
Qed.

Lemma StronglySorted_nth {A} (R : A -> A -> Prop) (l : list A) (d : A) :
  StronglySorted R l ->
  forall i j, (i < j < length l)%nat -> R (nth i l d) (nth j l d).
Proof.
  induction 1 as [|a l Hs IH Ha]; intros i j Hij; simpl in Hij; [lia|].
  destruct j as [|j]; [lia|]. destruct i as [|i]; simpl.
  - rewrite Forall_forall in Ha. apply Ha. apply nth_In. lia.
  - apply IH. lia.
Qed.

(** ** The lower bound of a leaf and the order of the results *)

Section NearestOrder.

Variable latToY : Z -> Z.
Variable nearest_on_segment : Coordinate -> Coordinate -> Coordinate -> Coordinate.
Hypothesis Hfoot : foot_on_segment latToY nearest_on_segment.

Lemma leaf_bound cs l q i :
  leaf_covers latToY cs l = true -> 0 <= i < object_count l ->
  GetMinSquaredDist (leaf_minimum_bounding_rectangle l) (fromWGS84 latToY q)
  <= segment_distance latToY nearest_on_segment cs q (object_at l i).
Proof.
  intros Hc Hi. unfold segment_distance. apply GetMinSquaredDist_le_point.
  unfold leaf_covers in Hc. apply andb_prop in Hc as [_ Hc].
  rewrite forallb_forall in Hc.
  specialize (Hc i (proj2 (irange_spec _ _) Hi)). apply andb_prop in Hc as [Hu Hv].
  eapply segment_box_inside; [exact Hu|exact Hv|apply Hfoot].
Qed.

Variable t : StaticRTree.
Variable q : Coordinate.
Hypothesis Hok : index_ok latToY t = true.

Abbreviation step := (Nearest_step latToY nearest_on_segment).
Abbreviation dist := (result_distance latToY nearest_on_segment t q).
Abbreviation key_ok := (entry_key_ok latToY nearest_on_segment t q).
Abbreviation inv := (sorted_inv latToY nearest_on_segment t q).

Lemma dist_mask e f : dist (mask_enabled e f) = dist e.
Proof. reflexivity. Qed.

Lemma sorted_step filter terminate s :
  inv s -> inv (after (step q filter terminate s)).
Proof.
  intros [Hn [bound (Hq & Hs & Hr)]].
  assert (Hn' : nearest_inv t (after (step q filter terminate s))).
  { destruct (step q filter terminate s) as [s1|s1] eqn:E; simpl.
    - now destruct (step_decreases latToY nearest_on_segment t Hok _ _ _ _ _ Hn E).
    - split; [eapply step_return_inv; eauto|].
      pose proof (step_turn latToY nearest_on_segment q filter terminate s) as T.
      rewrite E in T. destruct Hn as [_ Hv]. rewrite Forall_forall in Hv.
      inversion T as [Hnil| | |x r Hp _ _| |]; subst s1; simpl.
      + now apply Forall_forall.
      + apply Forall_forall. intros y Hy. apply Hv. now apply (pop_in _ _ _ Hp). }
  split; [exact Hn'|]. clear Hn'. destruct Hn as [Hi Hv]. rewrite Forall_forall in Hv.
  pose proof (step_turn latToY nearest_on_segment q filter terminate s) as T.
  inversion T as [Hnil Heq|x r Hp Hsg Hl Heq|x r Hp Hsg Hl Heq|x r Hp Hsg Ht Heq
                  |x r Hp Hsg c Ht Hf Heq|x r Hp Hsg c Ht Hf Heq]; simpl;
    try (pose proof (pop_in _ _ _ Hp) as [Hx Hrq];
         pose proof (pop_min _ _ _ Hp) as Hmin;
         destruct (Hq x Hx) as [Hbx Hkx];
         pose proof (Hv x Hx) as Vx; unfold entry_valid in Vx; rewrite Hsg in Vx;
         unfold entry_key_ok in Hkx; rewrite Hsg in Hkx).
  - (* the queue is empty *)
    exists bound. auto.
  - (* a leaf is opened *)
    unfold index_valid in Vx. rewrite Hl in Vx. rewrite Hi in *.
    exists (squared_min_dist x). split; [|split; [assumption|]].
    + intros y Hy. apply in_app_or in Hy as [Hy|Hy].
      * split; [now apply Hmin|]. apply Hq, Hrq, Hy.
      * pose proof (leaf_entries_valid latToY nearest_on_segment t Hok _
                      (fromWGS84 latToY q) q Hl Vx y Hy) as [Sy _].
        apply in_map_iff in Hy as [i [<- Hin]]. apply irange_spec in Hin.
        split.
        -- destruct Hkx as [Hroot|[Hk _]]; [rewrite Hroot in Hl; discriminate|].
           rewrite Hk. unfold child_rectangle. rewrite Hl.
           apply leaf_bound; [|assumption]. now apply (ok_leaf latToY t Hok).
        -- unfold entry_key_ok. rewrite Sy. reflexivity.
    + intros e He. specialize (Hr e He). lia.
  - (* a node is opened *)
    unfold index_valid in Vx. rewrite Hl in Vx. rewrite Hi in *.
    exists (squared_min_dist x). split; [|split; [assumption|]].
    + intros y Hy. apply in_app_or in Hy as [Hy|Hy].
      * split; [now apply Hmin|]. apply Hq, Hrq, Hy.
      * apply in_map_iff in Hy as [i [<- Hin]]. apply irange_spec in Hin.
        pose proof (ok_child latToY t Hok _ _ Vx Hin) as Hc.
        apply (child_ok_valid t) in Hc; [|lia]. destruct Hc as (_ & _ & Hval & Hins).
        split.
        -- simpl. destruct Hkx as [Hroot|[Hk _]].
           ++ rewrite Hroot. simpl. apply GetMinSquaredDist_nonneg.
           ++ rewrite Hk. unfold child_rectangle at 1. rewrite Hl.
              now apply GetMinSquaredDist_inside.
        -- unfold entry_key_ok. simpl. right. split; [reflexivity|assumption].
    + intros e He. specialize (Hr e He). lia.
  - (* the terminator fires *)
    exists bound. split; [|split; assumption].
    intros y Hy. apply Hq, Hrq, Hy.
  - (* the filter drops the segment *)
    exists bound. split; [|split; assumption].
    intros y Hy. apply Hq, Hrq, Hy.
  - (* the segment is admitted *)
    rewrite Hi in *.
    exists (squared_min_dist x). split; [|split].
    + intros y Hy. split; [now apply Hmin|]. apply Hq, Hrq, Hy.
    + apply StronglySorted_snoc; [assumption|].
      intros y Hy. rewrite dist_mask. subst c. simpl. rewrite <- Hkx.
      specialize (Hr y Hy). lia.
    + intros e He. apply in_app_or in He as [He|[<-|[]]].
      * specialize (Hr e He). lia.
      * rewrite dist_mask. subst c. simpl. rewrite <- Hkx. lia.
Qed.

Lemma sorted_init : inv (Nearest_init t).
Proof.
  split; [now apply (init_inv latToY)|]. exists 0. split; [|split].
  - intros x [<-|[]]. split; [simpl; lia|]. unfold entry_key_ok. simpl. now left.
  - constructor.
  - intros e [].
Qed.

End NearestOrder.

(** ** The reference foot of the perpendicular lies on the segment *)

Lemma scaled_between d n m :
  0 < m -> 0 <= n <= m -> Z.min 0 d <= (d * n) / m <= Z.max 0 d.
Proof.
  intros Hm Hn. destruct (Z_lt_le_dec d 0) as [Hd|Hd].
  - rewrite Z.min_r, Z.max_l by lia. split.
    + apply Z.div_le_lower_bound; [assumption|]. nia.
    + apply Z.le_trans with (0 / m); [|now rewrite Z.div_0_l by lia].
      apply Z.div_le_mono; [assumption|]. nia.
  - rewrite Z.min_l, Z.max_r by lia. split.
    + apply Z.div_pos; [nia|assumption].
    + apply Z.div_le_upper_bound; [assumption|]. nia.
Qed.

Lemma projectPointOnSegment_in_box a b p :
  Rectangle.Contains (segment_box a b) (projectPointOnSegment a b p) = true.
Proof.
  apply Contains_spec. unfold projectPointOnSegment, segment_box.
  set (dx := lon b - lon a). set (dy := lat b - lat a).
  set (n := dx * (lon p - lon a) + dy * (lat p - lat a)).
  set (m := dx * dx + dy * dy).
  destruct (m =? 0) eqn:E0; [simpl; lia|].
  destruct (n <=? 0) eqn:E1; [simpl; lia|].
  destruct (m <=? n) eqn:E2; [simpl; lia|].
  apply Z.eqb_neq in E0. apply Z.leb_gt in E1. apply Z.leb_gt in E2.
  assert (Hm : 0 < m) by lia.
  pose proof (scaled_between dx n m Hm ltac:(lia)).
  pose proof (scaled_between dy n m Hm ltac:(lia)).
  subst dx dy. simpl. lia.
Qed.

Lemma exact_foot_on_segment latToY :
  foot_on_segment latToY (nearest_on_segment_exact latToY).
Proof. intros cu cv q. apply projectPointOnSegment_in_box. Qed.

(** ** The loop of [SearchInBox] *)

Section SearchLoop.

Variable latToY : Z -> Z.

Abbreviation sstep := (SearchInBox_step latToY).
Abbreviation sloop := (SearchInBox_loop latToY).

Lemma search_step_index R s : s_index (after (sstep R s)) = s_index s.
Proof.
  unfold SearchInBox_step. destruct (s_queue s) as [|c qu]; [reflexivity|].
  destruct (is_leaf c); reflexivity.
Qed.

Lemma search_loop_invariant (P : SearchState -> Prop) R :
  (forall s, P s -> P (after (sstep R s))) ->
  forall fuel s s', P s -> sloop fuel R s = Some s' -> P s'.
Proof.
  intros Hstep. induction fuel as [|fuel IH]; intros s s' Hs H; simpl in H; [discriminate|].
  specialize (Hstep s Hs). destruct (sstep R s) as [s1|s1]; simpl in Hstep.
  - apply (IH s1 s' Hstep H).
  - inversion H; subst. assumption.
Qed.

End SearchLoop.

(** ** [SearchInBox]: termination, soundness, completeness *)

Section SearchProperties.

Variable latToY : Z -> Z.
Variable t : StaticRTree.
Variable R : RectangleInt2D.

Abbreviation sstep := (SearchInBox_step latToY).
Abbreviation sloop := (SearchInBox_loop latToY).
Abbreviation pr := (projected_rectangle latToY R).

Lemma search_step_leaf s c qu :
s_queue s = c :: qu -> is_leaf c = true ->
sstep R s = Continue {| s_index := s_index s; s_queue := qu;
                        s_results := s_results s
                                     ++ leaf_matches (s_index s) R (index c) |}.
Proof.
intros Hq Hl. unfold SearchInBox_step. rewrite Hq, Hl. f_equal. f_equal.
unfold leaf_matches.
rewrite <- (fold_left_push_if
              (fun i => Rectangle.Intersects
                          (edge_bbox (m_coordinate_list (s_index s))
                                     (object_at (leaf_at (s_index s) (index c)) i)) R)
              (object_at (leaf_at (s_index s) (index c)))).
reflexivity.
Qed.

Lemma search_step_node s c qu :
s_queue s = c :: qu -> is_leaf c = false ->
sstep R s
= Continue {| s_index := s_index s;
              s_queue :=
                qu ++ map (child_at (node_at (s_index s) (index c)))
                          (filter (fun i =>
                                     Rectangle.Intersects
                                       (child_rectangle
                                          (s_index s)
                                          (child_at (node_at (s_index s) (index c)) i))
                                       pr)
                                  (irange (child_count (node_at (s_index s) (index c)))));
              s_results := s_results s |}.
Proof.
intros Hq Hl. unfold SearchInBox_step. rewrite Hq, Hl. f_equal. f_equal.
rewrite <- (fold_left_push_if
              (fun i => Rectangle.Intersects
                          (child_rectangle (s_index s)
                                           (child_at (node_at (s_index s) (index c)) i)) pr)
              (child_at (node_at (s_index s) (index c)))).
reflexivity.
Qed.

Lemma search_step_empty s : s_queue s = [] -> sstep R s = Return s.
Proof. intros Hq. unfold SearchInBox_step. now rewrite Hq. Qed.

(** *** Soundness, on any index *)

Lemma search_sound fuel s s' :
s_index s = t ->
(forall e, In e (s_results s) ->
           Rectangle.Intersects (edge_bbox (m_coordinate_list t) e) R = true) ->
sloop fuel R s = Some s' ->
forall e, In e (s_results s') ->
          Rectangle.Intersects (edge_bbox (m_coordinate_list t) e) R = true.
Proof.
intros Hi Hs H.
refine (proj2 (search_loop_invariant latToY
          (fun s => s_index s = t
                    /\ forall e, In e (s_results s) ->
                         Rectangle.Intersects (edge_bbox (m_coordinate_list t) e) R = true)
          R _ fuel s s' (conj Hi Hs) H)).
clear. intros s [Hi Hs]. destruct (s_queue s) as [|c qu] eqn:Hq.
- rewrite search_step_empty by assumption. simpl. auto.
- destruct (is_leaf c) eqn:Hl.
  + rewrite (search_step_leaf s c qu Hq Hl). simpl. split; [assumption|].
    intros e He. apply in_app_or in He as [He|He]; [now apply Hs|].
    unfold leaf_matches in He. apply in_map_iff in He as [i [<- Hin]].
    apply filter_In in Hin as [_ Hin]. rewrite <- Hi. exact Hin.
  + rewrite (search_step_node s c qu Hq Hl). simpl. auto.
Qed.

Lemma search_stored fuel s s' :
s_index s = t ->
(forall e, In e (s_results s) -> stored t e) ->
Forall (index_valid t) (s_queue s) ->
index_ok latToY t = true ->
sloop fuel R s = Some s' ->
forall e, In e (s_results s') -> stored t e.
Proof.
intros Hi Hs Hv Hok H.
refine (proj2 (proj2 (search_loop_invariant latToY
          (fun s => s_index s = t /\ Forall (index_valid t) (s_queue s)
                    /\ forall e, In e (s_results s) -> stored t e)
          R _ fuel s s' (conj Hi (conj Hv Hs)) H))).
clear - Hok. intros s (Hi & Hv & Hs). destruct (s_queue s) as [|c qu] eqn:Hq.
- rewrite search_step_empty by assumption. simpl. rewrite Hq. auto.
- apply Forall_cons_iff in Hv as [Hc Hqu]. destruct (is_leaf c) eqn:Hl.
  + rewrite (search_step_leaf s c qu Hq Hl). simpl. repeat split; try assumption.
    intros e He. apply in_app_or in He as [He|He]; [now apply Hs|].
    unfold leaf_matches in He. apply in_map_iff in He as [i [<- Hin]].
    apply filter_In in Hin as [Hin _]. apply irange_spec in Hin.
    unfold index_valid in Hc. rewrite Hl in Hc. rewrite Hi in *.
    exists (index c), i. auto.
  + rewrite (search_step_node s c qu Hq Hl). simpl. repeat split; try assumption.
    apply Forall_app. split; [assumption|]. apply Forall_forall.
    intros y Hy. apply in_map_iff in Hy as [i [<- Hin]].
    apply filter_In in Hin as [Hin _]. apply irange_spec in Hin.
    unfold index_valid in Hc. rewrite Hl in Hc. rewrite Hi in *.
    pose proof (ok_child latToY t Hok _ _ Hc Hin) as Hk.
    apply (child_ok_valid t) in Hk; [|lia]. apply Hk.
Qed.

(** *** Completeness along routes *)

Lemma route_leaf_inv c l : is_leaf c = true -> route t pr c l -> l = index c.
Proof. intros Hl Hr. destruct Hr; [reflexivity|congruence]. Qed.

Lemma route_node_inv c l :
  is_leaf c = false -> route t pr c l ->
  exists i, 0 <= i < child_count (node_at t (index c))
            /\ Rectangle.Intersects
                 (child_rectangle t (child_at (node_at t (index c)) i)) pr = true
            /\ route t pr (child_at (node_at t (index c)) i) l.
Proof. intros Hl Hr. destruct Hr; [congruence|]. eauto. Qed.

Lemma search_reaches fuel :
forall s s', s_index s = t -> sloop fuel R s = Some s' ->
  incl (s_results s) (s_results s')
  /\ forall c l, In c (s_queue s) -> route t pr c l ->
                 incl (leaf_matches t R l) (s_results s').
Proof.
induction fuel as [|fuel IH]; intros s s' Hi H; simpl in H; [discriminate|].
destruct (s_queue s) as [|c qu] eqn:Hq.
- rewrite search_step_empty in H by assumption. inversion H; subst s'.
  split; [apply incl_refl|]. intros c l [].
- destruct (is_leaf c) eqn:Hl.
  + rewrite (search_step_leaf s c qu Hq Hl) in H.
    destruct (IH _ _ (Hi : s_index {| s_index := s_index s; s_queue := _; s_results := _ |} = t) H)
      as [Hres Hroute]. simpl in Hres, Hroute. split.
    * intros e He. apply Hres. apply in_or_app. now left.
    * intros c' l [<-|Hc'] Hr.
      -- rewrite (route_leaf_inv _ _ Hl Hr).
         intros e He. apply Hres. apply in_or_app. right. now rewrite Hi.
      -- now apply (Hroute c' l).
  + rewrite (search_step_node s c qu Hq Hl) in H.
    destruct (IH _ _ (Hi : s_index {| s_index := s_index s; s_queue := _; s_results := _ |} = t) H)
      as [Hres Hroute]. simpl in Hres, Hroute. split; [assumption|].
    intros c' l [<-|Hc'] Hr.
    * destruct (route_node_inv _ _ Hl Hr) as (i & Hin & Hx & Hr').
      apply (Hroute (child_at (node_at t (index c)) i) l); [|assumption].
      apply in_or_app. right. rewrite Hi. apply in_map. apply filter_In.
      split; [now apply irange_spec|assumption].
    * apply (Hroute c' l); [|assumption]. apply in_or_app. now left.
Qed.

(** *** Termination on a well-formed index *)

Hypothesis Hok : index_ok latToY t = true.

Lemma list_sum_filter_le {A} (f : A -> nat) (p : A -> bool) (l : list A) :
(list_sum (map f (filter p l)) <= list_sum (map f l))%nat.
Proof.
induction l as [|x l IH]; simpl; [lia|]. destruct (p x); simpl; lia.
Qed.

Lemma search_step_decreases s s' :
search_inv t s -> sstep R s = Continue s' ->
search_inv t s'
/\ (search_potential t (s_queue s') < search_potential t (s_queue s))%nat.
Proof.
intros [Hi Hv] E. destruct (s_queue s) as [|c qu] eqn:Hq.
- rewrite search_step_empty in E by assumption. discriminate.
- apply Forall_cons_iff in Hv as [Hc Hqu]. unfold index_valid in Hc.
  destruct (is_leaf c) eqn:Hl.
  + rewrite (search_step_leaf s c qu Hq Hl) in E. inversion E; subst s'; clear E.
    unfold search_inv. simpl. split; [split; [assumption|assumption]|].
    unfold search_potential. simpl. rewrite (weight_leaf t _ _ Hl). lia.
  + rewrite (search_step_node s c qu Hq Hl) in E. inversion E; subst s'; clear E.
    unfold search_inv. simpl. rewrite Hi. split; [split; [reflexivity|]|].
    * apply Forall_app. split; [assumption|]. apply Forall_forall.
      intros y Hy. apply in_map_iff in Hy as [i [<- Hin]].
      apply filter_In in Hin as [Hin _]. apply irange_spec in Hin.
      pose proof (ok_child latToY t Hok _ _ Hc Hin) as Hk.
      apply (child_ok_valid t) in Hk; [|lia]. apply Hk.
    * unfold search_potential. simpl.
      rewrite map_app, list_sum_app, map_map.
      rewrite (weight_node latToY t Hok _ Hl Hc).
      pose proof (list_sum_filter_le
                    (fun i => weight (depth_of t) t (child_at (node_at t (index c)) i))
                    (fun i => Rectangle.Intersects
                                (child_rectangle t (child_at (node_at t (index c)) i)) pr)
                    (irange (child_count (node_at t (index c))))).
      lia.
Qed.

Lemma search_loop_terminates :
forall fuel s, search_inv t s -> (search_potential t (s_queue s) < fuel)%nat ->
               exists s', sloop fuel R s = Some s'.
Proof.
induction fuel as [|fuel IH]; intros s Hs Hp; [lia|]. simpl.
destruct (sstep R s) as [s1|s1] eqn:E.
- destruct (search_step_decreases _ _ Hs E) as [Hs1 Hlt]. apply IH; [assumption|lia].
- now exists s1.
Qed.

Lemma search_init_inv : search_inv t (SearchInBox_init t).
Proof.
split; [reflexivity|]. simpl. constructor; [|constructor].
unfold index_valid. simpl. pose proof (ok_nonempty latToY t Hok). lia.
Qed.

End SearchProperties.

(** ** Every leaf of a linked index is on a route from the root *)

Lemma Intersects_inside a b p :
  Rectangle.inside a b = true -> Rectangle.Intersects a p = true ->
  Rectangle.Intersects b p = true.
Proof. rewrite inside_spec, !Intersects_spec. lia. Qed.

Section Routes.

Variable latToY : Z -> Z.
Variable t : StaticRTree.
Variable R : RectangleInt2D.
Hypothesis Hmono : monotone latToY.
Hypothesis Hok : index_ok latToY t = true.
Hypothesis Hlinked : all_linked t = true.

Abbreviation pr := (projected_rectangle latToY R).

Lemma has_child_spec c :
  has_child t c = true ->
  exists k i, 0 <= k < Z.of_nat (length (m_search_tree t))
              /\ 0 <= i < child_count (node_at t k)
              /\ child_at (node_at t k) i = c.
Proof.
  unfold has_child. intros H. apply existsb_exists in H as [k [Hk H]].
  apply existsb_exists in H as [i [Hi H]].
  apply irange_spec in Hk. apply irange_spec in Hi.
  apply andb_prop in H as [H1 H2]. apply Z.eqb_eq in H1. apply Bool.eqb_prop in H2.
  exists k, i. repeat split; try lia.
  destruct (child_at (node_at t k) i), c. simpl in *. congruence.
Qed.

Lemma leaf_meets l i :
  0 <= l < Z.of_nat (length (m_leaves t)) ->
  0 <= i < object_count (leaf_at t l) ->
  Rectangle.Intersects (edge_bbox (m_coordinate_list t) (object_at (leaf_at t l) i)) R = true ->
  Rectangle.Intersects (leaf_minimum_bounding_rectangle (leaf_at t l)) pr = true.
Proof.
  intros Hl Hi Hx.
  destruct (leaf_covers_object latToY t _ i (ok_leaf latToY t Hok l Hl) Hi) as [Hu Hv].
  apply Contains_spec in Hu. apply Contains_spec in Hv. simpl in Hu, Hv.
  apply Intersects_spec in Hx. apply Intersects_spec.
  unfold edge_bbox, projected_rectangle in *. simpl in *.
  set (cu := coord_at (m_coordinate_list t) (u (object_at (leaf_at t l) i))) in *.
  set (cv := coord_at (m_coordinate_list t) (v (object_at (leaf_at t l) i))) in *.
  destruct Hx as (X1 & X2 & X3 & X4).
  assert (Y3 : latToY (min_lat R) <= latToY (lat cu) \/ latToY (min_lat R) <= latToY (lat cv)).
  { destruct (Z.max_spec (lat cu) (lat cv)) as [[_ E]|[_ E]]; rewrite E in X3;
      [right|left]; now apply Hmono. }
  assert (Y4 : latToY (lat cu) <= latToY (max_lat R) \/ latToY (lat cv) <= latToY (max_lat R)).
  { destruct (Z.min_spec (lat cu) (lat cv)) as [[_ E]|[_ E]]; rewrite E in X4;
      [left|right]; now apply Hmono. }
  lia.
Qed.

Lemma route_up :
  forall k, 0 <= k ->
    k < Z.of_nat (length (m_search_tree t)) ->
    forall l, route t pr {| index := k; is_leaf := false |} l ->
              Rectangle.Intersects (minimum_bounding_rectangle (node_at t k)) pr = true ->
              route t pr TreeIndex_default l.
Proof.
  intros k Hk. pattern k. apply Zlt_0_ind; [|assumption]. clear k Hk.
  intros k IH Hk0 Hk l Hr Hx.
  destruct (Z.eq_dec k 0) as [->|Hne]; [exact Hr|].
  unfold all_linked in Hlinked. apply andb_prop in Hlinked as [_ Hn].
  rewrite forallb_forall in Hn.
  specialize (Hn k (proj2 (irange_spec _ _) (conj Hk0 Hk))).
  apply orb_prop in Hn as [Hn|Hn]; [apply Z.eqb_eq in Hn; lia|].
  apply has_child_spec in Hn as (j & i & Hj & Hi & Hc).
  pose proof (ok_child latToY t Hok j i Hj Hi) as Hco.
  apply (child_ok_valid t) in Hco; [|lia]. rewrite Hc in Hco.
  destruct Hco as (_ & Hlt & _ & Hins). specialize (Hlt eq_refl). simpl in Hlt.
  unfold child_rectangle in Hins. simpl in Hins.
  apply (IH j); [lia|lia| |].
  - apply route_node with (i := i); simpl; [reflexivity|assumption| |].
    + rewrite Hc. unfold child_rectangle. simpl. assumption.
    + rewrite Hc. assumption.
  - now apply (Intersects_inside _ _ _ Hins).
Qed.

Lemma route_from_root l i :
  0 <= l < Z.of_nat (length (m_leaves t)) ->
  0 <= i < object_count (leaf_at t l) ->
  Rectangle.Intersects (edge_bbox (m_coordinate_list t) (object_at (leaf_at t l) i)) R = true ->
  route t pr TreeIndex_default l.
Proof.
  intros Hl Hi Hx. pose proof (leaf_meets l i Hl Hi Hx) as Hm.
  pose proof Hlinked as Hlk. unfold all_linked in Hlk. apply andb_prop in Hlk as [Hlf _].
  rewrite forallb_forall in Hlf.
  specialize (Hlf l (proj2 (irange_spec _ _) Hl)).
  apply has_child_spec in Hlf as (j & k & Hj & Hk & Hc).
  pose proof (ok_child latToY t Hok j k Hj Hk) as Hco.
  apply (child_ok_valid t) in Hco; [|lia]. rewrite Hc in Hco.
  destruct Hco as (_ & _ & _ & Hins).
  unfold child_rectangle in Hins. simpl in Hins.
  apply (route_up j); [lia|lia| |].
  - apply route_node with (i := k); simpl; [reflexivity|assumption| |].
    + rewrite Hc. unfold child_rectangle. simpl. assumption.
    + rewrite Hc. apply (route_leaf t pr {| index := l; is_leaf := true |}). reflexivity.
  - now apply (Intersects_inside _ _ _ Hins).
Qed.

End Routes.

(** ** The leaves that the Hilbert and STR packers write *)

Lemma set_at_app {A} (l1 : list A) (x y : A) (l2 : list A) :
  set_at (l1 ++ y :: l2) (Z.of_nat (length l1)) x = l1 ++ x :: l2.
Proof.
  unfold set_at. rewrite Nat2Z.id. induction l1 as [|a l1 IH]; simpl; [reflexivity|].
  f_equal. exact IH.
Qed.

Lemma set_at_app_at {A} (l1 : list A) (x y : A) (l2 : list A) k :
  k = Z.of_nat (length l1) -> set_at (l1 ++ y :: l2) k x = l1 ++ x :: l2.
Proof. intros ->. apply set_at_app. Qed.

Lemma set_at_length {A} (l : list A) i x :
  0 <= i < Z.of_nat (length l) -> length (set_at l i x) = length l.
Proof.
  intros H. unfold set_at. rewrite length_app, length_cons, length_firstn, length_skipn. lia.
Qed.

Lemma at_set_at_same {A} (d : A) (l : list A) i x :
  0 <= i < Z.of_nat (length l) -> at_ d (set_at l i x) i = x.
Proof.
  intros H. unfold at_, set_at.
  rewrite app_nth2; rewrite length_firstn; [|lia].
  replace (Z.to_nat i - Nat.min (Z.to_nat i) (length l))%nat with 0%nat by lia.
  reflexivity.
Qed.

Lemma at_set_at_other {A} (d : A) (l : list A) i j x :
  0 <= i < Z.of_nat (length l) -> 0 <= j -> i <> j ->
  at_ d (set_at l i x) j = at_ d l j.
Proof.
  intros Hi Hj Hne. unfold at_, set_at.
  destruct (Z_lt_le_dec j i) as [Hlt|Hge].
  - rewrite app_nth1 by (rewrite length_firstn; lia).
    rewrite nth_firstn. destruct (Nat.ltb_spec (Z.to_nat j) (Z.to_nat i)); [reflexivity|lia].
  - rewrite app_nth2 by (rewrite length_firstn; lia).
    rewrite length_firstn, Nat.min_l by lia.
    destruct (Z.to_nat j - Z.to_nat i)%nat as [|m] eqn:E; [lia|].
    change (nth (S m) (x :: skipn (S (Z.to_nat i)) l) d)
      with (nth m (skipn (S (Z.to_nat i)) l) d).
    rewrite nth_skipn. f_equal. lia.
Qed.

Lemma union_of_snoc rs r :
  union_of (rs ++ [r]) = Rectangle.MergeBoundingBoxes (union_of rs) r.
Proof. unfold union_of. now rewrite fold_left_app. Qed.

Section LeafPacking.

Variable BRANCHING_FACTOR : Z.
Variable LEAF_NODE_SIZE_ : Z.
Variable latToY : Z -> Z.
Variable cs : list Coordinate.

Abbreviation leaf_of' := (leaf_of latToY cs LEAF_NODE_SIZE_).

Lemma leaf_add_leaf_of es object (pad : list EdgeData) :
(length es + S (length pad) = Z.to_nat LEAF_NODE_SIZE_)%nat ->
leaf_add latToY cs (leaf_of' es) (Z.of_nat (length es)) object = leaf_of' (es ++ [object]).
Proof.
intros Hlen. unfold leaf_add, leaf_of. simpl. f_equal.
- rewrite length_app. simpl. lia.
- rewrite map_app. simpl. rewrite union_of_snoc. reflexivity.
- replace (Z.to_nat LEAF_NODE_SIZE_ - length es)%nat with (S (length pad)) by lia.
  simpl. rewrite set_at_app. rewrite <- app_assoc. simpl. do 2 f_equal.
  rewrite length_app. simpl. f_equal. lia.
Qed.

(** The innermost loop fills the leaf with the next objects, as many as
  fit. *)
Lemma fill_leaf_spec n :
forall es objs,
  (length es + n = Z.to_nat LEAF_NODE_SIZE_)%nat ->
  fill_leaf latToY cs n (Z.of_nat (length es)) (leaf_of' es) objs
  = (leaf_of' (es ++ firstn n objs), skipn n objs).
Proof.
induction n as [|n IH]; intros es objs Hlen; simpl.
- rewrite app_nil_r. now destruct objs.
- destruct objs as [|object rest]; simpl; [now rewrite app_nil_r|].
  rewrite (leaf_add_leaf_of es object (repeat EdgeData_default n))
    by (rewrite repeat_length; lia).
  replace (Z.of_nat (length es) + 1) with (Z.of_nat (length (es ++ [object])))
    by (rewrite length_app; simpl; lia).
  rewrite IH by (rewrite length_app; simpl; lia).
  now rewrite <- app_assoc.
Qed.

Lemma fill_leaf_default objs :
0 <= LEAF_NODE_SIZE_ ->
fill_leaf latToY cs (Z.to_nat LEAF_NODE_SIZE_) 0 (LeafNode_default LEAF_NODE_SIZE_) objs
= (leaf_of' (firstn (Z.to_nat LEAF_NODE_SIZE_) objs),
   skipn (Z.to_nat LEAF_NODE_SIZE_) objs).
Proof.
intros HL.
assert (E : LeafNode_default LEAF_NODE_SIZE_ = leaf_of' [])
  by (unfold LeafNode_default, leaf_of; simpl; now rewrite Nat.sub_0_r).
rewrite E. apply (fill_leaf_spec (Z.to_nat LEAF_NODE_SIZE_) [] objs). simpl. lia.
Qed.

End LeafPacking.

(** ** The level above the leaves *)

Lemma irange_snoc n : 0 <= n -> irange (n + 1) = irange n ++ [n].
Proof.
  intros H. unfold irange. replace (Z.to_nat (n + 1)) with (S (Z.to_nat n)) by lia.
  rewrite seq_S, map_app. simpl. f_equal. f_equal. lia.
Qed.

Lemma irange_0 : irange 0 = [].
Proof. reflexivity. Qed.

Lemma take_chunks_snd_le {A} n sz (l : list A) :
  (length (snd (take_chunks n sz l)) <= length l)%nat.
Proof.
  revert l. induction n as [|n IH]; intros l; [simpl; lia|].
  destruct l as [|x l]; [simpl; lia|]. cbn [take_chunks].
  specialize (IH (skipn sz (x :: l))).
  destruct (take_chunks n sz (skipn sz (x :: l))) as [chs rest].
  cbn [snd] in *. rewrite length_skipn in IH. lia.
Qed.

Lemma take_chunks_progress {A} n sz (l : list A) :
  (0 < n)%nat -> (0 < sz)%nat -> l <> [] ->
  (length (snd (take_chunks n sz l)) < length l)%nat.
Proof.
  intros Hn Hsz Hl. destruct n as [|n]; [lia|]. destruct l as [|x l]; [congruence|].
  cbn [take_chunks].
  pose proof (take_chunks_snd_le n sz (skipn sz (x :: l))) as H.
  destruct (take_chunks n sz (skipn sz (x :: l))) as [chs rest].
  cbn [snd] in *. rewrite length_skipn in H. cbn [length] in *. lia.
Qed.

Lemma take_chunks_concat {A} n sz (l : list A) :
  concat (fst (take_chunks n sz l)) ++ snd (take_chunks n sz l) = l.
Proof.
  revert l. induction n as [|n IH]; intros l; [reflexivity|].
  destruct l as [|x l]; [reflexivity|]. cbn [take_chunks].
  specialize (IH (skipn sz (x :: l))).
  destruct (take_chunks n sz (skipn sz (x :: l))) as [chs rest].
  cbn [fst snd concat] in *. rewrite <- app_assoc, IH. apply firstn_skipn.
Qed.

Section NodePacking.

Variable BRANCHING_FACTOR : Z.
Variable LEAF_NODE_SIZE_ : Z.
Variable latToY : Z -> Z.
Variable cs : list Coordinate.
Hypothesis HB : 0 <= BRANCHING_FACTOR.
Hypothesis HL : 0 <= LEAF_NODE_SIZE_.

Abbreviation leaf_of' := (leaf_of latToY cs LEAF_NODE_SIZE_).
Abbreviation node0 := (node0_of BRANCHING_FACTOR).
Abbreviation B := (Z.to_nat BRANCHING_FACTOR).
Abbreviation L := (Z.to_nat LEAF_NODE_SIZE_).

Lemma node0_default node_index : TreeNode_default BRANCHING_FACTOR = node0 node_index [].
Proof. unfold TreeNode_default, node0_of. simpl. now rewrite Nat.sub_0_r. Qed.

Lemma node0_add node_index ls leaf :
(length ls < B)%nat ->
{| child_count := child_count (node0 node_index ls) + 1;
   minimum_bounding_rectangle :=
     Rectangle.MergeBoundingBoxes (minimum_bounding_rectangle (node0 node_index ls))
                                  (leaf_minimum_bounding_rectangle leaf);
   children :=
     set_at (children (node0 node_index ls)) (Z.of_nat (length ls))
            (mkTreeIndex ((node_index * BRANCHING_FACTOR + Z.of_nat (length ls))
                            mod UINT32_MOD) true) |}
= node0 node_index (ls ++ [leaf]).
Proof.
intros Hlen. unfold node0_of. simpl. f_equal.
- rewrite length_app. simpl. lia.
- rewrite map_app. simpl. now rewrite union_of_snoc.
- rewrite length_app. simpl.
  replace (Z.of_nat (length ls + 1)) with (Z.of_nat (length ls) + 1) by lia.
  rewrite irange_snoc by lia. rewrite map_app. simpl.
  destruct (B - length ls)%nat as [|m] eqn:E; [lia|]. simpl.
  rewrite set_at_app_at by (rewrite length_map, irange_length; lia).
  rewrite <- app_assoc. simpl. do 3 f_equal. lia.
Qed.

(** The middle loop takes the next leaves, as many as the node holds. *)
Lemma fill_node_spec n :
forall node_index ls objs leaf_node_file,
  (length ls + n = B)%nat ->
  fill_node BRANCHING_FACTOR LEAF_NODE_SIZE_ latToY cs n node_index
            (Z.of_nat (length ls)) (node0 node_index ls) objs leaf_node_file
  = (node0 node_index (ls ++ map leaf_of' (fst (take_chunks n L objs))),
     snd (take_chunks n L objs),
     leaf_node_file ++ map leaf_of' (fst (take_chunks n L objs))).
Proof.
induction n as [|n IH]; intros node_index ls objs lf Hlen.
- simpl. now rewrite !app_nil_r.
- destruct objs as [|o objs']; [simpl; now rewrite !app_nil_r|].
  cbn [fill_node take_chunks].
  rewrite fill_leaf_default by assumption. cbv iota beta.
  rewrite node0_add by lia.
  replace (Z.of_nat (length ls) + 1)
    with (Z.of_nat (length (ls ++ [leaf_of' (firstn L (o :: objs'))])))
    by (rewrite length_app; simpl; lia).
  rewrite IH by (rewrite length_app; simpl; lia).
  destruct (take_chunks n L (skipn L (o :: objs'))) as [chs rest].
  cbn [fst snd map]. now rewrite <- !app_assoc.
Qed.

(** The outer loop: the leaf file and the nodes above the leaves. *)
Lemma pack_leaves_spec fuel :
forall node_index objs leaf_node_file level,
  (length objs <= fuel)%nat -> (0 < B)%nat -> (0 < L)%nat ->
  0 <= node_index ->
  node_index + Z.of_nat (length (group_leaves fuel B L objs)) <= UINT32_MOD ->
  pack_leaves BRANCHING_FACTOR LEAF_NODE_SIZE_ latToY cs fuel node_index objs
              leaf_node_file level
  = Some (leaf_node_file
            ++ map leaf_of' (concat (group_leaves fuel B L objs)),
          level
            ++ map (fun g => node0 (fst g) (map leaf_of' (snd g)))
                   (number_from node_index (group_leaves fuel B L objs))).
Proof.
induction fuel as [|fuel IH]; intros node_index objs lf level Hf HB0 HL0 Hn Hmax.
- destruct objs; [|simpl in Hf; lia]. simpl. now rewrite !app_nil_r.
- destruct objs as [|o objs']; [simpl; now rewrite !app_nil_r|].
  cbn [pack_leaves group_leaves].
  rewrite (node0_default node_index).
  pose proof (fill_node_spec B node_index [] (o :: objs') lf ltac:(simpl; lia)) as E0.
  cbn [length Z.of_nat app] in E0. rewrite E0. clear E0.
  cbn [group_leaves] in Hmax.
  destruct (take_chunks B L (o :: objs')) as [chs rest] eqn:E.
  cbn [fst snd app]. cbn [length] in Hmax.
  assert (Hrest : (length rest <= fuel)%nat).
  { pose proof (take_chunks_progress B L (o :: objs') HB0 HL0 ltac:(discriminate)) as G.
    rewrite E in G. cbn [snd length] in *. lia. }
  assert (Hmod : (node_index + 1) mod UINT32_MOD = node_index + 1
                 \/ group_leaves fuel B L rest = []).
  { destruct (group_leaves fuel B L rest) eqn:EG; [now right|left].
    apply Z.mod_small. cbn [length] in Hmax. lia. }
  destruct Hmod as [Hmod|Hnil].
  + rewrite Hmod. rewrite IH by (try assumption; lia).
    cbn [number_from map concat fst snd]. rewrite map_app, <- !app_assoc. reflexivity.
  + assert (Er : rest = []).
    { destruct rest as [|x rest']; [reflexivity|]. destruct fuel; [simpl in Hrest; lia|].
      cbn [group_leaves] in Hnil. destruct (take_chunks B L (x :: rest')). discriminate. }
    subst rest. rewrite Hnil. destruct fuel; simpl; now rewrite !app_nil_r.
Qed.

End NodePacking.

(** ** Packing a level into the next *)

Section LevelPacking.

Variable BRANCHING_FACTOR : Z.
Hypothesis HB : 0 <= BRANCHING_FACTOR.

Abbreviation parent := (parent_of BRANCHING_FACTOR).
Abbreviation B := (Z.to_nat BRANCHING_FACTOR).

Lemma parent_default base : TreeNode_default BRANCHING_FACTOR = parent base [].
Proof. unfold TreeNode_default, parent_of. simpl. now rewrite Nat.sub_0_r. Qed.

Lemma parent_add base kids kid :
(length kids < B)%nat ->
{| child_count := child_count (parent base kids) + 1;
   minimum_bounding_rectangle :=
     Rectangle.MergeBoundingBoxes (minimum_bounding_rectangle (parent base kids))
                                  (minimum_bounding_rectangle kid);
   children :=
     set_at (children (parent base kids)) (Z.of_nat (length kids))
            (mkTreeIndex (base + Z.of_nat (length kids)) false) |}
= parent base (kids ++ [kid]).
Proof.
intros Hlen. unfold parent_of. simpl. f_equal.
- rewrite length_app. simpl. lia.
- rewrite map_app. simpl. now rewrite union_of_snoc.
- rewrite length_app. simpl.
replace (Z.of_nat (length kids + 1)) with (Z.of_nat (length kids) + 1) by lia.
rewrite irange_snoc by lia. rewrite map_app. simpl.
destruct (B - length kids)%nat as [|m] eqn:E; [lia|]. simpl.
rewrite set_at_app_at by (rewrite length_map, irange_length; lia).
rewrite <- app_assoc. simpl. do 3 f_equal. lia.
Qed.

(** The inner loop moves the next nodes of the level to the node array
  and makes them the children of the parent. *)
Lemma fill_parent_spec n :
forall kids level_rest st0,
  (length kids + n = B)%nat ->
  fill_parent n (Z.of_nat (length kids)) (parent (Z.of_nat (length st0)) kids)
              level_rest (st0 ++ kids)
  = (parent (Z.of_nat (length st0)) (kids ++ firstn n level_rest),
     skipn n level_rest,
     st0 ++ kids ++ firstn n level_rest).
Proof.
induction n as [|n IH]; intros kids level_rest st0 Hlen.
- simpl. now rewrite !app_nil_r.
- destruct level_rest as [|kid rest].
+ cbn [fill_parent firstn skipn].
  assert (E : forall m k, fill_parent m k (parent (Z.of_nat (length st0)) kids) []
                                      (st0 ++ kids)
                          = (parent (Z.of_nat (length st0)) kids, [], st0 ++ kids)).
  { induction m as [|m IHm]; intros k; simpl; [reflexivity|apply IHm]. }
  rewrite E. now rewrite !app_nil_r.
+ cbn [fill_parent firstn skipn].
  replace (Z.of_nat (length (st0 ++ kids)))
    with (Z.of_nat (length st0) + Z.of_nat (length kids))
    by (rewrite length_app; lia).
  rewrite parent_add by lia.
  replace (Z.of_nat (length kids) + 1) with (Z.of_nat (length (kids ++ [kid])))
    by (rewrite length_app; simpl; lia).
  replace ((st0 ++ kids) ++ [kid]) with (st0 ++ (kids ++ [kid])) by now rewrite app_assoc.
  rewrite IH by (rewrite length_app; simpl; lia).
  now rewrite <- !app_assoc.
Qed.

Lemma pack_level_spec fuel :
forall level_rest st next,
  (length level_rest <= fuel)%nat -> (0 < B)%nat ->
  pack_level BRANCHING_FACTOR fuel level_rest st next
  = Some (st ++ level_rest,
          next ++ parents_of fuel BRANCHING_FACTOR (Z.of_nat (length st)) level_rest).
Proof.
induction fuel as [|fuel IH]; intros level_rest st next Hf HB0.
- destruct level_rest; [|simpl in Hf; lia]. simpl. now rewrite !app_nil_r.
- destruct level_rest as [|kid rest]; [simpl; now rewrite !app_nil_r|].
cbn [pack_level parents_of].
rewrite (parent_default (Z.of_nat (length st))).
pose proof (fill_parent_spec B [] (kid :: rest) st ltac:(simpl; lia)) as E0.
cbn [length Z.of_nat app] in E0. rewrite app_nil_r in E0. rewrite E0. clear E0.
assert (Hs : (length (skipn B (kid :: rest)) <= fuel)%nat)
  by (rewrite length_skipn; cbn [length] in *; lia).
rewrite IH by assumption.
f_equal. f_equal.
+ rewrite <- app_assoc. f_equal. apply firstn_skipn.
+ rewrite <- app_assoc. f_equal. cbn [app]. f_equal. f_equal.
  rewrite length_app. lia.
Qed.

Lemma parents_of_le fuel :
  forall base level,
    (1 <= B)%nat ->
    (length (parents_of fuel BRANCHING_FACTOR base level) <= length level)%nat.
Proof.
induction fuel as [|fuel IH]; intros base level HB1; [simpl; lia|].
destruct level as [|kid rest]; [simpl; lia|].
cbn [parents_of length].
specialize (IH (base + Z.of_nat (length (firstn B (kid :: rest))))
               (skipn B (kid :: rest)) HB1).
rewrite length_skipn in IH. cbn [length] in IH. lia.
Qed.

Lemma parents_of_length fuel :
forall base level,
  (length level <= fuel)%nat -> (2 <= B)%nat -> (2 <= length level)%nat ->
  (1 <= length (parents_of fuel BRANCHING_FACTOR base level)
   /\ 2 * length (parents_of fuel BRANCHING_FACTOR base level) <= length level + 1)%nat.
Proof.
induction fuel as [|fuel IH]; intros base level Hf HB2 Hl; [lia|].
destruct level as [|kid rest]; [simpl in Hl; lia|].
cbn [parents_of length].
destruct (Nat.le_gt_cases 2 (length (skipn B (kid :: rest)))) as [Hbig|Hsmall].
- specialize (IH (base + Z.of_nat (length (firstn B (kid :: rest))))
               (skipn B (kid :: rest))).
rewrite length_skipn in *. cbn [length] in *.
destruct IH as [IH1 IH2]; [lia|assumption|lia|lia].
- pose proof (parents_of_le fuel (base + Z.of_nat (length (firstn B (kid :: rest))))
                           (skipn B (kid :: rest)) ltac:(lia)) as Hp.
  rewrite length_skipn in Hsmall, Hp. cbn [length] in Hsmall, Hl, Hp. lia.
Qed.

End LevelPacking.

(** ** Unions of rectangles *)

Lemma Merge_empty r : rect32 r -> Rectangle.MergeBoundingBoxes Rectangle.empty r = r.
Proof.
  intros (H1 & H2 & H3 & H4). unfold int32 in *. destruct r as [a b c d]. simpl in *.
  unfold Rectangle.MergeBoundingBoxes. simpl.
  rewrite !Z.min_r, !Z.max_r by lia. reflexivity.
Qed.

Lemma Merge_proper a r :
  proper a -> proper r -> proper (Rectangle.MergeBoundingBoxes a r).
Proof.
  intros [Va (A1 & A2 & A3 & A4)] [Vr (R1 & R2 & R3 & R4)].
  apply IsValid_spec in Va. apply IsValid_spec in Vr. unfold int32 in *.
  split; [apply IsValid_spec|]; unfold rect32, int32; simpl; lia.
Qed.

Lemma Merge_inside_l a r : Rectangle.inside a (Rectangle.MergeBoundingBoxes a r) = true.
Proof. apply inside_spec. simpl. lia. Qed.

Lemma Merge_inside_r a r : Rectangle.inside r (Rectangle.MergeBoundingBoxes a r) = true.
Proof. apply inside_spec. simpl. lia. Qed.

Lemma inside_trans a b c :
  Rectangle.inside a b = true -> Rectangle.inside b c = true -> Rectangle.inside a c = true.
Proof. rewrite !inside_spec. lia. Qed.

Lemma inside_refl a : Rectangle.inside a a = true.
Proof. apply inside_spec. lia. Qed.

Lemma fold_Merge_proper rs :
  forall a, proper a -> Forall proper rs ->
            proper (fold_left Rectangle.MergeBoundingBoxes rs a)
            /\ Rectangle.inside a (fold_left Rectangle.MergeBoundingBoxes rs a) = true
            /\ Forall (fun r => Rectangle.inside
                                  r (fold_left Rectangle.MergeBoundingBoxes rs a) = true) rs.
Proof.
  induction rs as [|r rs IH]; intros a Ha Hrs; simpl.
  - split; [assumption|]. split; [apply inside_refl|constructor].
  - apply Forall_cons_iff in Hrs as [Hr Hrs].
    destruct (IH _ (Merge_proper a r Ha Hr) Hrs) as (P & I & F).
    split; [assumption|]. split; [|constructor; [|assumption]].
    + eapply inside_trans; [apply Merge_inside_l|exact I].
    + eapply inside_trans; [apply Merge_inside_r|exact I].
Qed.

(** The union of proper rectangles, at least one, is proper and holds
    each of them. *)
Lemma union_of_proper rs :
  rs <> [] -> Forall proper rs ->
  proper (union_of rs)
  /\ Forall (fun r => Rectangle.inside r (union_of rs) = true) rs.
Proof.
  intros Hne Hrs. destruct rs as [|r rs]; [congruence|]. unfold union_of. simpl.
  apply Forall_cons_iff in Hrs as [Hr Hrs].
  rewrite (Merge_empty r (proj2 Hr)).
  destruct (fold_Merge_proper rs r Hr Hrs) as (P & I & F).
  split; [assumption|]. constructor; assumption.
Qed.

Lemma segment_box_proper a b :
  int32 (lon a) -> int32 (lat a) -> int32 (lon b) -> int32 (lat b) ->
  proper (segment_box a b).
Proof.
  unfold proper, rect32, int32, segment_box. intros. split; [apply IsValid_spec|]; simpl; lia.
Qed.

Lemma segment_box_ends a b r :
  Rectangle.inside (segment_box a b) r = true ->
  Rectangle.Contains r a = true /\ Rectangle.Contains r b = true.
Proof.
  rewrite inside_spec, !Contains_spec. unfold segment_box. simpl. lia.
Qed.

(** ** The leaves, one by one *)

Section LeafFacts.

Variable LEAF_NODE_SIZE_ : Z.
Variable latToY : Z -> Z.
Variable cs : list Coordinate.

Abbreviation leaf_of' := (leaf_of latToY cs LEAF_NODE_SIZE_).
Abbreviation box := (projected_box latToY cs).

Lemma stored_leaf_of es : stored_objects (leaf_of' es) = es.
Proof.
unfold stored_objects, leaf_of. simpl. rewrite Nat2Z.id.
rewrite firstn_app, Nat.sub_diag, firstn_all. simpl. apply app_nil_r.
Qed.

Lemma leaf_of_exact es : leaf_exact latToY cs (leaf_of' es).
Proof. unfold leaf_exact. now rewrite stored_leaf_of. Qed.

Lemma object_at_leaf_of es i :
0 <= i < Z.of_nat (length es) ->
In (object_at (leaf_of' es) i) es.
Proof.
intros Hi. unfold object_at, at_, leaf_of. simpl.
rewrite app_nth1 by lia. apply nth_In. lia.
Qed.

Lemma leaf_of_proper es :
es <> [] -> Forall (fun e => proper (box e)) es ->
proper (leaf_minimum_bounding_rectangle (leaf_of' es)).
Proof.
intros Hne H. simpl. apply union_of_proper.
- destruct es; [congruence|discriminate].
- apply Forall_map. exact H.
Qed.

Lemma leaf_of_covers es :
Forall (fun e => proper (box e)) es ->
(length es <= Z.to_nat LEAF_NODE_SIZE_)%nat ->
Z.of_nat (length es) <= UINT32_MAX ->
leaf_covers latToY cs (leaf_of' es) = true.
Proof.
intros H Hlen Hmax. unfold leaf_covers.
assert (Hcount : object_count (leaf_of' es) = Z.of_nat (length es)) by reflexivity.
rewrite Hcount.
apply andb_true_intro. split; [apply andb_true_intro; split;
                               [apply andb_true_intro; split|]|].
- apply Z.leb_le. lia.
- apply Z.leb_le. simpl. rewrite length_app, repeat_length. lia.
- apply Z.leb_le. assumption.
- apply forallb_forall. intros i Hi. apply irange_spec in Hi.
  pose proof (object_at_leaf_of es i Hi) as Hin.
  assert (Hne : es <> []) by (destruct es; [simpl in Hi; lia|discriminate]).
  destruct (union_of_proper (map box es)) as [_ Hins].
  { destruct es; [congruence|discriminate]. }
  { apply Forall_map. exact H. }
  rewrite Forall_forall in Hins.
  specialize (Hins (box (object_at (leaf_of' es) i)) (in_map _ _ _ Hin)).
  destruct (segment_box_ends _ _ _ Hins) as [Hu Hv].
  apply andb_true_intro. split; [exact Hu|exact Hv].
Qed.

End LeafFacts.

(** ** Nodes whose children are numbered in a row *)

Lemma map_nth_irange {A} (d : A) (l : list A) :
  map (fun i => nth (Z.to_nat i) l d) (irange (Z.of_nat (length l))) = l.
Proof.
  unfold irange. rewrite Nat2Z.id, map_map.
  rewrite (map_ext _ (fun k => nth k l d)) by (intros k; now rewrite Nat2Z.id).
  induction l as [|x l IH]; [reflexivity|]. simpl. f_equal.
  rewrite <- seq_shift, map_map. exact IH.
Qed.

Lemma map_irange_ext {A} (f g : Z -> A) n :
  (forall i, 0 <= i < n -> f i = g i) -> map f (irange n) = map g (irange n).
Proof. intros H. apply map_ext_in. intros i Hi. apply H. now apply irange_spec. Qed.

Lemma at_row {B} (d : B) (F : Z -> B) (k : Z) (pad : list B) (i : Z) :
  0 <= i < k -> at_ d (map F (irange k) ++ pad) i = F i.
Proof.
  intros Hi. unfold at_. rewrite app_nth1 by (rewrite length_map, irange_length; lia).
  rewrite nth_indep with (d' := F 0) by (rewrite length_map, irange_length; lia).
  rewrite map_nth. rewrite irange_nth by lia. f_equal. lia.
Qed.

Lemma mkTreeIndex_small i l :
  0 <= i < 2147483648 -> mkTreeIndex i l = {| index := i; is_leaf := l |}.
Proof. intros H. unfold mkTreeIndex. now rewrite Z.mod_small. Qed.

(** A node is exact when its rectangle is the union of the rectangles
    that its child entries lead to. *)
Lemma node_exact_of_kids t n (rs : list RectangleInt2D) :
  child_count n = Z.of_nat (length rs) ->
  minimum_bounding_rectangle n = union_of rs ->
  (forall i, 0 <= i < Z.of_nat (length rs) ->
             child_rectangle t (child_at n i) = nth (Z.to_nat i) rs Rectangle.empty) ->
  node_exact t n.
Proof.
  intros Hc Hm Hk. unfold node_exact. rewrite Hm, Hc. f_equal.
  rewrite (map_irange_ext _ (fun i => nth (Z.to_nat i) rs Rectangle.empty)) by exact Hk.
  symmetry. apply map_nth_irange.
Qed.

Section PreFacts.

Variable BRANCHING_FACTOR : Z.
Variable lf : list LeafNode.
Variable cs : list Coordinate.
Hypothesis HB : 1 <= BRANCHING_FACTOR.

Abbreviation pre' := (pre lf cs).
Abbreviation node_pre' := (node_pre BRANCHING_FACTOR lf cs).
Abbreviation forest_pre' := (forest_pre BRANCHING_FACTOR lf cs).
Abbreviation linked_pre' := (linked_pre lf).

Lemma child_rectangle_ext st more c :
child_pre lf (Z.of_nat (length st)) c ->
child_rectangle (pre' (st ++ more)) c = child_rectangle (pre' st) c.
Proof.
intros [H0 H]. unfold child_rectangle, node_at, leaf_at, at_. simpl.
destruct (is_leaf c); [reflexivity|]. rewrite app_nth1 by lia. reflexivity.
Qed.

Lemma child_pre_mono b b' c : b <= b' -> child_pre lf b c -> child_pre lf b' c.
Proof. intros Hb [H0 H]. split; [assumption|]. destruct (is_leaf c); lia. Qed.

Lemma node_pre_ext st more bound bound' n :
bound <= Z.of_nat (length st) -> bound <= bound' ->
node_pre' st bound n -> node_pre' (st ++ more) bound' n.
Proof.
intros Hb Hb' (Hlen & Hcc & Hch & Hex & Hpr).
split; [assumption|]. split; [assumption|]. split; [|split; [|assumption]].
- intros i Hi. eapply child_pre_mono; [|apply Hch; assumption]. assumption.
- unfold node_exact in *. rewrite Hex. f_equal. apply map_irange_ext.
  intros i Hi. symmetry. apply child_rectangle_ext.
  eapply child_pre_mono; [|apply Hch; assumption]. assumption.
Qed.

(** The nodes of a level become stored nodes. *)
Lemma forest_pre_store st level level' :
Permutation level' level ->
forest_pre' st level ->
forall p, 0 <= p < Z.of_nat (length (st ++ level')) ->
          node_pre' (st ++ level') p (at_ (TreeNode_default 0) (st ++ level') p).
Proof.
intros Hperm [Hst Hlv] p Hp. rewrite length_app in Hp.
destruct (Z_lt_le_dec p (Z.of_nat (length st))) as [Hlt|Hge].
- unfold at_. rewrite app_nth1 by lia.
  apply node_pre_ext with (bound := p); [lia|lia|]. apply Hst. lia.
- unfold at_. rewrite app_nth2 by lia.
  apply node_pre_ext with (bound := Z.of_nat (length st)); [lia|lia|].
  apply Hlv. apply (Permutation_in _ Hperm). apply nth_In. lia.
Qed.

End PreFacts.

(** ** The parents of a level *)

Section ParentFacts.

Variable BRANCHING_FACTOR : Z.
Variable lf : list LeafNode.
Variable cs : list Coordinate.
Hypothesis HB : 1 <= BRANCHING_FACTOR.

Abbreviation B := (Z.to_nat BRANCHING_FACTOR).
Abbreviation node_pre' := (node_pre BRANCHING_FACTOR lf cs).

Lemma nth_middle_run {A} (d : A) (l1 l2 l3 : list A) i :
(i < length l2)%nat -> nth (length l1 + i) (l1 ++ l2 ++ l3) d = nth i l2 d.
Proof.
intros Hi. rewrite app_nth2 by lia.
replace (length l1 + i - length l1)%nat with i by lia.
now rewrite app_nth1 by lia.
Qed.

(** One parent, made of the run [kids] of the stored nodes. *)
Lemma parent_of_pre (st consumed kids rest : list TreeNode) :
kids <> [] -> (length kids <= B)%nat ->
Forall (fun n => proper (minimum_bounding_rectangle n)) kids ->
Z.of_nat (length (st ++ consumed ++ kids ++ rest)) < 2147483648 ->
node_pre' (st ++ consumed ++ kids ++ rest)
          (Z.of_nat (length (st ++ consumed ++ kids ++ rest)))
          (parent_of BRANCHING_FACTOR (Z.of_nat (length (st ++ consumed))) kids).
Proof.
intros Hne Hlen Hpr Hsmall.
set (base := Z.of_nat (length (st ++ consumed))).
set (A := st ++ consumed ++ kids ++ rest) in *.
assert (HA : Z.of_nat (length A) = base + Z.of_nat (length kids) + Z.of_nat (length rest)).
{ unfold A, base. rewrite !length_app. lia. }
assert (Hchild : forall i, 0 <= i < Z.of_nat (length kids) ->
           child_at (parent_of BRANCHING_FACTOR base kids) i
           = {| index := base + i; is_leaf := false |}).
{ intros i Hi. unfold child_at, parent_of. cbn [children].
  rewrite at_row by assumption. apply mkTreeIndex_small. unfold base in *. lia. }
split; [|split; [|split; [|split]]].
- unfold parent_of. cbn [children].
  rewrite length_app, length_map, irange_length, repeat_length. lia.
- unfold parent_of. cbn [child_count].
  destruct kids; [congruence|]. cbn [length] in *. lia.
- intros i Hi. unfold parent_of in Hi. cbn [child_count] in Hi.
  rewrite (Hchild i Hi). split; simpl; unfold base in *; lia.
- apply node_exact_of_kids with (rs := map minimum_bounding_rectangle kids).
  + unfold parent_of. cbn [child_count]. now rewrite length_map.
  + reflexivity.
  + rewrite length_map. intros i Hi. rewrite (Hchild i Hi).
    unfold child_rectangle, node_at, at_. cbn [is_leaf index pre m_search_tree].
    rewrite nth_indep with (d' := minimum_bounding_rectangle (TreeNode_default 0))
                           (n := Z.to_nat i)
      by (rewrite length_map; lia).
    rewrite (map_nth minimum_bounding_rectangle). f_equal.
    unfold A. rewrite app_assoc.
    replace (Z.to_nat (base + i)) with (length (st ++ consumed) + Z.to_nat i)%nat
      by (unfold base; lia).
    apply nth_middle_run. lia.
- unfold parent_of. cbn [minimum_bounding_rectangle]. apply union_of_proper.
  + destruct kids; [congruence|discriminate].
  + apply Forall_map. exact Hpr.
Qed.

Lemma parent_of_child base kids i :
0 <= i < Z.of_nat (length kids) -> 0 <= base -> base + i < 2147483648 ->
child_at (parent_of BRANCHING_FACTOR base kids) i = {| index := base + i; is_leaf := false |}.
Proof.
intros Hi Hb Hs. unfold child_at, parent_of. cbn [children].
rewrite at_row by assumption. apply mkTreeIndex_small. lia.
Qed.

(** All parents of a level: each is a node over the stored nodes, and
  each node of the level is the child of one of them. *)
Lemma parents_of_pre fuel :
forall st consumed remaining,
  (length remaining <= fuel)%nat ->
  Forall (fun n => proper (minimum_bounding_rectangle n)) remaining ->
  Z.of_nat (length (st ++ consumed ++ remaining)) < 2147483648 ->
  (forall n, In n (parents_of fuel BRANCHING_FACTOR
                              (Z.of_nat (length (st ++ consumed))) remaining) ->
             node_pre' (st ++ consumed ++ remaining)
                       (Z.of_nat (length (st ++ consumed ++ remaining))) n)
  /\ (forall q, Z.of_nat (length (st ++ consumed)) <= q
                < Z.of_nat (length (st ++ consumed ++ remaining)) ->
                is_child_in (parents_of fuel BRANCHING_FACTOR
                                        (Z.of_nat (length (st ++ consumed))) remaining)
                            {| index := q; is_leaf := false |}).
Proof.
induction fuel as [|fuel IH]; intros st consumed remaining Hf Hpr Hsmall.
- destruct remaining; [|simpl in Hf; lia]. simpl. split; [intros n []|].
  intros q Hq. rewrite app_nil_r in Hq. lia.
- destruct remaining as [|kid rest].
  + simpl. split; [intros n []|]. intros q Hq. rewrite app_nil_r in Hq. lia.
  + cbn [parents_of].
    set (kids := firstn B (kid :: rest)). set (rest' := skipn B (kid :: rest)).
    assert (Hsplit : kid :: rest = kids ++ rest') by (symmetry; apply firstn_skipn).
    assert (Hkne : kids <> []).
    { unfold kids. destruct B as [|b] eqn:EB; [lia|]. discriminate. }
    assert (Hklen : (length kids <= B)%nat) by (unfold kids; rewrite length_firstn; lia).
    assert (Hk1 : (1 <= length kids)%nat) by (destruct kids; [congruence|simpl; lia]).
    rewrite Hsplit in Hpr, Hsmall |- *. clearbody kids rest'.
    apply Forall_app in Hpr as [Hprk Hprr].
    assert (Hrl : (length rest' <= fuel)%nat).
    { pose proof (f_equal (@length _) Hsplit) as El. rewrite length_app in El.
      cbn [length] in El, Hf. lia. }
    specialize (IH st (consumed ++ kids) rest' Hrl Hprr).
    replace (st ++ (consumed ++ kids) ++ rest') with (st ++ consumed ++ kids ++ rest') in IH
      by (now rewrite <- !app_assoc).
    replace (Z.of_nat (length (st ++ consumed ++ kids)))
      with (Z.of_nat (length (st ++ consumed)) + Z.of_nat (length kids)) in IH
      by (rewrite !length_app; lia).
    destruct (IH Hsmall) as [IHn IHq]. split.
    * intros n [<-|Hn]; [now apply parent_of_pre|now apply IHn].
    * intros q Hq.
      destruct (Z_lt_le_dec q (Z.of_nat (length (st ++ consumed)) + Z.of_nat (length kids)))
        as [Hin|Hout].
      -- exists (parent_of BRANCHING_FACTOR (Z.of_nat (length (st ++ consumed))) kids),
                (q - Z.of_nat (length (st ++ consumed))).
         split; [now left|]. split; [unfold parent_of; cbn [child_count]; lia|].
         rewrite parent_of_child; [f_equal; lia|lia|lia|].
         rewrite !length_app in *. lia.
      -- destruct (IHq q) as (n & i & Hn & Hi & Hc).
         { rewrite !length_app in *. lia. }
         exists n, i. split; [now right|]. split; assumption.
Qed.

End ParentFacts.

(** ** The loop over the levels *)

Section LevelLoop.

Variable BRANCHING_FACTOR : Z.
Variable lf : list LeafNode.
Variable cs : list Coordinate.
Hypothesis HB : 2 <= BRANCHING_FACTOR.

Abbreviation B := (Z.to_nat BRANCHING_FACTOR).
Abbreviation forest_pre' := (forest_pre BRANCHING_FACTOR lf cs).
Abbreviation linked_pre' := (linked_pre lf).

Lemma is_child_in_incl nodes nodes' c :
incl nodes nodes' -> is_child_in nodes c -> is_child_in nodes' c.
Proof. intros Hi (n & i & Hn & H). exists n, i. split; [now apply Hi|assumption]. Qed.

Lemma level_step st level level' fuel :
forest_pre' st level -> linked_pre' st level ->
Permutation level' level ->
Z.of_nat (length (st ++ level')) < 2147483648 ->
(length level' <= fuel)%nat ->
forest_pre' (st ++ level')
            (parents_of fuel BRANCHING_FACTOR (Z.of_nat (length st)) level')
/\ linked_pre' (st ++ level')
               (parents_of fuel BRANCHING_FACTOR (Z.of_nat (length st)) level').
Proof.
intros Hf Hl Hperm Hsmall Hfuel.
assert (Hproper : Forall (fun n => proper (minimum_bounding_rectangle n)) level').
{ apply Forall_forall. intros n Hn. apply (Permutation_in _ Hperm) in Hn.
  destruct Hf as [_ Hlv]. apply (Hlv n Hn). }
pose proof (parents_of_pre BRANCHING_FACTOR lf cs ltac:(lia) fuel st [] level'
                           Hfuel Hproper) as Hp.
cbn [app] in Hp. rewrite app_nil_r in Hp. destruct (Hp Hsmall) as [Hpn Hpq]. clear Hp.
assert (Hincl : incl (st ++ level)
                     ((st ++ level')
                        ++ parents_of fuel BRANCHING_FACTOR (Z.of_nat (length st)) level')).
{ intros n Hn. apply in_or_app. left. apply in_app_or in Hn as [Hn|Hn];
    apply in_or_app; [now left|right].
  apply (Permutation_in _ (Permutation_sym Hperm)). assumption. }
split; [split|split].
- apply (forest_pre_store BRANCHING_FACTOR lf cs st level level' Hperm Hf).
- exact Hpn.
- intros g Hg. destruct Hl as [Hl1 _]. eapply is_child_in_incl; [exact Hincl|now apply Hl1].
- intros p Hp. destruct (Z_lt_le_dec p (Z.of_nat (length st))) as [Hlt|Hge].
  + destruct Hl as [_ Hl2]. eapply is_child_in_incl; [exact Hincl|]. apply Hl2. lia.
  + eapply is_child_in_incl; [|apply Hpq; lia]. intros n Hn. apply in_or_app. now right.
Qed.

Variable prepare : list TreeNode -> list TreeNode.
Hypothesis Hprepare : forall l, Permutation (prepare l) l.

(** The loop ends with one node left, the root, when it starts from a
  level that is not empty. *)
Lemma pack_levels_spec fuel :
forall level st M,
  (length level <= fuel)%nat ->
  forest_pre' st level -> linked_pre' st level ->
  Z.of_nat (length st) + 3 * Z.of_nat (length level) <= M -> M < 2147483648 ->
  level <> [] ->
  exists root st',
    pack_levels BRANCHING_FACTOR prepare fuel level st = Some ([root], st')
    /\ forest_pre' st' [root] /\ linked_pre' st' [root]
    /\ Z.of_nat (length st') + 3 <= M.
Proof.
induction fuel as [|fuel IH]; intros level st M Hf Hfo Hli HM HM' Hne.
- destruct level; [congruence|simpl in Hf; lia].
- cbn [pack_levels].
  destruct (1 <? Z.of_nat (length level)) eqn:E.
  + apply Z.ltb_lt in E.
    pose proof (Permutation_length (Hprepare level)) as Hlen.
    rewrite pack_level_spec by lia. cbn [app].
    destruct (level_step st level (prepare level) (length (prepare level)) Hfo Hli
                         (Hprepare level)) as [Hfo' Hli'].
    { rewrite length_app. lia. }
    { lia. }
    destruct (parents_of_length BRANCHING_FACTOR (length (prepare level))
                (Z.of_nat (length st)) (prepare level)) as [Hp1 Hp2]; [lia|lia|lia|].
    apply IH with (M := M); try assumption.
    * lia.
    * rewrite length_app. lia.
    * destruct (parents_of _ _ _ _); [simpl in Hp1; lia|discriminate].
  + apply Z.ltb_ge in E. destruct level as [|root [|x level]]; [congruence| |simpl in E; lia].
    exists root, st. cbn [length] in HM.
  split; [reflexivity|]. split; [assumption|]. split; [assumption|lia].
Qed.

End LevelLoop.

(** ** The groups of leaves *)

Lemma take_chunks_fst {A} n sz (l : list A) :
  (0 < sz)%nat ->
  (length (fst (take_chunks n sz l)) <= n)%nat
  /\ Forall (fun c => c <> [] /\ (length c <= sz)%nat) (fst (take_chunks n sz l))
  /\ (snd (take_chunks n sz l) <> [] -> length (fst (take_chunks n sz l)) = n)
  /\ (l <> [] -> (0 < n)%nat -> fst (take_chunks n sz l) <> []).
Proof.
  intros Hsz. revert l. induction n as [|n IH]; intros l.
  - simpl. repeat split; [lia|constructor|lia].
  - destruct l as [|x l].
    + simpl. repeat split; [lia|constructor|congruence|congruence].
    + cbn [take_chunks]. specialize (IH (skipn sz (x :: l))).
      destruct (take_chunks n sz (skipn sz (x :: l))) as [chs rest]. cbn [fst snd] in *.
      destruct IH as (I1 & I2 & I3 & I4). repeat split.
      * cbn [length]. lia.
      * constructor; [|assumption]. split.
        -- destruct sz; [lia|discriminate].
        -- rewrite length_firstn. lia.
      * intros Hr. cbn [length]. f_equal. now apply I3.
      * discriminate.
Qed.

Lemma group_leaves_regular {A} fuel B L (objs : list A) :
  (0 < B)%nat -> (0 < L)%nat ->
  regular B (group_leaves fuel B L objs)
  /\ Forall (Forall (fun c => c <> [] /\ (length c <= L)%nat)) (group_leaves fuel B L objs).
Proof.
  intros HB HL. revert objs. induction fuel as [|fuel IH]; intros objs.
  - simpl. split; [exact I|constructor].
  - destruct objs as [|o objs]; [simpl; split; [exact I|constructor]|].
    cbn [group_leaves].
    pose proof (take_chunks_fst B L (o :: objs) HL) as (T1 & T2 & T3 & T4).
    destruct (take_chunks B L (o :: objs)) as [chs rest]. cbn [fst snd] in *.
    destruct (IH rest) as [IR IF]. split.
    + cbn [regular]. repeat split; try assumption.
      * apply T4; [discriminate|assumption].
      * intros Hne. apply T3. intros ->. apply Hne. destruct fuel; reflexivity.
    + constructor; assumption.
Qed.

Lemma group_leaves_concat {A} fuel B L (objs : list A) :
  (0 < B)%nat -> (0 < L)%nat -> (length objs <= fuel)%nat ->
  concat (concat (group_leaves fuel B L objs)) = objs.
Proof.
  intros HB HL. revert objs. induction fuel as [|fuel IH]; intros objs Hf.
  - destruct objs; [reflexivity|simpl in Hf; lia].
  - destruct objs as [|o objs]; [reflexivity|]. cbn [group_leaves].
    pose proof (take_chunks_concat B L (o :: objs)) as C.
    pose proof (take_chunks_progress B L (o :: objs) HB HL ltac:(discriminate)) as P.
    destruct (take_chunks B L (o :: objs)) as [chs rest]. cbn [fst snd] in *.
    cbn [concat]. rewrite concat_app, IH by (cbn [length] in *; lia). exact C.
Qed.

Section LevelZero.

Variable BRANCHING_FACTOR : Z.
Variable LEAF_NODE_SIZE_ : Z.
Variable latToY : Z -> Z.
Variable cs : list Coordinate.
Variable lf : list LeafNode.
Hypothesis HB : 1 <= BRANCHING_FACTOR.
Hypothesis Hsmall : Z.of_nat (length lf) < 2147483648.
Hypothesis Hproper : Forall (fun l => proper (leaf_minimum_bounding_rectangle l)) lf.

Abbreviation B := (Z.to_nat BRANCHING_FACTOR).
Abbreviation node_pre' := (node_pre BRANCHING_FACTOR lf cs).
Abbreviation node0 := (node0_of BRANCHING_FACTOR).

Lemma node0_child j ls i :
0 <= i < Z.of_nat (length ls) -> 0 <= j * BRANCHING_FACTOR ->
j * BRANCHING_FACTOR + i < 2147483648 ->
child_at (node0 j ls) i = {| index := j * BRANCHING_FACTOR + i; is_leaf := true |}.
Proof.
intros Hi Hj Hs. unfold child_at, node0_of. cbn [children].
rewrite at_row by assumption. rewrite Z.mod_small by (unfold UINT32_MOD; lia).
apply mkTreeIndex_small. lia.
Qed.

(** One node above the leaves [ls], which are the leaves of the file
  from position [j * B] on. *)
Lemma node0_pre j (before ls after' : list LeafNode) :
lf = before ++ ls ++ after' ->
Z.of_nat (length before) = j * BRANCHING_FACTOR ->
ls <> [] -> (length ls <= B)%nat ->
node_pre' [] 0 (node0 j ls).
Proof.
intros Hlf Hbefore Hne Hlen.
assert (Hlen' : Z.of_nat (length lf)
                = j * BRANCHING_FACTOR + Z.of_nat (length ls) + Z.of_nat (length after'))
  by (rewrite Hlf, !length_app; lia).
assert (Hchild : forall i, 0 <= i < Z.of_nat (length ls) ->
           child_at (node0 j ls) i
           = {| index := j * BRANCHING_FACTOR + i; is_leaf := true |})
  by (intros i Hi; apply node0_child; lia).
assert (Hls : Forall (fun l => proper (leaf_minimum_bounding_rectangle l)) ls).
{ rewrite Hlf in Hproper. apply Forall_app in Hproper as [_ Hp].
  now apply Forall_app in Hp as [Hp _]. }
split; [|split; [|split; [|split]]].
- unfold node0_of. cbn [children].
  rewrite length_app, length_map, irange_length, repeat_length. lia.
- unfold node0_of. cbn [child_count]. destruct ls; [congruence|]. cbn [length] in *. lia.
- intros i Hi. unfold node0_of in Hi. cbn [child_count] in Hi.
  rewrite (Hchild i Hi). split; simpl; lia.
- apply node_exact_of_kids with (rs := map leaf_minimum_bounding_rectangle ls).
  + unfold node0_of. cbn [child_count]. now rewrite length_map.
  + reflexivity.
  + rewrite length_map. intros i Hi. rewrite (Hchild i Hi).
    unfold child_rectangle, leaf_at, at_. cbn [is_leaf index pre m_leaves].
    rewrite nth_indep with (d' := leaf_minimum_bounding_rectangle (LeafNode_default 0))
                           (n := Z.to_nat i)
      by (rewrite length_map; lia).
    rewrite (map_nth leaf_minimum_bounding_rectangle). f_equal.
    rewrite Hlf.
    replace (Z.to_nat (j * BRANCHING_FACTOR + i)) with (length before + Z.to_nat i)%nat
      by lia.
    apply nth_middle_run. lia.
- unfold node0_of. cbn [minimum_bounding_rectangle]. apply union_of_proper.
  + destruct ls; [congruence|discriminate].
  + apply Forall_map. exact Hls.
Qed.

(** All nodes above the leaves: each is a node over leaves of the file,
  and each leaf of the file is the child of one of them. *)
Lemma level0_pre (mk : list EdgeData -> LeafNode) (G : list (list (list EdgeData))) :
forall j before,
  regular B G ->
  lf = before ++ map mk (concat G) ->
  Z.of_nat (length before) = j * BRANCHING_FACTOR ->
  (forall n, In n (map (fun g => node0 (fst g) (map mk (snd g))) (number_from j G)) ->
             node_pre' [] 0 n)
  /\ (forall q, Z.of_nat (length before) <= q < Z.of_nat (length lf) ->
                is_child_in (map (fun g => node0 (fst g) (map mk (snd g)))
                                 (number_from j G))
                            {| index := q; is_leaf := true |}).
Proof.
induction G as [|g G IH]; intros j before Hreg Hlf Hbefore.
- simpl. split; [intros n []|]. intros q Hq. rewrite Hlf in Hq.
  simpl in Hq. rewrite app_nil_r in Hq. lia.
- cbn [regular] in Hreg. destruct Hreg as (Hne & Hlen & Hfull & Hreg).
  cbn [concat] in Hlf. rewrite map_app in Hlf.
  assert (Hpre : node_pre' [] 0 (node0 j (map mk g))).
  { apply (node0_pre j before (map mk g) (map mk (concat G)) Hlf Hbefore).
    - destruct g; [congruence|discriminate].
    - now rewrite length_map. }
  cbn [number_from map fst snd].
  destruct G as [|g' G'].
  + cbn [number_from map]. split.
    * intros n [<-|[]]. exact Hpre.
    * intros q Hq. exists (node0 j (map mk g)), (q - j * BRANCHING_FACTOR).
      rewrite Hlf in Hq. simpl in Hq. rewrite app_nil_r, length_app in Hq.
      split; [now left|]. split; [unfold node0_of; cbn [child_count]; lia|].
      rewrite node0_child; [f_equal; lia|lia|lia|].
      rewrite Hlf, !length_app in Hsmall. lia.
  + specialize (Hfull ltac:(discriminate)).
    destruct (IH (j + 1) (before ++ map mk g) Hreg) as [IHn IHq].
    * now rewrite <- app_assoc.
    * rewrite length_app, length_map, Hfull. lia.
    * split.
      -- intros n [<-|Hn]; [exact Hpre|now apply IHn].
      -- intros q Hq.
         destruct (Z_lt_le_dec q (Z.of_nat (length (before ++ map mk g)))) as [Hin|Hout].
         ++ exists (node0 j (map mk g)), (q - j * BRANCHING_FACTOR).
            rewrite length_app in Hin.
            split; [now left|]. split; [unfold node0_of; cbn [child_count]; lia|].
            rewrite node0_child; [f_equal; lia|lia|lia|]. rewrite Hlf, !length_app in Hsmall. lia.
         ++ destruct (IHq q ltac:(lia)) as (n & i & Hn & Hi & Hc).
            exists n, i. split; [now right|]. split; assumption.
Qed.

End LevelZero.

(** ** Reversing and renumbering *)

Lemma irange_NoDup n : NoDup (irange n).
Proof.
  unfold irange. apply Finite.Injective_map_NoDup; [|apply seq_NoDup].
  intros a b H. lia.
Qed.

Lemma update_step_at (G : TreeIndex -> TreeIndex) (cs : list TreeIndex) j i :
  0 <= j < Z.of_nat (length cs) -> 0 <= i ->
  at_ TreeIndex_default (set_at cs j (G (at_ TreeIndex_default cs j))) i
  = if i =? j then G (at_ TreeIndex_default cs j) else at_ TreeIndex_default cs i.
Proof.
  intros Hj Hi. destruct (i =? j) eqn:E.
  - apply Z.eqb_eq in E. subst i. now apply at_set_at_same.
  - apply Z.eqb_neq in E. apply at_set_at_other; [assumption|assumption|congruence].
Qed.

Lemma renumber_fold S js :
  forall cs,
    NoDup js -> (forall j, In j js -> 0 <= j < Z.of_nat (length cs)) ->
    let cs' :=
      fold_left
        (fun cs j =>
           let c := at_ TreeIndex_default cs j in
           if negb (is_leaf c) then
             let old_id := index c in
             let new_id := (S - old_id - 1) mod UINT32_MOD in
             set_at cs j {| index := new_id mod 2147483648; is_leaf := is_leaf c |}
           else cs)
        js cs in
    length cs' = length cs
    /\ forall i, 0 <= i ->
                 at_ TreeIndex_default cs' i
                 = if existsb (Z.eqb i) js
                   then renumber_child S (at_ TreeIndex_default cs i)
                   else at_ TreeIndex_default cs i.
Proof.
  induction js as [|j js IH]; intros cs Hnd Hin; cbn zeta.
  - simpl. split; [reflexivity|]. intros i Hi. reflexivity.
  - cbn [fold_left].
    set (cs1 := if negb (is_leaf (at_ TreeIndex_default cs j))
                then set_at cs j
                       {| index := ((S - index (at_ TreeIndex_default cs j) - 1)
                                      mod UINT32_MOD) mod 2147483648;
                          is_leaf := is_leaf (at_ TreeIndex_default cs j) |}
                else cs).
    assert (Hj : 0 <= j < Z.of_nat (length cs)) by (apply Hin; now left).
    assert (Hlen1 : length cs1 = length cs).
    { unfold cs1. destruct (negb _); [now apply set_at_length|reflexivity]. }
    assert (Hat1 : forall i, 0 <= i ->
               at_ TreeIndex_default cs1 i
               = if i =? j then renumber_child S (at_ TreeIndex_default cs j)
                 else at_ TreeIndex_default cs i).
    { intros i Hi. unfold cs1, renumber_child.
      destruct (negb (is_leaf (at_ TreeIndex_default cs j))) eqn:E.
      - destruct (i =? j) eqn:E'.
        + apply Z.eqb_eq in E'. subst i. now apply at_set_at_same.
        + apply Z.eqb_neq in E'. apply at_set_at_other; [assumption|assumption|congruence].
      - destruct (i =? j) eqn:E'; [|reflexivity]. apply Z.eqb_eq in E'. now subst i. }
    apply NoDup_cons_iff in Hnd as [Hnj Hnd].
    destruct (IH cs1 Hnd) as [IHlen IHat].
    { intros j' Hj'. rewrite Hlen1. apply Hin. now right. }
    cbn zeta in IHlen, IHat. fold cs1. split; [now rewrite IHlen|].
    intros i Hi. rewrite (IHat i Hi). cbn [existsb].
    destruct (i =? j) eqn:E.
    + apply Z.eqb_eq in E. subst i. cbn [orb].
      destruct (existsb (Z.eqb j) js) eqn:Ex.
      * exfalso. apply Hnj. apply existsb_exists in Ex as [x [Hx Hxe]].
        apply Z.eqb_eq in Hxe. now subst x.
      * rewrite Hat1 by assumption. now rewrite Z.eqb_refl.
    + cbn [orb]. rewrite Hat1 by assumption. rewrite E. reflexivity.
Qed.

Lemma renumber_node_spec S n :
  0 <= child_count n <= Z.of_nat (length (children n)) ->
  child_count (renumber_node S n) = child_count n
  /\ minimum_bounding_rectangle (renumber_node S n) = minimum_bounding_rectangle n
  /\ length (children (renumber_node S n)) = length (children n)
  /\ forall i, 0 <= i < child_count n ->
               child_at (renumber_node S n) i = renumber_child S (child_at n i).
Proof.
  intros Hc. unfold renumber_node. cbn [child_count minimum_bounding_rectangle children].
  destruct (renumber_fold S (irange (child_count n)) (children n) (irange_NoDup _))
    as [Hlen Hat].
  { intros j Hj. apply irange_spec in Hj. lia. }
  cbn zeta in Hlen, Hat. repeat split; try assumption.
  intros i Hi. unfold child_at. rewrite Hat by lia.
  assert (E : existsb (Z.eqb i) (irange (child_count n)) = true).
  { apply existsb_exists. exists i. split; [now apply irange_spec|apply Z.eqb_refl]. }
  now rewrite E.
Qed.

Lemma at_map_rev {A B} (f : A -> B) (da : A) (db : B) (l : list A) k :
  0 <= k < Z.of_nat (length l) ->
  at_ db (map f (rev l)) k = f (at_ da l (Z.of_nat (length l) - 1 - k)).
Proof.
  intros Hk. unfold at_.
  rewrite nth_indep with (d' := f da) by (rewrite length_map, length_rev; lia).
  rewrite map_nth. f_equal. rewrite rev_nth by lia. f_equal. lia.
Qed.

(** ** The finished index *)

Section Finalize.

Variable BRANCHING_FACTOR : Z.
Variable latToY : Z -> Z.
Variable lf : list LeafNode.
Variable cs : list Coordinate.
Variable st : list TreeNode.
Variable root : TreeNode.
Hypothesis HB : 1 <= BRANCHING_FACTOR.
Hypothesis Hproper : Forall (fun l => proper (leaf_minimum_bounding_rectangle l)) lf.
Hypothesis Hcovers : Forall (fun l => leaf_covers latToY cs l = true) lf.
Hypothesis Hexact : Forall (leaf_exact latToY cs) lf.
Hypothesis Hforest : forest_pre BRANCHING_FACTOR lf cs st [root].
Hypothesis Hlinked : linked_pre lf st [root].
Hypothesis Hsize : Z.of_nat (length st) + 3 <= 2147483648.

Local Abbreviation A := (st ++ [root]).
Local Abbreviation S := (Z.of_nat (length (st ++ [root]))).
Local Abbreviation pre' := (pre lf cs).
Local Abbreviation node_pre' := (node_pre BRANCHING_FACTOR lf cs).
Local Abbreviation t :=
{| m_search_tree := finalize_tree [root] st; m_leaves := lf; m_coordinate_list := cs |}.

Lemma final_S : S = Z.of_nat (length st) + 1.
Proof. rewrite length_app. simpl. lia. Qed.

Lemma final_size : Z.of_nat (length (rev A)) mod UINT32_MOD = S.
Proof.
rewrite length_rev. apply Z.mod_small. rewrite final_S. unfold UINT32_MOD. lia.
Qed.

Lemma final_length : Z.of_nat (length (m_search_tree t)) = S.
Proof.
cbn [m_search_tree]. unfold finalize_tree. cbv zeta.
rewrite length_map, length_rev. reflexivity.
Qed.

Lemma final_node k :
0 <= k < S ->
node_at t k = renumber_node S (at_ (TreeNode_default 0) A (S - 1 - k)).
Proof.
intros Hk. unfold node_at. cbn [m_search_tree]. unfold finalize_tree. cbv zeta.
change (at_ (TreeNode_default 0) [root] 0) with root.
rewrite final_size.
rewrite (at_map_rev (renumber_node S) (TreeNode_default 0) (TreeNode_default 0) A k Hk).
reflexivity.
Qed.

Lemma final_forest p :
0 <= p < S -> node_pre' A p (at_ (TreeNode_default 0) A p).
Proof.
intros Hp.
apply forest_pre_store with (level := [root]);
  [apply Permutation_refl|exact Hforest|exact Hp].
Qed.

Lemma final_counts n bound :
node_pre' A bound n -> 0 <= child_count n <= Z.of_nat (length (children n)).
Proof. intros (Hl & Hc & _). rewrite Hl. lia. Qed.

Lemma final_child_index c bound :
bound <= S -> child_pre lf bound c -> is_leaf c = false ->
renumber_child S c = {| index := S - 1 - index c; is_leaf := false |}.
Proof.
intros Hb [H0 H] Hl. unfold renumber_child. rewrite Hl in *. cbn [negb].
f_equal. rewrite final_S in *. unfold UINT32_MOD.
rewrite (Z.mod_small (Z.of_nat (length st) + 1 - index c - 1) 4294967296) by lia.
rewrite Z.mod_small by lia. lia.
Qed.

Lemma final_rectangle c bound :
bound <= S -> child_pre lf bound c ->
child_rectangle t (renumber_child S c) = child_rectangle (pre' A) c.
Proof.
intros Hb Hc. destruct (is_leaf c) eqn:Hl.
- unfold renumber_child. rewrite Hl. cbn [negb]. unfold child_rectangle. rewrite Hl.
  reflexivity.
- rewrite (final_child_index c bound Hb Hc Hl).
  unfold child_rectangle. rewrite Hl. cbn [is_leaf index].
  destruct Hc as [H0 H]. rewrite Hl in H.
  rewrite final_node by lia.
  assert (Hn := final_forest (index c) ltac:(lia)).
  destruct (renumber_node_spec S _ (final_counts _ _ (final_forest (S - 1 - (S - 1 - index c)) ltac:(lia))))
    as (_ & Hm & _).
  rewrite Hm. replace (S - 1 - (S - 1 - index c)) with (index c) by lia.
  reflexivity.
Qed.

Lemma final_rect_proper c bound :
bound <= S -> child_pre lf bound c -> proper (child_rectangle (pre' A) c).
Proof.
intros Hb [H0 H]. unfold child_rectangle. destruct (is_leaf c).
- rewrite Forall_forall in Hproper. apply Hproper.
  unfold leaf_at, at_. cbn [m_leaves pre]. apply nth_In. lia.
- destruct (final_forest (index c) ltac:(lia)) as (_ & _ & _ & _ & Hp). exact Hp.
Qed.

Lemma final_inside n bound i :
bound <= S -> node_pre' A bound n -> 0 <= i < child_count n ->
Rectangle.inside (child_rectangle (pre' A) (child_at n i))
                 (minimum_bounding_rectangle n) = true.
Proof.
intros Hb (Hl & Hc & Hch & Hex & Hp) Hi. rewrite Hex.
destruct (union_of_proper
            (map (fun i => child_rectangle (pre' A) (child_at n i))
                 (irange (child_count n)))) as [_ Hins].
- intros E. apply (f_equal (@length _)) in E.
  rewrite length_map, irange_length in E. simpl in E. lia.
- apply Forall_map. apply Forall_forall. intros j Hj. apply irange_spec in Hj.
  apply (final_rect_proper _ bound Hb). now apply Hch.
- rewrite Forall_forall in Hins. apply Hins.
  apply (in_map (fun i => child_rectangle (pre' A) (child_at n i))).
  now apply irange_spec.
Qed.

Lemma final_node_ok k : 0 <= k < S -> node_ok t k = true.
Proof.
intros Hk. unfold node_ok. cbv zeta. rewrite (final_node k Hk).
set (p := S - 1 - k). assert (Hp : 0 <= p < S) by (unfold p; lia).
pose proof (final_forest p Hp) as Hn.
set (n := at_ (TreeNode_default 0) A p) in *.
destruct (renumber_node_spec S n (final_counts _ _ Hn)) as (Ec & Em & El & Ech).
rewrite Ec, El.
pose proof (final_counts _ _ Hn) as Hcnt.
apply andb_true_intro. split; [apply andb_true_intro; split; apply Z.leb_le; lia|].
apply forallb_forall. intros i Hi. apply irange_spec in Hi.
rewrite (Ech i Hi).
pose proof Hn as Hn'.
destruct Hn as (Hl & Hc & Hch & Hex & Hpr).
pose proof (Hch i Hi) as Hci.
assert (Hb : p <= S) by lia.
unfold child_ok. cbv zeta.
rewrite (final_rectangle _ p Hb Hci).
rewrite (final_node k Hk). fold p. fold n. rewrite Em.
rewrite final_length.
apply andb_true_intro. split; [apply andb_true_intro; split|].
- destruct (is_leaf (child_at n i)) eqn:Hlf.
  + unfold renumber_child. rewrite Hlf. cbn [negb]. rewrite Hlf.
    destruct Hci as [H0 H]. rewrite Hlf in H. cbn [m_leaves].
    apply andb_true_intro. split; [apply Z.leb_le|apply Z.ltb_lt]; lia.
  + rewrite (final_child_index _ p Hb Hci Hlf). cbn [is_leaf index].
    destruct Hci as [H0 H]. rewrite Hlf in H.
    apply andb_true_intro. split; apply Z.ltb_lt; unfold p in H; lia.
- apply (final_rect_proper _ p Hb Hci).
- exact (final_inside n p i Hb Hn' Hi).
Qed.

Lemma final_index_ok : index_ok latToY t = true.
Proof.
unfold index_ok. rewrite final_length.
apply andb_true_intro. split; [apply andb_true_intro; split|].
- apply Z.ltb_lt. rewrite final_S. lia.
- apply forallb_forall. intros k Hk. apply irange_spec in Hk. now apply final_node_ok.
- apply forallb_forall. cbn [m_leaves m_coordinate_list].
  rewrite Forall_forall in Hcovers. exact Hcovers.
Qed.

Lemma final_has_child c :
is_child_in A c ->
has_child t (renumber_child S c) = true.
Proof.
intros (n & i & Hin & Hi & Hc).
apply (In_nth _ _ (TreeNode_default 0)) in Hin as (q & Hq & Hnq).
set (p := Z.of_nat q). assert (Hp : 0 <= p < S) by (unfold p; lia).
assert (En : at_ (TreeNode_default 0) A p = n).
{ unfold at_, p. now rewrite Nat2Z.id. }
pose proof (final_forest p Hp) as Hn. rewrite En in Hn.
destruct (renumber_node_spec S n (final_counts _ _ Hn)) as (Ec & Em & El & Ech).
unfold has_child. apply existsb_exists. exists (S - 1 - p). split.
{ apply irange_spec. rewrite final_length. lia. }
cbv zeta. rewrite final_node by lia.
replace (S - 1 - (S - 1 - p)) with p by lia. rewrite En, Ec.
apply existsb_exists. exists i. split; [now apply irange_spec|].
rewrite (Ech i Hi), Hc.
apply andb_true_intro. split; [apply Z.eqb_refl|apply Bool.eqb_reflx].
Qed.

Lemma final_all_linked : all_linked t = true.
Proof.
destruct Hlinked as [Hleaf Hnode].
unfold all_linked. apply andb_true_intro. split.
- apply forallb_forall. intros g Hg. apply irange_spec in Hg. cbn [m_leaves] in Hg.
  exact (final_has_child _ (Hleaf g Hg)).
- apply forallb_forall. intros k Hk. apply irange_spec in Hk.
  rewrite final_length in Hk.
  destruct (k =? 0) eqn:E; [reflexivity|]. apply Z.eqb_neq in E. cbn [orb].
  assert (Hp : 0 <= S - 1 - k < Z.of_nat (length st)) by (rewrite final_S in *; lia).
  pose proof (final_has_child _ (Hnode _ Hp)) as H.
  unfold renumber_child in H. cbn [is_leaf index negb] in H.
  replace (((S - (S - 1 - k) - 1) mod UINT32_MOD) mod 2147483648) with k in H.
  + exact H.
  + rewrite final_S in *. unfold UINT32_MOD.
  rewrite (Z.mod_small (Z.of_nat (length st) + 1
                        - (Z.of_nat (length st) + 1 - 1 - k) - 1) 4294967296) by lia.
  rewrite Z.mod_small by lia. lia.
Qed.

Lemma final_mbr_exact : mbr_exact latToY t.
Proof.
split.
- intros k Hk. rewrite final_length in Hk. rewrite (final_node k Hk).
  set (p := S - 1 - k). assert (Hp : 0 <= p < S) by (unfold p; lia).
  pose proof (final_forest p Hp) as Hn.
  set (n := at_ (TreeNode_default 0) A p) in *.
  destruct (renumber_node_spec S n (final_counts _ _ Hn)) as (Ec & Em & El & Ech).
  destruct Hn as (Hl & Hc & Hch & Hex & Hpr).
  unfold node_exact. rewrite Em, Ec, Hex.
  f_equal. apply map_ext_in. intros i Hi. apply irange_spec in Hi.
  rewrite (Ech i Hi). symmetry. apply (final_rectangle _ p); [lia|now apply Hch].
- intros l Hl. cbn [m_leaves m_coordinate_list] in *.
  rewrite Forall_forall in Hexact. now apply Hexact.
Qed.

End Finalize.

(** ** The Hilbert and STR packers, from the sorted objects on *)

Lemma length_concat_ge {A} (l : list (list A)) :
  Forall (fun c => c <> []) l -> (length l <= length (concat l))%nat.
Proof.
  induction 1 as [|c l Hc _ IH]; simpl; [lia|].
  rewrite length_app. destruct c; [congruence|]. simpl. lia.
Qed.

Lemma regular_nonempty {A} B (G : list (list A)) :
  regular B G -> Forall (fun g => g <> []) G.
Proof.
  induction G as [|g G IH]; intros H; constructor; simpl in H.
  - tauto.
  - apply IH. tauto.
Qed.

Lemma number_from_length {A} (l : list A) : forall i, length (number_from i l) = length l.
Proof. induction l as [|x l IH]; intros i; simpl; [reflexivity|now rewrite IH]. Qed.

Section PackSorted.

Variable BRANCHING_FACTOR : Z.
Variable LEAF_NODE_SIZE_ : Z.
Variable latToY : Z -> Z.
Variable cs : list Coordinate.
Variable prepare : list TreeNode -> list TreeNode.
Variable objs : list EdgeData.
Hypothesis HB : 2 <= BRANCHING_FACTOR.
Hypothesis HL : 1 <= LEAF_NODE_SIZE_.
Hypothesis Hprepare : forall l, Permutation (prepare l) l.
Hypothesis Hne : objs <> [].
Hypothesis Hsize : 3 * Z.of_nat (length objs) < 2147483648.
Hypothesis Hboxes : Forall (fun e => proper (projected_box latToY cs e)) objs.

Local Abbreviation B := (Z.to_nat BRANCHING_FACTOR).
Local Abbreviation L := (Z.to_nat LEAF_NODE_SIZE_).
Local Abbreviation leaf_of' := (leaf_of latToY cs LEAF_NODE_SIZE_).
Local Abbreviation node0 := (node0_of BRANCHING_FACTOR).
Local Abbreviation G := (group_leaves (length objs) B L objs).
Local Abbreviation lf := (map leaf_of' (concat G)).
Local Abbreviation level0 :=
(map (fun g => node0 (fst g) (map leaf_of' (snd g))) (number_from 0 G)).

Lemma sorted_groups :
regular B G
/\ Forall (fun c => c <> [] /\ (length c <= L)%nat) (concat G)
/\ concat (concat G) = objs
/\ (length G <= length (concat G) <= length objs)%nat
/\ G <> [].
Proof.
destruct (group_leaves_regular (length objs) B L objs) as [Hr Hc]; [lia|lia|].
apply Forall_concat in Hc.
pose proof (group_leaves_concat (length objs) B L objs ltac:(lia) ltac:(lia) (le_n _))
  as Hcc.
split; [assumption|]. split; [assumption|]. split; [assumption|]. split.
- split.
  + apply length_concat_ge. now apply regular_nonempty with (B := B).
  + assert (Hle : (length (concat G) <= length (concat (concat G)))%nat).
    { apply length_concat_ge. eapply Forall_impl; [|exact Hc]. simpl. tauto. }
    rewrite Hcc in Hle. exact Hle.
- intros E. rewrite E in Hcc. simpl in Hcc. congruence.
Qed.

Lemma sorted_chunk_boxes c :
In c (concat G) -> Forall (fun e => proper (projected_box latToY cs e)) c.
Proof.
intros Hc. destruct sorted_groups as (_ & _ & Hcc & _).
rewrite Forall_forall in *. intros e He. apply Hboxes.
rewrite <- Hcc. apply in_concat. exists c. split; assumption.
Qed.

Lemma sorted_leaves :
Forall (fun l => proper (leaf_minimum_bounding_rectangle l)) lf
/\ Forall (fun l => leaf_covers latToY cs l = true) lf
/\ Forall (leaf_exact latToY cs) lf.
Proof.
destruct sorted_groups as (_ & Hc & _ & Hlen & _).
rewrite Forall_forall in Hc.
repeat split; apply Forall_map; apply Forall_forall; intros c Hin.
- apply leaf_of_proper; [apply (Hc c Hin)|now apply sorted_chunk_boxes].
- apply leaf_of_covers; [now apply sorted_chunk_boxes|apply (Hc c Hin)|].
  destruct (Hc c Hin) as [_ Hle]. unfold UINT32_MAX.
  assert (length c <= length objs)%nat.
  { destruct sorted_groups as (_ & _ & Hcc & _). rewrite <- Hcc.
    apply in_split in Hin as (l1 & l2 & E). rewrite E.
    rewrite concat_app, length_app. simpl. rewrite length_app. lia. }
  lia.
- apply leaf_of_exact.
Qed.

Lemma sorted_level0 :
pack_leaves BRANCHING_FACTOR LEAF_NODE_SIZE_ latToY cs (length objs) 0 objs [] []
= Some (lf, level0)
/\ forest_pre BRANCHING_FACTOR lf cs [] level0
/\ linked_pre lf [] level0
/\ level0 <> []
/\ (length level0 <= length objs)%nat.
Proof.
destruct sorted_groups as (Hr & Hc & Hcc & Hlen & HG).
destruct sorted_leaves as (Hp & _).
split.
{ rewrite pack_leaves_spec; [reflexivity|lia|lia|lia|lia|lia|].
  unfold UINT32_MOD. lia. }
assert (Hsmall : Z.of_nat (length lf) < 2147483648).
{ rewrite length_map. lia. }
destruct (level0_pre BRANCHING_FACTOR cs lf ltac:(lia) Hsmall Hp
                     leaf_of' G 0 [] Hr eq_refl eq_refl) as [Hnodes Hkids].
split; [|split; [|split]].
- split.
  + intros p Hp'. simpl in Hp'. lia.
  + exact Hnodes.
- split.
  + intros g Hg. cbn [app]. apply Hkids. simpl. lia.
  + intros p Hp'. simpl in Hp'. lia.
- intros E. apply (f_equal (@length _)) in E.
  rewrite length_map, number_from_length in E. simpl in E.
  destruct G; [congruence|discriminate].
- rewrite length_map, number_from_length. lia.
Qed.

(** From a non-empty sorted array the packer returns an index that is
  well formed, links every leaf and node, has exact rectangles and
  holds the objects in the order given. *)
Lemma pack_sorted_ok :
exists t,
  pack_sorted BRANCHING_FACTOR LEAF_NODE_SIZE_ latToY cs prepare objs = Some t
  /\ index_ok latToY t = true
  /\ all_linked t = true
  /\ mbr_exact latToY t
  /\ concat (map stored_objects (m_leaves t)) = objs
  /\ m_coordinate_list t = cs.
Proof.
destruct sorted_level0 as (Hpack & Hforest & Hlinked & Hne0 & Hlen0).
destruct sorted_leaves as (Hp & Hcov & Hex).
destruct (pack_levels_spec BRANCHING_FACTOR lf cs HB prepare Hprepare
                           (length level0) level0 [] (3 * Z.of_nat (length objs))
                           (le_n _) Hforest Hlinked)
  as (root & st' & Hlev & Hforest' & Hlinked' & Hsz).
{ change (Z.of_nat (length (@nil TreeNode))) with 0. lia. }
{ lia. }
{ exact Hne0. }
eexists. split.
{ unfold pack_sorted. rewrite Hpack. rewrite Hlev. reflexivity. }
split; [|split; [|split; [|split]]].
- apply (final_index_ok BRANCHING_FACTOR latToY lf cs st' root); try assumption; lia.
- apply (final_all_linked BRANCHING_FACTOR lf cs st' root); try assumption; lia.
- apply (final_mbr_exact BRANCHING_FACTOR latToY lf cs st' root); try assumption; lia.
- cbn [m_leaves]. rewrite map_map.
  rewrite (map_ext _ (fun c => c))
    by (intros c; apply stored_leaf_of).
  rewrite map_id. destruct sorted_groups as (_ & _ & Hcc & _). exact Hcc.
- reflexivity.
Qed.

End PackSorted.

(** ** The orders that the packers sort the objects into *)

Lemma insert_sorted_perm {A} (lt : A -> A -> bool) x l :
  Permutation (insert_sorted lt x l) (x :: l).
Proof.
  induction l as [|y l IH]; simpl; [reflexivity|].
  destruct (lt y x); [|reflexivity].
  rewrite IH. apply perm_swap.
Qed.

Lemma insertion_sort_permutes : sort_permutes insertion_sort.
Proof.
  intros A lt l. induction l as [|x l IH]; simpl; [reflexivity|].
  rewrite insert_sorted_perm. now constructor.
Qed.

Lemma sort_range_perm {A} (sort : list A -> list A) l b e :
  (forall l, Permutation (sort l) l) -> Permutation (sort_range sort l b e) l.
Proof.
  intros Hs. unfold sort_range. rewrite Hs.
  rewrite <- (firstn_skipn (Z.to_nat b) l) at 4.
  apply Permutation_app_head.
  rewrite <- (firstn_skipn (Z.to_nat e - Z.to_nat b) (skipn (Z.to_nat b) l)) at 2.
  apply Permutation_app_head.
  rewrite skipn_skipn. now rewrite Nat.add_comm.
Qed.

Lemma edge_int32_proper latToY cs e :
  edge_int32 latToY cs e -> proper (projected_box latToY cs e).
Proof.
  intros (H1 & H2 & H3 & H4). unfold projected_box.
  apply segment_box_proper; assumption.
Qed.

Section Orders.

Variable BRANCHING_FACTOR : Z.
Variable LEAF_NODE_SIZE_ : Z.
Variable latToY : Z -> Z.
Variable centroid : Coordinate -> Coordinate -> Coordinate.
Variable GetHilbertCode : Coordinate -> Z.
Variable sort : forall A : Type, (A -> A -> bool) -> list A -> list A.
Variable blocked_ranges : Z -> Z -> list (Z * Z).
Variable cs : list Coordinate.
Hypothesis Hsort : sort_permutes sort.

Lemma sort_slices_perm {A} (lt : A -> A -> bool) grainsize (l : list A) :
Permutation (sort_slices sort blocked_ranges lt grainsize l) l.
Proof.
unfold sort_slices. generalize (blocked_ranges (Z.of_nat (length l)) grainsize).
intros rs. revert l. induction rs as [|r rs IH]; intros l; simpl; [reflexivity|].
rewrite IH. apply sort_range_perm. intros l'. apply Hsort.
Qed.

Lemma hilbert_order_perm input :
Z.of_nat (length input) <= UINT32_MOD ->
Permutation (hilbert_order latToY centroid GetHilbertCode sort cs input) input.
Proof.
intros Hlen. unfold hilbert_order.
rewrite (Permutation_map _ (Hsort _ _ _)).
unfold input_wrapper_vector. rewrite map_map. cbn [m_array_index].
rewrite (map_ext_in _ (fun i => at_ EdgeData_default input i)).
- unfold at_. rewrite map_nth_irange. reflexivity.
- intros i Hi. apply irange_spec in Hi. rewrite Z.mod_small by lia. reflexivity.
Qed.

Lemma str_order_perm input :
Permutation (str_order LEAF_NODE_SIZE_ centroid sort blocked_ranges cs input) input.
Proof.
unfold str_order. cbv zeta. rewrite sort_slices_perm. apply Hsort.
Qed.

Lemma str_prepare_perm level :
Permutation (str_prepare BRANCHING_FACTOR sort blocked_ranges level) level.
Proof.
unfold str_prepare. cbv zeta. rewrite sort_slices_perm. apply Hsort.
Qed.

Hypothesis HB : 2 <= BRANCHING_FACTOR.
Hypothesis HL : 1 <= LEAF_NODE_SIZE_.

Variable input : list EdgeData.
Hypothesis Hne : input <> [].
Hypothesis Hsize : 3 * Z.of_nat (length input) < 2147483648.
Hypothesis Hcoords : Forall (edge_int32 latToY cs) input.

Lemma ordered_ok prepare objs :
(forall l, Permutation (prepare l) l) ->
Permutation objs input ->
exists t,
  pack_sorted BRANCHING_FACTOR LEAF_NODE_SIZE_ latToY cs prepare objs = Some t
  /\ index_ok latToY t = true
  /\ all_linked t = true
  /\ mbr_exact latToY t
  /\ Permutation (stored_edges (m_leaves t)) input
  /\ m_coordinate_list t = cs.
Proof.
intros Hprep Hperm.
destruct (pack_sorted_ok BRANCHING_FACTOR LEAF_NODE_SIZE_ latToY cs prepare objs
                         HB HL Hprep)
  as (t & Ht & Hok & Hl & Hex & Hst & Hcs).
- intros E. rewrite E in Hperm. apply Permutation_nil in Hperm. congruence.
- rewrite (Permutation_length Hperm). exact Hsize.
- apply (Permutation_Forall (Permutation_sym Hperm)).
  eapply Forall_impl; [|exact Hcoords]. intros e. apply edge_int32_proper.
- exists t. repeat (split; [assumption|]). split; [|assumption].
  unfold stored_edges. rewrite Hst. exact Hperm.
Qed.

(** The Hilbert packer returns a well-formed index with exact
  rectangles whose leaves hold a permutation of the input. *)
Lemma PackWithHilbert_ok :
exists t,
  PackWithHilbert BRANCHING_FACTOR LEAF_NODE_SIZE_ latToY centroid GetHilbertCode sort
                  cs input = Some t
  /\ index_ok latToY t = true
  /\ all_linked t = true
  /\ mbr_exact latToY t
  /\ Permutation (stored_edges (m_leaves t)) input
  /\ m_coordinate_list t = cs.
Proof.
unfold PackWithHilbert. apply ordered_ok.
- intros l. reflexivity.
- apply hilbert_order_perm. unfold UINT32_MOD. lia.
Qed.

(** So does the STR packer. *)
Lemma PackWithSTR_ok :
exists t,
  PackWithSTR BRANCHING_FACTOR LEAF_NODE_SIZE_ latToY centroid sort blocked_ranges
              cs input = Some t
  /\ index_ok latToY t = true
  /\ all_linked t = true
  /\ mbr_exact latToY t
  /\ Permutation (stored_edges (m_leaves t)) input
  /\ m_coordinate_list t = cs.
Proof.
unfold PackWithSTR. apply ordered_ok.
- apply str_prepare_perm.
- apply str_order_perm.
Qed.

End Orders.

(* ------------------------------------------------------------------ *)
(** * The OMT packer *)

(** ** Rectangles as a lattice *)

Lemma inside_antisym a b :
  Rectangle.inside a b = true -> Rectangle.inside b a = true -> a = b.
Proof.
  rewrite !inside_spec. destruct a, b. simpl. intros H1 H2.
  f_equal; lia.
Qed.

Lemma Merge_least a b X :
  Rectangle.inside a X = true -> Rectangle.inside b X = true ->
  Rectangle.inside (Rectangle.MergeBoundingBoxes a b) X = true.
Proof. rewrite !inside_spec. unfold Rectangle.MergeBoundingBoxes. simpl. lia. Qed.

Lemma fold_Merge_upper rs :
  forall a, Rectangle.inside a (fold_left Rectangle.MergeBoundingBoxes rs a) = true
            /\ forall r, In r rs ->
                         Rectangle.inside r (fold_left Rectangle.MergeBoundingBoxes rs a) = true.
Proof.
  induction rs as [|r rs IH]; intros a; simpl.
  - split; [apply inside_refl|]. intros r [].
  - destruct (IH (Rectangle.MergeBoundingBoxes a r)) as [Ha Hr]. split.
    + eapply inside_trans; [apply Merge_inside_l|exact Ha].
    + intros r' [<-|Hin].
      * eapply inside_trans; [apply Merge_inside_r|exact Ha].
      * now apply Hr.
Qed.

Lemma fold_Merge_least rs X :
  forall a, Rectangle.inside a X = true ->
            (forall r, In r rs -> Rectangle.inside r X = true) ->
            Rectangle.inside (fold_left Rectangle.MergeBoundingBoxes rs a) X = true.
Proof.
  induction rs as [|r rs IH]; intros a Ha Hrs; simpl; [assumption|].
  apply IH.
  - apply Merge_least; [assumption|]. apply Hrs. now left.
  - intros r' Hr'. apply Hrs. now right.
Qed.

Lemma union_of_upper rs r : In r rs -> Rectangle.inside r (union_of rs) = true.
Proof.
  intros H. destruct (fold_Merge_upper rs Rectangle.empty) as [_ Hr]. now apply Hr.
Qed.

Lemma union_of_empty rs : Rectangle.inside Rectangle.empty (union_of rs) = true.
Proof. destruct (fold_Merge_upper rs Rectangle.empty) as [H _]. exact H. Qed.

Lemma union_of_least rs X :
  Rectangle.inside Rectangle.empty X = true ->
  (forall r, In r rs -> Rectangle.inside r X = true) ->
  Rectangle.inside (union_of rs) X = true.
Proof. intros H0 H. now apply fold_Merge_least. Qed.

(** ** The ranges that a node puts on the queue *)

Lemma total_width_app rs rs' :
  total_width (rs ++ rs') = total_width rs + total_width rs'.
Proof. induction rs as [|r rs IH]; simpl; [reflexivity|]. rewrite IH. lia. Qed.

Lemma total_width_le q rs :
  Forall (fun r => width r <= q) rs -> total_width rs <= Z.of_nat (length rs) * q.
Proof.
  induction 1 as [|r rs Hr _ IH]; [simpl; lia|].
  cbn [total_width fold_right length]. fold (total_width rs). lia.
Qed.

Lemma total_width_lt q rs :
  Forall (fun r => width r <= q) rs ->
  Exists (fun r => width r < q) rs ->
  total_width rs < Z.of_nat (length rs) * q.
Proof.
  intros Hall Hex. induction Hall as [|r rs Hr Hall IH]; [inversion Hex|].
  cbn [total_width fold_right length]. fold (total_width rs).
  apply Exists_cons in Hex as [Hlt|Hex].
  - pose proof (total_width_le q rs Hall). lia.
  - specialize (IH Hex). lia.
Qed.

Lemma omt_groups_spec fuel :
  forall q j right2 p h rs,
    1 <= q ->
    omt_groups fuel q j right2 p h = Some rs ->
    Forall (fun r => parent r = p /\ height r = h /\ width r <= q) rs
    /\ total_width rs = Z.max 0 (right2 - j + 1)
    /\ (forall m, 0 <= m -> right2 - j + 1 = m * q -> Forall (fun r => width r = q) rs)
    /\ match rs with
       | [] => right2 < j
       | r0 :: rest => j <= right2 /\ (width r0 = q \/ rest = [])
       end.
Proof.
  induction fuel as [|fuel IH]; intros q j right2 p h rs Hq H; cbn [omt_groups] in H;
    destruct (j <=? right2) eqn:E.
  - discriminate.
  - injection H as <-. apply Z.leb_gt in E.
    split; [constructor|]. split; [simpl; lia|]. split; [constructor|assumption].
  - apply Z.leb_le in E.
    destruct (omt_groups fuel q (j + q) right2 p h) as [rs'|] eqn:E'; [|discriminate].
    injection H as <-.
    destruct (IH _ _ _ _ _ _ Hq E') as (Hall & Hsum & Hmul & Hhd).
    split; [|split; [|split]].
    + constructor; [|assumption]. unfold width. simpl. lia.
    + cbn [total_width fold_right]. fold (total_width rs'). rewrite Hsum.
      unfold width. simpl. lia.
    + intros m Hm Hmq. assert (1 <= m) by nia.
      constructor.
      * unfold width. simpl. nia.
      * apply (Hmul (m - 1)); [lia|nia].
    + split; [assumption|]. destruct (Z_le_gt_dec (j + q) right2) as [Hle|Hgt].
      * left. unfold width. simpl. lia.
      * right. destruct rs' as [|r0 rest]; [reflexivity|]. lia.
  - injection H as <-. apply Z.leb_gt in E.
    split; [constructor|]. split; [simpl; lia|]. split; [constructor|assumption].
Qed.

Section Slabs.

Variable centroid : Coordinate -> Coordinate -> Coordinate.
Variable sort : forall A : Type, (A -> A -> bool) -> list A -> list A.
Variable cs : list Coordinate.

Lemma omt_slabs_none fuel :
forall N1 q i right_ here h leaves queue,
  N1 <= 0 -> i < right_ ->
  omt_slabs centroid sort cs fuel N1 q i right_ here h leaves queue = None.
Proof.
induction fuel as [|fuel IH]; intros N1 q i right_ here h leaves queue HN Hi;
  cbn [omt_slabs]; destruct (Z.ltb_spec i right_); try lia; [reflexivity|].
cbv zeta.
destruct (omt_groups _ _ _ _ _ _); [|reflexivity].
apply IH; lia.
Qed.

Lemma omt_slabs_spec fuel :
forall S q i right_ here h leaves queue leaves' queue',
  1 <= q -> 1 <= S ->
  omt_slabs centroid sort cs fuel (q * S) q i right_ here h leaves queue
  = Some (leaves', queue') ->
  exists rs,
    queue' = queue ++ rs
    /\ Forall (fun r => parent r = here /\ height r = h /\ width r <= q) rs
    /\ (Forall (fun r => width r = q) rs \/ total_width rs = right_ - i + 1)
    /\ match rs with
       | [] => right_ <= i
       | r0 :: rest => width r0 = q \/ rest = []
       end.
Proof.
induction fuel as [|fuel IH];
  intros S q i right_ here h leaves queue leaves' queue' Hq HS H;
  cbn [omt_slabs] in H; destruct (Z.ltb_spec i right_) as [Hlt|Hge].
- discriminate.
- injection H as <- <-. exists []. rewrite app_nil_r.
  split; [reflexivity|]. split; [constructor|]. split; [left; constructor|assumption].
- cbv zeta in H.
  set (right2 := Z.min (i + q * S - 1) right_) in *.
  destruct (omt_groups (Datatypes.S (Z.to_nat (right2 - i))) q i right2 here h)
    as [col|] eqn:Ecol; [|discriminate].
  destruct (omt_groups_spec _ _ _ _ _ _ _ Hq Ecol) as (Hall & Hsum & Hmul & Hhd).
  destruct (IH _ _ _ _ _ _ _ _ _ _ Hq HS H) as (rest & -> & Hall' & Hsum' & Hhd').
  exists (col ++ rest). rewrite app_assoc.
  split; [reflexivity|]. split; [now apply Forall_app|].
  assert (Hi2 : i <= right2) by (unfold right2; nia).
  destruct col as [|r0 col']; [lia|].
  destruct (Z_le_gt_dec (i + q * S - 1) right_) as [Hfull|Hpart].
  + (* a full column *)
    assert (E2 : right2 = i + q * S - 1) by (unfold right2; lia).
    assert (Hfullw : Forall (fun r => width r = q) (r0 :: col')).
    { apply (Hmul S); [lia|]. rewrite E2. lia. }
    split.
    * destruct Hsum' as [Hf|Hs].
      -- left. now apply Forall_app.
      -- right. rewrite total_width_app, Hsum, Hs, E2. lia.
    * cbn [app]. left. now apply Forall_inv in Hfullw.
  + (* the last column *)
    assert (E2 : right2 = right_) by (unfold right2; lia).
    destruct rest as [|r1 rest'].
    * rewrite app_nil_r. split.
      -- right. rewrite Hsum, E2. lia.
      -- destruct Hhd as [_ Hhd]. exact Hhd.
    * exfalso. assert (right_ <= i + q * S) by lia.
      (* the next column starts beyond the range, so it is empty *)
      clear - H Hpart Hlt. revert H. generalize (sort_range
        (sort EdgeData (latitude_compare centroid cs)) leaves i right2).
      intros l H. destruct fuel as [|fuel]; cbn [omt_slabs] in H;
        destruct (Z.ltb_spec (i + q * S) right_); try lia;
        injection H as _ H; apply (f_equal (@length _)) in H;
        rewrite !length_app in H; simpl in H; lia.
- injection H as <- <-. exists []. rewrite app_nil_r.
  split; [reflexivity|]. split; [constructor|]. split; [left; constructor|assumption].
Qed.

End Slabs.

(** ** What one turn of the loop does to a node *)

Lemma kinds_of_groups B q N here h rs is_root :
  1 <= B ->
  groups_of q N here h rs ->
  (is_root = false -> B * q <= N) ->
  kinds_ok B is_root (map (fun r => width r <=? B) rs).
Proof.
  intros HB (Hall & Hsum & Hhd) HN. destruct rs as [|r0 rest]; [exact I|].
  cbn [map kinds_ok]. apply Forall_cons_iff in Hall as [(_ & _ & H0) Hall]. split.
  - intros E. apply Z.leb_le in E. apply Forall_map. destruct Hhd as [Hq| ->]; [|constructor].
    eapply Forall_impl; [|exact Hall]. intros r (_ & _ & Hr). apply Z.leb_le. lia.
  - intros Hroot Hlen E. apply Z.leb_gt in E. specialize (HN Hroot).
    cbn [length] in Hlen. rewrite length_map in Hlen.
    assert (Hfull : Forall (fun r => width r = q) (r0 :: rest)).
    { destruct Hsum as [Hf|Hs]; [assumption|].
      apply Forall_forall. intros r Hr.
      assert (Hle : width r <= q).
      { destruct Hr as [<-|Hr]; [assumption|].
        rewrite Forall_forall in Hall. now apply Hall. }
      destruct (Z.eq_dec (width r) q) as [|Hne]; [assumption|]. exfalso.
      assert (Hlt : total_width (r0 :: rest) < Z.of_nat (length (r0 :: rest)) * q).
      { apply total_width_lt.
        - constructor; [assumption|]. eapply Forall_impl; [|exact Hall]. simpl. tauto.
        - apply Exists_exists. exists r. split; [assumption|lia]. }
      cbn [length] in Hlt. nia. }
    apply Forall_cons_iff in Hfull as [Hq0 Hfull]. apply Forall_map.
    eapply Forall_impl; [|exact Hfull]. intros r Hr. apply Z.leb_gt. simpl in Hr. lia.
Qed.

Lemma omt_attach_spec B T p idx leaf grow T' :
  omt_attach B T p idx leaf grow = Some T' ->
  0 <= p < Z.of_nat (length T)
  /\ 0 <= child_count (at_ (TreeNode_default 0) T p) < B
  /\ T' = set_at T p
            {| child_count := child_count (at_ (TreeNode_default 0) T p) + 1;
               minimum_bounding_rectangle :=
                 match grow with
                 | Some rect =>
                     Rectangle.MergeBoundingBoxes
                       (minimum_bounding_rectangle (at_ (TreeNode_default 0) T p)) rect
                 | None => minimum_bounding_rectangle (at_ (TreeNode_default 0) T p)
                 end;
               children :=
                 set_at (children (at_ (TreeNode_default 0) T p))
                        (child_count (at_ (TreeNode_default 0) T p))
                        {| index := idx mod 2147483648; is_leaf := leaf |} |}.
Proof.
  unfold omt_attach. intros H.
  destruct ((0 <=? p) && (p <? Z.of_nat (length T))) eqn:E1; [|discriminate].
  cbv zeta in H.
  destruct ((0 <=? child_count (at_ (TreeNode_default 0) T p))
            && (child_count (at_ (TreeNode_default 0) T p) <? B)) eqn:E2; [|discriminate].
  injection H as <-.
  apply andb_prop in E1 as [E1 E1']. apply andb_prop in E2 as [E2 E2'].
  apply Z.leb_le in E1, E2. apply Z.ltb_lt in E1', E2'.
  repeat split; assumption.
Qed.

Lemma attach_facts B T p idx leaf grow T' :
  omt_attach B T p idx leaf grow = Some T' ->
  length (children (at_ (TreeNode_default 0) T p)) = Z.to_nat B ->
  0 <= p < Z.of_nat (length T)
  /\ 0 <= child_count (at_ (TreeNode_default 0) T p) < B
  /\ length T' = length T
  /\ (forall k, 0 <= k -> k <> p ->
                at_ (TreeNode_default 0) T' k = at_ (TreeNode_default 0) T k)
  /\ child_count (at_ (TreeNode_default 0) T' p)
     = child_count (at_ (TreeNode_default 0) T p) + 1
  /\ length (children (at_ (TreeNode_default 0) T' p))
     = length (children (at_ (TreeNode_default 0) T p))
  /\ minimum_bounding_rectangle (at_ (TreeNode_default 0) T' p)
     = match grow with
       | Some rect =>
           Rectangle.MergeBoundingBoxes
             (minimum_bounding_rectangle (at_ (TreeNode_default 0) T p)) rect
       | None => minimum_bounding_rectangle (at_ (TreeNode_default 0) T p)
       end
  /\ (forall i, 0 <= i -> i <> child_count (at_ (TreeNode_default 0) T p) ->
                child_at (at_ (TreeNode_default 0) T' p) i
                = child_at (at_ (TreeNode_default 0) T p) i)
  /\ child_at (at_ (TreeNode_default 0) T' p) (child_count (at_ (TreeNode_default 0) T p))
     = {| index := idx mod 2147483648; is_leaf := leaf |}.
Proof.
  intros H Hlen. destruct (omt_attach_spec _ _ _ _ _ _ _ H) as (Hp & Hcc & ->).
  set (n := at_ (TreeNode_default 0) T p) in *.
  assert (Hcc' : 0 <= child_count n < Z.of_nat (length (children n))) by lia.
  split; [assumption|]. split; [assumption|].
  split; [now apply set_at_length|].
  split; [intros k Hk Hne; apply at_set_at_other; [assumption|assumption|congruence]|].
  rewrite at_set_at_same by assumption. cbn [child_count children minimum_bounding_rectangle].
  split; [reflexivity|]. split; [now apply set_at_length|]. split; [reflexivity|].
  unfold child_at. cbn [children]. split.
  - intros i Hi Hne. apply at_set_at_other; [assumption|assumption|congruence].
  - now apply at_set_at_same.
Qed.

Lemma child_kinds_attach n n' leaf :
  0 <= child_count n -> child_count n' = child_count n + 1 ->
  (forall i, 0 <= i -> i <> child_count n -> child_at n' i = child_at n i) ->
  is_leaf (child_at n' (child_count n)) = leaf ->
  map (fun i => is_leaf (child_at n' i)) (irange (child_count n'))
  = map (fun i => is_leaf (child_at n i)) (irange (child_count n)) ++ [leaf].
Proof.
  intros H0 Hcc Hold Hnew. rewrite Hcc, irange_snoc, map_app by assumption.
  f_equal; [|simpl; now rewrite Hnew].
  apply map_ext_in. intros i Hi. apply irange_spec in Hi. rewrite Hold by lia. reflexivity.
Qed.

Lemma joins_ext t t' n :
  (forall i, 0 <= i < child_count n -> is_leaf (child_at n i) = true ->
             child_rectangle t' (child_at n i) = child_rectangle t (child_at n i)) ->
  joins t n -> joins t' n.
Proof.
  intros Hr (H0 & Hup & Hleast). split; [assumption|]. split.
  - intros i Hi Hl. rewrite Hr by assumption. now apply Hup.
  - intros X HX Hall. apply Hleast; [assumption|].
    intros i Hi Hl. rewrite <- Hr by assumption. now apply Hall.
Qed.

Lemma joins_attach_leaf t t' n n' c :
  joins t n -> 0 <= child_count n ->
  child_count n' = child_count n + 1 ->
  (forall i, 0 <= i -> i <> child_count n -> child_at n' i = child_at n i) ->
  child_at n' (child_count n) = c -> is_leaf c = true ->
  (forall i, 0 <= i < child_count n -> is_leaf (child_at n i) = true ->
             child_rectangle t' (child_at n i) = child_rectangle t (child_at n i)) ->
  minimum_bounding_rectangle n'
  = Rectangle.MergeBoundingBoxes (minimum_bounding_rectangle n) (child_rectangle t' c) ->
  joins t' n'.
Proof.
  intros (H0 & Hup & Hleast) Hc0 Hcc Hold Hnew Hlc Hr Hm. unfold joins. rewrite Hm.
  split; [|split].
  - eapply inside_trans; [exact H0|apply Merge_inside_l].
  - intros i Hi Hl. destruct (Z.eq_dec i (child_count n)) as [->|Hne].
    + rewrite Hnew. apply Merge_inside_r.
    + rewrite Hold in * by lia. rewrite Hr by (assumption || lia).
      eapply inside_trans; [apply Hup; [lia|assumption]|apply Merge_inside_l].
  - intros X HX Hall. apply Merge_least.
    + apply Hleast; [assumption|]. intros i Hi Hl.
      rewrite <- Hr by assumption. rewrite <- Hold in * by lia. apply Hall; [lia|assumption].
    + rewrite <- Hnew. apply Hall; [lia|]. now rewrite Hnew.
Qed.

Lemma joins_attach_node t n n' :
  joins t n -> 0 <= child_count n ->
  child_count n' = child_count n + 1 ->
  (forall i, 0 <= i -> i <> child_count n -> child_at n' i = child_at n i) ->
  is_leaf (child_at n' (child_count n)) = false ->
  minimum_bounding_rectangle n' = minimum_bounding_rectangle n ->
  joins t n'.
Proof.
  intros (H0 & Hup & Hleast) Hc0 Hcc Hold Hnew Hm. unfold joins. rewrite Hm.
  split; [assumption|]. split.
  - intros i Hi Hl. destruct (Z.eq_dec i (child_count n)) as [->|Hne]; [congruence|].
    rewrite Hold in * by lia. apply Hup; [lia|assumption].
  - intros X HX Hall. apply Hleast; [assumption|]. intros i Hi Hl.
    rewrite <- Hold in * by lia. apply Hall; [lia|assumption].
Qed.

Lemma Extend_twice a pu pv :
  Rectangle.Extend (Rectangle.Extend a (lon pu) (lat pu)) (lon pv) (lat pv)
  = Rectangle.MergeBoundingBoxes a (segment_box pu pv).
Proof.
  unfold Rectangle.Extend, Rectangle.MergeBoundingBoxes, segment_box. simpl.
  f_equal; lia.
Qed.

Lemma omt_leaf_exact L latToY cs leaves r :
  leaf_exact latToY cs (omt_leaf L latToY cs leaves r).
Proof.
  unfold leaf_exact, stored_objects, omt_leaf. cbv zeta.
  cbn [leaf_minimum_bounding_rectangle object_count objects].
  unfold union_of. generalize Rectangle.empty as a.
  match goal with |- forall a, fold_left _ ?l a = _ => generalize l end.
  intros l. induction l as [|e l IH]; intros a; simpl; [reflexivity|].
  rewrite IH. f_equal. unfold projected_box.
exact (Extend_twice a (fromWGS84 latToY (coord_at cs (u e)))
                    (fromWGS84 latToY (coord_at cs (v e)))).
Qed.

(** ** The turns of the loop *)

Section OMTSteps.

Variable BRANCHING_FACTOR : Z.
Variable LEAF_NODE_SIZE_ : Z.
Variable latToY : Z -> Z.
Variable centroid : Coordinate -> Coordinate -> Coordinate.
Variable sort : forall A : Type, (A -> A -> bool) -> list A -> list A.
Variable cs : list Coordinate.
Variable ceil_log_ratio : Z -> Z -> Z.
Variable ceil_div_pow : Z -> Z -> Z -> Z.
Variable ceil_sqrt : Z -> Z.
Hypothesis HB : 1 <= BRANCHING_FACTOR.

Local Abbreviation step :=
(OMT_step BRANCHING_FACTOR LEAF_NODE_SIZE_ latToY centroid sort cs
      ceil_log_ratio ceil_div_pow ceil_sqrt).
Local Abbreviation good := (omt_good BRANCHING_FACTOR latToY cs).
Local Abbreviation nodes s := (Z.of_nat (length (o_search_tree s))).
Local Abbreviation pages s := (Z.of_nat (length (o_leaf_node_file s))).

(** A range of at most [B] objects becomes a leaf. *)
Lemma step_leaf_good s r queue s' :
good s -> o_queue s = r :: queue -> width r <= BRANCHING_FACTOR ->
step s r queue = Some s' ->
pages s' < 2147483648 ->
good s'.
Proof.
intros G Hq Hw Hstep Hsmall.
unfold OMT_step in Hstep. cbv zeta in Hstep.
change (right r - left r + 1) with (width r) in Hstep.
destruct (Z.leb_spec (width r) BRANCHING_FACTOR); [|lia].
destruct (width r - 1 <=? LEAF_NODE_SIZE_); [|discriminate].
set (leaf := omt_leaf LEAF_NODE_SIZE_ latToY cs (o_leaves s) r) in *.
destruct (omt_attach BRANCHING_FACTOR (o_search_tree s) (parent r)
                 (o_leaf_node_count s) true
                 (Some (leaf_minimum_bounding_rectangle leaf)))
as [T'|] eqn:Ea; [|discriminate].
injection Hstep as <-.
cbn [o_leaf_node_file] in Hsmall. rewrite length_app in Hsmall. cbn [length] in Hsmall.
destruct G as [Gne Gcount Gshape Gqueue Gchild Gjoins Glinked Gkinds Gleaves].
unfold omt_node in *.
rewrite Hq in Gqueue. apply Forall_cons_iff in Gqueue as [(Hpar & Hpow) Gqueue].
destruct (attach_facts _ _ _ _ _ _ _ Ea (proj1 (Gshape _ Hpar)))
as (Hp & Hcc & Hlen & Hother & Hcc' & Hchlen & Hmbr & Hold & Hnew).
rewrite Gcount in Hnew. rewrite Z.mod_small in Hnew by lia.
assert (Hleafat : forall c, 0 <= index c < Z.of_nat (length (o_leaf_node_file s)) ->
                        is_leaf c = true ->
      child_rectangle {| m_search_tree := T';
                         m_leaves := o_leaf_node_file s ++ [leaf];
                         m_coordinate_list := cs |} c
      = child_rectangle (omt_index cs s) c).
{ intros c Hc Hl. unfold child_rectangle, leaf_at, at_. rewrite Hl.
cbn [m_leaves omt_index]. rewrite app_nth1 by lia. reflexivity. }
assert (Hnewrect :
      child_rectangle {| m_search_tree := T';
                         m_leaves := o_leaf_node_file s ++ [leaf];
                         m_coordinate_list := cs |}
                      {| index := Z.of_nat (length (o_leaf_node_file s));
                         is_leaf := true |}
      = leaf_minimum_bounding_rectangle leaf).
{ unfold child_rectangle, leaf_at, at_. cbn [is_leaf index m_leaves].
rewrite app_nth2 by lia. rewrite Nat2Z.id, Nat.sub_diag. reflexivity. }
constructor; unfold omt_node, omt_index;
cbn [o_search_tree o_queue o_leaf_node_file o_leaf_node_count].
- now rewrite Hlen.
- rewrite length_app. cbn [length]. lia.
- intros k Hk. rewrite Hlen in Hk.
destruct (Z.eq_dec k (parent r)) as [->|Hne].
+ rewrite Hchlen, Hcc'. destruct (Gshape _ Hp) as [Hl Hc]. split; [assumption|lia].
+ rewrite Hother by lia. now apply Gshape.
- rewrite Hlen. exact Gqueue.
- intros k i Hk Hi. rewrite Hlen in Hk. rewrite length_app. cbn [length].
destruct (Z.eq_dec k (parent r)) as [->|Hne].
+ rewrite Hcc' in Hi.
destruct (Z.eq_dec i (child_count (at_ (TreeNode_default 0) (o_search_tree s)
                                       (parent r)))) as [->|Hni].
* rewrite Hnew. cbn [index is_leaf]. lia.
* rewrite Hold by lia. specialize (Gchild (parent r) i Hp ltac:(lia)).
  cbv zeta in Gchild. destruct Gchild as [G0 G1]. split; [assumption|].
  destruct (is_leaf _); lia.
+ rewrite Hother in * by lia. specialize (Gchild k i Hk Hi).
cbv zeta in Gchild. destruct Gchild as [G0 G1]. split; [assumption|].
rewrite Hlen. destruct (is_leaf _); lia.
- intros k Hk. rewrite Hlen in Hk.
destruct (Z.eq_dec k (parent r)) as [->|Hne].
+ eapply joins_attach_leaf;
  [apply (Gjoins _ Hp)|lia|exact Hcc'|exact Hold|exact Hnew|reflexivity| |].
* intros i Hi Hl. apply Hleafat; [|assumption].
  specialize (Gchild (parent r) i Hp Hi). cbv zeta in Gchild.
  rewrite Hl in Gchild. lia.
* rewrite Hmbr, Hnewrect. reflexivity.
+ rewrite Hother by lia. eapply joins_ext; [|apply (Gjoins _ Hk)].
intros i Hi Hl. apply Hleafat; [|assumption].
specialize (Gchild k i Hk Hi). cbv zeta in Gchild. rewrite Hl in Gchild. lia.
- intros k Hk. rewrite Hlen in Hk.
destruct (Glinked k Hk) as (p & i & Hp' & Hi & Hc). exists p, i.
split; [assumption|].
destruct (Z.eq_dec p (parent r)) as [->|Hne].
+ rewrite Hcc'. split; [lia|]. rewrite Hold by lia. exact Hc.
+ rewrite Hother by lia. split; assumption.
- intros k Hk. rewrite Hlen in Hk. specialize (Gkinds k Hk).
replace (kinds BRANCHING_FACTOR
         {| o_leaves := o_leaves s; o_queue := queue; o_search_tree := T';
            o_leaf_node_file := o_leaf_node_file s ++ [leaf];
            o_leaf_node_count := o_leaf_node_count s + 1 |} k)
with (kinds BRANCHING_FACTOR s k); [exact Gkinds|].
unfold kinds, omt_node. cbn [o_search_tree o_queue]. rewrite Hq. cbn [filter].
destruct (Z.eqb_spec (parent r) k) as [<-|Hne].
+ rewrite (child_kinds_attach _ _ true (proj1 Hcc) Hcc' Hold)
  by (rewrite Hnew; reflexivity).
rewrite <- app_assoc. cbn [app map].
destruct (Z.leb_spec (width r) BRANCHING_FACTOR); [reflexivity|lia].
+ rewrite Hother by lia. reflexivity.
- apply Forall_app. split; [assumption|]. constructor; [|constructor].
apply omt_leaf_exact.
Qed.

Lemma positive_factors a b : 0 <= a -> a * b > 0 -> 1 <= a /\ 1 <= b.
Proof.
  intros Ha Hab. destruct (Z.eq_dec a 0) as [->|Hne]; [lia|].
  split; [lia|]. destruct (Z_le_gt_dec b 0) as [Hb|Hb]; [|lia].
  pose proof (Z.mul_nonneg_nonpos a b Ha Hb). lia.
Qed.

Lemma filter_none {A} (f : A -> bool) l :
Forall (fun x => f x = false) l -> filter f l = [].
Proof. induction 1 as [|x l Hx _ IH]; simpl; [reflexivity|]. now rewrite Hx. Qed.

Lemma filter_all {A} (f : A -> bool) l :
Forall (fun x => f x = true) l -> filter f l = l.
Proof. induction 1 as [|x l Hx _ IH]; simpl; [reflexivity|]. rewrite Hx. now f_equal. Qed.

Lemma leaf_rectangle_same t t' c :
is_leaf c = true -> m_leaves t = m_leaves t' ->
child_rectangle t c = child_rectangle t' c.
Proof. intros Hl E. unfold child_rectangle, leaf_at. rewrite Hl, E. reflexivity. Qed.

Lemma joins_default t B : joins t (TreeNode_default B).
Proof.
unfold joins. cbn [TreeNode_default child_count minimum_bounding_rectangle].
split; [apply inside_refl|]. split; [intros i Hi; lia|]. intros X HX _. exact HX.
Qed.

(** A larger range below the root becomes a node, attached to its
parent, and puts its groups on the queue. *)
Lemma step_node_good s r queue s' :
good s -> o_queue s = r :: queue -> BRANCHING_FACTOR < width r ->
step s r queue = Some s' ->
nodes s' < 2147483648 ->
good s'.
Proof.
intros G Hq Hw Hstep Hsmall.
destruct G as [Gne Gcount Gshape Gqueue Gchild Gjoins Glinked Gkinds Gleaves].
unfold omt_node in *.
rewrite Hq in Gqueue. apply Forall_cons_iff in Gqueue as [(Hpar & Hpow) Gqueue].
assert (Hh : 1 <= height r).
{ destruct (Z_lt_le_dec (height r) 1) as [Hlt|]; [|assumption]. exfalso.
destruct (Z.eq_dec (height r) 0) as [E|E].
- rewrite E in Hpow. simpl in Hpow. lia.
- rewrite Z.pow_neg_r in Hpow by lia. lia. }
unfold OMT_step in Hstep. cbv zeta in Hstep.
change (right r - left r + 1) with (width r) in Hstep.
destruct (Z.leb_spec (width r) BRANCHING_FACTOR); [lia|].
destruct (Z.eqb_spec (height r) 0); [lia|].
rewrite length_app in Hstep. cbn [length] in Hstep.
replace (Z.of_nat (length (o_search_tree s) + 1) - 1)
with (Z.of_nat (length (o_search_tree s))) in Hstep by lia.
set (T1 := o_search_tree s ++ [TreeNode_default BRANCHING_FACTOR]) in *.
set (here := Z.of_nat (length (o_search_tree s))) in *.
destruct (omt_attach BRANCHING_FACTOR T1 (parent r) here false None)
as [T2|] eqn:Ea; [|discriminate].
destruct (Z.eqb_spec BRANCHING_FACTOR 0); [lia|].
set (q := width r / BRANCHING_FACTOR) in *.
set (S := ceil_sqrt BRANCHING_FACTOR) in *.
destruct (omt_slabs centroid sort cs _ (q * S) q (left r) (right r) here (height r - 1)
                  _ queue) as [[leaves2 queue']|] eqn:Es; [|discriminate].
injection Hstep as <-.
cbn [o_search_tree] in Hsmall.
assert (Hq1 : 1 <= q).
{ unfold q. apply Z.div_le_lower_bound; lia. }
assert (Hlr : left r < right r) by (unfold width in Hw; lia).
assert (HS : 1 <= S).
{ destruct (Z_le_gt_dec (q * S) 0) as [Hle|Hgt].
- rewrite (omt_slabs_none centroid sort cs _ _ _ _ _ _ _ _ _ Hle Hlr) in Es.
  discriminate.
- nia. }
destruct (omt_slabs_spec centroid sort cs _ _ _ _ _ _ _ _ _ _ _ Hq1 HS Es)
as (rs & -> & Hall & Hsum & Hhd).
assert (Hgroups : groups_of q (width r) here (height r - 1) rs).
{ split; [assumption|]. split; [exact Hsum|]. destruct rs; [exact I|exact Hhd]. }
assert (Hat1 : forall k, 0 <= k < here ->
                       at_ (TreeNode_default 0) T1 k
                       = at_ (TreeNode_default 0) (o_search_tree s) k).
{ intros k Hk. unfold at_, T1. apply app_nth1. unfold here in Hk. lia. }
assert (Hat1' : at_ (TreeNode_default 0) T1 here = TreeNode_default BRANCHING_FACTOR).
{ unfold at_, T1, here. rewrite app_nth2 by lia.
rewrite Nat2Z.id, Nat.sub_diag. reflexivity. }
assert (Hlen1 : Z.of_nat (length T1) = here + 1).
{ unfold T1, here. rewrite length_app. cbn [length]. lia. }
destruct (attach_facts _ _ _ _ _ _ _ Ea)
as (Hp & Hcc & Hlen & Hother & Hcc' & Hchlen & Hmbr & Hold & Hnew).
{ rewrite Hat1 by assumption. apply (Gshape _ Hpar). }
rewrite Hat1 in Hcc, Hcc', Hchlen, Hmbr, Hold, Hnew by assumption.
assert (Hlen2 : Z.of_nat (length T2) = here + 1) by (rewrite Hlen; exact Hlen1).
rewrite Hlen2 in Hsmall.
rewrite Z.mod_small in Hnew by lia.
assert (Hnode : forall k, 0 <= k < here -> k <> parent r ->
                        at_ (TreeNode_default 0) T2 k
                        = at_ (TreeNode_default 0) (o_search_tree s) k).
{ intros k Hk Hne. rewrite Hother by lia. now apply Hat1. }
assert (Hnew2 : at_ (TreeNode_default 0) T2 here = TreeNode_default BRANCHING_FACTOR).
{ rewrite Hother by lia. exact Hat1'. }
assert (Hpow' : q <= BRANCHING_FACTOR ^ (height r - 1)).
{ unfold q. apply Z.div_le_upper_bound; [lia|].
replace (height r) with (Z.succ (height r - 1)) in Hpow by lia.
rewrite Z.pow_succ_r in Hpow by lia. exact Hpow. }
assert (Hqueue_par : Forall (fun r' => (parent r' =? here) = false) queue).
{ eapply Forall_impl; [|exact Gqueue]. intros r' [Hr' _]. apply Z.eqb_neq.
unfold here. lia. }
assert (Hrs_par : Forall (fun r' => (parent r' =? here) = true) rs).
{ eapply Forall_impl; [|exact Hall]. intros r' (Hr' & _). now apply Z.eqb_eq. }
constructor; unfold omt_node, omt_index;
cbn [o_search_tree o_queue o_leaf_node_file o_leaf_node_count].
- lia.
- exact Gcount.
- intros k Hk. rewrite Hlen2 in Hk.
destruct (Z.eq_dec k (parent r)) as [->|Hne].
+ rewrite Hchlen, Hcc'. destruct (Gshape _ Hpar) as [Hl Hc]. split; [assumption|lia].
+ destruct (Z.eq_dec k here) as [->|Hnh].
  * rewrite Hnew2. cbn [TreeNode_default children child_count].
    rewrite repeat_length. split; [reflexivity|lia].
  * rewrite Hnode by lia. apply Gshape. unfold here in *. lia.
- apply Forall_app. split.
+ eapply Forall_impl; [|exact Gqueue]. intros r' [Hr' Hw']. split; [|assumption].
  rewrite Hlen2. unfold here. lia.
+ eapply Forall_impl; [|exact Hall]. intros r' (Hr' & Hh' & Hw').
  rewrite Hr', Hh', Hlen2. split; [unfold here; lia|lia].
- intros k i Hk Hi. rewrite Hlen2 in Hk. rewrite Hlen2.
destruct (Z.eq_dec k (parent r)) as [->|Hne].
+ rewrite Hcc' in Hi.
  destruct (Z.eq_dec i (child_count (at_ (TreeNode_default 0) (o_search_tree s)
                                         (parent r)))) as [->|Hni].
  * rewrite Hnew. cbn [index is_leaf]. unfold here in *. lia.
  * rewrite Hold by lia. specialize (Gchild (parent r) i Hpar ltac:(lia)).
    cbv zeta in Gchild. destruct Gchild as [G0 G1]. split; [assumption|].
    destruct (is_leaf _); unfold here; lia.
+ destruct (Z.eq_dec k here) as [->|Hnh].
  * rewrite Hnew2 in Hi. cbn [TreeNode_default child_count] in Hi. lia.
  * rewrite Hnode in * by lia. specialize (Gchild k i ltac:(unfold here in *; lia) Hi).
    cbv zeta in Gchild. destruct Gchild as [G0 G1]. split; [assumption|].
    destruct (is_leaf _); unfold here; lia.
- intros k Hk. rewrite Hlen2 in Hk.
destruct (Z.eq_dec k (parent r)) as [->|Hne].
+ apply (joins_ext (omt_index cs s));
    [intros i Hi Hl; now apply leaf_rectangle_same|].
  apply (joins_attach_node _ (at_ (TreeNode_default 0) (o_search_tree s) (parent r)));
    [apply (Gjoins _ Hpar)|lia|exact Hcc'|exact Hold|rewrite Hnew; reflexivity
    |exact Hmbr].
+ destruct (Z.eq_dec k here) as [->|Hnh].
  * rewrite Hnew2. apply joins_default.
  * rewrite Hnode by lia.
    apply (joins_ext (omt_index cs s));
      [intros i Hi Hl; now apply leaf_rectangle_same|].
    apply Gjoins. unfold here in *. lia.
- intros k Hk. rewrite Hlen2 in Hk.
destruct (Z.eq_dec k here) as [->|Hnh].
+ exists (parent r), (child_count (at_ (TreeNode_default 0) (o_search_tree s)
                                       (parent r))).
  split; [unfold here in *; lia|]. rewrite Hcc'. split; [lia|exact Hnew].
+ destruct (Glinked k ltac:(unfold here in *; lia)) as (p & i & Hp' & Hi & Hc).
  exists p, i. split; [assumption|].
  destruct (Z.eq_dec p (parent r)) as [->|Hne].
  * rewrite Hcc'. split; [lia|]. rewrite Hold by lia. exact Hc.
  * rewrite Hnode by (unfold here in *; lia). split; assumption.
- intros k Hk. rewrite Hlen2 in Hk.
destruct (Z.eq_dec k here) as [->|Hnh].
+ unfold kinds, omt_node. cbn [o_search_tree o_queue].
  rewrite Hnew2. cbn [TreeNode_default child_count]. rewrite irange_0. cbn [map app].
  rewrite filter_app, (filter_none _ _ Hqueue_par), (filter_all _ _ Hrs_par).
  cbn [app].
  destruct (Z.eqb_spec here 0) as [E0|_]; [unfold here in E0; lia|].
  apply (kinds_of_groups _ q (width r) here (height r - 1)); [assumption|assumption|].
  intros _. unfold q. apply Z.mul_div_le. lia.
+ specialize (Gkinds k ltac:(unfold here in *; lia)).
  replace (kinds BRANCHING_FACTOR
             {| o_leaves := leaves2; o_queue := queue ++ rs; o_search_tree := T2;
                o_leaf_node_file := o_leaf_node_file s;
                o_leaf_node_count := o_leaf_node_count s |} k)
    with (kinds BRANCHING_FACTOR s k); [exact Gkinds|].
  unfold kinds, omt_node. cbn [o_search_tree o_queue]. rewrite Hq. cbn [filter].
  rewrite filter_app.
  rewrite (filter_none (fun r' => parent r' =? k) rs)
    by (eapply Forall_impl; [|exact Hall]; intros r' (Hr' & _);
        apply Z.eqb_neq; lia).
  rewrite app_nil_r.
  destruct (Z.eqb_spec (parent r) k) as [<-|Hne].
  * rewrite (child_kinds_attach _ _ false (proj1 Hcc) Hcc' Hold)
      by (rewrite Hnew; reflexivity).
    rewrite <- app_assoc. cbn [app map].
    destruct (Z.leb_spec (width r) BRANCHING_FACTOR); [lia|reflexivity].
  * rewrite Hnode by (unfold here in *; lia). reflexivity.
- exact Gleaves.
Qed.

(** The first range becomes the root. *)
Lemma step_root_good input s' :
omt_root_fits BRANCHING_FACTOR ceil_log_ratio ceil_div_pow (Z.of_nat (length input)) ->
step (OMT_init input)
     {| parent := 0; left := 0; right := Z.of_nat (length input); height := 0 |} []
= Some s' ->
good s'.
Proof.
intros Hfit Hstep. unfold omt_root_fits in Hfit. cbv zeta in Hfit.
unfold OMT_step in Hstep. cbv zeta in Hstep.
cbn [OMT_init o_search_tree o_leaves o_leaf_node_file o_leaf_node_count
     parent left right height] in Hstep.
replace (Z.of_nat (length input) - 0 + 1) with (Z.of_nat (length input) + 1)
  in Hstep by lia.
set (N := Z.of_nat (length input) + 1) in *.
destruct (Z.leb_spec N BRANCHING_FACTOR) as [Hle|Hgt].
{ destruct (N - 1 <=? LEAF_NODE_SIZE_); [|discriminate].
  unfold omt_attach in Hstep. cbn in Hstep. discriminate. }
rewrite Z.eqb_refl in Hstep. cbn [app length] in Hstep.
change (Z.of_nat 1 - 1) with 0 in Hstep.
set (h := ceil_log_ratio N BRANCHING_FACTOR) in *.
set (M1 := ceil_div_pow N BRANCHING_FACTOR (h - 1) mod UINT32_MOD) in *.
destruct (Z.eqb_spec M1 0) as [|HM]; [discriminate|].
assert (HM1 : 0 < M1).
{ assert (0 <= M1) by (unfold M1, UINT32_MOD; apply Z.mod_pos_bound; lia). lia. }
set (q := N / M1) in *.
set (S := ceil_sqrt M1) in *.
destruct (omt_slabs centroid sort cs _ (q * S) q 0 (Z.of_nat (length input)) 0 (h - 1)
                    _ []) as [[leaves2 queue']|] eqn:Es; [|discriminate].
injection Hstep as <-.
assert (Hq0 : 0 <= q) by (unfold q; apply Z.div_pos; lia).
assert (Hlr : 0 < Z.of_nat (length input)) by lia.
assert (HqS : 1 <= q /\ 1 <= S).
{ destruct (Z_le_gt_dec (q * S) 0) as [Hle|Hgt'].
  - rewrite (omt_slabs_none centroid sort cs _ _ _ _ _ _ _ _ _ Hle Hlr) in Es.
    discriminate.
  - apply positive_factors; assumption. }
destruct HqS as [Hq1 HS].
destruct (omt_slabs_spec centroid sort cs _ _ _ _ _ _ _ _ _ _ _ Hq1 HS Es)
  as (rs & -> & Hall & Hsum & Hhd).
assert (Hgroups : groups_of q N 0 (h - 1) rs).
{ split; [assumption|]. split.
  - destruct Hsum as [Hf|Hs]; [now left|right]. rewrite Hs. unfold N. lia.
  - destruct rs; [exact I|exact Hhd]. }
assert (Hpow : q <= BRANCHING_FACTOR ^ (h - 1)).
{ unfold q. apply Z.div_le_upper_bound; [lia|exact Hfit]. }
constructor; unfold omt_node, omt_index;
  cbn [o_search_tree o_queue o_leaf_node_file o_leaf_node_count app length].
- lia.
- reflexivity.
- intros k Hk. replace k with 0 by lia.
  change (at_ (TreeNode_default 0) [TreeNode_default BRANCHING_FACTOR] 0)
    with (TreeNode_default BRANCHING_FACTOR).
  cbn [TreeNode_default children child_count]. rewrite repeat_length.
  split; [reflexivity|lia].
- eapply Forall_impl; [|exact Hall]. intros r' (Hr' & Hh' & Hw').
  rewrite Hr', Hh'. split; lia.
- intros k i Hk Hi. replace k with 0 in Hi by lia.
  change (at_ (TreeNode_default 0) [TreeNode_default BRANCHING_FACTOR] 0)
    with (TreeNode_default BRANCHING_FACTOR) in Hi.
  cbn [TreeNode_default child_count] in Hi. lia.
- intros k Hk. replace k with 0 by lia.
  change (at_ (TreeNode_default 0) [TreeNode_default BRANCHING_FACTOR] 0)
    with (TreeNode_default BRANCHING_FACTOR).
  apply joins_default.
- intros k Hk. lia.
- intros k Hk. replace k with 0 by lia.
  unfold kinds, omt_node. cbn [o_search_tree o_queue app].
  change (at_ (TreeNode_default 0) [TreeNode_default BRANCHING_FACTOR] 0)
    with (TreeNode_default BRANCHING_FACTOR).
  cbn [TreeNode_default child_count]. rewrite irange_0. cbn [map app].
  rewrite filter_all
    by (eapply Forall_impl; [|exact Hall]; intros r' (Hr' & _); now apply Z.eqb_eq).
  apply (kinds_of_groups _ q N 0 (h - 1)); [assumption|assumption|].
  cbn. discriminate.
- constructor.
Qed.

(** The arrays only grow. *)
Lemma step_sizes s r queue s' :
step s r queue = Some s' -> nodes s <= nodes s' /\ pages s <= pages s'.
Proof.
intros Hstep. unfold OMT_step in Hstep. cbv zeta in Hstep.
destruct (right r - left r + 1 <=? BRANCHING_FACTOR).
- destruct (_ <=? LEAF_NODE_SIZE_); [|discriminate].
  destruct (omt_attach _ _ _ _ _ _) as [T'|] eqn:Ea; [|discriminate].
  injection Hstep as <-. cbn [o_search_tree o_leaf_node_file].
  destruct (omt_attach_spec _ _ _ _ _ _ _ Ea) as (Hp & _ & ->).
  rewrite set_at_length by assumption. rewrite length_app. cbn [length]. lia.
- destruct (height r =? 0).
  + destruct (_ =? 0); [discriminate|].
    destruct (omt_slabs _ _ _ _ _ _ _ _ _ _ _ _) as [[leaves2 queue']|];
      [|discriminate].
    injection Hstep as <-. cbn [o_search_tree o_leaf_node_file].
    rewrite length_app. cbn [length]. lia.
  + destruct (omt_attach _ _ _ _ _ _) as [T'|] eqn:Ea; [|discriminate].
    destruct (_ =? 0); [discriminate|].
    destruct (omt_slabs _ _ _ _ _ _ _ _ _ _ _ _) as [[leaves2 queue']|];
      [|discriminate].
    injection Hstep as <-. cbn [o_search_tree o_leaf_node_file].
    destruct (omt_attach_spec _ _ _ _ _ _ _ Ea) as (Hp & _ & ->).
    rewrite set_at_length by assumption. rewrite length_app. cbn [length]. lia.
Qed.

Local Abbreviation loop :=
(OMT_loop BRANCHING_FACTOR LEAF_NODE_SIZE_ latToY centroid sort cs
          ceil_log_ratio ceil_div_pow ceil_sqrt).

Lemma loop_sizes fuel :
forall s sf, loop fuel s = Some sf -> nodes s <= nodes sf /\ pages s <= pages sf.
Proof.
induction fuel as [|fuel IH]; intros s sf H; cbn [OMT_loop] in H;
  destruct (o_queue s) as [|r queue] eqn:Hq.
- injection H as <-. lia.
- discriminate.
- injection H as <-. lia.
- destruct (step s r queue) as [s1|] eqn:Es; [|discriminate].
  pose proof (step_sizes _ _ _ _ Es). pose proof (IH _ _ H). lia.
Qed.

(** When the loop ends the queue is empty and the invariant holds. *)
Lemma loop_good fuel :
forall s sf,
  good s -> loop fuel s = Some sf ->
  nodes sf < 2147483648 -> pages sf < 2147483648 ->
  good sf /\ o_queue sf = [].
Proof.
induction fuel as [|fuel IH]; intros s sf G H Hn Hp; cbn [OMT_loop] in H;
  destruct (o_queue s) as [|r queue] eqn:Hq.
- injection H as <-. split; assumption.
- discriminate.
- injection H as <-. split; assumption.
- destruct (step s r queue) as [s1|] eqn:Es; [|discriminate].
  pose proof (loop_sizes _ _ _ H) as [Hn1 Hp1].
  apply (IH s1 sf); try assumption.
  destruct (Z_le_gt_dec (width r) BRANCHING_FACTOR) as [Hle|Hgt].
  + apply (step_leaf_good s r queue s1); try assumption. lia.
  + apply (step_node_good s r queue s1); try assumption; lia.
Qed.

End OMTSteps.

(** ** The pass over the nodes in reverse *)

Lemma joins_exact t n :
  joins t n ->
  (forall i, 0 <= i < child_count n -> is_leaf (child_at n i) = true) ->
  node_exact t n.
Proof.
  intros (H0 & Hup & Hleast) Hall. unfold node_exact. apply inside_antisym.
  - apply Hleast; [apply union_of_empty|]. intros i Hi _. apply union_of_upper.
    apply (in_map (fun i => child_rectangle t (child_at n i))). now apply irange_spec.
  - apply union_of_least; [assumption|]. intros r Hr.
    apply in_map_iff in Hr as (i & <- & Hi). apply irange_spec in Hi.
    apply Hup; [assumption|]. now apply Hall.
Qed.

Lemma node_exact_ext t t' n :
  (forall i, 0 <= i < child_count n ->
             child_rectangle t' (child_at n i) = child_rectangle t (child_at n i)) ->
  node_exact t n -> node_exact t' n.
Proof.
  intros H E. unfold node_exact in *. rewrite E. f_equal.
  apply map_ext_in. intros i Hi. apply irange_spec in Hi. symmetry. now apply H.
Qed.

Lemma propagate_none l : fold_left omt_propagate_node l None = None.
Proof. induction l as [|k l IH]; simpl; [reflexivity|exact IH]. Qed.

Section PropagateNode.

Variable k : Z.

(** The body of the inner loop, for the node at [k]. *)
Local Abbreviation body :=
(fun (acc : option (list TreeNode)) (i : Z) =>
 match acc with
 | None => None
 | Some tree' =>
     let n' := at_ (TreeNode_default 0) tree' k in
     let c := index (child_at n' i) in
     if c <? Z.of_nat (length tree')
     then Some (set_at tree' k
                       {| child_count := child_count n';
                          minimum_bounding_rectangle :=
                            Rectangle.MergeBoundingBoxes
                              (minimum_bounding_rectangle n')
                              (minimum_bounding_rectangle
                                 (at_ (TreeNode_default 0) tree' c));
                          children := children n' |})
     else None
 end).

Lemma body_none l : fold_left body l None = None.
Proof. induction l as [|i l IH]; simpl; [reflexivity|exact IH]. Qed.

Local Abbreviation nd T j := (at_ (TreeNode_default 0) T j).
Local Abbreviation mbr n := (minimum_bounding_rectangle n).

Lemma propagate_fold l :
forall T Tf,
0 <= k < Z.of_nat (length T) ->
(forall i, In i l -> 0 <= index (child_at (nd T k) i)) ->
fold_left body l (Some T) = Some Tf ->
length Tf = length T
/\ (forall j, 0 <= j -> j <> k -> nd Tf j = nd T j)
/\ child_count (nd Tf k) = child_count (nd T k)
/\ children (nd Tf k) = children (nd T k)
/\ Rectangle.inside (mbr (nd T k)) (mbr (nd Tf k)) = true
/\ (forall i, In i l ->
              index (child_at (nd T k) i) < Z.of_nat (length T)
              /\ (index (child_at (nd T k) i) <> k ->
                  Rectangle.inside (mbr (nd T (index (child_at (nd T k) i))))
                                   (mbr (nd Tf k)) = true))
/\ (forall X, Rectangle.inside (mbr (nd T k)) X = true ->
              (forall i, In i l -> index (child_at (nd T k) i) <> k ->
                         Rectangle.inside (mbr (nd T (index (child_at (nd T k) i)))) X
                         = true) ->
              Rectangle.inside (mbr (nd Tf k)) X = true).
Proof.
induction l as [|i l IH]; intros T Tf Hk Hidx H.
- simpl in H. injection H as <-.
split; [reflexivity|]. split; [reflexivity|]. split; [reflexivity|].
split; [reflexivity|]. split; [apply inside_refl|].
split; [intros i []|]. intros X HX _. exact HX.
- cbn [fold_left] in H. cbv zeta in H.
set (c := index (child_at (nd T k) i)) in *.
destruct (Z.ltb_spec c (Z.of_nat (length T))) as [Hc|Hc];
  [|rewrite body_none in H; discriminate].
set (n1 := {| child_count := child_count (nd T k);
              minimum_bounding_rectangle :=
                Rectangle.MergeBoundingBoxes (mbr (nd T k)) (mbr (nd T c));
              children := children (nd T k) |}) in *.
set (T1 := set_at T k n1) in *.
assert (Hlen1 : length T1 = length T) by (apply set_at_length; assumption).
assert (Hk1 : nd T1 k = n1) by (apply at_set_at_same; assumption).
assert (Ho1 : forall j, 0 <= j -> j <> k -> nd T1 j = nd T j).
{ intros j Hj Hne. apply at_set_at_other; [assumption|assumption|congruence]. }
assert (Hc0 : 0 <= c) by (apply Hidx; now left).
destruct (IH T1 Tf) as (Hlen & Hother & Hcc & Hch & Hin & Hup & Hleast).
{ rewrite Hlen1. exact Hk. }
{ intros i' Hi'. rewrite Hk1. unfold child_at. cbn [children n1].
  apply Hidx. now right. }
{ exact H. }
rewrite Hk1 in Hcc, Hch, Hin, Hup, Hleast.
unfold child_at in Hup, Hleast. cbn [children child_count n1] in Hcc, Hch, Hup, Hleast.
fold (child_at (nd T k)) in Hup, Hleast.
cbn [minimum_bounding_rectangle n1] in Hin, Hleast.
split; [congruence|]. split.
{ intros j Hj Hne. rewrite Hother by assumption. now apply Ho1. }
split; [assumption|]. split; [assumption|]. split.
{ eapply inside_trans; [apply Merge_inside_l|exact Hin]. }
split.
+ intros i' [<-|Hi'].
  * split; [assumption|]. intros Hne.
    eapply inside_trans; [apply Merge_inside_r|exact Hin].
  * destruct (Hup i' Hi') as [Hlt Hins]. rewrite Hlen1 in Hlt.
    split; [assumption|]. intros Hne. specialize (Hins Hne).
    rewrite Ho1 in Hins; [exact Hins| |assumption].
    apply Hidx. now right.
+ intros X HX Hall. apply Hleast.
  * apply Merge_least; [assumption|].
    destruct (Z.eq_dec c k) as [E|Hne]; [rewrite E; exact HX|].
    apply Hall; [now left|assumption].
  * intros i' Hi' Hne. rewrite Ho1; [|apply Hidx; now right|assumption].
    apply Hall; [now right|assumption].
Qed.

End PropagateNode.

Section Propagate.

Variable T0 : list TreeNode.
Variable F : list LeafNode.
Variable cs : list Coordinate.

Local Abbreviation ix T := {| m_search_tree := T; m_leaves := F; m_coordinate_list := cs |}.
Local Abbreviation nd T j := (at_ (TreeNode_default 0) T j).
Local Abbreviation mbr n := (minimum_bounding_rectangle n).
Local Abbreviation size := (Z.of_nat (length T0)).

Hypothesis Hchild :
forall k i, 0 <= k < size -> 0 <= i < child_count (nd T0 k) ->
            0 <= index (child_at (nd T0 k) i)
            /\ (is_leaf (child_at (nd T0 k) i) = false ->
                k < index (child_at (nd T0 k) i) < size).
Hypothesis Hjoins : forall k, 0 <= k < size -> joins (ix T0) (nd T0 k).
Hypothesis Hlinked :
forall k, 1 <= k < size ->
          exists p i, 0 <= p < k /\ 0 <= i < child_count (nd T0 p)
                      /\ child_at (nd T0 p) i = {| index := k; is_leaf := false |}.
Hypothesis Hleaf_first :
forall k, 0 <= k < size -> is_leaf (child_at (nd T0 k) 0) = true ->
          forall i, 0 <= i < child_count (nd T0 k) -> is_leaf (child_at (nd T0 k) i) = true.
Hypothesis Hnode_first :
forall k, 1 <= k < size -> is_leaf (child_at (nd T0 k) 0) = false ->
          forall i, 0 <= i < child_count (nd T0 k) ->
                    is_leaf (child_at (nd T0 k) i) = false.

Lemma rectangle_of_leaf T T' c :
is_leaf c = true -> child_rectangle (ix T) c = child_rectangle (ix T') c.
Proof. intros Hl. now apply leaf_rectangle_same. Qed.

Lemma rectangle_of_node T c :
is_leaf c = false -> child_rectangle (ix T) c = mbr (nd T (index c)).
Proof. intros Hl. unfold child_rectangle. rewrite Hl. reflexivity. Qed.

Lemma child_same T m k i :
propagated T0 F cs m T -> 0 <= k < size ->
child_at (nd T k) i = child_at (nd T0 k) i.
Proof.
intros (_ & Hsh & _) Hk. unfold child_at. destruct (Hsh k Hk) as [_ ->]. reflexivity.
Qed.

(** Below the root every rectangle lies in the union of the rectangles
  of the children of the root. *)
Lemma below_root T U :
propagated T0 F cs 1 T ->
(forall i, 0 <= i < child_count (nd T0 0) ->
           is_leaf (child_at (nd T0 0) i) = false ->
           Rectangle.inside (mbr (nd T (index (child_at (nd T0 0) i)))) U = true) ->
forall g, 1 <= g < size -> Rectangle.inside (mbr (nd T g)) U = true.
Proof.
intros HP Hroot.
assert (H : forall n : nat, forall g, 1 <= g < size -> g < Z.of_nat n ->
                                      Rectangle.inside (mbr (nd T g)) U = true).
{ induction n as [|n IH]; intros g Hg Hn; [lia|].
  destruct (Hlinked g Hg) as (p & i & Hp & Hi & Hc).
  destruct (Z.eq_dec p 0) as [->|Hne].
  - specialize (Hroot i Hi). rewrite Hc in Hroot. apply Hroot. reflexivity.
  - assert (Hp' : 1 <= p < size) by lia.
    eapply inside_trans; [|apply (IH p Hp'); lia].
    destruct HP as (Hlen & Hsh & Hun & Hex).
    rewrite (Hex p ltac:(lia)).
    destruct (Hsh p ltac:(lia)) as [Ecc Ech].
    replace (mbr (nd T g))
      with (child_rectangle (ix T) (child_at (nd T p) i)).
    + apply union_of_upper.
      apply (in_map (fun i => child_rectangle (ix T) (child_at (nd T p) i))).
      apply irange_spec. rewrite Ecc. exact Hi.
    + unfold child_at. rewrite Ech. fold (child_at (nd T0 p) i). rewrite Hc.
      reflexivity. }
intros g Hg. apply (H (Z.to_nat (g + 1)) g Hg). lia.
Qed.

Lemma propagate_step m T T' :
0 <= m < size ->
propagated T0 F cs (m + 1) T ->
omt_propagate_node (Some T) m = Some T' ->
propagated T0 F cs m T'.
Proof.
intros Hm HP H. pose proof HP as (Hlen & Hsh & Hun & Hex).
assert (En : nd T m = nd T0 m) by (apply Hun; lia).
unfold omt_propagate_node in H. cbv zeta in H. rewrite En in H.
destruct ((child_count (nd T0 m) =? 0) || is_leaf (child_at (nd T0 m) 0)) eqn:E.
- injection H as <-.
  split; [assumption|]. split; [assumption|].
  split; [intros k Hk; apply Hun; lia|].
  intros k Hk. destruct (Z.eq_dec k m) as [->|Hne]; [|apply Hex; lia].
  rewrite En. apply joins_exact.
  + apply (joins_ext (ix T0)); [|now apply Hjoins].
    intros i Hi Hl. now apply rectangle_of_leaf.
  + intros i Hi. apply orb_prop in E as [E|E].
    * apply Z.eqb_eq in E. lia.
    * now apply (Hleaf_first m Hm E).
- apply orb_false_elim in E as [Ecc Efirst]. apply Z.eqb_neq in Ecc.
  assert (Hlen' : 0 <= m < Z.of_nat (length T)) by (rewrite Hlen; exact Hm).
  destruct (propagate_fold m (irange (child_count (nd T0 m))) T T' Hlen')
    as (Hlen2 & Hother & Hcc & Hch & Hin & Hup & Hleast).
  { intros i Hi. apply irange_spec in Hi. rewrite En. now apply Hchild. }
  { exact H. }
  rewrite En in Hcc, Hch, Hin, Hup, Hleast.
  assert (HP' : length T' = length T0
                /\ (forall k, 0 <= k < size ->
                              child_count (nd T' k) = child_count (nd T0 k)
                              /\ children (nd T' k) = children (nd T0 k))).
  { split; [congruence|]. intros k Hk.
    destruct (Z.eq_dec k m) as [->|Hne]; [split; assumption|].
    rewrite Hother by lia. now apply Hsh. }
  destruct HP' as [Hlen3 Hsh3].
  (* the rectangles of the children of the node at [m] *)
  assert (Hrect_leaf :
            forall i, 0 <= i < child_count (nd T0 m) ->
                      is_leaf (child_at (nd T0 m) i) = true ->
                      child_rectangle (ix T') (child_at (nd T0 m) i)
                      = child_rectangle (ix T0) (child_at (nd T0 m) i)).
  { intros i Hi Hl. now apply rectangle_of_leaf. }
  assert (Hrect_node :
            forall i, 0 <= i < child_count (nd T0 m) ->
                      is_leaf (child_at (nd T0 m) i) = false ->
                      child_rectangle (ix T') (child_at (nd T0 m) i)
                      = mbr (nd T (index (child_at (nd T0 m) i)))).
  { intros i Hi Hl. rewrite rectangle_of_node by assumption.
    destruct (Hchild m i Hm Hi) as [_ Hgt]. specialize (Hgt Hl).
    rewrite Hother by lia. reflexivity. }
  split; [assumption|]. split; [assumption|]. split.
  { intros k Hk. rewrite Hother by lia. apply Hun. lia. }
  intros k Hk. destruct (Z.eq_dec k m) as [->|Hne].
  + (* the node at hand *)
    unfold node_exact. destruct (Hsh3 m Hm) as [-> Ech3].
    rewrite (map_ext (fun i => child_rectangle (ix T') (child_at (nd T' m) i))
                     (fun i => child_rectangle (ix T') (child_at (nd T0 m) i)))
      by (intros i; unfold child_at; now rewrite Ech3).
    set (U := union_of (map (fun i => child_rectangle (ix T') (child_at (nd T0 m) i))
                            (irange (child_count (nd T0 m))))).
    assert (HinU : forall i, 0 <= i < child_count (nd T0 m) ->
                             Rectangle.inside
                               (child_rectangle (ix T') (child_at (nd T0 m) i)) U = true).
    { intros i Hi. apply union_of_upper.
      apply (in_map (fun i => child_rectangle (ix T') (child_at (nd T0 m) i))).
      now apply irange_spec. }
    destruct (Hjoins m Hm) as (J0 & Jup & Jleast).
    apply inside_antisym.
    * apply Hleast.
      -- apply Jleast; [apply union_of_empty|]. intros i Hi Hl.
         rewrite <- Hrect_leaf by assumption. now apply HinU.
      -- intros i Hi Hne. apply irange_spec in Hi.
         destruct (is_leaf (child_at (nd T0 m) i)) eqn:Hl.
         ++ destruct (Z_le_gt_dec 1 m) as [Hm1|Hm0].
            { rewrite (Hnode_first m ltac:(lia) Efirst i Hi) in Hl. discriminate. }
            assert (m = 0) by lia. subst m.
            destruct (Hup i ltac:(now apply irange_spec)) as [Hlt _].
            destruct (Hchild 0 i Hm Hi) as [H0 _].
            apply (below_root T U HP).
            ** intros i' Hi' Hl'. rewrite <- Hrect_node by assumption. now apply HinU.
            ** rewrite Hlen in Hlt. lia.
         ++ rewrite <- Hrect_node by assumption. now apply HinU.
    * apply union_of_least.
      -- eapply inside_trans; [exact J0|exact Hin].
      -- intros r Hr. apply in_map_iff in Hr as (i & <- & Hi). apply irange_spec in Hi.
         destruct (is_leaf (child_at (nd T0 m) i)) eqn:Hl.
         ++ rewrite Hrect_leaf by assumption.
            eapply inside_trans; [now apply Jup|exact Hin].
         ++ rewrite Hrect_node by assumption.
            destruct (Hchild m i Hm Hi) as [_ Hgt]. specialize (Hgt Hl).
            destruct (Hup i ltac:(now apply irange_spec)) as [_ Hins].
            apply Hins. lia.
  + (* a node done before *)
    rewrite Hother by lia.
    apply (node_exact_ext (ix T)); [|apply Hex; lia].
    intros i Hi. destruct (Hsh k ltac:(lia)) as [Ecc' Ech'].
    rewrite Ecc' in Hi.
    assert (Ec : child_at (nd T k) i = child_at (nd T0 k) i)
      by (unfold child_at; now rewrite Ech').
    rewrite Ec.
    destruct (is_leaf (child_at (nd T0 k) i)) eqn:Hl.
    * now apply rectangle_of_leaf.
    * rewrite !rectangle_of_node by assumption.
      destruct (Hchild k i ltac:(lia) Hi) as [_ Hgt]. specialize (Hgt Hl).
      rewrite Hother by lia. reflexivity.
Qed.

Lemma propagate_all (m : nat) :
forall T Tf,
  Z.of_nat m <= size ->
  propagated T0 F cs (Z.of_nat m) T ->
  fold_left omt_propagate_node (rev (irange (Z.of_nat m))) (Some T) = Some Tf ->
  propagated T0 F cs 0 Tf.
Proof.
induction m as [|m IH]; intros T Tf Hm HP H.
- simpl in H. injection H as <-. exact HP.
- rewrite Nat2Z.inj_succ in H, HP. unfold Z.succ in H, HP.
  rewrite irange_snoc in H by lia. rewrite rev_app_distr in H. cbn [rev app fold_left] in H.
  destruct (omt_propagate_node (Some T) (Z.of_nat m)) as [T1|] eqn:E;
    [|rewrite propagate_none in H; discriminate].
  apply (IH T1 Tf); [lia| |exact H].
  apply (propagate_step (Z.of_nat m) T T1); [lia|exact HP|exact E].
Qed.

(** After the pass every node has the union of the rectangles of its
  children. *)
Lemma propagate_exact Tf :
omt_propagate T0 = Some Tf ->
forall k, 0 <= k < Z.of_nat (length Tf) -> node_exact (ix Tf) (node_at (ix Tf) k).
Proof.
intros H k Hk. unfold omt_propagate in H.
destruct (propagate_all (length T0) T0 Tf) as (Hlen & _ & _ & Hex).
- lia.
- split; [reflexivity|]. split; [intros; split; reflexivity|].
  split; [reflexivity|]. intros k' Hk'. lia.
- exact H.
- apply Hex. rewrite <- Hlen. exact Hk.
Qed.

End Propagate.

(** ** The index that the OMT packer writes *)

Lemma propagate_node_length T k T' :
  0 <= k < Z.of_nat (length T) ->
  omt_propagate_node (Some T) k = Some T' -> length T' = length T.
Proof.
  intros Hk H. unfold omt_propagate_node in H. cbv zeta in H.
  destruct (_ || _); [now injection H as <-|].
  remember (irange (child_count (at_ (TreeNode_default 0) T k))) as l eqn:El. clear El.
  revert T Hk H. induction l as [|i l IH]; intros T Hk H.
  - simpl in H. now injection H as <-.
  - cbn [fold_left] in H. cbv zeta in H.
    destruct (_ <? _); [|rewrite body_none in H; discriminate].
    apply IH in H; [|rewrite set_at_length; assumption].
    rewrite H. now apply set_at_length.
Qed.

Lemma propagate_length T0 Tf : omt_propagate T0 = Some Tf -> length Tf = length T0.
Proof.
  unfold omt_propagate.
  assert (H : forall (m : nat) T, (m <= length T)%nat ->
                fold_left omt_propagate_node (rev (irange (Z.of_nat m))) (Some T) = Some Tf ->
                length Tf = length T).
  { induction m as [|m IH]; intros T Hm H.
    - simpl in H. now injection H as <-.
    - rewrite Nat2Z.inj_succ in H. unfold Z.succ in H.
      rewrite irange_snoc in H by lia. rewrite rev_app_distr in H.
      cbn [rev app fold_left] in H.
      destruct (omt_propagate_node (Some T) (Z.of_nat m)) as [T1|] eqn:E;
        [|rewrite propagate_none in H; discriminate].
      apply propagate_node_length in E; [|lia].
      rewrite <- E. apply IH; [lia|exact H]. }
  apply H. lia.
Qed.

Lemma irange_hd n d : 0 < n -> hd d (irange n) = 0.
Proof.
  intros Hn. unfold irange. destruct (Z.to_nat n) as [|m] eqn:E; [lia|]. reflexivity.
Qed.

Lemma kinds_ok_leaves B is_root (f : Z -> bool) n :
  kinds_ok B is_root (map f (irange n)) -> f 0 = true ->
  forall i, 0 <= i < n -> f i = true.
Proof.
  intros H H0 i Hi.
  assert (Hall : Forall (fun b => b = true) (map f (irange n))).
  { unfold irange in *. destruct (Z.to_nat n) as [|m]; [constructor|].
    cbn [seq map] in *. destruct H as [H _]. constructor; [exact H0|]. now apply H. }
  rewrite Forall_map, Forall_forall in Hall. apply Hall. now apply irange_spec.
Qed.

Lemma kinds_ok_nodes B (f : Z -> bool) n :
  kinds_ok B false (map f (irange n)) -> n <= B -> f 0 = false ->
  forall i, 0 <= i < n -> f i = false.
Proof.
  intros H Hn H0 i Hi.
  assert (Hall : Forall (fun b => b = false) (map f (irange n))).
  { assert (Hlen : Z.of_nat (length (map f (irange n))) <= B).
    { rewrite length_map, irange_length. lia. }
    unfold irange in *. destruct (Z.to_nat n) as [|m]; [constructor|].
    cbn [seq map] in *. destruct H as [_ H]. constructor; [exact H0|].
    now apply H. }
  rewrite Forall_map, Forall_forall in Hall. apply Hall. now apply irange_spec.
Qed.

Section OMTResult.

Variable BRANCHING_FACTOR : Z.
Variable LEAF_NODE_SIZE_ : Z.
Variable latToY : Z -> Z.
Variable centroid : Coordinate -> Coordinate -> Coordinate.
Variable sort : forall A : Type, (A -> A -> bool) -> list A -> list A.
Variable cs : list Coordinate.
Variable ceil_log_ratio : Z -> Z -> Z.
Variable ceil_div_pow : Z -> Z -> Z -> Z.
Variable ceil_sqrt : Z -> Z.
Hypothesis HB : 1 <= BRANCHING_FACTOR.

(** When the OMT packer returns, and its two arrays fit the 31 bits of
  a child index, every node has the union of the rectangles of its
  children and every leaf the union of the boxes of its objects. *)
Lemma PackWithOMT_exact fuel input tree leaves :
omt_root_fits BRANCHING_FACTOR ceil_log_ratio ceil_div_pow (Z.of_nat (length input)) ->
PackWithOMT BRANCHING_FACTOR LEAF_NODE_SIZE_ latToY centroid sort cs
            ceil_log_ratio ceil_div_pow ceil_sqrt fuel input = Some (tree, leaves) ->
Z.of_nat (length tree) < 2147483648 ->
Z.of_nat (length leaves) < 2147483648 ->
mbr_exact latToY {| m_search_tree := tree; m_leaves := leaves; m_coordinate_list := cs |}.
Proof.
intros Hfit H Htree Hleaves. unfold PackWithOMT in H.
destruct (OMT_loop _ _ _ _ _ _ _ _ _ fuel (OMT_init input)) as [sf|] eqn:El;
  [|discriminate].
destruct (omt_propagate (o_search_tree sf)) as [Tf|] eqn:Ep; [|discriminate].
injection H as <- <-.
pose proof (propagate_length _ _ Ep) as Hlen.
destruct fuel as [|fuel]; cbn [OMT_loop OMT_init o_queue] in El; [discriminate|].
match type of El with
| match ?st with _ => _ end = _ => destruct st as [s1|] eqn:Es; [|discriminate]
end.
pose proof (step_root_good _ _ _ _ _ _ _ _ _ HB _ _ Hfit Es) as G1.
destruct (loop_good _ _ _ _ _ _ _ _ _ HB fuel s1 sf G1 El) as [G Hq];
  [rewrite <- Hlen; exact Htree|exact Hleaves|].
destruct G as [Gne Gcount Gshape Gqueue Gchild Gjoins Glinked Gkinds Gleaves].
unfold omt_node, omt_index in *.
assert (Hk : forall k, 0 <= k < Z.of_nat (length (o_search_tree sf)) ->
               kinds_ok BRANCHING_FACTOR (k =? 0)
                 (map (fun i => is_leaf (child_at (at_ (TreeNode_default 0)
                                                       (o_search_tree sf) k) i))
                      (irange (child_count (at_ (TreeNode_default 0)
                                                (o_search_tree sf) k))))).
{ intros k Hk. specialize (Gkinds k Hk). unfold kinds, omt_node in Gkinds.
  rewrite Hq in Gkinds. cbn [filter map] in Gkinds. now rewrite app_nil_r in Gkinds. }
split.
- refine (propagate_exact (o_search_tree sf) (o_leaf_node_file sf) cs
                         _ Gjoins Glinked _ _ Tf Ep).
  + intros k i Hk' Hi. specialize (Gchild k i Hk' Hi). cbv zeta in Gchild.
    destruct Gchild as [G0 G1']. split; [assumption|]. intros Hl.
    rewrite Hl in G1'. exact G1'.
  + intros k Hk' H0 i Hi.
    exact (kinds_ok_leaves _ _ _ _ (Hk k Hk') H0 i Hi).
  + intros k Hk' H0 i Hi.
    assert (Hk0 : 0 <= k < Z.of_nat (length (o_search_tree sf))) by lia.
    specialize (Hk k Hk0). destruct (Z.eqb_spec k 0); [lia|].
    destruct (Gshape k Hk0) as [_ Hc].
    exact (kinds_ok_nodes _ _ _ Hk ltac:(lia) H0 i Hi).
- cbn [m_leaves m_coordinate_list]. intros l Hl.
  rewrite Forall_forall in Gleaves. now apply Gleaves.
Qed.

End OMTResult.

(** ** The sizes of the arrays that the OMT packer writes *)

Lemma total_width_ge rs :
  Forall (fun r => 1 <= width r) rs -> Z.of_nat (length rs) <= total_width rs.
Proof.
  induction 1 as [|r rs Hr _ IH]; [simpl; lia|].
  cbn [total_width fold_right length]. fold (total_width rs). lia.
Qed.

Lemma omt_groups_widths fuel :
  forall q j right2 p h rs,
    1 <= q -> omt_groups fuel q j right2 p h = Some rs ->
    Forall (fun r => 1 <= width r) rs.
Proof.
  induction fuel as [|fuel IH]; intros q j right2 p h rs Hq H; cbn [omt_groups] in H;
    destruct (Z.leb_spec j right2).
  - discriminate.
  - injection H as <-. constructor.
  - destruct (omt_groups fuel q (j + q) right2 p h) as [rs'|] eqn:E'; [|discriminate].
    injection H as <-. constructor; [unfold width; simpl; lia|].
    exact (IH _ _ _ _ _ _ Hq E').
  - injection H as <-. constructor.
Qed.

Section OMTSizes.

Variable BRANCHING_FACTOR : Z.
Variable LEAF_NODE_SIZE_ : Z.
Variable latToY : Z -> Z.
Variable centroid : Coordinate -> Coordinate -> Coordinate.
Variable sort : forall A : Type, (A -> A -> bool) -> list A -> list A.
Variable cs : list Coordinate.
Variable ceil_log_ratio : Z -> Z -> Z.
Variable ceil_div_pow : Z -> Z -> Z -> Z.
Variable ceil_sqrt : Z -> Z.
Hypothesis HB : 2 <= BRANCHING_FACTOR.

Local Abbreviation step :=
(OMT_step BRANCHING_FACTOR LEAF_NODE_SIZE_ latToY centroid sort cs
          ceil_log_ratio ceil_div_pow ceil_sqrt).
Local Abbreviation loop :=
(OMT_loop BRANCHING_FACTOR LEAF_NODE_SIZE_ latToY centroid sort cs
          ceil_log_ratio ceil_div_pow ceil_sqrt).
Local Abbreviation good := (omt_good BRANCHING_FACTOR latToY cs).
Local Abbreviation nodes s := (Z.of_nat (length (o_search_tree s))).
Local Abbreviation pages s := (Z.of_nat (length (o_leaf_node_file s))).

Lemma omt_slabs_widths fuel :
forall S q i right_ here h leaves queue leaves' rs,
  1 <= q -> 1 <= S ->
  omt_slabs centroid sort cs fuel (q * S) q i right_ here h leaves queue
  = Some (leaves', queue ++ rs) ->
  Forall (fun r => 1 <= width r) rs
  /\ right_ - i <= total_width rs <= Z.max 0 (right_ - i + 1).
Proof.
induction fuel as [|fuel IH];
  intros S q i right_ here h leaves queue leaves' rs Hq HS H;
  cbn [omt_slabs] in H; destruct (Z.ltb_spec i right_) as [Hlt|Hge].
- discriminate.
- injection H as _ H. rewrite <- (app_nil_r queue) in H at 1.
  apply app_inv_head in H. subst rs. split; [constructor|simpl; lia].
- cbv zeta in H.
  set (right2 := Z.min (i + q * S - 1) right_) in *.
  destruct (omt_groups (Datatypes.S (Z.to_nat (right2 - i))) q i right2 here h)
    as [col|] eqn:Ecol; [|discriminate].
  destruct (omt_groups_spec _ _ _ _ _ _ _ Hq Ecol) as (_ & Hsum & _ & _).
  pose proof (omt_groups_widths _ _ _ _ _ _ _ Hq Ecol) as Hcol.
  destruct (omt_slabs_spec centroid sort cs _ _ _ _ _ _ _ _ _ _ _ Hq HS H)
    as (rest & E & _).
  rewrite <- app_assoc in E. apply app_inv_head in E. subst rs.
  rewrite app_assoc in H.
  destruct (IH _ _ _ _ _ _ _ _ _ _ Hq HS H) as [Hrest Hbounds].
  split; [now apply Forall_app|].
  rewrite total_width_app, Hsum.
  pose proof (total_width_ge _ Hrest).
  assert (i <= right2) by (unfold right2; nia).
  assert (q * S <= right_ - i + 1 \/ right2 = right_) by (unfold right2; lia).
  unfold right2 in *. lia.
- injection H as _ H. rewrite <- (app_nil_r queue) in H at 1.
  apply app_inv_head in H. subst rs. split; [constructor|simpl; lia].
Qed.

Lemma bounded_sizes bound s :
omt_bounded bound s -> nodes s <= bound /\ pages s <= bound.
Proof.
intros [Hw Hb]. unfold omt_weight in Hb. pose proof (total_width_ge _ Hw). lia.
Qed.

Lemma step_bounded bound s r queue s' :
good s -> o_queue s = r :: queue -> omt_bounded bound s ->
step s r queue = Some s' ->
omt_bounded bound s'.
Proof.
intros G Hq [Hwq Hb] Hstep. unfold omt_weight in Hb.
rewrite Hq in Hwq, Hb. apply Forall_cons_iff in Hwq as [Hw1 Hwq].
cbn [total_width fold_right length] in Hb. fold (total_width queue) in Hb.
destruct G as [Gne Gcount Gshape Gqueue Gchild Gjoins Glinked Gkinds Gleaves].
rewrite Hq in Gqueue. apply Forall_cons_iff in Gqueue as [(Hpar & Hpow) Gqueue].
unfold OMT_step in Hstep. cbv zeta in Hstep.
change (right r - left r + 1) with (width r) in Hstep.
destruct (Z.leb_spec (width r) BRANCHING_FACTOR) as [Hle|Hgt].
- destruct (width r - 1 <=? LEAF_NODE_SIZE_); [|discriminate].
  destruct (omt_attach _ _ _ _ _ _) as [T'|] eqn:Ea; [|discriminate].
  injection Hstep as <-.
  destruct (omt_attach_spec _ _ _ _ _ _ _ Ea) as (Hp & _ & ->).
  split; unfold omt_weight; cbn [o_queue o_search_tree o_leaf_node_file];
    [assumption|].
  rewrite set_at_length by assumption. rewrite length_app. cbn [length]. lia.
- assert (Hh : 1 <= height r).
  { destruct (Z_lt_le_dec (height r) 1) as [Hlt|]; [|assumption]. exfalso.
    destruct (Z.eq_dec (height r) 0) as [E|E].
    - rewrite E in Hpow. simpl in Hpow. lia.
    - rewrite Z.pow_neg_r in Hpow by lia. lia. }
  destruct (Z.eqb_spec (height r) 0); [lia|].
  destruct (omt_attach _ _ _ _ _ _) as [T2|] eqn:Ea; [|discriminate].
  destruct (Z.eqb_spec BRANCHING_FACTOR 0); [lia|].
  set (q := width r / BRANCHING_FACTOR) in *.
  set (S := ceil_sqrt BRANCHING_FACTOR) in *.
  destruct (omt_slabs centroid sort cs _ (q * S) q (left r) (right r) _ (height r - 1)
                      _ queue) as [[leaves2 queue']|] eqn:Es; [|discriminate].
  injection Hstep as <-.
  assert (Hq1 : 1 <= q) by (unfold q; apply Z.div_le_lower_bound; lia).
  assert (Hlr : left r < right r) by (unfold width in Hgt; lia).
  assert (HS : 1 <= S).
  { destruct (Z_le_gt_dec (q * S) 0) as [Hle|Hgt'].
    - rewrite (omt_slabs_none centroid sort cs _ _ _ _ _ _ _ _ _ Hle Hlr) in Es.
      discriminate.
    - apply (positive_factors q S); lia. }
  destruct (omt_slabs_spec centroid sort cs _ _ _ _ _ _ _ _ _ _ _ Hq1 HS Es)
    as (rs & -> & Hall & _).
  destruct (omt_slabs_widths _ _ _ _ _ _ _ _ _ _ _ Hq1 HS Es) as [Hrs Hsum].
  destruct (omt_attach_spec _ _ _ _ _ _ _ Ea) as (Hp & _ & ->).
  assert (Hle : total_width rs <= Z.of_nat (length rs) * q).
  { apply total_width_le. eapply Forall_impl; [|exact Hall]. simpl. tauto. }
  assert (H2q : 2 * q <= width r).
  { pose proof (Z.mul_div_le (width r) BRANCHING_FACTOR ltac:(lia)). fold q in H. nia. }
  assert (Hmany : 2 <= Z.of_nat (length rs)).
  { destruct (Z_le_gt_dec 2 (Z.of_nat (length rs))) as [|Hfew]; [assumption|].
    exfalso. unfold width in *. nia. }
  split; unfold omt_weight; cbn [o_queue o_search_tree o_leaf_node_file].
  + apply Forall_app. split; assumption.
  + rewrite set_at_length by assumption.
    rewrite !length_app, total_width_app. cbn [length].
    unfold width in *. lia.
Qed.

Lemma step_root_bounded input s' :
step (OMT_init input)
     {| parent := 0; left := 0; right := Z.of_nat (length input); height := 0 |} []
= Some s' ->
omt_bounded (2 * (Z.of_nat (length input) + 1)) s'.
Proof.
intros Hstep.
unfold OMT_step in Hstep. cbv zeta in Hstep.
cbn [OMT_init o_search_tree o_leaves o_leaf_node_file o_leaf_node_count
     parent left right height] in Hstep.
replace (Z.of_nat (length input) - 0 + 1) with (Z.of_nat (length input) + 1)
  in Hstep by lia.
set (N := Z.of_nat (length input) + 1) in *.
destruct (Z.leb_spec N BRANCHING_FACTOR) as [Hle|Hgt].
{ destruct (N - 1 <=? LEAF_NODE_SIZE_); [|discriminate].
  unfold omt_attach in Hstep. cbn in Hstep. discriminate. }
rewrite Z.eqb_refl in Hstep. cbn [app length] in Hstep.
change (Z.of_nat 1 - 1) with 0 in Hstep.
set (h := ceil_log_ratio N BRANCHING_FACTOR) in *.
set (M1 := ceil_div_pow N BRANCHING_FACTOR (h - 1) mod UINT32_MOD) in *.
destruct (Z.eqb_spec M1 0) as [|HM]; [discriminate|].
assert (HM1 : 0 < M1).
{ assert (0 <= M1) by (unfold M1, UINT32_MOD; apply Z.mod_pos_bound; lia). lia. }
set (q := N / M1) in *.
set (S := ceil_sqrt M1) in *.
destruct (omt_slabs centroid sort cs _ (q * S) q 0 (Z.of_nat (length input)) 0 (h - 1)
                    _ []) as [[leaves2 queue']|] eqn:Es; [|discriminate].
injection Hstep as <-.
assert (Hq0 : 0 <= q) by (unfold q; apply Z.div_pos; lia).
assert (Hlr : 0 < Z.of_nat (length input)) by lia.
assert (HqS : 1 <= q /\ 1 <= S).
{ destruct (Z_le_gt_dec (q * S) 0) as [Hle|Hgt'].
  - rewrite (omt_slabs_none centroid sort cs _ _ _ _ _ _ _ _ _ Hle Hlr) in Es.
    discriminate.
  - apply positive_factors; assumption. }
destruct HqS as [Hq1 HS].
destruct (omt_slabs_spec centroid sort cs _ _ _ _ _ _ _ _ _ _ _ Hq1 HS Es)
  as (rs & -> & _ & _ & Hhd).
destruct (omt_slabs_widths _ _ _ _ _ _ _ _ _ _ _ Hq1 HS Es) as [Hrs Hsum].
cbn [app] in *.
split; unfold omt_weight; cbn [o_queue o_search_tree o_leaf_node_file length];
  [assumption|].
destruct rs as [|r0 rest]; [lia|]. cbn [length] in *. unfold N in *. lia.
Qed.

Lemma loop_good_bounded bound fuel :
forall s sf,
  bound < 2147483648 ->
  good s -> omt_bounded bound s -> loop fuel s = Some sf ->
  omt_bounded bound sf.
Proof.
induction fuel as [|fuel IH]; intros s sf Hbound G Hb H; cbn [OMT_loop] in H;
  destruct (o_queue s) as [|r queue] eqn:Hq.
- now injection H as <-.
- discriminate.
- now injection H as <-.
- destruct (step s r queue) as [s1|] eqn:Es; [|discriminate].
  pose proof (step_bounded bound s r queue s1 G Hq Hb Es) as Hb1.
  destruct (bounded_sizes _ _ Hb1) as [Hn1 Hp1].
  apply (IH s1 sf); try assumption.
  destruct (Z_le_gt_dec (width r) BRANCHING_FACTOR) as [Hle|Hgt].
  + apply (step_leaf_good BRANCHING_FACTOR LEAF_NODE_SIZE_ latToY centroid sort cs
                          ceil_log_ratio ceil_div_pow ceil_sqrt ltac:(lia)
                          s r queue s1); try assumption. lia.
  + apply (step_node_good BRANCHING_FACTOR LEAF_NODE_SIZE_ latToY centroid sort cs
                          ceil_log_ratio ceil_div_pow ceil_sqrt ltac:(lia)
                          s r queue s1); try assumption; lia.
Qed.

(** The packer writes at most [2 * (n + 1)] nodes and leaves for [n]
  objects. *)
Lemma PackWithOMT_sizes fuel input tree leaves :
omt_root_fits BRANCHING_FACTOR ceil_log_ratio ceil_div_pow (Z.of_nat (length input)) ->
2 * (Z.of_nat (length input) + 1) < 2147483648 ->
PackWithOMT BRANCHING_FACTOR LEAF_NODE_SIZE_ latToY centroid sort cs
            ceil_log_ratio ceil_div_pow ceil_sqrt fuel input = Some (tree, leaves) ->
Z.of_nat (length tree) <= 2 * (Z.of_nat (length input) + 1)
/\ Z.of_nat (length leaves) <= 2 * (Z.of_nat (length input) + 1).
Proof.
intros Hfit Hsmall H. unfold PackWithOMT in H.
destruct (OMT_loop _ _ _ _ _ _ _ _ _ fuel (OMT_init input)) as [sf|] eqn:El;
  [|discriminate].
destruct (omt_propagate (o_search_tree sf)) as [Tf|] eqn:Ep; [|discriminate].
injection H as <- <-.
rewrite (propagate_length _ _ Ep).
destruct fuel as [|fuel]; cbn [OMT_loop OMT_init o_queue] in El; [discriminate|].
match type of El with
| match ?st with _ => _ end = _ => destruct st as [s1|] eqn:Es; [|discriminate]
end.
assert (HB1 : 1 <= BRANCHING_FACTOR) by lia.
pose proof (step_root_good _ _ _ _ _ _ _ _ _ HB1 _ _ Hfit Es) as G1.
pose proof (step_root_bounded _ _ Es) as B1.
apply (bounded_sizes _ sf).
exact (loop_good_bounded _ fuel s1 sf Hsmall G1 B1 El).
Qed.

End OMTSizes.

(** ** The exact height and fan-out fit every input *)

Lemma int32b_spec z : int32b z = true <-> int32 z.
Proof.
  unfold int32b, int32. rewrite andb_true_iff, Z.leb_le, Z.leb_le. reflexivity.
Qed.

Lemma edge_int32b_spec latToY cs l :
  forallb (edge_int32b latToY cs) l = true -> Forall (edge_int32 latToY cs) l.
Proof.
  intros H. apply Forall_forall. intros e He.
  rewrite forallb_forall in H. specialize (H e He). unfold edge_int32b in H.
  rewrite !andb_true_iff, !int32b_spec in H. unfold edge_int32. tauto.
Qed.

Lemma ceil_log_from_spec fuel :
  forall N M h p,
    2 <= M -> 0 <= h -> p = M ^ h -> N <= p * 2 ^ Z.of_nat fuel ->
    N <= M ^ ceil_log_from fuel N M h p.
Proof.
  induction fuel as [|fuel IH]; intros N M h p HM Hh Hp HN; cbn [ceil_log_from].
  - rewrite <- Hp. simpl in HN. lia.
  - destruct (Z.ltb_spec p N) as [Hlt|Hge]; [|rewrite <- Hp; assumption].
    assert (Hpos : 0 < p) by (rewrite Hp; apply Z.pow_pos_nonneg; lia).
    apply IH; [assumption|lia| |].
    + rewrite Z.pow_add_r, Z.pow_1_r by lia. now rewrite Hp.
    + rewrite Nat2Z.inj_succ, Z.pow_succ_r in HN by lia.
      assert (0 < 2 ^ Z.of_nat fuel) by (apply Z.pow_pos_nonneg; lia).
      nia.
Qed.

Lemma exact_root_fits B n :
  2 <= B -> B < n + 1 -> n + 1 < 4294967296 ->
  omt_root_fits B ceil_log_ratio_exact ceil_div_pow_exact n.
Proof.
  intros HB HN Hsmall. unfold omt_root_fits. cbv zeta.
  set (N := n + 1) in *. set (h := ceil_log_ratio_exact N B).
  assert (Hlog : N <= B ^ h).
  { apply ceil_log_from_spec; [assumption|lia|reflexivity|].
    change (2 ^ Z.of_nat 64) with 18446744073709551616. lia. }
  assert (Hh : 2 <= h).
  { destruct (Z_le_gt_dec 2 h) as [|Hlt]; [assumption|]. exfalso.
    destruct (Z_lt_le_dec h 0) as [Hneg|Hnn].
    - rewrite Z.pow_neg_r in Hlog by assumption. lia.
    - assert (Hc : h = 0 \/ h = 1) by lia. destruct Hc as [E|E]; rewrite E in Hlog.
      + simpl in Hlog. lia.
      + rewrite Z.pow_1_r in Hlog. lia. }
  unfold ceil_div_pow_exact.
  set (b := B ^ (h - 1)).
  assert (Hb : 0 < b) by (apply Z.pow_pos_nonneg; lia).
  assert (Hc0 : 0 <= (N + b - 1) / b) by (apply Z.div_pos; lia).
  assert (HcN : (N + b - 1) / b <= N).
  { apply Z.lt_succ_r. apply Z.div_lt_upper_bound; [assumption|]. nia. }
  rewrite Z.mod_small by (unfold UINT32_MOD; lia).
  pose proof (Z.div_mod (N + b - 1) b ltac:(lia)) as Hdm.
  pose proof (Z.mod_pos_bound (N + b - 1) b Hb) as Hmod.
  nia.
Qed.

(* ================================================================== *)
(** * The claims about [Nearest] *)

(** C1.  On a well-formed index, and with a foot of the perpendicular
    that lies on its segment, [Nearest] returns for every query point,
    filter and terminator, and the list it returns is in non-decreasing
    order of the squared distance between the projected query point and
    the nearest projected point of each edge: for all positions
    [i < j] of the result, the distance at [i] is at most the one at [j]. *)
Theorem Nearest_results_sorted :
  forall latToY nearest_on_segment t q filter terminate,
    index_ok latToY t = true ->
    foot_on_segment latToY nearest_on_segment ->
    (exists fuel results,
        Nearest latToY nearest_on_segment fuel t q filter terminate = Some (results, t))
    /\ forall fuel results t',
        Nearest latToY nearest_on_segment fuel t q filter terminate = Some (results, t') ->
        forall i j, (i < j < length results)%nat ->
          result_distance latToY nearest_on_segment t q (nth i results EdgeData_default)
          <= result_distance latToY nearest_on_segment t q (nth j results EdgeData_default).
Proof.
  intros latToY nos t q filter terminate Hok Hfoot. split.
  - exists (S (weight (depth_of t) t TreeIndex_default)).
    apply (Nearest_terminates latToY nos t Hok). lia.
  - intros fuel results t' H i j Hij. unfold Nearest in H.
    destruct (Nearest_loop latToY nos fuel q filter terminate (Nearest_init t))
      as [s|] eqn:E; [|discriminate].
    inversion H; subst; clear H.
    assert (I : sorted_inv latToY nos t q s).
    { eapply loop_invariant; [|apply (sorted_init latToY nos t q Hok)|exact E].
      intros s0. now apply sorted_step. }
    destruct I as [_ [bound (_ & Hs & _)]].
    now apply (StronglySorted_nth _ _ EdgeData_default Hs).
Qed.

Lemma Nearest_results_sorted_witness :
  exists results,
    Nearest UnitSquare.latToY (nearest_on_segment_exact UnitSquare.latToY) 50
            UnitSquare.deep_tree {| lon := 100000; lat := 200000 |}
            (fun _ => (true, true)) (fun _ _ => false)
    = Some (results, UnitSquare.deep_tree)
    /\ length results = 4%nat
    /\ forall i j, (i < j < length results)%nat ->
         result_distance UnitSquare.latToY (nearest_on_segment_exact UnitSquare.latToY)
                         UnitSquare.deep_tree {| lon := 100000; lat := 200000 |}
                         (nth i results EdgeData_default)
         <= result_distance UnitSquare.latToY (nearest_on_segment_exact UnitSquare.latToY)
                            UnitSquare.deep_tree {| lon := 100000; lat := 200000 |}
                            (nth j results EdgeData_default).
Proof.
  eexists. split; [vm_compute; reflexivity|]. split; [reflexivity|].
  apply (proj2 (Nearest_results_sorted
                  UnitSquare.latToY (nearest_on_segment_exact UnitSquare.latToY)
                  UnitSquare.deep_tree {| lon := 100000; lat := 200000 |}
                  (fun _ => (true, true)) (fun _ _ => false)
                  eq_refl (exact_foot_on_segment UnitSquare.latToY))
               50%nat _ UnitSquare.deep_tree).
  vm_compute. reflexivity.
Defined.

(** C2.  For a leaf whose rectangle covers the projected end points of
    its stored edges, and every segment stored in it (index below
    [object_count]), the entry that [ExploreLeafNode] pushes for the
    segment carries the squared distance to the clamped foot of the
    perpendicular, and the lower bound [GetMinSquaredDist] of the leaf's
    rectangle, the key of the leaf in the queue, is at most that
    distance; this holds for every query point. *)
Theorem leaf_lower_bound_below_segments :
  forall latToY nearest_on_segment t leaf_id q i,
    foot_on_segment latToY nearest_on_segment ->
    is_leaf leaf_id = true ->
    leaf_covers latToY (m_coordinate_list t) (leaf_at t (index leaf_id)) = true ->
    0 <= i < object_count (leaf_at t (index leaf_id)) ->
    let entry := leaf_entry nearest_on_segment t leaf_id (fromWGS84 latToY q) q i in
    In entry (ExploreLeafNode nearest_on_segment t leaf_id (fromWGS84 latToY q) q PQ.empty)
    /\ squared_min_dist entry
       = segment_distance latToY nearest_on_segment (m_coordinate_list t) q
                          (object_at (leaf_at t (index leaf_id)) i)
    /\ GetMinSquaredDist (child_rectangle t leaf_id) (fromWGS84 latToY q)
       <= squared_min_dist entry.
Proof.
  intros latToY nos t leaf_id q i Hfoot Hl Hc Hi entry. split; [|split].
  - rewrite ExploreLeafNode_eq. simpl. apply in_map. now apply irange_spec.
  - reflexivity.
  - unfold child_rectangle. rewrite Hl. now apply (leaf_bound latToY nos Hfoot).
Qed.

Lemma leaf_lower_bound_below_segments_witness :
  GetMinSquaredDist
    (child_rectangle UnitSquare.deep_tree {| index := 2; is_leaf := true |})
    (fromWGS84 UnitSquare.latToY {| lon := 100000; lat := 200000 |})
  <= squared_min_dist
       (leaf_entry (nearest_on_segment_exact UnitSquare.latToY) UnitSquare.deep_tree
                   {| index := 2; is_leaf := true |}
                   (fromWGS84 UnitSquare.latToY {| lon := 100000; lat := 200000 |})
                   {| lon := 100000; lat := 200000 |} 0).
Proof.
  apply (leaf_lower_bound_below_segments
           UnitSquare.latToY (nearest_on_segment_exact UnitSquare.latToY)
           UnitSquare.deep_tree {| index := 2; is_leaf := true |}
           {| lon := 100000; lat := 200000 |} 0
           (exact_foot_on_segment UnitSquare.latToY) eq_refl eq_refl).
  vm_compute. split; [discriminate|reflexivity].
Defined.

(** C6.  In [Nearest] the terminator is asked about each segment
    candidate as it is popped, with the number of results so far, before
    the candidate is admitted: when it answers true the loop returns at
    once with the results unchanged, and a turn that appends a result is
    a turn in which it answered false.  So [Nearest (q, 0)] never returns
    anything but the empty list, and on a well-formed index it does
    return it. *)
Theorem Nearest_terminator_before_admission :
  forall latToY nearest_on_segment,
    (forall q filter terminate s x r,
        PQ.pop (n_queue s) = Some (x, r) -> is_segment x = true ->
        terminate (Z.of_nat (length (n_results s)))
                  {| cs_fixed_projected_coordinate := fixed_projected_coordinate x;
                     data := object_at (leaf_at (n_index s) (index (tree_index x)))
                                       (segment_index x) |} = true ->
        Nearest_step latToY nearest_on_segment q filter terminate s
        = Return {| n_index := n_index s; n_queue := r; n_results := n_results s |})
    /\ (forall q filter terminate s s',
           Nearest_step latToY nearest_on_segment q filter terminate s = Continue s' ->
           n_results s' <> n_results s ->
           exists x r,
             PQ.pop (n_queue s) = Some (x, r) /\ is_segment x = true
             /\ terminate (Z.of_nat (length (n_results s)))
                          {| cs_fixed_projected_coordinate := fixed_projected_coordinate x;
                             data := object_at (leaf_at (n_index s) (index (tree_index x)))
                                               (segment_index x) |} = false)
    /\ (forall fuel t q results t',
           Nearest_max latToY nearest_on_segment fuel t q 0 = Some (results, t') ->
           results = [])
    /\ (forall t q,
           index_ok latToY t = true ->
           exists fuel, Nearest_max latToY nearest_on_segment fuel t q 0 = Some ([], t)).
Proof.
  intros latToY nos.
  assert (Hzero : forall fuel t q results t',
             Nearest_max latToY nos fuel t q 0 = Some (results, t') -> results = []).
  { intros fuel t q results t' H. unfold Nearest_max, Nearest in H.
    destruct (Nearest_loop _ _ _ _ _ _ _) as [s|] eqn:E; [|discriminate].
    inversion H; subst; clear H.
    refine (loop_invariant latToY nos (fun s => n_results s = []) q _ _ _
                           fuel (Nearest_init t) s eq_refl E).
    intros s0 H0.
    pose proof (step_turn latToY nos q (fun _ => (true, true))
                          (fun num_results _ => 0 <=? num_results) s0) as T.
    inversion T as [| | | |x r Hp Hs c Ht Hf Heq|x r Hp Hs c Ht Hf Heq]; simpl; auto.
    apply Z.leb_gt in Ht. lia. }
  split; [|split; [|split]].
  - intros q filter terminate s x r Hp Hs Ht. unfold Nearest_step.
    rewrite Hp, Hs. simpl. now rewrite Ht.
  - intros q filter terminate s s' E Hne.
    pose proof (step_turn latToY nos q filter terminate s) as T. rewrite E in T.
    inversion T as [|x r Hp Hs Hl Heq|x r Hp Hs Hl Heq| |x r Hp Hs c Ht Hf Heq
                    |x r Hp Hs c Ht Hf Heq]; subst s'; simpl in Hne;
      try (exfalso; apply Hne; reflexivity).
    exists x, r. auto.
  - exact Hzero.
  - intros t q Hok.
    destruct (Nearest_terminates latToY nos t Hok q (fun _ => (true, true))
                (fun num_results _ => 0 <=? num_results)
                (S (weight (depth_of t) t TreeIndex_default)) ltac:(lia)) as [results H].
    exists (S (weight (depth_of t) t TreeIndex_default)).
    unfold Nearest_max. rewrite H. now rewrite (Hzero _ _ _ _ _ H).
Qed.

Lemma Nearest_terminator_before_admission_witness :
  Nearest_max UnitSquare.latToY (nearest_on_segment_exact UnitSquare.latToY) 50
              UnitSquare.tree {| lon := 100000; lat := 100000 |} 0
  = Some ([], UnitSquare.tree)
  /\ exists fuel,
      Nearest_max UnitSquare.latToY (nearest_on_segment_exact UnitSquare.latToY) fuel
                  UnitSquare.deep_tree {| lon := 500000; lat := 500000 |} 0
      = Some ([], UnitSquare.deep_tree).
Proof.
  split; [vm_compute; reflexivity|].
  apply (proj2 (proj2 (proj2 (Nearest_terminator_before_admission
                                UnitSquare.latToY
                                (nearest_on_segment_exact UnitSquare.latToY))))
               UnitSquare.deep_tree {| lon := 500000; lat := 500000 |} eq_refl).
Defined.

(** C7.  For a segment candidate that [Nearest] pops and the terminator
    lets pass: if the filter returns (false, false) the candidate is
    dropped and the loop goes on with the results unchanged; otherwise
    the edge is appended to the results with its forward enabled flag the
    AND of the stored flag and the filter's first component, its reverse
    enabled flag the AND of the stored flag and the second component, and
    everything else as stored. *)
Theorem Nearest_filter_masks_flags :
  forall latToY nearest_on_segment q filter terminate s x r,
    PQ.pop (n_queue s) = Some (x, r) -> is_segment x = true ->
    let edge_data :=
      object_at (leaf_at (n_index s) (index (tree_index x))) (segment_index x) in
    let candidate :=
      {| cs_fixed_projected_coordinate := fixed_projected_coordinate x;
         data := edge_data |} in
    terminate (Z.of_nat (length (n_results s))) candidate = false ->
    (filter candidate = (false, false) ->
     Nearest_step latToY nearest_on_segment q filter terminate s
     = Continue {| n_index := n_index s; n_queue := r; n_results := n_results s |})
    /\ (filter candidate <> (false, false) ->
        exists e,
          Nearest_step latToY nearest_on_segment q filter terminate s
          = Continue {| n_index := n_index s; n_queue := r;
                        n_results := n_results s ++ [e] |}
          /\ enabled (forward_segment_id e)
             = enabled (forward_segment_id edge_data) && fst (filter candidate)
          /\ enabled (reverse_segment_id e)
             = enabled (reverse_segment_id edge_data) && snd (filter candidate)
          /\ id (forward_segment_id e) = id (forward_segment_id edge_data)
          /\ id (reverse_segment_id e) = id (reverse_segment_id edge_data)
          /\ u e = u edge_data /\ v e = v edge_data).
Proof.
  intros latToY nos q filter terminate s x r Hp Hs edge_data candidate Ht. split.
  - intros Hf. unfold Nearest_step. rewrite Hp, Hs. simpl.
    fold edge_data. fold candidate. rewrite Ht, Hf. reflexivity.
  - intros Hf. exists (mask_enabled edge_data (filter candidate)). split.
    + unfold Nearest_step. rewrite Hp, Hs. simpl.
      fold edge_data. fold candidate. rewrite Ht.
      destruct (filter candidate) as [[|] [|]]; try reflexivity.
      exfalso. now apply Hf.
    + simpl. repeat split; reflexivity.
Qed.

Lemma Nearest_filter_masks_flags_witness :
  Nearest UnitSquare.latToY (nearest_on_segment_exact UnitSquare.latToY) 50
          UnitSquare.tree {| lon := 100000; lat := 100000 |}
          (fun c => (enabled (forward_segment_id (data c)), false))
          (fun n _ => 3 <=? n)
  = Some ([ {| u := 0; v := 1;
               forward_segment_id := {| id := 0; enabled := true |};
               reverse_segment_id := {| id := 0; enabled := false |} |};
            {| u := 0; v := 2;
               forward_segment_id := {| id := 2; enabled := true |};
               reverse_segment_id := {| id := 2; enabled := false |} |};
            {| u := 2; v := 3;
               forward_segment_id := {| id := 1; enabled := true |};
               reverse_segment_id := {| id := 1; enabled := false |} |} ],
          UnitSquare.tree)
  /\ exists e,
      Nearest_step UnitSquare.latToY (nearest_on_segment_exact UnitSquare.latToY)
                   {| lon := 100000; lat := 100000 |}
                   (fun _ => (true, false)) (fun _ _ => false)
                   {| n_index := UnitSquare.tree;
                      n_queue := [QueryCandidate_segment 7 {| index := 1; is_leaf := true |} 0
                                                         Coordinate_default];
                      n_results := [] |}
      = Continue {| n_index := UnitSquare.tree; n_queue := []; n_results := [] ++ [e] |}
      /\ enabled (forward_segment_id e) = false
      /\ enabled (reverse_segment_id e) = false.
Proof.
  split; [vm_compute; reflexivity|].
  destruct (proj2 (Nearest_filter_masks_flags
                     UnitSquare.latToY (nearest_on_segment_exact UnitSquare.latToY)
                     {| lon := 100000; lat := 100000 |}
                     (fun _ => (true, false)) (fun _ _ => false)
                     {| n_index := UnitSquare.tree;
                        n_queue := [QueryCandidate_segment 7 {| index := 1; is_leaf := true |} 0
                                                           Coordinate_default];
                        n_results := [] |}
                     _ [] eq_refl eq_refl eq_refl)
                  ltac:(discriminate)) as [e (H1 & H2 & H3 & _)].
  exists e. split; [exact H1|]. split; [exact H2|exact H3].
Defined.

(** C9.  The sentinel never misclassifies: when every leaf holds at most
    [LEAF_NODE_SIZE] objects, then after any number of turns of
    [Nearest], for any query, every queue entry is either a node entry
    with [segment_index = 2^32 - 1], for which [is_segment] is false, or
    a segment entry pushed by [ExploreLeafNode] with
    [segment_index < object_count <= LEAF_NODE_SIZE < 2^32 - 1], for
    which [is_segment] is true. *)
Theorem queue_entries_classified :
  forall latToY nearest_on_segment LEAF_PAGE_SIZE sizeof_edge t q filter terminate n,
    0 < sizeof_edge -> LEAF_PAGE_SIZE < UINT32_MOD ->
    Forall (fun l => object_count l <= LEAF_NODE_SIZE LEAF_PAGE_SIZE sizeof_edge)
           (m_leaves t) ->
    Forall (entry_classified (LEAF_NODE_SIZE LEAF_PAGE_SIZE sizeof_edge) t)
           (n_queue (Nearest_run latToY nearest_on_segment n q filter terminate
                                 (Nearest_init t))).
Proof.
  intros latToY nos P E t q filter terminate n HE HP Hl.
  assert (HL : LEAF_NODE_SIZE P E < UINT32_MAX).
  { unfold LEAF_NODE_SIZE, UINT32_MAX. unfold UINT32_MOD in HP.
    apply Z.div_lt_upper_bound; [assumption|]. nia. }
  set (L := LEAF_NODE_SIZE P E) in *.
  apply (run_invariant latToY nos
           (fun s => n_index s = t /\ Forall (entry_classified L t) (n_queue s))).
  - intros s [Hi Hq].
    pose proof (step_turn latToY nos q filter terminate s) as T.
    rewrite Forall_forall in Hq.
    inversion T as [Hnil Heq|x r Hp Hsg Hlf Heq|x r Hp Hsg Hlf Heq|x r Hp Hsg Ht Heq
                    |x r Hp Hsg c Ht Hf Heq|x r Hp Hsg c Ht Hf Heq]; simpl;
      (split; [assumption|]); rewrite ?Hi; apply Forall_forall; intros y Hy;
      try (apply Hq; now apply (pop_in _ _ _ Hp)).
    + now apply Hq.
    + apply in_app_or in Hy as [Hy|Hy]; [apply Hq; now apply (pop_in _ _ _ Hp)|].
      apply in_map_iff in Hy as [i [<- Hin]]. apply irange_spec in Hin.
      right. unfold leaf_entry. do 4 eexists. split; [reflexivity|].
      assert (Hc : object_count (leaf_at t (index (tree_index x))) <= L).
      { unfold leaf_at, at_ in *.
        destruct (Nat.lt_ge_cases (Z.to_nat (index (tree_index x))) (length (m_leaves t)))
          as [Hin'|Hout].
        - rewrite Forall_forall in Hl. apply Hl. now apply nth_In.
        - rewrite nth_overflow in Hin by assumption. simpl in Hin. lia. }
      repeat split; try assumption; try lia.
      apply is_segment_below. lia.
    + apply in_app_or in Hy as [Hy|Hy]; [apply Hq; now apply (pop_in _ _ _ Hp)|].
      apply in_map_iff in Hy as [i [<- Hin]].
      left. unfold node_entry. do 2 eexists. split; [reflexivity|]. split; reflexivity.
  - split; [reflexivity|]. simpl. constructor; [|constructor].
    left. do 2 eexists. split; [reflexivity|]. split; reflexivity.
Qed.

Lemma queue_entries_classified_witness :
  Forall (entry_classified (LEAF_NODE_SIZE 60 20) UnitSquare.tree)
         (n_queue (Nearest_run UnitSquare.latToY
                               (nearest_on_segment_exact UnitSquare.latToY) 2
                               {| lon := 100000; lat := 100000 |}
                               (fun _ => (true, true)) (fun _ _ => false)
                               (Nearest_init UnitSquare.tree))).
Proof.
  apply (queue_entries_classified
           UnitSquare.latToY (nearest_on_segment_exact UnitSquare.latToY) 60 20
           UnitSquare.tree {| lon := 100000; lat := 100000 |}
           (fun _ => (true, true)) (fun _ _ => false) 2 eq_refl eq_refl).
  repeat constructor; vm_compute; discriminate.
Defined.

(** C10.  [Nearest] and [SearchInBox] do not change the index: every
    turn of either loop leaves the node array, the leaf pages and the
    coordinate table as they were, so the index that a query returns with
    is the index it started from.  In [Nearest] the masked flags go to the
    copy of the edge placed in the results; the leaf keeps the stored
    edge. *)
Theorem queries_leave_index_unchanged :
  forall latToY nearest_on_segment,
    (forall q filter terminate s,
        n_index (after (Nearest_step latToY nearest_on_segment q filter terminate s))
        = n_index s)
    /\ (forall search_rectangle s,
           s_index (after (SearchInBox_step latToY search_rectangle s)) = s_index s)
    /\ (forall n t q filter terminate,
           n_index (Nearest_run latToY nearest_on_segment n q filter terminate
                                (Nearest_init t)) = t)
    /\ (forall fuel t q filter terminate results t',
           Nearest latToY nearest_on_segment fuel t q filter terminate = Some (results, t') ->
           t' = t)
    /\ (forall fuel t search_rectangle results t',
           SearchInBox latToY fuel t search_rectangle = Some (results, t') -> t' = t).
Proof.
  intros latToY nos.
  assert (Hstep : forall q filter terminate s,
             n_index (after (Nearest_step latToY nos q filter terminate s)) = n_index s).
  { intros q filter terminate s.
    pose proof (step_turn latToY nos q filter terminate s) as T.
    inversion T; reflexivity. }
  assert (Hrun : forall n t q filter terminate,
             n_index (Nearest_run latToY nos n q filter terminate (Nearest_init t)) = t).
  { intros n t q filter terminate.
    apply (run_invariant latToY nos (fun s => n_index s = t)); [|reflexivity].
    intros s Hs. now rewrite Hstep. }
  split; [exact Hstep|]. split; [apply search_step_index|]. split; [exact Hrun|]. split.
  - intros fuel t q filter terminate results t' H. unfold Nearest in H.
    destruct (Nearest_loop _ _ _ _ _ _ _) as [s|] eqn:E; [|discriminate].
    inversion H; subst; clear H. apply loop_run in E. destruct E as [n <-]. apply Hrun.
  - intros fuel t R results t' H. unfold SearchInBox in H.
    destruct (SearchInBox_loop _ _ _ _) as [s|] eqn:E; [|discriminate].
    inversion H; subst; clear H.
    refine (search_loop_invariant latToY (fun s => s_index s = t) R _
                                  fuel (SearchInBox_init t) s eq_refl E).
    intros s0 H0. now rewrite search_step_index.
Qed.

Lemma queries_leave_index_unchanged_witness :
  exists results,
    Nearest UnitSquare.latToY (nearest_on_segment_exact UnitSquare.latToY) 50
            UnitSquare.tree {| lon := 100000; lat := 100000 |}
            (fun _ => (false, true)) (fun n _ => 1 <=? n)
    = Some (results, UnitSquare.tree)
    /\ enabled (forward_segment_id (nth 0 results EdgeData_default)) = false
    /\ enabled (forward_segment_id (object_at (leaf_at UnitSquare.tree 0) 0)) = true.
Proof.
  destruct (Nearest UnitSquare.latToY (nearest_on_segment_exact UnitSquare.latToY) 50
                    UnitSquare.tree {| lon := 100000; lat := 100000 |}
                    (fun _ => (false, true)) (fun n _ => 1 <=? n))
    as [[results t']|] eqn:E; [|vm_compute in E; discriminate].
  exists results.
  rewrite (proj1 (proj2 (proj2 (proj2 (queries_leave_index_unchanged
                                         UnitSquare.latToY
                                         (nearest_on_segment_exact UnitSquare.latToY)))))
                 _ _ _ _ _ _ _ E).
  split; [reflexivity|]. vm_compute in E. inversion E. split; reflexivity.
Defined.

(* ================================================================== *)
(** * The claim about [SearchInBox] *)

(** C3.  On a well-formed index in which every leaf and every node but
    the root is the child of a node, and with a Mercator map that keeps
    the order of latitudes, [SearchInBox] returns for every query
    rectangle given in geographic coordinates, and what it returns is
    exactly the stored edges whose geographic bounding box (spanned by
    the two end points in the coordinate table) meets the rectangle:
    every returned edge is a stored edge whose box meets it, and every
    stored edge whose box meets it is returned. *)
Theorem SearchInBox_exact :
  forall latToY t search_rectangle,
    monotone latToY ->
    index_ok latToY t = true ->
    all_linked t = true ->
    (exists fuel results, SearchInBox latToY fuel t search_rectangle = Some (results, t))
    /\ forall fuel results t',
        SearchInBox latToY fuel t search_rectangle = Some (results, t') ->
        (forall e, In e results ->
                   stored t e
                   /\ Rectangle.Intersects (edge_bbox (m_coordinate_list t) e)
                                           search_rectangle = true)
        /\ (forall e, stored t e ->
                      Rectangle.Intersects (edge_bbox (m_coordinate_list t) e)
                                           search_rectangle = true ->
                      In e results).
Proof.
  intros latToY t R Hmono Hok Hlinked. split.
  - destruct (search_loop_terminates latToY t R Hok
                (S (search_potential t (s_queue (SearchInBox_init t))))
                (SearchInBox_init t) (search_init_inv latToY t Hok) ltac:(lia)) as [s' E].
    exists (S (search_potential t (s_queue (SearchInBox_init t)))), (s_results s').
    unfold SearchInBox. rewrite E. f_equal. f_equal.
    refine (search_loop_invariant latToY (fun s => s_index s = t) R _ _
                                  (SearchInBox_init t) s' eq_refl E).
    intros s0 H0. now rewrite search_step_index.
  - intros fuel results t' H. unfold SearchInBox in H.
    destruct (SearchInBox_loop latToY fuel R (SearchInBox_init t)) as [s|] eqn:E;
      [|discriminate].
    inversion H; subst results t'; clear H. split.
    + intros e He. split.
      * apply (search_stored latToY t R fuel (SearchInBox_init t) s eq_refl); auto;
          [intros e0 []|apply (search_init_inv latToY t Hok)].
      * apply (search_sound latToY t R fuel (SearchInBox_init t) s eq_refl); auto;
          intros e0 [].
    + intros e (l & i & Hl & Hi & ->) Hx.
      destruct (search_reaches latToY t R fuel (SearchInBox_init t) s eq_refl E)
        as [_ Hroute].
      apply (Hroute TreeIndex_default l); [now left| |].
      * now apply (route_from_root latToY t R Hmono Hok Hlinked l i).
      * unfold leaf_matches. apply in_map. apply filter_In.
        split; [now apply irange_spec|assumption].
Qed.

Lemma SearchInBox_exact_witness :
  exists results,
    SearchInBox UnitSquare.latToY 50 UnitSquare.deep_tree
                {| min_lon := -100000; max_lon := 600000;
                   min_lat := -100000; max_lat := 600000 |}
    = Some (results, UnitSquare.deep_tree)
    /\ length results = 2%nat
    /\ In (UnitSquare.edge 0 1 0 true) results
    /\ In (UnitSquare.edge 0 2 2 true) results.
Proof.
  eexists. split; [vm_compute; reflexivity|]. split; [reflexivity|].
  pose proof (proj2 (SearchInBox_exact
                       UnitSquare.latToY UnitSquare.deep_tree
                       {| min_lon := -100000; max_lon := 600000;
                          min_lat := -100000; max_lat := 600000 |}
                       (fun a b H => H) eq_refl eq_refl)
                    50%nat _ UnitSquare.deep_tree eq_refl) as [_ Hc].
  split; apply Hc; try reflexivity.
  - exists 0, 0. vm_compute. repeat split; discriminate.
  - exists 1, 0. vm_compute. repeat split; discriminate.
Defined.

(* ================================================================== *)
(** * The claim about the leaf file *)

(** C8, as the code has it.  [MapLeafNodesFile] fails only when mapping
    the file throws.  For a file that can be mapped it succeeds whatever
    the size: the number of leaves is the quotient of the file size by
    [sizeof (LeafNode)], rounded down, and the view spans that many whole
    pages; the bytes of a trailing partial page are left out. *)
Theorem MapLeafNodesFile_rounds_down :
  forall sizeof_LeafNode bytes,
    0 < sizeof_LeafNode ->
    exists region,
      MapLeafNodesFile sizeof_LeafNode (Some bytes)
      = Mapped (Z.of_nat (length bytes) / sizeof_LeafNode) region
      /\ Z.of_nat (length region)
         = (Z.of_nat (length bytes) / sizeof_LeafNode) * sizeof_LeafNode
      /\ region = firstn (length region) bytes
      /\ MapLeafNodesFile sizeof_LeafNode None = MapException.
Proof.
  intros P bytes HP. eexists. split; [reflexivity|].
  assert (Hle : Z.of_nat (length bytes) / P * P <= Z.of_nat (length bytes)).
  { rewrite Z.mul_comm. apply Z.mul_div_le. assumption. }
  assert (H0 : 0 <= Z.of_nat (length bytes) / P) by (apply Z.div_pos; lia).
  assert (Hlen : length (firstn (Z.to_nat (Z.of_nat (length bytes) / P * P)) bytes)
                 = Z.to_nat (Z.of_nat (length bytes) / P * P)).
  { apply firstn_length_le. lia. }
  split; [|split].
  - rewrite Hlen. nia.
  - rewrite Hlen. reflexivity.
  - reflexivity.
Qed.

Lemma MapLeafNodesFile_rounds_down_witness :
  exists region,
    MapLeafNodesFile 4096 (Some (repeat 0 (Z.to_nat 8192))) = Mapped 2 region
    /\ Z.of_nat (length region) = 2 * 4096.
Proof.
  destruct (MapLeafNodesFile_rounds_down 4096 (repeat 0 (Z.to_nat 8192)) eq_refl)
    as [region (H1 & H2 & _)].
  exists region. rewrite repeat_length, Z2Nat.id in H1, H2 by lia.
  split; [exact H1|exact H2].
Defined.

(** C8, as the spec states it, fails: a leaf file of 4097 bytes, one byte
    more than a page, is opened, with one leaf. *)
Lemma MapLeafNodesFile_accepts_partial_page :
  (4097 mod 4096 <> 0)
  /\ MapLeafNodesFile 4096 (Some (repeat 0 (Z.to_nat 4097)))
     = Mapped 1 (repeat 0 (Z.to_nat 4096)).
Proof. split; [discriminate|]. vm_compute. reflexivity. Qed.

(* ------------------------------------------------------------------ *)
(** ** Coverage of the input by the leaves *)

(** C4, for the OMT packer: on the chain of 128 segments, packed with
    the default branching factor 128, the packer writes two leaves of
    63 objects each, which hold the segments 0 to 62 and 64 to 126.
    The object counts sum to 126, not to 128, and the segments 63 and
    127 are stored in no leaf: a range [left, right] of the queue counts
    [right - left + 1] objects and its leaf copies the objects from
    [left] up to, but not including, [right]. *)
Theorem PackWithOMT_drops_edges :
  exists tree leaves,
    Chain.omt = Some (tree, leaves)
    /\ length Chain.edges = 128%nat
    /\ map object_count leaves = [63; 63]
    /\ fold_right Z.add 0 (map object_count leaves) = 126
    /\ map u (stored_edges leaves) = irange 63 ++ map (fun i => 64 + i) (irange 63)
    /\ ~ In (at_ EdgeData_default Chain.edges 63) (stored_edges leaves)
    /\ ~ In (at_ EdgeData_default Chain.edges 127) (stored_edges leaves).
Proof.
  assert (E : exists tree leaves,
             Chain.omt = Some (tree, leaves)
             /\ map object_count leaves = [63; 63]
             /\ map u (stored_edges leaves)
                = irange 63 ++ map (fun i => 64 + i) (irange 63)).
  { eexists. eexists. split; [vm_compute; reflexivity|].
    split; vm_compute; reflexivity. }
  destruct E as (tree & leaves & Homt & Hcount & Hu).
  exists tree, leaves.
  split; [exact Homt|]. split; [reflexivity|]. split; [exact Hcount|].
  split; [rewrite Hcount; reflexivity|]. split; [exact Hu|].
  split; intros Hin; apply (in_map u) in Hin; rewrite Hu in Hin;
    apply in_app_or in Hin as [Hin|Hin].
  - apply irange_spec in Hin. vm_compute in Hin. destruct Hin as [_ Hin]. discriminate.
  - apply in_map_iff in Hin as (i & Hi & Hin). apply irange_spec in Hin.
    change (u (at_ EdgeData_default Chain.edges 63)) with 63 in Hi. lia.
  - apply irange_spec in Hin.
    change (u (at_ EdgeData_default Chain.edges 127)) with 127 in Hin. lia.
  - apply in_map_iff in Hin as (i & Hi & Hin). apply irange_spec in Hin.
    change (u (at_ EdgeData_default Chain.edges 127)) with 127 in Hi. lia.
Qed.

(* ------------------------------------------------------------------ *)
(** ** The rectangles after a build *)

(** C5.  After each of the three builds every node has as its rectangle
    the union of the rectangles of its [child_count] children, leaves
    or nodes, and every leaf the union of the projected boxes of its
    [object_count] edges.  The Hilbert and the STR packer return such an
    index for every non-empty input whose projected coordinates are
    [int32] and whose size leaves room in the 31 bits of a child index.
    The OMT packer does not return for every input; whenever it does,
    with a height and a fan-out of the root that are not below the exact
    ones, the index it has written is such an index. *)
Theorem builds_have_exact_rectangles :
  forall BRANCHING_FACTOR LEAF_NODE_SIZE_ latToY centroid GetHilbertCode sort
         blocked_ranges ceil_log_ratio ceil_div_pow ceil_sqrt
         (m_coordinate_list_ : list Coordinate) (input_data_vector : list EdgeData),
    2 <= BRANCHING_FACTOR -> 1 <= LEAF_NODE_SIZE_ ->
    sort_permutes sort ->
    input_data_vector <> [] ->
    3 * Z.of_nat (length input_data_vector) < 2147483648 ->
    Forall (edge_int32 latToY m_coordinate_list_) input_data_vector ->
    (exists t,
        PackWithHilbert BRANCHING_FACTOR LEAF_NODE_SIZE_ latToY centroid GetHilbertCode
                        sort m_coordinate_list_ input_data_vector = Some t
        /\ mbr_exact latToY t)
    /\ (exists t,
           PackWithSTR BRANCHING_FACTOR LEAF_NODE_SIZE_ latToY centroid sort
                       blocked_ranges m_coordinate_list_ input_data_vector = Some t
           /\ mbr_exact latToY t)
    /\ (forall fuel search_tree leaves,
           omt_root_fits BRANCHING_FACTOR ceil_log_ratio ceil_div_pow
                         (Z.of_nat (length input_data_vector)) ->
           PackWithOMT BRANCHING_FACTOR LEAF_NODE_SIZE_ latToY centroid sort
                       m_coordinate_list_ ceil_log_ratio ceil_div_pow ceil_sqrt
                       fuel input_data_vector = Some (search_tree, leaves) ->
           mbr_exact latToY {| m_search_tree := search_tree;
                               m_leaves := leaves;
                               m_coordinate_list := m_coordinate_list_ |}).
Proof.
  intros B L latToY centroid GetHilbertCode sort blocked_ranges clr cdp csq cs input
         HB HL Hsort Hne Hsize Hcoords.
  split; [|split].
  - destruct (PackWithHilbert_ok B L latToY centroid GetHilbertCode sort cs Hsort HB HL
                                 input Hne Hsize Hcoords)
      as (t & Ht & _ & _ & Hex & _).
    exists t. split; assumption.
  - destruct (PackWithSTR_ok B L latToY centroid sort blocked_ranges cs Hsort HB HL
                             input Hne Hsize Hcoords)
      as (t & Ht & _ & _ & Hex & _).
    exists t. split; assumption.
  - intros fuel tree leaves Hfit H.
    assert (Hn : 0 < Z.of_nat (length input))
      by (destruct input; [congruence|simpl; lia]).
    destruct (PackWithOMT_sizes B L latToY centroid sort cs clr cdp csq HB
                                fuel input tree leaves Hfit ltac:(lia) H)
      as [Htree Hleaves].
    apply (PackWithOMT_exact B L latToY centroid sort cs clr cdp csq ltac:(lia)
                             fuel input tree leaves Hfit H); lia.
Qed.

Lemma builds_have_exact_rectangles_witness :
  (exists t,
      PackWithHilbert 128 (LEAF_NODE_SIZE 4096 20) UnitSquare.latToY midpoint
                      UnitSquare.GetHilbertCode insertion_sort
                      Chain.coordinates Chain.edges = Some t
      /\ mbr_exact UnitSquare.latToY t)
  /\ (exists t,
         PackWithSTR 128 (LEAF_NODE_SIZE 4096 20) UnitSquare.latToY midpoint
                     insertion_sort one_range Chain.coordinates Chain.edges = Some t
         /\ mbr_exact UnitSquare.latToY t)
  /\ (exists search_tree leaves,
         Chain.omt = Some (search_tree, leaves)
         /\ mbr_exact UnitSquare.latToY
                      {| m_search_tree := search_tree;
                         m_leaves := leaves;
                         m_coordinate_list := Chain.coordinates |}).
Proof.
  destruct (builds_have_exact_rectangles
              128 (LEAF_NODE_SIZE 4096 20) UnitSquare.latToY midpoint
              UnitSquare.GetHilbertCode insertion_sort one_range
              ceil_log_ratio_exact ceil_div_pow_exact ceil_sqrt_exact
              Chain.coordinates Chain.edges)
    as (HH & HS & HO).
  - lia.
  - vm_compute. discriminate.
  - exact insertion_sort_permutes.
  - discriminate.
  - vm_compute. reflexivity.
  - apply edge_int32b_spec. vm_compute. reflexivity.
  - split; [exact HH|]. split; [exact HS|].
    assert (E : exists search_tree leaves, Chain.omt = Some (search_tree, leaves)).
    { eexists. eexists. vm_compute. reflexivity. }
    destruct E as (tree & leaves & E). exists tree, leaves. split; [exact E|].
    apply (HO 10%nat tree leaves); [|exact E].
    vm_compute. discriminate.
Defined.

(* ------------------------------------------------------------------ *)
(** * What [Nearest] returns *)

Lemma Nearest_loop_last latToY nearest_on_segment (P : NearestState -> Prop)
      q filter terminate :
  (forall s s', P s -> Nearest_step latToY nearest_on_segment q filter terminate s
                       = Continue s' -> P s') ->
  forall fuel s s',
    P s -> Nearest_loop latToY nearest_on_segment fuel q filter terminate s = Some s' ->
    exists s0, P s0
               /\ Nearest_step latToY nearest_on_segment q filter terminate s0 = Return s'.
Proof.
  intros Hstep. induction fuel as [|fuel IH]; intros s s' HP H; simpl in H; [discriminate|].
  destruct (Nearest_step latToY nearest_on_segment q filter terminate s) as [s1|s1] eqn:E.
  - apply (IH s1 s'); [|exact H]. now apply (Hstep s).
  - injection H as <-. exists s. split; assumption.
Qed.

Lemma mask_enabled_all e : mask_enabled e (true, true) = e.
Proof.
  destruct e as [eu ev [fid fen] [rid ren]]. unfold mask_enabled. simpl.
  now rewrite !andb_true_r.
Qed.

Section Reaching.

Variable latToY : Z -> Z.
Variable t : StaticRTree.
Hypothesis Hok : index_ok latToY t = true.

Lemma reaches_up :
all_linked t = true ->
forall k, 0 <= k ->
  k < Z.of_nat (length (m_search_tree t)) ->
  forall l, reaches t {| index := k; is_leaf := false |} l ->
            reaches t TreeIndex_default l.
Proof.
intros Hlinked k Hk. pattern k. apply Zlt_0_ind; [|assumption]. clear k Hk.
intros k IH Hk0 Hk l Hr.
destruct (Z.eq_dec k 0) as [->|Hne]; [exact Hr|].
pose proof Hlinked as Hn. unfold all_linked in Hn. apply andb_prop in Hn as [_ Hn].
rewrite forallb_forall in Hn.
specialize (Hn k (proj2 (irange_spec _ _) (conj Hk0 Hk))).
apply orb_prop in Hn as [Hn|Hn]; [apply Z.eqb_eq in Hn; lia|].
apply has_child_spec in Hn as (j & i & Hj & Hi & Hc).
pose proof (ok_child latToY t Hok j i Hj Hi) as Hco.
apply (child_ok_valid t) in Hco; [|lia]. rewrite Hc in Hco.
destruct Hco as (_ & Hlt & _ & _). specialize (Hlt eq_refl). simpl in Hlt.
apply (IH j); [lia|lia|].
apply reaches_node with (i := i); simpl; [reflexivity|assumption|].
rewrite Hc. assumption.
Qed.

(** In a linked index every leaf lies below the root. *)
Lemma reaches_from_root l :
all_linked t = true ->
0 <= l < Z.of_nat (length (m_leaves t)) ->
reaches t TreeIndex_default l.
Proof.
intros Hlinked Hl.
pose proof Hlinked as Hlk. unfold all_linked in Hlk. apply andb_prop in Hlk as [Hlf _].
rewrite forallb_forall in Hlf.
specialize (Hlf l (proj2 (irange_spec _ _) Hl)).
apply has_child_spec in Hlf as (j & k & Hj & Hk & Hc).
apply (reaches_up Hlinked j); [lia|lia|].
apply reaches_node with (i := k); simpl; [reflexivity|assumption|].
rewrite Hc. apply (reaches_leaf t {| index := l; is_leaf := true |}). reflexivity.
Qed.

Variable nearest_on_segment : Coordinate -> Coordinate -> Coordinate -> Coordinate.
Hypothesis Hfoot : foot_on_segment latToY nearest_on_segment.

(** The lower bound of an entry is a lower bound for every object below
  it. *)
Lemma reaches_bound q c l :
reaches t c l -> index_valid t c ->
forall i, 0 <= i < object_count (leaf_at t l) ->
  GetMinSquaredDist (child_rectangle t c) (fromWGS84 latToY q)
  <= result_distance latToY nearest_on_segment t q (object_at (leaf_at t l) i).
Proof.
induction 1 as [c Hl|c j l Hl Hj Hr IH]; intros Hv i Hi.
- unfold index_valid in Hv. rewrite Hl in Hv.
  unfold child_rectangle. rewrite Hl. unfold result_distance.
  apply (leaf_bound latToY nearest_on_segment Hfoot); [|assumption].
  now apply (ok_leaf latToY t Hok).
- unfold index_valid in Hv. rewrite Hl in Hv.
  pose proof (ok_child latToY t Hok _ _ Hv Hj) as Hc.
  apply (child_ok_valid t) in Hc; [|lia]. destruct Hc as (Hcv & _ & Hval & Hins).
  specialize (IH Hcv i Hi).
  unfold child_rectangle at 1. rewrite Hl.
  eapply Z.le_trans; [|exact IH].
  now apply GetMinSquaredDist_inside.
Qed.

End Reaching.

Section NearestComplete.

Variable latToY : Z -> Z.
Variable nearest_on_segment : Coordinate -> Coordinate -> Coordinate -> Coordinate.
Variable t : StaticRTree.
Variable q : Coordinate.
Variable filter : FilterT.
Variable terminate : TerminationT.
Hypothesis Hok : index_ok latToY t = true.
Hypothesis Hfoot : foot_on_segment latToY nearest_on_segment.

Local Abbreviation step := (Nearest_step latToY nearest_on_segment q filter terminate).
Local Abbreviation inv := (complete_inv latToY nearest_on_segment t q filter).
Local Abbreviation entry := (segment_entry latToY nearest_on_segment t q).
Local Abbreviation cand := (candidate_at nearest_on_segment t q).
Local Abbreviation dist := (result_distance latToY nearest_on_segment t q).

Lemma segment_entry_is_segment l i :
position t l i -> is_segment (entry l i) = true.
Proof.
intros [Hl Hi]. apply is_segment_below.
pose proof (leaf_covers_count latToY t _ (ok_leaf latToY t Hok l Hl)). lia.
Qed.

Lemma leaf_index_eta c : is_leaf c = true -> c = {| index := index c; is_leaf := true |}.
Proof. destruct c as [ix lf]. simpl. now intros ->. Qed.

(** What the loop reads off the entry of a stored object. *)
Lemma segment_entry_candidate l i :
{| cs_fixed_projected_coordinate := fixed_projected_coordinate (entry l i);
   data := object_at (leaf_at t (index (tree_index (entry l i))))
                     (segment_index (entry l i)) |}
= cand l i.
Proof. reflexivity. Qed.

Lemma segment_entry_key l i :
squared_min_dist (entry l i) = dist (object_at (leaf_at t l) i).
Proof. reflexivity. Qed.

Lemma pop_rest (qu : PQ.t) x r y :
PQ.pop qu = Some (x, r) -> In y qu -> y = x \/ In y r.
Proof.
intros Hp Hy. apply (Permutation_in _ (pop_perm _ _ _ Hp)) in Hy.
destruct Hy as [<-|Hy]; [now left|now right].
Qed.

Lemma complete_step s s' : inv s -> step s = Continue s' -> inv s'.
Proof.
intros (Hsort & Hseg & Hres & Hall) E.
pose proof (sorted_step latToY nearest_on_segment Hfoot t q Hok filter terminate s Hsort)
  as Hsort'.
rewrite E in Hsort'. simpl in Hsort'.
split; [exact Hsort'|]. clear Hsort'.
pose proof (step_turn latToY nearest_on_segment q filter terminate s) as T.
rewrite E in T.
destruct Hsort as [[Hi Hv] _]. rewrite Forall_forall in Hv.
inversion T as [|x r Hp Hsg Hl Heq|x r Hp Hsg Hl Heq|
                |x r Hp Hsg c Ht Hf Heq|x r Hp Hsg c Ht Hf Heq];
  subst s'; cbn [n_queue n_results n_index];
  pose proof (pop_in _ _ _ Hp) as [Hx Hrq];
  pose proof (Hv x Hx) as Vx; unfold entry_valid in Vx; rewrite Hsg in Vx;
  try subst c; rewrite Hi in *.
- (* a leaf is opened *)
  unfold index_valid in Vx. rewrite Hl in Vx.
  split; [|split; [exact Hres|]].
  + intros y Hy Sy. apply in_app_or in Hy as [Hy|Hy]; [now apply Hseg; [apply Hrq|]|].
    apply in_map_iff in Hy as (i & <- & Hin). apply irange_spec in Hin.
    exists (index (tree_index x)), i. split; [split; assumption|].
    unfold segment_entry. now rewrite <- (leaf_index_eta _ Hl).
  + intros l i Hpos. destruct (Hall l i Hpos) as [Hs|[Hq|(y & Hy & Sy & Hr)]].
    * now left.
    * right. left. apply in_or_app. left.
      destruct (pop_rest _ _ _ _ Hp Hq) as [Ex|Hin]; [|assumption].
      rewrite <- Ex in Hsg. rewrite (segment_entry_is_segment l i Hpos) in Hsg.
      discriminate.
    * right. destruct (pop_rest _ _ _ _ Hp Hy) as [Ex|Hin].
      -- subst y. left. apply in_or_app. right.
         inversion Hr as [c Hlc E1 E2|c j l' Hlc Hj Hr' E1 E2]; [|congruence].
         subst l. unfold segment_entry. rewrite <- (leaf_index_eta _ Hl).
         apply in_map. apply irange_spec. apply Hpos.
      -- right. exists y. split; [apply in_or_app; now left|]. split; assumption.
- (* a node is opened *)
  split; [|split; [exact Hres|]].
  + intros y Hy Sy. apply in_app_or in Hy as [Hy|Hy]; [now apply Hseg; [apply Hrq|]|].
    apply in_map_iff in Hy as (i & <- & Hin). discriminate Sy.
  + intros l i Hpos. destruct (Hall l i Hpos) as [Hs|[Hq|(y & Hy & Sy & Hr)]].
    * now left.
    * right. left. apply in_or_app. left.
      destruct (pop_rest _ _ _ _ Hp Hq) as [Ex|Hin]; [|assumption].
      rewrite <- Ex in Hsg. rewrite (segment_entry_is_segment l i Hpos) in Hsg.
      discriminate.
    * right. right. destruct (pop_rest _ _ _ _ Hp Hy) as [Ex|Hin].
      -- subst y.
         inversion Hr as [c Hlc E1 E2|c j l' Hlc Hj Hr' E1 E2]; [congruence|].
         subst l'.
         exists (node_entry t (tree_index x) (fromWGS84 latToY q) j).
         split; [|split; [reflexivity|exact Hr']].
         apply in_or_app. right. apply in_map. now apply irange_spec.
      -- exists y. split; [apply in_or_app; now left|]. split; assumption.
- (* the filter drops the segment *)
  split; [|split; [exact Hres|]].
  + intros y Hy Sy. apply Hseg; [now apply Hrq|assumption].
  + intros l i Hpos. destruct (Hall l i Hpos) as [Hs|[Hq|(y & Hy & Sy & Hr)]].
    * now left.
    * destruct (pop_rest _ _ _ _ Hp Hq) as [Ex|Hin]; [|right; now left].
      left. left. rewrite <- Ex in Hf. exact Hf.
    * right. right. destruct (pop_rest _ _ _ _ Hp Hy) as [Ex|Hin]; [congruence|].
      exists y. split; [assumption|]. split; assumption.
- (* the segment is admitted *)
  split; [|split].
  + intros y Hy Sy. apply Hseg; [now apply Hrq|assumption].
  + intros e He. apply in_app_or in He as [He|[<-|[]]]; [now apply Hres|].
    destruct (Hseg x Hx Hsg) as (l & i & Hpos & Ex).
    exists l, i. split; [assumption|]. rewrite Ex in *.
    split; [exact Hf|reflexivity].
  + intros l i Hpos. destruct (Hall l i Hpos) as [[Hs|Hs]|[Hq|(y & Hy & Sy & Hr)]].
    * left. now left.
    * left. right. apply in_or_app. now left.
    * destruct (pop_rest _ _ _ _ Hp Hq) as [Ex|Hin]; [|right; now left].
      left. right. apply in_or_app. right. left. rewrite <- Ex. reflexivity.
    * right. right. destruct (pop_rest _ _ _ _ Hp Hy) as [Ex|Hin]; [congruence|].
      exists y. split; [assumption|]. split; assumption.
Qed.

Lemma complete_init : all_linked t = true -> inv (Nearest_init t).
Proof.
intros Hlinked. split; [now apply sorted_init|]. split; [|split].
- intros x [<-|[]] Sx. discriminate Sx.
- intros r [].
- intros l i [Hl Hi]. right. right.
  exists (QueryCandidate_node 0 TreeIndex_default).
  split; [now left|]. split; [reflexivity|].
  now apply (reaches_from_root latToY t Hok).
Qed.

(** When the loop returns, what it has not settled is no nearer than
  anything it returns; and it has settled everything unless the
  terminator fired. *)
Lemma complete_return s s' :
inv s -> step s = Return s' ->
(forall r, In r (n_results s') ->
           exists l i, position t l i
                       /\ filter (cand l i) <> (false, false)
                       /\ r = result_at nearest_on_segment t q filter l i)
/\ (forall l i, position t l i ->
               settled nearest_on_segment t q filter (n_results s') l i
               \/ forall r, In r (n_results s') ->
                            dist r <= dist (object_at (leaf_at t l) i))
/\ ((forall l i, position t l i ->
                settled nearest_on_segment t q filter (n_results s') l i)
    \/ exists c, terminate (Z.of_nat (length (n_results s'))) c = true).
Proof.
intros (Hsort & Hseg & Hres & Hall) E.
pose proof (step_turn latToY nearest_on_segment q filter terminate s) as T.
rewrite E in T.
destruct Hsort as [[Hi Hv] (bound & Hq & _ & Hr)]. rewrite Forall_forall in Hv.
assert (Hfar : forall l i, position t l i ->
                 pending latToY nearest_on_segment t q (n_queue s) l i ->
                 forall r, In r (n_results s) ->
                           dist r <= dist (object_at (leaf_at t l) i)).
{ intros l i Hpos Hpend r Hin. specialize (Hr r Hin).
  destruct Hpend as [Hy|(y & Hy & Sy & Hreach)].
  - destruct (Hq _ Hy) as [Hb _]. rewrite segment_entry_key in Hb. lia.
  - destruct (Hq _ Hy) as [Hb Hk]. unfold entry_key_ok in Hk. rewrite Sy in Hk.
    pose proof (Hv y Hy) as Vy. unfold entry_valid in Vy. rewrite Sy in Vy.
    pose proof (reaches_bound latToY t Hok nearest_on_segment Hfoot q _ _ Hreach Vy
                              i (proj2 Hpos)) as Hlow.
    destruct Hk as [Hroot|[Hk _]]; [|lia].
    assert (0 <= dist (object_at (leaf_at t l) i))
      by apply squaredEuclideanDistance_nonneg.
    rewrite Hroot in Hb. simpl in Hb. lia. }
inversion T as [Hnil Heq| | |x r Hp Hsg Ht Heq| |]; subst s'; cbn [n_results].
- split; [exact Hres|]. split.
  + intros l i Hpos. destruct (Hall l i Hpos) as [Hs|Hp]; [now left|right].
    now apply Hfar.
  + left. intros l i Hpos. destruct (Hall l i Hpos) as [Hs|[Hy|(y & Hy & _)]];
      [assumption| |]; rewrite Hnil in Hy; destruct Hy.
- split; [exact Hres|]. split.
  + intros l i Hpos. destruct (Hall l i Hpos) as [Hs|Hp']; [now left|right].
    now apply Hfar.
  + right. eexists. exact Ht.
Qed.

End NearestComplete.

(** The convenience form of [Nearest] never holds more than
    [max_results] results. *)
Lemma Nearest_max_length latToY nearest_on_segment q max_results s :
  Z.of_nat (length (n_results s)) <= Z.max 0 max_results ->
  Z.of_nat (length (n_results
                      (after (Nearest_step latToY nearest_on_segment q
                                           (fun _ => (true, true))
                                           (fun num_results _ => max_results <=? num_results)
                                           s))))
  <= Z.max 0 max_results.
Proof.
  intros H.
  pose proof (step_turn latToY nearest_on_segment q (fun _ => (true, true))
                        (fun num_results _ => max_results <=? num_results) s) as T.
  inversion T as [Hnil Heq|x r Hp Hsg Hl Heq|x r Hp Hsg Hl Heq|x r Hp Hsg Ht Heq
                  |x r Hp Hsg c Ht Hf Heq|x r Hp Hsg c Ht Hf Heq];
    cbn [after n_results]; try assumption.
  rewrite length_app. cbn [length]. apply Z.leb_gt in Ht. lia.
Qed.

(** [Nearest] with a bound on the number of results, on a well-formed
    and linked index. *)
Lemma Nearest_max_on_index :
  forall latToY nearest_on_segment t q max_results,
    index_ok latToY t = true ->
    all_linked t = true ->
    foot_on_segment latToY nearest_on_segment ->
    (exists fuel results,
        Nearest_max latToY nearest_on_segment fuel t q max_results = Some (results, t))
    /\ forall fuel results t',
        Nearest_max latToY nearest_on_segment fuel t q max_results = Some (results, t') ->
        Z.of_nat (length results) <= Z.max 0 max_results
        /\ (forall r, In r results -> stored t r)
        /\ (forall e, stored t e ->
                      In e results
                      \/ forall r, In r results ->
                                   result_distance latToY nearest_on_segment t q r
                                   <= result_distance latToY nearest_on_segment t q e)
        /\ (Z.of_nat (length results) < max_results ->
            forall e, stored t e -> In e results).
Proof.
  intros latToY nos t q k Hok Hlinked Hfoot. split.
  { exists (S (weight (depth_of t) t TreeIndex_default)).
    apply (Nearest_terminates latToY nos t Hok). lia. }
  intros fuel results t' H. unfold Nearest_max in H.
  pose proof H as H0. unfold Nearest in H0.
  destruct (Nearest_loop latToY nos fuel q (fun _ => (true, true))
                         (fun num_results _ => k <=? num_results) (Nearest_init t))
    as [s'|] eqn:E; [|discriminate].
  injection H0 as <- <-.
  assert (Hlen : Z.of_nat (length (n_results s')) <= Z.max 0 k).
  { refine (loop_invariant latToY nos
              (fun s => Z.of_nat (length (n_results s)) <= Z.max 0 k)
              q _ _ _ fuel (Nearest_init t) s' _ E).
    - intros s. apply Nearest_max_length.
    - simpl. lia. }
  destruct (Nearest_loop_last latToY nos
              (complete_inv latToY nos t q (fun _ => (true, true))) q
              (fun _ => (true, true)) (fun num_results _ => k <=? num_results)
              (fun s1 s2 => complete_step latToY nos t q _ _ Hok Hfoot s1 s2)
              fuel (Nearest_init t) s'
              (complete_init latToY nos t q _ Hok Hlinked) E)
    as (s0 & Hinv & Hret).
  destruct (complete_return latToY nos t q _ _ Hok Hfoot s0 s' Hinv Hret)
    as (Hres & Hall & Hend).
  split; [exact Hlen|]. split; [|split].
  - intros r Hr. destruct (Hres r Hr) as (l & i & [Hl Hi] & _ & ->).
    exists l, i. unfold result_at. rewrite mask_enabled_all. repeat split; assumption || lia.
  - intros e (l & i & Hl & Hi & ->).
    destruct (Hall l i (conj Hl Hi)) as [[Hs|Hs]|Hfar]; [discriminate Hs| |now right].
    left. unfold result_at in Hs. now rewrite mask_enabled_all in Hs.
  - intros Hfew e (l & i & Hl & Hi & ->).
    destruct Hend as [Hsettled|[c Hc]].
    + destruct (Hsettled l i (conj Hl Hi)) as [Hs|Hs]; [discriminate Hs|].
      unfold result_at in Hs. now rewrite mask_enabled_all in Hs.
    + apply Z.leb_le in Hc. lia.
Qed.


(* ================================================================== *)
(** * Queries on a built index *)

(** The object count of a leaf of a well-formed index is within the
    page. *)
Lemma leaf_count_within latToY t l :
  index_ok latToY t = true ->
  0 <= l < Z.of_nat (length (m_leaves t)) ->
  0 <= object_count (leaf_at t l) <= Z.of_nat (length (objects (leaf_at t l))).
Proof.
  intros Hok Hl. pose proof (ok_leaf latToY t Hok l Hl) as H. unfold leaf_covers in H.
  apply andb_prop in H as [H _]. apply andb_prop in H as [H _].
  apply andb_prop in H as [H1 H2]. apply Z.leb_le in H1. apply Z.leb_le in H2. lia.
Qed.

(** On a well-formed index the stored objects are the members of
    [stored_edges]. *)
Lemma stored_In latToY t e :
  index_ok latToY t = true ->
  stored t e <-> In e (stored_edges (m_leaves t)).
Proof.
  intros Hok. unfold stored, stored_edges. rewrite in_concat. split.
  - intros (l & i & Hl & Hi & ->).
    exists (stored_objects (leaf_at t l)). split.
    + apply in_map. unfold leaf_at, at_. apply nth_In. lia.
    + destruct (leaf_count_within latToY t l Hok Hl) as [_ Hc].
      unfold stored_objects, object_at, at_.
      assert (E : nth (Z.to_nat i) (objects (leaf_at t l)) EdgeData_default
                  = nth (Z.to_nat i)
                        (firstn (Z.to_nat (object_count (leaf_at t l)))
                                (objects (leaf_at t l))) EdgeData_default).
      { rewrite nth_firstn.
        destruct (Nat.ltb_spec (Z.to_nat i) (Z.to_nat (object_count (leaf_at t l))));
          [reflexivity|lia]. }
      rewrite E. apply nth_In. rewrite length_firstn. lia.
  - intros (x & Hx & He). apply in_map_iff in Hx. destruct Hx as (lf & <- & Hlf).
    destruct (In_nth _ _ (LeafNode_default 0) Hlf) as (k & Hk & Hnth).
    assert (Hl : 0 <= Z.of_nat k < Z.of_nat (length (m_leaves t))) by lia.
    assert (Hat : leaf_at t (Z.of_nat k) = lf)
      by (unfold leaf_at, at_; now rewrite Nat2Z.id).
    destruct (leaf_count_within latToY t _ Hok Hl) as [H0 Hc]. rewrite Hat in H0, Hc.
    unfold stored_objects in He.
    destruct (In_nth _ _ EdgeData_default He) as (j & Hj & Hnj).
    rewrite length_firstn in Hj.
    exists (Z.of_nat k), (Z.of_nat j). rewrite Hat. split; [exact Hl|]. split; [lia|].
    rewrite <- Hnj. unfold object_at, at_. rewrite Nat2Z.id, nth_firstn.
    destruct (Nat.ltb_spec j (Z.to_nat (object_count lf))); [reflexivity|lia].
Qed.

(** [SearchInBox] on a well-formed, linked index: it returns, and the
    results are the stored objects whose box meets the rectangle. *)
Lemma SearchInBox_on_index latToY t search_rectangle :
  monotone latToY ->
  index_ok latToY t = true ->
  all_linked t = true ->
  (exists fuel results, SearchInBox latToY fuel t search_rectangle = Some (results, t))
  /\ forall fuel results t',
      SearchInBox latToY fuel t search_rectangle = Some (results, t') ->
      forall e, In e results
                <-> (stored t e
                     /\ Rectangle.Intersects (edge_bbox (m_coordinate_list t) e)
                                             search_rectangle = true).
Proof.
  intros Hmono Hok Hlinked. set (R := search_rectangle). split.
  - destruct (search_loop_terminates latToY t R Hok
                (S (search_potential t (s_queue (SearchInBox_init t))))
                (SearchInBox_init t) (search_init_inv latToY t Hok) ltac:(lia)) as [s' E].
    exists (S (search_potential t (s_queue (SearchInBox_init t)))), (s_results s').
    unfold SearchInBox. rewrite E. f_equal. f_equal.
    refine (search_loop_invariant latToY (fun s => s_index s = t) R _ _
                                  (SearchInBox_init t) s' eq_refl E).
    intros s0 H0. now rewrite search_step_index.
  - intros fuel results t' H. unfold SearchInBox in H.
    destruct (SearchInBox_loop latToY fuel R (SearchInBox_init t)) as [s|] eqn:E;
      [|discriminate].
    inversion H; subst results t'; clear H. intros e. split.
    + intros He. split.
      * apply (search_stored latToY t R fuel (SearchInBox_init t) s eq_refl); auto;
          [intros e0 []|apply (search_init_inv latToY t Hok)].
      * apply (search_sound latToY t R fuel (SearchInBox_init t) s eq_refl); auto;
          intros e0 [].
    + intros [(l & i & Hl & Hi & ->) Hx].
      destruct (search_reaches latToY t R fuel (SearchInBox_init t) s eq_refl E)
        as [_ Hroute].
      apply (Hroute TreeIndex_default l); [now left| |].
      * now apply (route_from_root latToY t R Hmono Hok Hlinked l i).
      * unfold leaf_matches. apply in_map. apply filter_In.
        split; [now apply irange_spec|assumption].
Qed.

(** The same for an index that holds a given list of edges. *)
Lemma SearchInBox_on_built latToY t cs input search_rectangle :
  monotone latToY ->
  index_ok latToY t = true ->
  all_linked t = true ->
  Permutation (stored_edges (m_leaves t)) input ->
  m_coordinate_list t = cs ->
  (exists fuel results, SearchInBox latToY fuel t search_rectangle = Some (results, t))
  /\ forall fuel results t',
      SearchInBox latToY fuel t search_rectangle = Some (results, t') ->
      forall e, In e results
                <-> (In e input
                     /\ Rectangle.Intersects (edge_bbox cs e) search_rectangle = true).
Proof.
  intros Hmono Hok Hlinked Hperm <-.
  destruct (SearchInBox_on_index latToY t search_rectangle Hmono Hok Hlinked) as [Hex Hall].
  split; [exact Hex|]. intros fuel results t' H e.
  rewrite (Hall fuel results t' H e), (stored_In latToY t e Hok).
  split; intros [Hin Hx]; (split; [|exact Hx]).
  - now apply (Permutation_in _ Hperm).
  - now apply (Permutation_in _ (Permutation_sym Hperm)).
Qed.

(* ================================================================== *)
(** * The rectangle of the root *)

Section RootRectangle.

Variable latToY : Z -> Z.
Variable t : StaticRTree.
Hypothesis Hok : index_ok latToY t = true.

(** The rectangle of a leaf lies within the rectangle of every entry
  above it. *)
Lemma reaches_inside c l :
reaches t c l -> index_valid t c ->
Rectangle.inside (leaf_minimum_bounding_rectangle (leaf_at t l))
                 (child_rectangle t c) = true.
Proof.
induction 1 as [c Hl|c j l Hl Hj Hr IH]; intros Hv.
- unfold child_rectangle. rewrite Hl. apply inside_refl.
- unfold index_valid in Hv. rewrite Hl in Hv.
  pose proof (ok_child latToY t Hok _ _ Hv Hj) as Hc.
  apply (child_ok_valid t) in Hc; [|lia]. destruct Hc as (Hcv & _ & _ & Hins).
  unfold child_rectangle at 1. rewrite Hl.
  eapply inside_trans; [exact (IH Hcv)|exact Hins].
Qed.

Hypothesis Hexact : mbr_exact latToY t.

Local Abbreviation box := (projected_box latToY (m_coordinate_list t)).
Local Abbreviation all_boxes := (union_of (map box (stored_edges (m_leaves t)))).

Lemma leaf_inside_all l :
0 <= l < Z.of_nat (length (m_leaves t)) ->
Rectangle.inside (leaf_minimum_bounding_rectangle (leaf_at t l)) all_boxes = true.
Proof.
intros Hl.
assert (Hin : In (leaf_at t l) (m_leaves t))
  by (unfold leaf_at, at_; apply nth_In; lia).
destruct Hexact as [_ Hleaf]. rewrite (Hleaf _ Hin).
apply union_of_least; [apply union_of_empty|].
intros r Hr. apply union_of_upper.
apply in_map_iff in Hr as (e & <- & He). apply in_map.
unfold stored_edges. apply in_concat.
exists (stored_objects (leaf_at t l)). split; [now apply in_map|assumption].
Qed.

Lemma node_inside_all :
forall d k, 0 <= k -> Z.of_nat (length (m_search_tree t)) - k <= Z.of_nat d ->
  k < Z.of_nat (length (m_search_tree t)) ->
  Rectangle.inside (minimum_bounding_rectangle (node_at t k)) all_boxes = true.
Proof.
induction d as [|d IH]; intros k Hk0 Hd Hk; [lia|].
destruct Hexact as [Hnode _]. rewrite (Hnode k (conj Hk0 Hk)).
apply union_of_least; [apply union_of_empty|].
intros r Hr. apply in_map_iff in Hr as (i & <- & Hi). apply irange_spec in Hi.
pose proof (ok_child latToY t Hok k i (conj Hk0 Hk) Hi) as Hc.
apply (child_ok_valid t) in Hc; [|lia]. destruct Hc as (Hcv & Hlt & _ & _).
unfold index_valid in Hcv. unfold child_rectangle.
destruct (is_leaf (child_at (node_at t k) i)).
- now apply leaf_inside_all.
- specialize (Hlt eq_refl). apply IH; lia.
Qed.

(** The rectangle of the root is the union of the boxes of all stored
  edges. *)
Lemma root_is_union :
all_linked t = true ->
minimum_bounding_rectangle (node_at t 0) = all_boxes.
Proof.
intros Hlinked. pose proof (ok_nonempty latToY t Hok) as Hne.
apply inside_antisym.
- apply (node_inside_all (length (m_search_tree t))); lia.
- apply union_of_least.
  + destruct Hexact as [Hnode _]. rewrite (Hnode 0 ltac:(lia)). apply union_of_empty.
  + intros r Hr. apply in_map_iff in Hr as (e & <- & He).
    apply (stored_In latToY t e Hok) in He. destruct He as (l & i & Hl & Hi & ->).
    assert (Hin : In (leaf_at t l) (m_leaves t))
      by (unfold leaf_at, at_; apply nth_In; lia).
    apply inside_trans with (b := leaf_minimum_bounding_rectangle (leaf_at t l)).
    * destruct Hexact as [_ Hleaf]. rewrite (Hleaf _ Hin).
      apply union_of_upper. apply in_map.
      assert (Hs : stored t (object_at (leaf_at t l) i)) by (exists l, i; auto).
      apply (stored_In latToY t _ Hok) in Hs.
      destruct (leaf_count_within latToY t l Hok Hl) as [_ Hc].
      unfold stored_objects, object_at, at_.
      assert (E : nth (Z.to_nat i) (objects (leaf_at t l)) EdgeData_default
                  = nth (Z.to_nat i)
                        (firstn (Z.to_nat (object_count (leaf_at t l)))
                                (objects (leaf_at t l))) EdgeData_default).
      { rewrite nth_firstn.
        destruct (Nat.ltb_spec (Z.to_nat i) (Z.to_nat (object_count (leaf_at t l))));
          [reflexivity|lia]. }
      rewrite E. apply nth_In. rewrite length_firstn. lia.
    * apply (reaches_inside TreeIndex_default l).
      -- now apply (reaches_from_root latToY t Hok).
      -- unfold index_valid. simpl. lia.
Qed.

End RootRectangle.

(** The union of rectangles does not depend on their order. *)
Lemma union_of_perm rs rs' : Permutation rs rs' -> union_of rs = union_of rs'.
Proof.
  intros H. apply inside_antisym; (apply union_of_least; [apply union_of_empty|]);
    intros r Hr; apply union_of_upper.
  - now apply (Permutation_in _ H).
  - now apply (Permutation_in _ (Permutation_sym H)).
Qed.

(* ================================================================== *)
(** * The layout of the leaf file *)

Lemma take_chunks_layout {A} n sz (l : list A) :
  snd (take_chunks n sz l) = skipn (length (fst (take_chunks n sz l)) * sz) l
  /\ forall i, (i < length (fst (take_chunks n sz l)))%nat ->
               nth i (fst (take_chunks n sz l)) [] = firstn sz (skipn (i * sz) l).
Proof.
  revert l. induction n as [|n IH]; intros l.
  - simpl. split; [reflexivity|]. intros i Hi. lia.
  - destruct l as [|x l].
    + simpl. split; [reflexivity|]. intros i Hi. lia.
    + cbn [take_chunks]. specialize (IH (skipn sz (x :: l))).
      destruct (take_chunks n sz (skipn sz (x :: l))) as [chs rest]. cbn [fst snd] in *.
      destruct IH as [Hrest Hnth]. split.
      * rewrite Hrest, skipn_skipn. cbn [length]. f_equal. lia.
      * intros [|i] Hi.
        -- reflexivity.
        -- cbn [length] in Hi. cbn [nth]. rewrite Hnth by lia.
           rewrite skipn_skipn. do 2 f_equal. lia.
Qed.

Lemma group_leaves_layout {A} fuel B L (objs : list A) :
  forall i, (i < length (concat (group_leaves fuel B L objs)))%nat ->
            nth i (concat (group_leaves fuel B L objs)) []
            = firstn L (skipn (i * L) objs).
Proof.
  revert objs. induction fuel as [|fuel IH]; intros objs i Hi.
  - simpl in Hi. lia.
  - destruct objs as [|o objs]; [simpl in Hi; lia|].
    cbn [group_leaves] in *.
    pose proof (take_chunks_layout B L (o :: objs)) as [Hrest Hnth].
    destruct (take_chunks B L (o :: objs)) as [chs rest]. cbn [fst snd] in *.
    cbn [concat] in *. rewrite length_app in Hi.
    destruct (Nat.lt_ge_cases i (length chs)) as [Hlt|Hge].
    + rewrite app_nth1 by assumption. now apply Hnth.
    + rewrite app_nth2 by assumption. rewrite IH by lia.
      rewrite Hrest, skipn_skipn. do 2 f_equal. nia.
Qed.

Lemma length_concat_le {A} L (l : list (list A)) :
  Forall (fun c => (length c <= L)%nat) l -> (length (concat l) <= length l * L)%nat.
Proof.
  induction 1 as [|c l Hc _ IH]; simpl; [lia|]. rewrite length_app. lia.
Qed.

(** Runs of [L] objects, none empty, that make up [objs]: there are
    [ceil (n / L)] of them. *)
Lemma chunks_count {A} L (chunks : list (list A)) (objs : list A) :
  (0 < L)%nat ->
  Forall (fun c => c <> [] /\ (length c <= L)%nat) chunks ->
  concat chunks = objs ->
  (forall i, (i < length chunks)%nat ->
             nth i chunks [] = firstn L (skipn (i * L) objs)) ->
  Z.of_nat (length chunks)
  = (Z.of_nat (length objs) + Z.of_nat L - 1) / Z.of_nat L.
Proof.
  intros HL Hall Hcat Hnth.
  assert (Hup : (length objs <= length chunks * L)%nat).
  { rewrite <- Hcat. apply length_concat_le.
    eapply Forall_impl; [|exact Hall]. simpl. tauto. }
  assert (Hlow : (length chunks = 0 \/ (length chunks - 1) * L < length objs)%nat).
  { destruct chunks as [|c0 chunks0] eqn:E; [now left|right]. rewrite <- E in *.
    assert (Hk : (length chunks - 1 < length chunks)%nat) by (rewrite E; simpl; lia).
    pose proof (Hnth _ Hk) as Hlast.
    assert (Hin : In (nth (length chunks - 1) chunks []) chunks) by now apply nth_In.
    rewrite Forall_forall in Hall. destruct (Hall _ Hin) as [Hne _].
    rewrite Hlast in Hne.
    destruct (Nat.lt_ge_cases ((length chunks - 1) * L) (length objs)) as [H|H];
      [exact H|].
    exfalso. apply Hne. rewrite skipn_all2 by exact H. now destruct L. }
  apply Z.div_unique with (r := Z.of_nat (length objs) + Z.of_nat L - 1
                                          - Z.of_nat L * Z.of_nat (length chunks));
    [|lia].
  left. destruct Hlow as [H0|Hlow]; nia.
Qed.

Section Layout.

Variable BRANCHING_FACTOR : Z.
Variable LEAF_NODE_SIZE_ : Z.
Variable latToY : Z -> Z.
Variable cs : list Coordinate.
Variable prepare : list TreeNode -> list TreeNode.
Variable objs : list EdgeData.
Hypothesis HB : 2 <= BRANCHING_FACTOR.
Hypothesis HL : 1 <= LEAF_NODE_SIZE_.
Hypothesis Hne : objs <> [].
Hypothesis Hsize : 3 * Z.of_nat (length objs) < 2147483648.
Hypothesis Hboxes : Forall (fun e => proper (projected_box latToY cs e)) objs.

(** The leaf file after the leaf loop: page [l] holds the objects
  [l * LEAF_NODE_SIZE], ... of the sorted array. *)
Lemma pack_sorted_layout t :
pack_sorted BRANCHING_FACTOR LEAF_NODE_SIZE_ latToY cs prepare objs = Some t ->
Z.of_nat (length (m_leaves t))
= (Z.of_nat (length objs) + LEAF_NODE_SIZE_ - 1) / LEAF_NODE_SIZE_
/\ forall l, 0 <= l < Z.of_nat (length (m_leaves t)) ->
             leaf_at t l
             = leaf_of latToY cs LEAF_NODE_SIZE_
                       (firstn (Z.to_nat LEAF_NODE_SIZE_)
                               (skipn (Z.to_nat (l * LEAF_NODE_SIZE_)) objs))
               /\ l * LEAF_NODE_SIZE_ < Z.of_nat (length objs).
Proof.
intros H. unfold pack_sorted in H.
destruct (sorted_level0 BRANCHING_FACTOR LEAF_NODE_SIZE_ latToY cs objs
                        HB HL Hne Hsize Hboxes) as (Hpack & _).
rewrite Hpack in H.
match type of H with
| match ?X with _ => _ end = _ => destruct X as [[lv st]|]; [|discriminate]
end.
injection H as <-. cbn [m_leaves].
destruct (sorted_groups BRANCHING_FACTOR LEAF_NODE_SIZE_ objs HB HL Hne)
  as (_ & Hall & Hcat & _ & _).
set (G := group_leaves (length objs) (Z.to_nat BRANCHING_FACTOR)
                       (Z.to_nat LEAF_NODE_SIZE_) objs) in *.
pose proof (group_leaves_layout (length objs) (Z.to_nat BRANCHING_FACTOR)
                                (Z.to_nat LEAF_NODE_SIZE_) objs) as Hnth.
fold G in Hnth.
pose proof (chunks_count (Z.to_nat LEAF_NODE_SIZE_) (concat G) objs ltac:(lia)
                         Hall Hcat Hnth) as Hcount.
rewrite Z2Nat.id in Hcount by lia.
rewrite length_map. split; [exact Hcount|].
intros l Hl. unfold leaf_at, at_. cbn [m_leaves].
rewrite (nth_indep _ _ (leaf_of latToY cs LEAF_NODE_SIZE_ []))
  by (rewrite length_map; lia).
rewrite map_nth, Hnth by lia.
assert (E : (Z.to_nat l * Z.to_nat LEAF_NODE_SIZE_)%nat
            = Z.to_nat (l * LEAF_NODE_SIZE_)) by nia.
rewrite E. split; [reflexivity|].
assert (Hin : In (nth (Z.to_nat l) (concat G) []) (concat G))
  by (apply nth_In; lia).
rewrite Forall_forall in Hall. destruct (Hall _ Hin) as [Hnn _].
rewrite Hnth, E in Hnn by lia.
destruct (Z.lt_ge_cases (l * LEAF_NODE_SIZE_) (Z.of_nat (length objs))) as [Hlt|Hge];
  [exact Hlt|].
exfalso. apply Hnn. rewrite skipn_all2 by lia. now destruct (Z.to_nat LEAF_NODE_SIZE_).
Qed.

End Layout.

(* ================================================================== *)
(** * The objects that the OMT packer stores *)

Lemma total_objects_app l l' : total_objects (l ++ l') = total_objects l + total_objects l'.
Proof.
  unfold total_objects. induction l as [|x l IH]; simpl; [reflexivity|]. lia.
Qed.

Lemma total_objects_one l : total_objects [l] = object_count l.
Proof. unfold total_objects. simpl. lia. Qed.

Lemma stored_edges_le leaves :
  Forall (fun l => 0 <= object_count l) leaves ->
  Z.of_nat (length (stored_edges leaves)) <= total_objects leaves.
Proof.
  unfold stored_edges, total_objects.
  induction 1 as [|l leaves Hl _ IH]; simpl; [lia|].
  rewrite length_app. unfold stored_objects at 1. rewrite length_firstn. lia.
Qed.

Section OMTShort.

Variable BRANCHING_FACTOR : Z.
Variable LEAF_NODE_SIZE_ : Z.
Variable latToY : Z -> Z.
Variable centroid : Coordinate -> Coordinate -> Coordinate.
Variable sort : forall A : Type, (A -> A -> bool) -> list A -> list A.
Variable cs : list Coordinate.
Variable ceil_log_ratio : Z -> Z -> Z.
Variable ceil_div_pow : Z -> Z -> Z -> Z.
Variable ceil_sqrt : Z -> Z.
Hypothesis HB : 1 <= BRANCHING_FACTOR.

Local Abbreviation step :=
(OMT_step BRANCHING_FACTOR LEAF_NODE_SIZE_ latToY centroid sort cs
          ceil_log_ratio ceil_div_pow ceil_sqrt).
Local Abbreviation loop :=
(OMT_loop BRANCHING_FACTOR LEAF_NODE_SIZE_ latToY centroid sort cs
          ceil_log_ratio ceil_div_pow ceil_sqrt).

(** The ranges that a node of more than [BRANCHING_FACTOR] objects
  enqueues: at least two, or one that counts fewer objects, or one
  that is to be split again. *)
Lemma slabs_short fuel M1 r here h leaves queue leaves' queue' :
0 < M1 -> BRANCHING_FACTOR < width r ->
omt_slabs centroid sort cs fuel (width r / M1 * ceil_sqrt M1) (width r / M1)
          (left r) (right r) here h leaves queue = Some (leaves', queue') ->
exists rs,
  queue' = queue ++ rs
  /\ Forall (fun r' => 1 <= width r') rs
  /\ 1 <= Z.of_nat (length rs)
  /\ total_width rs <= width r
  /\ (2 <= Z.of_nat (length rs) \/ total_width rs < width r
      \/ Exists (fun r' => BRANCHING_FACTOR < width r') rs).
Proof.
intros HM Hw Hs.
set (q := width r / M1) in *. set (S := ceil_sqrt M1) in *.
assert (Hlr : left r < right r) by (unfold width in Hw; lia).
assert (Hq0 : 0 <= q) by (unfold q; apply Z.div_pos; lia).
assert (HqS : 1 <= q /\ 1 <= S).
{ destruct (Z_le_gt_dec (q * S) 0) as [Hle|Hgt].
  - rewrite (omt_slabs_none centroid sort cs _ _ _ _ _ _ _ _ _ Hle Hlr) in Hs.
    discriminate.
  - now apply positive_factors. }
destruct HqS as [Hq1 HS].
destruct (omt_slabs_spec centroid sort cs _ _ _ _ _ _ _ _ _ _ _ Hq1 HS Hs)
  as (rs & -> & _).
destruct (omt_slabs_widths 2 centroid sort cs ltac:(lia) _ _ _ _ _ _ _ _ _ _ _
                           Hq1 HS Hs) as [Hrs Hsum].
exists rs. split; [reflexivity|]. split; [exact Hrs|].
assert (Hmax : Z.max 0 (right r - left r + 1) = width r) by (unfold width; lia).
rewrite Hmax in Hsum.
destruct rs as [|r0 [|r1 rest]].
- simpl in Hsum. lia.
- split; [simpl; lia|]. split; [lia|].
  cbn [total_width fold_right] in *.
  destruct (Z_lt_le_dec (width r0 + 0) (width r)) as [Hlt|Hge]; [now right; left|].
  right. right. constructor. lia.
- split; [cbn [length]; lia|]. split; [lia|]. left. cbn [length]. lia.
Qed.

Lemma step_short n s r queue s' :
o_queue s = r :: queue ->
omt_short BRANCHING_FACTOR n s ->
step s r queue = Some s' ->
omt_short BRANCHING_FACTOR n s'.
Proof.
intros Hq (Hwq & Hcount & Hshort) Hstep.
unfold omt_pending in Hshort. rewrite Hq in Hwq, Hshort.
apply Forall_cons_iff in Hwq as [Hw1 Hwq].
cbn [total_width fold_right length] in Hshort. fold (total_width queue) in Hshort.
unfold OMT_step in Hstep. cbv zeta in Hstep.
change (right r - left r + 1) with (width r) in Hstep.
destruct (Z.leb_spec (width r) BRANCHING_FACTOR) as [Hle|Hgt].
- (* a leaf *)
  destruct (width r - 1 <=? LEAF_NODE_SIZE_); [|discriminate].
  destruct (omt_attach _ _ _ _ _ _) as [T'|]; [|discriminate].
  injection Hstep as <-.
  assert (Hc : 0 <= object_count (omt_leaf LEAF_NODE_SIZE_ latToY cs (o_leaves s) r)
               <= width r - 1).
  { unfold omt_leaf. cbv zeta. cbn [object_count].
    change (right r - left r + 1) with (width r).
    pose proof (Z.mod_pos_bound (width r - 1) UINT32_MOD ltac:(unfold UINT32_MOD; lia)).
    pose proof (Z.mod_le (width r - 1) UINT32_MOD ltac:(lia)
                         ltac:(unfold UINT32_MOD; lia)).
    lia. }
  split; [|split]; unfold omt_pending; cbn [o_queue o_leaf_node_file].
  + exact Hwq.
  + apply Forall_app. split; [exact Hcount|]. constructor; [lia|constructor].
  + rewrite total_objects_app, total_objects_one.
    destruct Hshort as [Hlt|[Hle' Hex]]; [left; lia|right].
    split; [lia|]. apply Exists_cons in Hex as [Hr|Hex]; [lia|exact Hex].
- (* a node *)
  assert (Hnode : exists M1 here h leaves1 fuel queue' leaves2 T2,
             0 < M1
             /\ omt_slabs centroid sort cs fuel (width r / M1 * ceil_sqrt M1)
                          (width r / M1) (left r) (right r) here h leaves1 queue
                = Some (leaves2, queue')
             /\ s' = {| o_leaves := leaves2; o_queue := queue';
                        o_search_tree := T2;
                        o_leaf_node_file := o_leaf_node_file s;
                        o_leaf_node_count := o_leaf_node_count s |}).
  { destruct (height r =? 0).
    - match type of Hstep with
      | context [if ?M =? 0 then _ else _] => set (M1 := M) in *
      end.
      destruct (Z.eqb_spec M1 0) as [|HM]; [discriminate|].
      assert (0 <= M1)
        by (unfold M1, UINT32_MOD; apply Z.mod_pos_bound; lia).
      destruct (omt_slabs _ _ _ _ _ _ _ _ _ _ _ _) as [[leaves2 queue']|] eqn:Es;
        [|discriminate].
      injection Hstep as <-.
      eexists M1, _, _, _, _, queue', leaves2, _.
      split; [lia|]. split; [exact Es|reflexivity].
    - destruct (omt_attach _ _ _ _ _ _) as [T2|]; [|discriminate].
      destruct (Z.eqb_spec BRANCHING_FACTOR 0) as [|HM]; [discriminate|].
      destruct (omt_slabs _ _ _ _ _ _ _ _ _ _ _ _) as [[leaves2 queue']|] eqn:Es;
        [|discriminate].
      injection Hstep as <-.
      eexists BRANCHING_FACTOR, _, _, _, _, queue', leaves2, _.
      split; [lia|]. split; [exact Es|reflexivity]. }
  destruct Hnode as (M1 & here & h & leaves1 & fuel & queue' & leaves2 & T2
                     & HM & Es & ->).
  destruct (slabs_short _ _ _ _ _ _ _ _ _ HM Hgt Es)
    as (rs & -> & Hrs & Hlen & Hsum & Hcase).
  split; [|split]; unfold omt_pending; cbn [o_queue o_leaf_node_file].
  + apply Forall_app. split; assumption.
  + exact Hcount.
  + rewrite total_width_app, length_app, Nat2Z.inj_add.
    destruct Hcase as [Hmany|[Hless|Hex]].
    * left. destruct Hshort as [Hlt|[Hle' _]]; lia.
    * left. destruct Hshort as [Hlt|[Hle' _]]; lia.
    * destruct Hshort as [Hlt|[Hle' _]]; [left; lia|right].
      split; [lia|]. apply Exists_app. now right.
Qed.

Lemma loop_short n fuel :
forall s sf,
  omt_short BRANCHING_FACTOR n s -> loop fuel s = Some sf ->
  omt_short BRANCHING_FACTOR n sf.
Proof.
induction fuel as [|fuel IH]; intros s sf Hs H; cbn [OMT_loop] in H;
  destruct (o_queue s) as [|r queue] eqn:Hq.
- now injection H as <-.
- discriminate.
- now injection H as <-.
- destruct (step s r queue) as [s1|] eqn:Es; [|discriminate].
  apply (IH s1 sf); [|exact H]. now apply (step_short n s r queue).
Qed.

(** Fewer than [BRANCHING_FACTOR] objects: the first range is a leaf,
  and the node that is to hold it does not exist. *)
Lemma loop_small fuel input :
Z.of_nat (length input) + 1 <= BRANCHING_FACTOR ->
loop fuel (OMT_init input) = None.
Proof.
intros Hsmall. destruct fuel as [|fuel]; [reflexivity|].
cbn [OMT_loop OMT_init o_queue]. unfold OMT_step. cbv zeta.
cbn [o_search_tree o_leaves o_leaf_node_file o_leaf_node_count
     parent left right height].
destruct (Z.leb_spec (Z.of_nat (length input) - 0 + 1) BRANCHING_FACTOR); [|lia].
destruct (_ <=? LEAF_NODE_SIZE_); reflexivity.
Qed.

(** When the packer returns, the pages count fewer objects than it was
  given. *)
Lemma PackWithOMT_short fuel input tree leaves :
PackWithOMT BRANCHING_FACTOR LEAF_NODE_SIZE_ latToY centroid sort cs
            ceil_log_ratio ceil_div_pow ceil_sqrt fuel input = Some (tree, leaves) ->
BRANCHING_FACTOR <= Z.of_nat (length input)
/\ Forall (fun l => 0 <= object_count l) leaves
/\ total_objects leaves < Z.of_nat (length input).
Proof.
intros H. unfold PackWithOMT in H.
destruct (loop fuel (OMT_init input)) as [sf|] eqn:El; [|discriminate].
destruct (omt_propagate (o_search_tree sf)) as [Tf|]; [|discriminate].
injection H as <- <-.
destruct (Z_le_gt_dec (Z.of_nat (length input) + 1) BRANCHING_FACTOR) as [Hs|Hbig].
{ rewrite (loop_small fuel input Hs) in El. discriminate. }
split; [lia|].
assert (H0 : omt_short BRANCHING_FACTOR (Z.of_nat (length input)) (OMT_init input)).
{ unfold omt_short, omt_pending, OMT_init, total_objects, width.
  cbn [o_queue o_leaf_node_file total_width fold_right map length left right].
  split; [constructor; [simpl; lia|constructor]|]. split; [constructor|].
  right. split; [unfold width; simpl; lia|]. constructor. simpl. lia. }
destruct (loop_short _ fuel _ sf H0 El) as (_ & Hcount & Hshort).
split; [exact Hcount|].
assert (Hq : o_queue sf = []).
{ clear - El. revert El. generalize (OMT_init input). induction fuel as [|fuel IH];
    intros s El; cbn [OMT_loop] in El; destruct (o_queue s) eqn:Hq.
  - now injection El as <-.
  - discriminate.
  - now injection El as <-.
  - destruct (step s r l); [|discriminate]. now apply (IH _ El). }
unfold omt_pending in Hshort. rewrite Hq in Hshort. simpl in Hshort.
destruct Hshort as [Hlt|[_ Hex]]; [lia|inversion Hex].
Qed.

End OMTShort.

(* ================================================================== *)
(** * Degenerate template parameters *)

Section Degenerate.

Variable BRANCHING_FACTOR : Z.
Variable LEAF_NODE_SIZE_ : Z.
Variable latToY : Z -> Z.
Variable cs : list Coordinate.

(** With no room in a leaf the innermost loop takes no object. *)
Lemma fill_node_stuck n :
LEAF_NODE_SIZE_ <= 0 ->
forall node_index leaf_index current_node objs leaf_node_file,
  snd (fst (fill_node BRANCHING_FACTOR LEAF_NODE_SIZE_ latToY cs n node_index leaf_index
                      current_node objs leaf_node_file)) = objs.
Proof.
intros HL. induction n as [|n IH]; intros node_index leaf_index node objs file.
- reflexivity.
- destruct objs as [|o objs]; [reflexivity|]. cbn [fill_node].
  replace (Z.to_nat LEAF_NODE_SIZE_) with 0%nat by lia. cbn [fill_leaf].
  apply IH.
Qed.

Lemma pack_leaves_stuck fuel :
LEAF_NODE_SIZE_ <= 0 \/ BRANCHING_FACTOR <= 0 ->
forall node_index objs leaf_node_file tree_nodes_in_level,
  objs <> [] ->
  pack_leaves BRANCHING_FACTOR LEAF_NODE_SIZE_ latToY cs fuel node_index objs
              leaf_node_file tree_nodes_in_level = None.
Proof.
intros Hdeg. induction fuel as [|fuel IH]; intros node_index objs file level Hne;
  (destruct objs as [|o objs]; [congruence|]); [reflexivity|].
cbn [pack_leaves].
assert (E : snd (fst (fill_node BRANCHING_FACTOR LEAF_NODE_SIZE_ latToY cs
                                (Z.to_nat BRANCHING_FACTOR) node_index 0
                                (TreeNode_default BRANCHING_FACTOR) (o :: objs) file))
            = o :: objs).
{ destruct Hdeg as [HL|HB].
  - now apply fill_node_stuck.
  - replace (Z.to_nat BRANCHING_FACTOR) with 0%nat by lia. reflexivity. }
destruct (fill_node _ _ _ _ _ _ _ _ _ _) as [[node rest] file'].
cbn [fst snd] in E. subst rest. apply IH. discriminate.
Qed.

End Degenerate.

(** With one child to a parent a level has as many parents as nodes. *)
Lemma parents_of_one fuel :
  forall base level,
    (length level <= fuel)%nat ->
    length (parents_of fuel 1 base level) = length level.
Proof.
  induction fuel as [|fuel IH]; intros base level Hf.
  - destruct level; [reflexivity|simpl in Hf; lia].
  - destruct level as [|kid rest]; [reflexivity|].
    cbn [parents_of length]. change (Z.to_nat 1) with 1%nat.
    cbn [skipn]. rewrite IH by (cbn [length] in Hf; lia). reflexivity.
Qed.

Lemma pack_levels_stuck prepare fuel :
  (forall l, length (prepare l) = length l) ->
  forall tree_nodes_in_level search_tree,
    1 < Z.of_nat (length tree_nodes_in_level) ->
    pack_levels 1 prepare fuel tree_nodes_in_level search_tree = None.
Proof.
  intros Hprep. induction fuel as [|fuel IH]; intros level st Hl; cbn [pack_levels];
    destruct (Z.ltb_spec 1 (Z.of_nat (length level))); try lia; [reflexivity|].
  rewrite pack_level_spec by (change (Z.to_nat 1) with 1%nat; lia).
  cbn [app]. apply IH. rewrite parents_of_one by lia. rewrite Hprep. exact Hl.
Qed.

(* ================================================================== *)
(** * The node array is a tree *)

Lemma NoDup_app_inv {A} (l l' : list A) :
  NoDup (l ++ l') -> NoDup l /\ NoDup l' /\ forall x, In x l -> ~ In x l'.
Proof.
  induction l as [|a l IH]; simpl; intros H.
  - split; [constructor|]. split; [assumption|]. intros x [].
  - inversion H as [|? ? Ha Hl]; subst. destruct (IH Hl) as (H1 & H2 & H3).
    split; [|split; [assumption|]].
    + constructor; [|assumption]. intros Hin. apply Ha. apply in_or_app. now left.
    + intros x [<-|Hx]; [|now apply H3].
      intros Hin. apply Ha. apply in_or_app. now right.
Qed.

Lemma NoDup_map_irange {A} (f : Z -> A) m i i' :
  NoDup (map f (irange m)) -> 0 <= i < m -> 0 <= i' < m -> f i = f i' -> i = i'.
Proof.
  intros Hnd Hi Hi' E.
  assert (Hn : forall j, 0 <= j < m -> nth (Z.to_nat j) (map f (irange m)) (f 0) = f j).
  { intros j Hj. rewrite (map_nth f (irange m) 0), irange_nth by lia.
    now rewrite Z2Nat.id by lia. }
  pose proof (proj1 (NoDup_nth (map f (irange m)) (f 0)) Hnd
                    (Z.to_nat i) (Z.to_nat i')) as H.
  rewrite length_map, irange_length, !Hn in H by assumption.
  specialize (H ltac:(lia) ltac:(lia) E). lia.
Qed.

Lemma total_children_app l l' :
  total_children (l ++ l') = total_children l + total_children l'.
Proof.
  unfold total_children. induction l as [|x l IH]; simpl; [reflexivity|]. lia.
Qed.

Lemma total_children_perm l l' :
  Permutation l l' -> total_children l = total_children l'.
Proof.
  unfold total_children. induction 1; simpl; lia.
Qed.

Lemma slots_length nodes :
  Forall (fun n => 0 <= child_count n) nodes ->
  Z.of_nat (length (flat_map node_slots nodes)) = total_children nodes.
Proof.
  unfold total_children. induction 1 as [|n nodes Hn _ IH]; simpl; [reflexivity|].
  rewrite length_app. unfold node_slots at 1. rewrite length_map, irange_length. lia.
Qed.

Lemma slots_injective (nodes : list TreeNode) (d : TreeNode) :
  NoDup (flat_map node_slots nodes) ->
  forall k k' i i',
    (k < length nodes)%nat -> (k' < length nodes)%nat ->
    0 <= i < child_count (nth k nodes d) ->
    0 <= i' < child_count (nth k' nodes d) ->
    child_at (nth k nodes d) i = child_at (nth k' nodes d) i' ->
    k = k' /\ i = i'.
Proof.
  induction nodes as [|n nodes IH]; intros Hnd k k' i i' Hk Hk' Hi Hi' E;
    [simpl in Hk; lia|].
  cbn [flat_map] in Hnd. apply NoDup_app_inv in Hnd as (Hn & Hrest & Hdis).
  assert (Hin : forall j m, (j < length nodes)%nat -> 0 <= m < child_count (nth j nodes d) ->
                            In (child_at (nth j nodes d) m) (flat_map node_slots nodes)).
  { intros j m Hj Hm. apply in_flat_map. exists (nth j nodes d).
    split; [now apply nth_In|]. unfold node_slots. apply in_map. now apply irange_spec. }
  assert (Hhere : forall m, 0 <= m < child_count n -> In (child_at n m) (node_slots n)).
  { intros m Hm. unfold node_slots. apply in_map. now apply irange_spec. }
  destruct k as [|k], k' as [|k']; cbn [nth length] in *.
  - split; [reflexivity|]. now apply (NoDup_map_irange (child_at n) (child_count n)).
  - exfalso. apply (Hdis _ (Hhere i Hi)). rewrite E. apply Hin; [lia|assumption].
  - exfalso. apply (Hdis _ (Hhere i' Hi')). rewrite <- E. apply Hin; [lia|assumption].
  - destruct (IH Hrest k k' i i') as [-> ->]; try assumption; try lia; now split.
Qed.

Lemma NoDup_slots_shaped t : NoDup (child_slots t) -> tree_shaped t.
Proof.
  intros Hnd k i k' i' Hk Hi Hk' Hi' E. unfold node_at, at_ in *.
  destruct (slots_injective (m_search_tree t) (TreeNode_default 0) Hnd
                            (Z.to_nat k) (Z.to_nat k') i i') as [Hkk Hii];
    try assumption; lia.
Qed.

(** In a well-formed, linked index with as many child entries as there
    are leaves and nodes other than the root, every leaf and every such
    node is a child once. *)
Lemma linked_tree_shaped latToY t :
  index_ok latToY t = true ->
  all_linked t = true ->
  total_children (m_search_tree t)
  = Z.of_nat (length (m_leaves t)) + Z.of_nat (length (m_search_tree t)) - 1 ->
  tree_shaped t.
Proof.
  intros Hok Hlinked Hcount. apply NoDup_slots_shaped.
  pose proof (ok_nonempty latToY t Hok) as Hne.
  set (targets := map (fun l => {| index := l; is_leaf := true |})
                      (irange (Z.of_nat (length (m_leaves t))))
                  ++ map (fun k => {| index := k + 1; is_leaf := false |})
                         (irange (Z.of_nat (length (m_search_tree t)) - 1))).
  apply (@NoDup_incl_NoDup _ targets).
  - unfold targets. apply NoDup_app.
    + apply Finite.Injective_map_NoDup; [|apply irange_NoDup].
      intros a b E. now injection E.
    + apply Finite.Injective_map_NoDup; [|apply irange_NoDup].
      intros a b E. injection E. lia.
    + intros x Hx Hx'. apply in_map_iff in Hx as (a & <- & _).
      apply in_map_iff in Hx' as (b & E & _). discriminate.
  - assert (Hlen : Z.of_nat (length (child_slots t))
                   = total_children (m_search_tree t)).
    { apply slots_length. apply Forall_forall. intros n Hn.
      destruct (In_nth _ _ (TreeNode_default 0) Hn) as (k & Hk & <-).
      pose proof (ok_node latToY t Hok (Z.of_nat k) ltac:(lia)) as H.
      unfold node_ok in H. cbv zeta in H. apply andb_prop in H as [H _].
      apply andb_prop in H as [H _]. apply Z.leb_le in H.
      unfold node_at, at_ in H. now rewrite Nat2Z.id in H. }
    unfold targets. rewrite length_app, !length_map, !irange_length. lia.
  - unfold all_linked in Hlinked. apply andb_prop in Hlinked as [Hlf Hnd].
    rewrite forallb_forall in Hlf, Hnd.
    assert (Hslot : forall c, has_child t c = true -> In c (child_slots t)).
    { intros c Hc. apply has_child_spec in Hc as (k & i & Hk & Hi & <-).
      apply in_flat_map. exists (node_at t k).
      split; [unfold node_at, at_; apply nth_In; lia|].
      unfold node_slots. apply in_map. now apply irange_spec. }
    intros x Hx. unfold targets in Hx. apply in_app_or in Hx as [Hx|Hx];
      apply in_map_iff in Hx as (a & <- & Ha); apply irange_spec in Ha; apply Hslot.
    + apply Hlf. now apply irange_spec.
    + assert (Ha1 : 0 <= a + 1 < Z.of_nat (length (m_search_tree t))) by lia.
      specialize (Hnd (a + 1) (proj2 (irange_spec _ _) Ha1)).
      apply orb_prop in Hnd as [Hz|Hc]; [apply Z.eqb_eq in Hz; lia|exact Hc].
Qed.

(* ------------------------------------------------------------------ *)
(** ** The packers make a tree *)

Lemma parents_of_children B fuel :
  forall base level,
    (length level <= fuel)%nat -> (0 < Z.to_nat B)%nat ->
    total_children (parents_of fuel B base level) = Z.of_nat (length level).
Proof.
  induction fuel as [|fuel IH]; intros base level Hf HB.
  - destruct level; [reflexivity|simpl in Hf; lia].
  - destruct level as [|kid rest]; [reflexivity|].
    cbn [parents_of]. unfold total_children in *. cbn [map fold_right parent_of child_count].
    rewrite IH by (try assumption; rewrite length_skipn; cbn [length] in *; lia).
    rewrite <- (firstn_skipn (Z.to_nat B) (kid :: rest)) at 3.
    rewrite length_app. lia.
Qed.

Lemma pack_levels_count B prepare fuel :
  (forall l, Permutation (prepare l) l) -> (0 < Z.to_nat B)%nat ->
  forall level st level' st',
    pack_levels B prepare fuel level st = Some (level', st') ->
    (length level' <= 1)%nat
    /\ total_children st' + total_children level' - Z.of_nat (length st')
       = total_children st + total_children level - Z.of_nat (length st).
Proof.
  intros Hprep HB. induction fuel as [|fuel IH]; intros level st level' st' H;
    cbn [pack_levels] in H; destruct (Z.ltb_spec 1 (Z.of_nat (length level))).
  - discriminate.
  - injection H as <- <-. split; lia.
  - rewrite pack_level_spec in H by (try assumption; lia). cbn [app] in H.
    destruct (IH _ _ _ _ H) as [Hlen Hsum]. split; [exact Hlen|].
    rewrite Hsum, total_children_app, length_app, parents_of_children by (try assumption; lia).
    rewrite (total_children_perm _ _ (Hprep level)). lia.
  - injection H as <- <-. split; lia.
Qed.

Lemma level0_children B latToY cs L (G : list (list (list EdgeData))) :
  forall j,
    total_children (map (fun g => node0_of B (fst g) (map (leaf_of latToY cs L) (snd g)))
                        (number_from j G))
    = Z.of_nat (length (concat G)).
Proof.
  unfold total_children. induction G as [|g G IH]; intros j; [reflexivity|].
  cbn [number_from map fold_right concat fst snd node0_of child_count].
  rewrite IH, length_app, length_map. lia.
Qed.

Lemma finalize_children level st :
  (length level <= 1)%nat ->
  total_children (finalize_tree level st) = total_children st + total_children level
  /\ length (finalize_tree level st) = S (length st).
Proof.
  intros Hlen. unfold finalize_tree. cbv zeta. split.
  - assert (E : forall S l, total_children (map (renumber_node S) l) = total_children l).
    { intros S l. unfold total_children. rewrite map_map. reflexivity. }
    rewrite E, (total_children_perm _ _ (Permutation_sym (Permutation_rev _))).
    rewrite total_children_app. f_equal.
    destruct level as [|n [|n' level]]; [reflexivity| |simpl in Hlen; lia].
    unfold total_children, at_. simpl. lia.
  - rewrite length_map, length_rev, length_app. simpl. lia.
Qed.

Section Shaped.

Variable BRANCHING_FACTOR : Z.
Variable LEAF_NODE_SIZE_ : Z.
Variable latToY : Z -> Z.
Variable cs : list Coordinate.
Variable prepare : list TreeNode -> list TreeNode.
Variable objs : list EdgeData.
Hypothesis HB : 2 <= BRANCHING_FACTOR.
Hypothesis HL : 1 <= LEAF_NODE_SIZE_.
Hypothesis Hprepare : forall l, Permutation (prepare l) l.
Hypothesis Hne : objs <> [].
Hypothesis Hsize : 3 * Z.of_nat (length objs) < 2147483648.
Hypothesis Hboxes : Forall (fun e => proper (projected_box latToY cs e)) objs.

(** The index that the packers return has one child entry for every
  leaf and for every node but the root. *)
Lemma pack_sorted_count t :
pack_sorted BRANCHING_FACTOR LEAF_NODE_SIZE_ latToY cs prepare objs = Some t ->
total_children (m_search_tree t)
= Z.of_nat (length (m_leaves t)) + Z.of_nat (length (m_search_tree t)) - 1.
Proof.
intros H. unfold pack_sorted in H.
destruct (sorted_level0 BRANCHING_FACTOR LEAF_NODE_SIZE_ latToY cs objs
                        HB HL Hne Hsize Hboxes) as (Hpack & _).
rewrite Hpack in H.
match type of H with
| match ?X with _ => _ end = _ => destruct X as [[lv st]|] eqn:Elev; [|discriminate]
end.
injection H as <-. cbn [m_leaves m_search_tree].
destruct (pack_levels_count BRANCHING_FACTOR prepare _ Hprepare ltac:(lia) _ _ _ _ Elev)
  as [Hlen Hsum].
destruct (finalize_children lv st Hlen) as [-> ->].
rewrite level0_children in Hsum. rewrite length_map.
change (total_children []) with 0 in Hsum. cbn [length] in Hsum. lia.
Qed.

Lemma pack_sorted_shaped t :
pack_sorted BRANCHING_FACTOR LEAF_NODE_SIZE_ latToY cs prepare objs = Some t ->
tree_shaped t.
Proof.
intros H.
destruct (pack_sorted_ok BRANCHING_FACTOR LEAF_NODE_SIZE_ latToY cs prepare objs
                         HB HL Hprepare Hne Hsize Hboxes)
  as (t0 & Ht0 & Hok & Hlinked & _).
rewrite H in Ht0. injection Ht0 as <-.
apply (linked_tree_shaped latToY t Hok Hlinked). now apply pack_sorted_count.
Qed.

End Shaped.

(* ================================================================== *)
(** * [SearchInBox] visits every leaf once *)

Lemma filter_perm {A} (p : A -> bool) (l l' : list A) :
  Permutation l l' -> Permutation (filter p l) (filter p l').
Proof.
  induction 1 as [|x l l' _ IH|x y l|l l' l'' _ IH1 _ IH2]; simpl.
  - constructor.
  - destruct (p x); [now constructor|assumption].
  - destruct (p x), (p y); try reflexivity. constructor.
  - now transitivity (filter p l').
Qed.

(** A sum over the part of a list that holds all that counts. *)
Lemma flat_map_support {B} (f : Z -> list B) (V U : list Z) :
  NoDup V -> NoDup U -> incl V U ->
  (forall x, In x U -> f x <> [] -> In x V) ->
  Permutation (flat_map f V) (flat_map f U).
Proof.
  intros HV HU Hincl Hsupp.
  set (rest := filter (fun x => negb (existsb (Z.eqb x) V)) U).
  assert (Hmem : forall x, existsb (Z.eqb x) V = true <-> In x V).
  { intros x. rewrite existsb_exists. split.
    - intros (y & Hy & E). apply Z.eqb_eq in E. now subst.
    - intros Hx. exists x. split; [assumption|apply Z.eqb_refl]. }
  assert (Hperm : Permutation (V ++ rest) U).
  { apply NoDup_Permutation; [|assumption|].
    - apply NoDup_app; [assumption|now apply NoDup_filter|].
      intros x Hx Hr. unfold rest in Hr. apply filter_In in Hr as [_ Hr].
      apply (proj2 (Hmem x)) in Hx. rewrite Hx in Hr. discriminate.
    - intros x. rewrite in_app_iff. unfold rest. rewrite filter_In. split.
      + intros [Hx|[Hx _]]; [now apply Hincl|assumption].
      + intros Hx. destruct (existsb (Z.eqb x) V) eqn:E.
        * left. now apply Hmem.
        * right. split; [assumption|reflexivity]. }
  rewrite <- (Permutation_flat_map f Hperm), flat_map_app.
  assert (Hnil : flat_map f rest = []).
  { assert (Hall : forall x, In x rest -> f x = []).
    { intros x Hx. unfold rest in Hx. apply filter_In in Hx as [HxU Hx].
      destruct (f x) eqn:E; [reflexivity|exfalso].
      assert (In x V) by (apply Hsupp; [assumption|rewrite E; discriminate]).
      apply (proj2 (Hmem x)) in H. rewrite H in Hx. discriminate. }
    clear - Hall. induction rest as [|x rest IH]; [reflexivity|]. simpl.
    rewrite (Hall x (or_introl eq_refl)), IH; [reflexivity|].
    intros y Hy. apply Hall. now right. }
  rewrite Hnil, app_nil_r. reflexivity.
Qed.

Section Visits.

Variable latToY : Z -> Z.
Variable t : StaticRTree.
Variable R : RectangleInt2D.
Hypothesis Hmono : monotone latToY.
Hypothesis Hok : index_ok latToY t = true.
Hypothesis Hlinked : all_linked t = true.
Hypothesis Hshape : tree_shaped t.

Local Abbreviation sstep := (SearchInBox_step latToY).
Local Abbreviation sloop := (SearchInBox_loop latToY).
Local Abbreviation pr := (projected_rectangle latToY R).
Local Abbreviation inv := (search_visited latToY t R).

(** The matches of a leaf of a well-formed index are the stored objects
  that meet the rectangle. *)
Lemma leaf_matches_filter l :
0 <= l < Z.of_nat (length (m_leaves t)) ->
leaf_matches t R l
= filter (fun e => Rectangle.Intersects (edge_bbox (m_coordinate_list t) e) R)
         (stored_objects (leaf_at t l)).
Proof.
intros Hl. destruct (leaf_count_within latToY t l Hok Hl) as [H0 Hc].
unfold leaf_matches.
rewrite <- (filter_map_swap
              (fun e => Rectangle.Intersects (edge_bbox (m_coordinate_list t) e) R)
              (object_at (leaf_at t l))).
f_equal.
unfold stored_objects, object_at, at_.
rewrite <- (map_nth_irange EdgeData_default
                           (firstn (Z.to_nat (object_count (leaf_at t l)))
                                   (objects (leaf_at t l)))).
rewrite length_firstn, Nat.min_l, Z2Nat.id by lia.
apply map_irange_ext. intros i Hi. rewrite nth_firstn.
destruct (Nat.ltb_spec (Z.to_nat i) (Z.to_nat (object_count (leaf_at t l))));
  [reflexivity|lia].
Qed.

(** Summed over all leaves these are the stored edges that meet the
  rectangle. *)
Lemma all_matches_filter :
flat_map (leaf_matches t R) (irange (Z.of_nat (length (m_leaves t))))
= filter (fun e => Rectangle.Intersects (edge_bbox (m_coordinate_list t) e) R)
         (stored_edges (m_leaves t)).
Proof.
unfold stored_edges. rewrite <- concat_filter_map, map_map, flat_map_concat_map.
f_equal.
rewrite <- (map_nth_irange (LeafNode_default 0) (m_leaves t)) at 2.
rewrite map_map. apply map_irange_ext. intros l Hl.
now rewrite leaf_matches_filter.
Qed.

Lemma visited_init : inv [] (SearchInBox_init t).
Proof.
pose proof (ok_nonempty latToY t Hok) as Hne.
unfold search_visited, SearchInBox_init. cbn [s_index s_queue s_results app filter flat_map].
split; [reflexivity|]. split; [constructor; [intros []|constructor]|].
split; [constructor; [unfold index_valid; simpl; lia|constructor]|].
split; [intros x [<-|[]]; now left|]. split; [reflexivity|].
intros l Hl Hm. right. exists TreeIndex_default. split; [now left|].
destruct (leaf_matches t R l) as [|e rest] eqn:E; [congruence|].
assert (He : In e (leaf_matches t R l)) by (rewrite E; now left).
unfold leaf_matches in He. apply in_map_iff in He as (i & _ & Hi).
apply filter_In in Hi as [Hi Hx]. apply irange_spec in Hi.
now apply (route_from_root latToY t R Hmono Hok Hlinked l i).
Qed.

(** A child of a node is not the root. *)
Lemma child_not_root k i :
0 <= k < Z.of_nat (length (m_search_tree t)) ->
0 <= i < child_count (node_at t k) ->
child_at (node_at t k) i <> TreeIndex_default.
Proof.
intros Hk Hi E. pose proof (ok_child latToY t Hok k i Hk Hi) as Hc.
apply (child_ok_valid t) in Hc; [|lia]. destruct Hc as (_ & Hlt & _).
rewrite E in Hlt. specialize (Hlt eq_refl). simpl in Hlt. lia.
Qed.

Lemma visited_step V s c qu :
inv V s -> s_queue s = c :: qu -> inv (V ++ [c]) (after (sstep R s)).
Proof.
intros (Hi & Hnd & Hval & Hpar & Hres & Hcomp) Hq.
rewrite Hq in Hnd, Hval, Hpar, Hcomp.
assert (Hc : index_valid t c).
{ rewrite Forall_forall in Hval. apply Hval. apply in_or_app. right. now left. }
assert (Happ : forall rest, (V ++ [c]) ++ rest = V ++ c :: rest)
  by (intros rest; now rewrite <- app_assoc).
destruct (is_leaf c) eqn:Hl.
- rewrite (search_step_leaf latToY R s c qu Hq Hl). cbn [after].
  unfold search_visited. cbn [s_index s_queue s_results]. rewrite Happ.
  split; [assumption|]. split; [assumption|]. split; [assumption|]. split; [|split].
  + intros x Hx. destruct (Hpar x Hx) as [->|(c' & i & Hc' & Hrest)]; [now left|].
    right. exists c', i. split; [apply in_or_app; now left|assumption].
  + rewrite filter_app, flat_map_app, <- Hres. cbn [filter]. rewrite Hl.
    cbn [flat_map]. rewrite app_nil_r, Hi. reflexivity.
  + intros l Hlr Hm. destruct (Hcomp l Hlr Hm) as [Hv|(c' & [<-|Hc'] & Hr)].
    * left. apply in_or_app. now left.
    * left. apply in_or_app. right. left.
      rewrite (route_leaf_inv latToY t R _ _ Hl Hr). destruct c as [ci cl]. simpl in *.
      now subst cl.
    * right. now exists c'.
- rewrite (search_step_node latToY R s c qu Hq Hl). cbn [after].
  unfold search_visited. cbn [s_index s_queue s_results]. rewrite Hi.
  unfold index_valid in Hc. rewrite Hl in Hc.
  set (kids := map (child_at (node_at t (index c)))
                   (filter (fun i => Rectangle.Intersects
                                       (child_rectangle
                                          t (child_at (node_at t (index c)) i)) pr)
                           (irange (child_count (node_at t (index c)))))).
  assert (Hkid : forall y, In y kids ->
                           exists i, 0 <= i < child_count (node_at t (index c))
                                     /\ child_at (node_at t (index c)) i = y
                                     /\ Rectangle.Intersects (child_rectangle t y) pr
                                        = true).
  { intros y Hy. unfold kids in Hy. apply in_map_iff in Hy as (i & <- & Hy).
    apply filter_In in Hy as [Hy Hx]. apply irange_spec in Hy. now exists i. }
  rewrite Happ. rewrite app_comm_cons, app_assoc.
  split; [reflexivity|]. split; [|split; [|split; [|split]]].
  + (* no entry twice *)
    apply NoDup_app; [assumption| |].
    * unfold kids. apply Finite.Injective_map_NoDup_in;
        [|apply NoDup_filter, irange_NoDup].
      intros i i' Hin Hin' E.
      apply filter_In in Hin as [Hin _]. apply filter_In in Hin' as [Hin' _].
      apply irange_spec in Hin. apply irange_spec in Hin'.
      now destruct (Hshape _ _ _ _ Hc Hin Hc Hin' E).
    * intros x Hx Hy. destruct (Hkid x Hy) as (i & Hin & E & _).
      destruct (Hpar x Hx) as [->|(c' & i' & Hc' & Hl' & Hin' & E')].
      -- now apply (child_not_root (index c) i Hc Hin).
      -- assert (Hv' : index_valid t c').
         { rewrite Forall_forall in Hval. apply Hval. apply in_or_app. now left. }
         unfold index_valid in Hv'. rewrite Hl' in Hv'.
         destruct (Hshape _ _ _ _ Hv' Hin' Hc Hin) as [Hcc _]; [congruence|].
         assert (c' = c) by (destruct c, c'; simpl in *; congruence). subst c'.
         apply NoDup_remove_2 in Hnd. apply Hnd. apply in_or_app. now left.
  + apply Forall_app. split; [assumption|]. apply Forall_forall. intros y Hy.
    destruct (Hkid y Hy) as (i & Hin & <- & _).
    pose proof (ok_child latToY t Hok _ _ Hc Hin) as Hk.
    apply (child_ok_valid t) in Hk; [|lia]. apply Hk.
  + intros x Hx. apply in_app_or in Hx as [Hx|Hx].
    * destruct (Hpar x Hx) as [->|(c' & i & Hc' & Hrest)]; [now left|].
      right. exists c', i. split; [apply in_or_app; now left|assumption].
    * destruct (Hkid x Hx) as (i & Hin & E & _). right. exists c, i.
      split; [apply in_or_app; right; now left|]. repeat split; assumption || lia.
  + rewrite filter_app. cbn [filter]. rewrite Hl, app_nil_r. exact Hres.
  + intros l Hlr Hm. destruct (Hcomp l Hlr Hm) as [Hv|(c' & [<-|Hc'] & Hr)].
    * left. apply in_or_app. now left.
    * right. destruct (route_node_inv latToY t R _ _ Hl Hr) as (i & Hin & Hx & Hr').
      exists (child_at (node_at t (index c)) i). split; [|assumption].
      apply in_or_app. right. unfold kids. apply in_map. apply filter_In.
      split; [now apply irange_spec|assumption].
    * right. exists c'. split; [apply in_or_app; now left|assumption].
Qed.

Lemma visited_loop fuel :
forall V s s', inv V s -> sloop fuel R s = Some s' ->
               exists V', inv V' s' /\ s_queue s' = [].
Proof.
induction fuel as [|fuel IH]; intros V s s' Hinv H; simpl in H; [discriminate|].
destruct (s_queue s) as [|c qu] eqn:Hq.
- rewrite (search_step_empty latToY R s Hq) in H. injection H as <-.
  exists V. split; assumption.
- pose proof (visited_step V s c qu Hinv Hq) as Hstep.
  destruct (sstep R s) as [s1|s1] eqn:E; cbn [after] in Hstep.
  + exact (IH _ _ _ Hstep H).
  + exfalso. unfold SearchInBox_step in E. rewrite Hq in E.
    destruct (is_leaf c); discriminate.
Qed.

(** On a well-formed, linked index that is a tree, the results are the
  stored edges that meet the rectangle, each as often as it is
  stored. *)
Lemma SearchInBox_perm fuel results t' :
SearchInBox latToY fuel t R = Some (results, t') ->
Permutation results
            (filter (fun e => Rectangle.Intersects (edge_bbox (m_coordinate_list t) e) R)
                    (stored_edges (m_leaves t))).
Proof.
intros H. unfold SearchInBox in H.
destruct (sloop fuel R (SearchInBox_init t)) as [s|] eqn:E; [|discriminate].
injection H as <- _.
destruct (visited_loop fuel [] _ s visited_init E)
  as (V & (Hi & Hnd & Hval & _ & Hres & Hcomp) & Hq).
rewrite Hq, app_nil_r in *. rewrite Hres, <- all_matches_filter.
set (VL := map index (filter is_leaf V)).
assert (E1 : flat_map (fun c => leaf_matches t R (index c)) (filter is_leaf V)
             = flat_map (leaf_matches t R) VL).
{ unfold VL. rewrite !flat_map_concat_map, map_map. reflexivity. }
rewrite E1. apply flat_map_support.
- unfold VL. apply Finite.Injective_map_NoDup_in; [|now apply NoDup_filter].
  intros x y Hx Hy Exy. apply filter_In in Hx as [_ Hx]. apply filter_In in Hy as [_ Hy].
  destruct x, y. simpl in *. congruence.
- apply irange_NoDup.
- intros l Hl. unfold VL in Hl. apply in_map_iff in Hl as (c & <- & Hc).
  apply filter_In in Hc as [Hc Hlf]. rewrite Forall_forall in Hval.
  specialize (Hval c Hc). unfold index_valid in Hval. rewrite Hlf in Hval.
  now apply irange_spec.
- intros l Hl Hm. apply irange_spec in Hl.
  destruct (Hcomp l Hl Hm) as [Hv|(c & [] & _)].
  unfold VL. apply in_map_iff. exists {| index := l; is_leaf := true |}.
  split; [reflexivity|]. apply filter_In. split; [assumption|reflexivity].
Qed.

End Visits.

(** What the Hilbert and the STR packer establish, in one place. *)
Lemma built_index BRANCHING_FACTOR LEAF_NODE_SIZE_ latToY centroid GetHilbertCode sort
      blocked_ranges cs input t :
  2 <= BRANCHING_FACTOR -> 1 <= LEAF_NODE_SIZE_ ->
  sort_permutes sort ->
  input <> [] ->
  3 * Z.of_nat (length input) < 2147483648 ->
  Forall (edge_int32 latToY cs) input ->
  PackWithHilbert BRANCHING_FACTOR LEAF_NODE_SIZE_ latToY centroid GetHilbertCode
                  sort cs input = Some t
  \/ PackWithSTR BRANCHING_FACTOR LEAF_NODE_SIZE_ latToY centroid sort
                 blocked_ranges cs input = Some t ->
  index_ok latToY t = true
  /\ all_linked t = true
  /\ tree_shaped t
  /\ Permutation (stored_edges (m_leaves t)) input
  /\ m_coordinate_list t = cs.
Proof.
  intros HB HL Hsort Hne Hsize Hcoords Ht.
  assert (H : exists prepare objs,
             pack_sorted BRANCHING_FACTOR LEAF_NODE_SIZE_ latToY cs prepare objs = Some t
             /\ (forall l, Permutation (prepare l) l)
             /\ Permutation objs input).
  { destruct Ht as [Ht|Ht].
    - exists (fun level => level),
             (hilbert_order latToY centroid GetHilbertCode sort cs input).
      split; [exact Ht|]. split; [reflexivity|].
      apply hilbert_order_perm; [exact Hsort|unfold UINT32_MOD; lia].
    - exists (str_prepare BRANCHING_FACTOR sort blocked_ranges),
             (str_order LEAF_NODE_SIZE_ centroid sort blocked_ranges cs input).
      split; [exact Ht|]. split; [now apply str_prepare_perm|now apply str_order_perm]. }
  destruct H as (prepare & objs & Hpack & Hprep & Hperm).
  assert (Hne' : objs <> []).
  { intros E. rewrite E in Hperm. apply Permutation_nil in Hperm. congruence. }
  assert (Hsize' : 3 * Z.of_nat (length objs) < 2147483648)
    by (rewrite (Permutation_length Hperm); exact Hsize).
  assert (Hboxes : Forall (fun e => proper (projected_box latToY cs e)) objs).
  { apply (Permutation_Forall (Permutation_sym Hperm)).
    eapply Forall_impl; [|exact Hcoords]. intros e. apply edge_int32_proper. }
  destruct (pack_sorted_ok BRANCHING_FACTOR LEAF_NODE_SIZE_ latToY cs prepare objs
                           HB HL Hprep Hne' Hsize' Hboxes)
    as (t0 & Ht0 & Hok & Hlinked & _ & Hst & Hcs).
  rewrite Hpack in Ht0. injection Ht0 as <-.
  split; [exact Hok|]. split; [exact Hlinked|]. split; [|split].
  - exact (pack_sorted_shaped BRANCHING_FACTOR LEAF_NODE_SIZE_ latToY cs prepare objs
                              HB HL Hprep Hne' Hsize' Hboxes t Hpack).
  - unfold stored_edges. rewrite Hst. exact Hperm.
  - exact Hcs.
Qed.

(* ================================================================== *)
(** * [Nearest] pops every segment once *)

Lemma filter_map_all {A B} (p : B -> bool) (f : A -> B) (l : list A) :
  (forall x, In x l -> p (f x) = true) -> filter p (map f l) = map f l.
Proof.
  induction l as [|x l IH]; intros H; simpl; [reflexivity|].
  rewrite (H x (or_introl eq_refl)), IH; [reflexivity|].
  intros y Hy. apply H. now right.
Qed.

Lemma filter_map_none {A B} (p : B -> bool) (f : A -> B) (l : list A) :
  (forall x, In x l -> p (f x) = false) -> filter p (map f l) = [].
Proof.
  induction l as [|x l IH]; intros H; simpl; [reflexivity|].
  rewrite (H x (or_introl eq_refl)), IH; [reflexivity|].
  intros y Hy. apply H. now right.
Qed.

Lemma node_entries_perm qu qu' :
  Permutation qu qu' -> Permutation (node_entries qu) (node_entries qu').
Proof. intros H. unfold node_entries. now apply Permutation_map, filter_perm. Qed.

Lemma segment_positions_perm qu qu' :
  Permutation qu qu' -> Permutation (segment_positions qu) (segment_positions qu').
Proof. intros H. unfold segment_positions. now apply Permutation_map, filter_perm. Qed.

Lemma node_entries_app qu qu' :
  node_entries (qu ++ qu') = node_entries qu ++ node_entries qu'.
Proof. unfold node_entries. now rewrite filter_app, map_app. Qed.

Lemma segment_positions_app qu qu' :
  segment_positions (qu ++ qu') = segment_positions qu ++ segment_positions qu'.
Proof. unfold segment_positions. now rewrite filter_app, map_app. Qed.

Lemma node_entries_cons x qu :
  node_entries (x :: qu)
  = if is_segment x then node_entries qu else tree_index x :: node_entries qu.
Proof. unfold node_entries. simpl. now destruct (is_segment x). Qed.

Lemma segment_positions_cons x qu :
  segment_positions (x :: qu)
  = if is_segment x then entry_position x :: segment_positions qu
    else segment_positions qu.
Proof. unfold segment_positions. simpl. now destruct (is_segment x). Qed.

(** A list without repetitions within another: what is left over. *)
Lemma NoDup_complement {A} (eq_dec : forall x y : A, {x = y} + {x <> y}) (S U : list A) :
  NoDup S -> NoDup U -> incl S U ->
  exists rest, Permutation (S ++ rest) U /\ forall x, In x rest -> ~ In x S.
Proof.
  intros HS HU Hincl.
  exists (filter (fun x => if in_dec eq_dec x S then false else true) U). split.
  - apply NoDup_Permutation; [|assumption|].
    + apply NoDup_app; [assumption|now apply NoDup_filter|].
      intros x Hx Hr. apply filter_In in Hr as [_ Hr].
      destruct (in_dec eq_dec x S); [discriminate|contradiction].
    + intros x. rewrite in_app_iff, filter_In. split.
      * intros [Hx|[Hx _]]; [now apply Hincl|assumption].
      * intros Hx. destruct (in_dec eq_dec x S) as [Hin|Hout]; [now left|right].
        split; [assumption|reflexivity].
  - intros x Hx. apply filter_In in Hx as [_ Hx].
    now destruct (in_dec eq_dec x S).
Qed.

Lemma all_positions_spec t l i : In (l, i) (all_positions t) <-> position t l i.
Proof.
  unfold all_positions, position. rewrite in_flat_map. split.
  - intros (l' & Hl & Hi). apply in_map_iff in Hi as (i' & E & Hi).
    injection E as -> ->. apply irange_spec in Hl. apply irange_spec in Hi. now split.
  - intros [Hl Hi]. exists l. split; [now apply irange_spec|].
    apply in_map. now apply irange_spec.
Qed.

Lemma all_positions_NoDup t : NoDup (all_positions t).
Proof.
  unfold all_positions. generalize (irange_NoDup (Z.of_nat (length (m_leaves t)))).
  generalize (irange (Z.of_nat (length (m_leaves t)))). intros ls Hls.
  induction Hls as [|l ls Hl _ IH]; simpl; [constructor|].
  apply NoDup_app.
  - apply Finite.Injective_map_NoDup; [|apply irange_NoDup].
    intros a b E. now injection E.
  - exact IH.
  - intros [l' i] Hx Hy. apply in_map_iff in Hx as (i' & E & _). injection E as <- <-.
    apply in_flat_map in Hy as (l'' & Hl'' & Hy).
    apply in_map_iff in Hy as (i'' & E & _). injection E as <- _. contradiction.
Qed.

(** The objects at all positions are the stored edges. *)
Lemma all_positions_objects latToY t :
  index_ok latToY t = true ->
  map (fun p => object_at (leaf_at t (fst p)) (snd p)) (all_positions t)
  = stored_edges (m_leaves t).
Proof.
  intros Hok. unfold all_positions, stored_edges.
  rewrite flat_map_concat_map, concat_map, !map_map. f_equal.
  rewrite <- (map_nth_irange (LeafNode_default 0) (m_leaves t)) at 2.
  rewrite map_map. apply map_irange_ext. intros l Hl.
  destruct (leaf_count_within latToY t l Hok Hl) as [H0 Hc].
  rewrite map_map. cbn [fst snd].
  unfold stored_objects, object_at, at_.
  change (nth (Z.to_nat l) (m_leaves t) (LeafNode_default 0)) with (leaf_at t l).
  rewrite <- (map_nth_irange EdgeData_default
                             (firstn (Z.to_nat (object_count (leaf_at t l)))
                                     (objects (leaf_at t l)))).
  rewrite length_firstn, Nat.min_l, Z2Nat.id by lia.
  apply map_irange_ext. intros i Hi. rewrite nth_firstn.
  destruct (Nat.ltb_spec (Z.to_nat i) (Z.to_nat (object_count (leaf_at t l))));
    [reflexivity|lia].
Qed.

Section NearestOnce.

Variable latToY : Z -> Z.
Variable nearest_on_segment : Coordinate -> Coordinate -> Coordinate -> Coordinate.
Variable t : StaticRTree.
Variable q : Coordinate.
Variable use : FilterT.
Variable terminate : TerminationT.
Hypothesis Hok : index_ok latToY t = true.
Hypothesis Hfoot : foot_on_segment latToY nearest_on_segment.
Hypothesis Hshape : tree_shaped t.

Local Abbreviation step := (Nearest_step latToY nearest_on_segment q use terminate).
Local Abbreviation inv := (nearest_visited latToY nearest_on_segment t q use).
Local Abbreviation entry := (segment_entry latToY nearest_on_segment t q).

Lemma child_is_not_root k i :
0 <= k < Z.of_nat (length (m_search_tree t)) ->
0 <= i < child_count (node_at t k) ->
child_at (node_at t k) i <> TreeIndex_default.
Proof.
intros Hk Hi E. pose proof (ok_child latToY t Hok k i Hk Hi) as Hc.
apply (child_ok_valid t) in Hc; [|lia]. destruct Hc as (_ & Hlt & _).
rewrite E in Hlt. specialize (Hlt eq_refl). simpl in Hlt. lia.
Qed.

Lemma passes_spec l i :
passes nearest_on_segment t q use (l, i) = false
<-> use (candidate_at nearest_on_segment t q l i) = (false, false).
Proof.
unfold passes. cbn [fst snd].
destruct (use (candidate_at nearest_on_segment t q l i)) as [[|] [|]]; simpl;
  split; congruence.
Qed.

Lemma visited_turn V D s s' :
inv V D s -> step s = Continue s' -> exists V' D', inv V' D' s'.
Proof.
intros (Hc & Hnd & Hpar & Hsd & Hpos & Hdone & Hres & Hcomp) E.
pose proof (complete_step latToY nearest_on_segment t q use terminate Hok Hfoot
                          s s' Hc E) as Hc'.
destruct Hc as (Hsort & Hseg & _ & _).
pose proof (step_turn latToY nearest_on_segment q use terminate s) as T.
rewrite E in T.
destruct Hsort as [[Hi Hv] _]. rewrite Forall_forall in Hv.
inversion T as [|x r Hp Hsg Hl Heq|x r Hp Hsg Hl Heq|
                |x r Hp Hsg c Ht Hf Heq|x r Hp Hsg c Ht Hf Heq];
  subst s'; cbn [n_queue n_results n_index] in *;
  pose proof (pop_perm _ _ _ Hp) as Hperm;
  pose proof (pop_in _ _ _ Hp) as [Hx Hrq];
  pose proof (Hv x Hx) as Vx; unfold entry_valid in Vx; rewrite Hsg in Vx;
  pose proof (node_entries_perm _ _ Hperm) as Hnp;
  pose proof (segment_positions_perm _ _ Hperm) as Hsp;
  rewrite node_entries_cons, Hsg in Hnp;
  rewrite segment_positions_cons, Hsg in Hsp;
  try subst c; rewrite Hi in *.
- (* a leaf is opened *)
  unfold index_valid in Vx. rewrite Hl in Vx.
  set (c := tree_index x) in *.
  set (new := map (leaf_entry nearest_on_segment t c (fromWGS84 latToY q) q)
                  (irange (object_count (leaf_at t (index c))))).
  assert (Hcount : 0 <= object_count (leaf_at t (index c)) <= UINT32_MAX)
    by (apply (leaf_covers_count latToY t), (ok_leaf latToY t Hok); exact Vx).
  assert (Hnew : forall i, In i (irange (object_count (leaf_at t (index c)))) ->
                           is_segment (leaf_entry nearest_on_segment t c
                                                  (fromWGS84 latToY q) q i) = true).
  { intros i Hin. apply irange_spec in Hin. apply is_segment_below. lia. }
  assert (En : node_entries new = []).
  { unfold node_entries, new. rewrite filter_map_none; [reflexivity|].
    intros i Hin. now rewrite Hnew. }
  assert (Es : segment_positions new
               = map (pair (index c)) (irange (object_count (leaf_at t (index c))))).
  { unfold segment_positions, new. rewrite filter_map_all by exact Hnew.
    now rewrite map_map. }
  assert (Hceta : c = {| index := index c; is_leaf := true |})
    by now apply leaf_index_eta.
  assert (HcV : ~ In c V).
  { intros Hin. rewrite Hnp in Hnd. apply NoDup_remove_2 in Hnd. apply Hnd.
    apply in_or_app. now left. }
  exists (V ++ [c]), D. unfold nearest_visited. cbn [n_queue n_results].
  fold new. rewrite node_entries_app, segment_positions_app, En, Es, app_nil_r.
  split; [exact Hc'|]. split; [|split; [|split; [|split; [|split; [|split]]]]].
  + rewrite <- app_assoc. cbn [app]. now rewrite <- Hnp.
  + intros y Hy. rewrite <- app_assoc in Hy. cbn [app] in Hy. rewrite <- Hnp in Hy.
    destruct (Hpar y Hy) as [->|(c' & i & Hc'' & Hrest)]; [now left|].
    right. exists c', i. split; [apply in_or_app; now left|assumption].
  + rewrite app_assoc. apply NoDup_app.
    * now rewrite <- Hsp.
    * apply Finite.Injective_map_NoDup; [|apply irange_NoDup].
      intros a b Eab. now injection Eab.
    * intros [l i] Hin Hy. apply in_map_iff in Hy as (i' & Ey & Hi').
      injection Ey as <- <-. apply irange_spec in Hi'.
      rewrite <- Hsp in Hin. apply (Hpos (index c) i') in Hin; [|split; assumption].
      apply HcV. now rewrite Hceta.
  + intros l i Hposn. rewrite app_assoc. split.
    * intros Hin. apply in_app_or in Hin as [Hin|[Ec|[]]].
      -- apply in_or_app. left. rewrite <- Hsp. now apply (Hpos l i Hposn).
      -- apply in_or_app. right.
         assert (El : index c = l) by (rewrite Ec; reflexivity).
         rewrite El. apply in_map. apply irange_spec. apply Hposn.
    * intros Hin. apply in_or_app. apply in_app_or in Hin as [Hin|Hin].
      -- left. rewrite <- Hsp in Hin. now apply (Hpos l i Hposn).
      -- right. left.
         apply in_map_iff in Hin as (i' & Ey & _). injection Ey as <- _. exact Hceta.
  + exact Hdone.
  + exact Hres.
  + intros l Hlr. destruct (Hcomp l Hlr) as [Hin|(y & Hy & Sy & Hr)].
    * left. apply in_or_app. now left.
    * destruct (pop_rest _ _ _ _ Hp Hy) as [->|Hin].
      -- left. apply in_or_app. right. left. fold c in Hr.
         inversion Hr as [c0 Hlc E1 E2|c0 j l' Hlc Hj Hr' E1 E2]; [|congruence].
         exact Hceta.
      -- right. exists y. split; [apply in_or_app; now left|]. split; assumption.
- (* a node is opened *)
  unfold index_valid in Vx. rewrite Hl in Vx.
  set (c := tree_index x) in *.
  set (new := map (node_entry t c (fromWGS84 latToY q))
                  (irange (child_count (node_at t (index c))))).
  assert (En : node_entries new
               = map (child_at (node_at t (index c)))
                     (irange (child_count (node_at t (index c))))).
  { unfold node_entries, new. rewrite filter_map_all by reflexivity.
    now rewrite map_map. }
  assert (Es : segment_positions new = []).
  { unfold segment_positions, new. now rewrite filter_map_none. }
  assert (HcV : ~ In c V).
  { intros Hin. rewrite Hnp in Hnd. apply NoDup_remove_2 in Hnd. apply Hnd.
    apply in_or_app. now left. }
  exists (V ++ [c]), D. unfold nearest_visited. cbn [n_queue n_results].
  fold new. rewrite node_entries_app, segment_positions_app, En, Es, app_nil_r.
  split; [exact Hc'|]. split; [|split; [|split; [|split; [|split; [|split]]]]].
  + rewrite <- app_assoc. cbn [app]. rewrite app_comm_cons, app_assoc.
    apply NoDup_app.
    * now rewrite <- Hnp.
    * apply Finite.Injective_map_NoDup_in; [|apply irange_NoDup].
      intros i i' Hin Hin' Eii. apply irange_spec in Hin. apply irange_spec in Hin'.
      now destruct (Hshape _ _ _ _ Vx Hin Vx Hin' Eii).
    * intros y Hy Hkid. rewrite <- Hnp in Hy.
      apply in_map_iff in Hkid as (i & Ey & Hin). apply irange_spec in Hin.
      destruct (Hpar y Hy) as [->|(c' & i' & Hc'' & Hl' & Hv' & Hin' & Ey')].
      -- now apply (child_is_not_root (index c) i Vx Hin).
      -- destruct (Hshape _ _ _ _ Hv' Hin' Vx Hin) as [Hcc _]; [congruence|].
         apply HcV. replace c with c'; [assumption|].
         destruct c as [ci cl], c' as [ci' cl']. simpl in *. congruence.
  + intros y Hy. rewrite <- app_assoc in Hy. cbn [app] in Hy.
    rewrite app_comm_cons, app_assoc in Hy. apply in_app_or in Hy as [Hy|Hy].
    * rewrite <- Hnp in Hy.
      destruct (Hpar y Hy) as [->|(c' & i & Hc'' & Hrest)]; [now left|].
      right. exists c', i. split; [apply in_or_app; now left|assumption].
    * apply in_map_iff in Hy as (i & Ey & Hin). apply irange_spec in Hin.
      right. exists c, i. split; [apply in_or_app; right; now left|].
      repeat split; assumption || lia.
  + now rewrite <- Hsp.
  + intros l i Hposn. rewrite <- Hsp. split.
    * intros Hin. apply (Hpos l i Hposn).
      apply in_app_or in Hin as [Hin|[Ec|[]]]; [assumption|].
      apply (f_equal is_leaf) in Ec. simpl in Ec. congruence.
    * intros Hin. apply in_or_app. left. now apply (Hpos l i Hposn).
  + exact Hdone.
  + exact Hres.
  + intros l Hlr. destruct (Hcomp l Hlr) as [Hin|(y & Hy & Sy & Hr)].
    * left. apply in_or_app. now left.
    * right. destruct (pop_rest _ _ _ _ Hp Hy) as [->|Hin].
      -- fold c in Hr.
         inversion Hr as [c0 Hlc E1 E2|c0 j l' Hlc Hj Hr' E1 E2]; [congruence|].
         subst l'. exists (node_entry t c (fromWGS84 latToY q) j).
         split; [|split; [reflexivity|exact Hr']].
         apply in_or_app. right. unfold new. apply in_map. now apply irange_spec.
      -- exists y. split; [apply in_or_app; now left|]. split; assumption.
- (* the filter drops the segment *)
  destruct (Hseg x Hx Hsg) as (l & i & Hxpos & Ex).
  assert (Ep : entry_position x = (l, i)) by (rewrite Ex; reflexivity).
  rewrite Ep in Hsp.
  exists V, (D ++ [(l, i)]). unfold nearest_visited. cbn [n_queue n_results].
  split; [exact Hc'|]. split; [|split; [|split; [|split; [|split; [|split]]]]].
  + now rewrite <- Hnp.
  + intros y Hy. rewrite <- Hnp in Hy. exact (Hpar y Hy).
  + rewrite <- app_assoc. cbn [app]. now rewrite <- Hsp.
  + intros l0 i0 Hposn. rewrite <- app_assoc. cbn [app]. rewrite <- Hsp.
    exact (Hpos l0 i0 Hposn).
  + intros p Hin. apply in_app_or in Hin as [Hin|[<-|[]]]; [now apply Hdone|exact Hxpos].
  + rewrite filter_app. cbn [filter].
    assert (Hpass : passes nearest_on_segment t q use (l, i) = false).
    { apply passes_spec. rewrite Ex in Hf. exact Hf. }
    rewrite Hpass, app_nil_r. exact Hres.
  + intros l0 Hlr. destruct (Hcomp l0 Hlr) as [Hin|(y & Hy & Sy & Hr)]; [now left|].
    right. destruct (pop_rest _ _ _ _ Hp Hy) as [->|Hin]; [congruence|].
    exists y. split; [assumption|]. split; assumption.
- (* the segment is admitted *)
  destruct (Hseg x Hx Hsg) as (l & i & Hxpos & Ex).
  assert (Ep : entry_position x = (l, i)) by (rewrite Ex; reflexivity).
  rewrite Ep in Hsp.
  exists V, (D ++ [(l, i)]). unfold nearest_visited. cbn [n_queue n_results].
  split; [exact Hc'|]. split; [|split; [|split; [|split; [|split; [|split]]]]].
  + now rewrite <- Hnp.
  + intros y Hy. rewrite <- Hnp in Hy. exact (Hpar y Hy).
  + rewrite <- app_assoc. cbn [app]. now rewrite <- Hsp.
  + intros l0 i0 Hposn. rewrite <- app_assoc. cbn [app]. rewrite <- Hsp.
    exact (Hpos l0 i0 Hposn).
  + intros p Hin. apply in_app_or in Hin as [Hin|[<-|[]]]; [now apply Hdone|exact Hxpos].
  + rewrite filter_app. cbn [filter].
    assert (Hpass : passes nearest_on_segment t q use (l, i) = true).
    { destruct (passes nearest_on_segment t q use (l, i)) eqn:Epass; [reflexivity|].
      apply passes_spec in Epass. rewrite Ex in Hf. contradiction. }
    rewrite Hpass, map_app, <- Hres. cbn [map fst snd]. rewrite Ex. reflexivity.
  + intros l0 Hlr. destruct (Hcomp l0 Hlr) as [Hin|(y & Hy & Sy & Hr)]; [now left|].
    right. destruct (pop_rest _ _ _ _ Hp Hy) as [->|Hin]; [congruence|].
    exists y. split; [assumption|]. split; assumption.
Qed.


Lemma visited_start : all_linked t = true -> inv [] [] (Nearest_init t).
Proof.
intros Hlinked. unfold nearest_visited, Nearest_init, PQ.push, PQ.empty.
cbn [n_queue n_results app].
split; [exact (complete_init latToY nearest_on_segment t q use Hok Hlinked)|].
change (node_entries [QueryCandidate_node 0 TreeIndex_default]) with [TreeIndex_default].
change (segment_positions [QueryCandidate_node 0 TreeIndex_default])
  with (@nil (Z * Z)).
split; [constructor; [intros []|constructor]|].
split; [intros x [<-|[]]; now left|]. split; [constructor|].
split; [intros l i _; split; intros []|]. split; [intros p []|]. split; [reflexivity|].
intros l Hl. right. exists (QueryCandidate_node 0 TreeIndex_default).
split; [now left|]. split; [reflexivity|].
now apply (reaches_from_root latToY t Hok).
Qed.

(** When the loop returns, the segments it has popped are stored
  objects, none popped twice, and all of them unless the terminator
  fired. *)
Lemma visited_return V D s s' :
inv V D s -> step s = Return s' ->
NoDup D
/\ (forall p, In p D -> position t (fst p) (snd p))
/\ n_results s'
   = map (fun p => result_at nearest_on_segment t q use (fst p) (snd p))
         (filter (passes nearest_on_segment t q use) D)
/\ ((forall l i, position t l i -> In (l, i) D)
    \/ exists c, terminate (Z.of_nat (length (n_results s'))) c = true).
Proof.
intros (Hc & Hnd & Hpar & Hsd & Hpos & Hdone & Hres & Hcomp) E.
pose proof (step_turn latToY nearest_on_segment q use terminate s) as T.
rewrite E in T.
split; [now apply NoDup_app_remove_r in Hsd|]. split; [exact Hdone|].
inversion T as [Hnil Heq| | |x r Hp Hsg Ht Heq| |]; subst s'; cbn [n_results].
- split; [exact Hres|]. left. intros l i Hposn.
  rewrite Hnil in Hpos, Hcomp. cbn [segment_positions filter map] in Hpos.
  rewrite app_nil_r in Hpos. apply (Hpos l i Hposn).
  destruct (Hcomp l (proj1 Hposn)) as [Hin|(y & [] & _)]. exact Hin.
- split; [exact Hres|]. right. eexists. exact Ht.
Qed.

End NearestOnce.

(** [Nearest] on a well-formed, linked index that is a tree. *)
Lemma Nearest_once latToY nearest_on_segment t q use terminate fuel results t' :
  index_ok latToY t = true ->
  all_linked t = true ->
  foot_on_segment latToY nearest_on_segment ->
  tree_shaped t ->
  Nearest latToY nearest_on_segment fuel t q use terminate = Some (results, t') ->
  exists D,
    NoDup D
    /\ incl D (all_positions t)
    /\ results
       = map (fun p => result_at nearest_on_segment t q use (fst p) (snd p))
             (filter (passes nearest_on_segment t q use) D)
    /\ (incl (all_positions t) D
        \/ exists c, terminate (Z.of_nat (length results)) c = true).
Proof.
  intros Hok Hlinked Hfoot Hshape H. unfold Nearest in H.
  destruct (Nearest_loop latToY nearest_on_segment fuel q use terminate (Nearest_init t))
    as [s'|] eqn:E; [|discriminate].
  injection H as <- _.
  destruct (Nearest_loop_last latToY nearest_on_segment
              (fun s => exists V D, nearest_visited latToY nearest_on_segment t q use V D s)
              q use terminate) with (fuel := fuel) (s := Nearest_init t) (s' := s')
    as (s0 & (V & D & Hinv) & Hret).
  - intros s1 s2 (V & D & Hinv) Hstep.
    exact (visited_turn latToY nearest_on_segment t q use terminate Hok Hfoot Hshape
                        V D s1 s2 Hinv Hstep).
  - exists [], []. now apply visited_start.
  - exact E.
  - destruct (visited_return latToY nearest_on_segment t q use terminate V D s0 s'
                             Hinv Hret) as (Hnd & Hdone & Hres & Hend).
    exists D. split; [exact Hnd|]. split; [|split; [exact Hres|]].
    + intros [l i] Hin. apply all_positions_spec. exact (Hdone _ Hin).
    + destruct Hend as [Hall|Hterm]; [left|now right].
      intros [l i] Hin. apply Hall. now apply all_positions_spec.
Qed.

(* ================================================================== *)
(** * [grouped_partial_sort] *)

Lemma sort_range_length {A} (f : list A -> list A) l a b :
  (forall r, length (f r) = length r) -> length (sort_range f l a b) = length l.
Proof.
  intros Hf. unfold sort_range.
  rewrite !length_app, Hf, !length_firstn, !length_skipn. lia.
Qed.

Lemma sort_range_outside {A} (d : A) (f : list A -> list A) l a b p :
  (forall r, length (f r) = length r) ->
  0 <= a <= b -> b <= Z.of_nat (length l) ->
  0 <= p < a \/ b <= p ->
  at_ d (sort_range f l a b) p = at_ d l p.
Proof.
  intros Hf Hab Hb Hp. unfold sort_range, at_.
  assert (H1 : length (firstn (Z.to_nat a) l) = Z.to_nat a)
    by (rewrite length_firstn; lia).
  assert (H2 : length (f (firstn (Z.to_nat b - Z.to_nat a) (skipn (Z.to_nat a) l)))
               = (Z.to_nat b - Z.to_nat a)%nat)
    by (rewrite Hf, length_firstn, length_skipn; lia).
  destruct Hp as [Hp|Hp].
  - rewrite app_nth1 by lia. rewrite nth_firstn.
    destruct (Nat.ltb_spec (Z.to_nat p) (Z.to_nat a)); [reflexivity|lia].
  - rewrite app_nth2 by lia. rewrite app_nth2 by lia.
    rewrite nth_skipn, H1, H2. f_equal. lia.
Qed.

Lemma sort_range_inside {A} (d : A) (f : list A -> list A) l a b p :
  (forall r, length (f r) = length r) ->
  0 <= a <= b -> b <= Z.of_nat (length l) ->
  a <= p < b ->
  at_ d (sort_range f l a b) p
  = at_ d (f (firstn (Z.to_nat b - Z.to_nat a) (skipn (Z.to_nat a) l))) (p - a).
Proof.
  intros Hf Hab Hb Hp. unfold sort_range, at_.
  assert (H1 : length (firstn (Z.to_nat a) l) = Z.to_nat a)
    by (rewrite length_firstn; lia).
  assert (H2 : length (f (firstn (Z.to_nat b - Z.to_nat a) (skipn (Z.to_nat a) l)))
               = (Z.to_nat b - Z.to_nat a)%nat)
    by (rewrite Hf, length_firstn, length_skipn; lia).
  rewrite app_nth2 by lia. rewrite app_nth1 by lia. f_equal. lia.
Qed.

(** An element of a range of the array is an element of the array at a
    place in the range. *)
Lemma range_element {A} (d : A) l a b x :
  0 <= a <= b -> b <= Z.of_nat (length l) ->
  In x (firstn (Z.to_nat b - Z.to_nat a) (skipn (Z.to_nat a) l)) ->
  exists p, a <= p < b /\ x = at_ d l p.
Proof.
  intros Hab Hb Hx. destruct (In_nth _ _ d Hx) as (k & Hk & <-).
  rewrite length_firstn, length_skipn in Hk.
  exists (a + Z.of_nat k). split; [lia|].
  unfold at_. rewrite nth_firstn.
  destruct (Nat.ltb_spec k (Z.to_nat b - Z.to_nat a)); [|lia].
  rewrite nth_skipn. f_equal. lia.
Qed.

Lemma chain_bounds lo hi rs :
  chain lo hi rs -> lo <= hi /\ forall a b, In (a, b) rs -> lo <= a /\ a <= b /\ b <= hi.
Proof.
  induction 1 as [|a hi rs Hc [IH1 IH2] Ha]; [split; [lia|intros a b []]|].
  split; [lia|]. intros a' b' [E|Hin].
  - injection E as <- <-. lia.
  - destruct (IH2 a' b' Hin). lia.
Qed.

Lemma group_weight_pos rs : 0 <= group_weight rs.
Proof. unfold group_weight. induction rs as [|r rs IH]; cbn [fold_right]; lia. Qed.

(** The exact ceiling splits a range of more than [n] elements into two
    shorter ones, the first a multiple of [n] long. *)
Lemma ceil_half_split d n :
  1 <= n -> n < d ->
  1 <= ceil_half_ratio_exact d n
  /\ n <= ceil_half_ratio_exact d n * n < d.
Proof.
  intros Hn Hd. unfold ceil_half_ratio_exact.
  set (c := (d + 2 * n - 1) / (2 * n)).
  assert (H1 : (2 * n) * c <= d + 2 * n - 1) by (apply Z.mul_div_le; lia).
  assert (H2 : d + 2 * n - 1 < (2 * n) * (c + 1)).
  { pose proof (Z.mul_succ_div_gt (d + 2 * n - 1) (2 * n) ltac:(lia)) as H.
    unfold Z.succ in H. exact H. }
  assert (Hc : 1 <= c) by nia.
  split; [exact Hc|]. split; [nia|].
  destruct (Z_lt_le_dec d (2 * n)) as [Hsmall|Hbig]; [|nia].
  assert (c = 1) by nia. subst c. lia.
Qed.

Lemma same_group l0 n a p :
  1 <= n -> (a - l0) mod n = 0 -> a <= p -> p < a + n ->
  (p - l0) / n = (a - l0) / n.
Proof.
  intros Hn Ha H1 H2.
  pose proof (Z.div_mod (a - l0) n ltac:(lia)) as E. rewrite Ha in E.
  symmetry. apply Z.div_unique with (r := p - a); [lia|]. lia.
Qed.

Lemma group_below l0 n a p p' :
  1 <= n -> (a - l0) mod n = 0 -> p < a -> a <= p' ->
  (p - l0) / n < (p' - l0) / n.
Proof.
  intros Hn Ha H1 H2.
  pose proof (Z.div_mod (a - l0) n ltac:(lia)) as E. rewrite Ha in E.
  assert (Hp' : (a - l0) / n <= (p' - l0) / n) by (apply Z.div_le_mono; lia).
  assert (Hp : (p - l0) / n < (a - l0) / n).
  { apply Z.div_lt_upper_bound; [lia|]. lia. }
  lia.
Qed.

Lemma sort_range_perm_at {A} (f : list A -> list A) l a b :
  Permutation (f (firstn (Z.to_nat b - Z.to_nat a) (skipn (Z.to_nat a) l)))
              (firstn (Z.to_nat b - Z.to_nat a) (skipn (Z.to_nat a) l)) ->
  Permutation (sort_range f l a b) l.
Proof.
  intros Hs. unfold sort_range. rewrite Hs.
  rewrite <- (firstn_skipn (Z.to_nat a) l) at 4.
  apply Permutation_app_head.
  rewrite <- (firstn_skipn (Z.to_nat b - Z.to_nat a) (skipn (Z.to_nat a) l)) at 2.
  apply Permutation_app_head.
  rewrite skipn_skipn. now rewrite Nat.add_comm.
Qed.

Section GroupedLoop.

Variable A : Type.
Variable partial_sort : (A -> A -> bool) -> list A -> Z -> list A.
Variable ceil_half_ratio : Z -> Z -> Z.
Variable compare : A -> A -> bool.
Variable n left0 right0 : Z.
Variable data0 : list A.
Hypothesis Hn : 1 <= n.
Hypothesis Hps : partial_sort_ok partial_sort compare.
Hypothesis Hceil : forall d, n < d -> ceil_half_ratio d n = ceil_half_ratio_exact d n.
Hypothesis Hrange : 0 <= left0 <= right0 /\ right0 <= Z.of_nat (length data0).

Local Abbreviation step := (grouped_step A partial_sort ceil_half_ratio n compare).
Local Abbreviation loop := (grouped_loop A partial_sort ceil_half_ratio).
Local Abbreviation inv := (grouped_inv compare n left0 right0 data0).

Lemma grouped_turn frontier a rs s :
inv frontier ((a, frontier) :: rs) s ->
exists s' frontier' rs',
  step s = Some (Continue s')
  /\ inv frontier' rs' s'
  /\ group_weight rs' < group_weight ((a, frontier) :: rs).
Proof.
intros (Hst & Hch & Hfr & Hal & Hall & Hperm & Hout & Hord).
inversion Hch as [|a0 hi0 rs0 Hc1 Haf]; subst.
destruct (chain_bounds _ _ _ Hc1) as [Hla Hrs].
apply Forall_cons_iff in Hall as [Ha Hall]. cbn [fst] in Ha.
assert (Hlen : length (g_data s) = length data0) by now apply Permutation_length.
unfold grouped_step. rewrite Hst. cbn [flatten_ranges flat_map fst snd app]. cbv zeta.
destruct (Z.leb_spec 0 (frontier - a)) as [_|]; [|lia]. cbn [andb].
destruct (Z.leb_spec (frontier - a) n) as [Hsmall|Hbig].
- (* a group: nothing to do *)
  exists {| g_data := g_data s; g_stack := flat_map (fun r => [snd r; fst r]) rs |}, a, rs.
  split; [reflexivity|]. split.
  + unfold grouped_inv. cbn [g_data g_stack].
    split; [reflexivity|]. split; [exact Hc1|]. split; [lia|]. split; [now right|].
    split; [exact Hall|]. split; [exact Hperm|]. split; [exact Hout|].
    intros d p p' Hp Hpp Hp' Hg Hfree. apply Hord; try assumption.
    intros a' b' [E|Hin]; [|now apply Hfree].
    injection E as <- <-. intros [H1 H2].
    rewrite (same_group left0 n a p), (same_group left0 n a p') in Hg by lia. lia.
  + unfold group_weight. cbn [fold_right fst snd]. lia.
- (* a range to split *)
  destruct (Z.eqb_spec n 0); [lia|].
  rewrite (Hceil (frontier - a) Hbig).
  destruct (ceil_half_split (frontier - a) n Hn Hbig) as [Hc Hmid].
  set (c := ceil_half_ratio_exact (frontier - a) n) in *.
  set (mid := a + c * n).
  destruct (Z.leb_spec a mid); [|lia]. destruct (Z.leb_spec mid frontier); [|lia].
  cbn [andb].
  set (range := firstn (Z.to_nat frontier - Z.to_nat a) (skipn (Z.to_nat a) (g_data s))).
  assert (Hrl : Z.of_nat (length range) = frontier - a).
  { unfold range. rewrite length_firstn, length_skipn. lia. }
  destruct (Hps range (mid - a) ltac:(lia)) as [Hpp Hsplit].
  set (ps := fun r => partial_sort compare r (mid - a)) in *.
  assert (Hpsl : forall r, Permutation (ps r) r -> length (ps r) = length r)
    by (intros r; apply Permutation_length).
  set (data' := sort_range ps (g_data s) a frontier).
  assert (Hin' : forall d p, a <= p < frontier ->
                             at_ d data' p = at_ d (ps range) (p - a)).
  { intros d p Hp. unfold data', sort_range, at_. fold range.
    assert (H1 : length (firstn (Z.to_nat a) (g_data s)) = Z.to_nat a)
      by (rewrite length_firstn; lia).
    assert (H2 : length (ps range) = (Z.to_nat frontier - Z.to_nat a)%nat)
      by (rewrite (Hpsl _ Hpp); lia).
    rewrite app_nth2 by lia. rewrite app_nth1 by lia. f_equal. lia. }
  assert (Hout' : forall d p, 0 <= p < a \/ frontier <= p ->
                              at_ d data' p = at_ d (g_data s) p).
  { intros d p Hp. unfold data', sort_range, at_. fold range.
    assert (H1 : length (firstn (Z.to_nat a) (g_data s)) = Z.to_nat a)
      by (rewrite length_firstn; lia).
    assert (H2 : length (ps range) = (Z.to_nat frontier - Z.to_nat a)%nat)
      by (rewrite (Hpsl _ Hpp); lia).
    destruct Hp as [Hp|Hp].
    - rewrite app_nth1 by lia. rewrite nth_firstn.
      destruct (Nat.ltb_spec (Z.to_nat p) (Z.to_nat a)); [reflexivity|lia].
    - rewrite app_nth2 by lia. rewrite app_nth2 by lia.
      rewrite nth_skipn, H1, H2. f_equal. lia. }
  assert (Hfrom : forall d p, a <= p < frontier ->
                              exists p0, a <= p0 < frontier
                                         /\ at_ d data' p = at_ d (g_data s) p0).
  { intros d p Hp. rewrite (Hin' d p Hp).
    apply (range_element d (g_data s) a frontier); [lia|lia|].
    fold range. apply (Permutation_in _ Hpp). unfold at_. apply nth_In.
    rewrite (Permutation_length Hpp). lia. }
  exists {| g_data := data'; g_stack := frontier :: mid :: mid :: a
                                        :: flat_map (fun r => [snd r; fst r]) rs |},
         frontier, ((mid, frontier) :: (a, mid) :: rs).
  split; [reflexivity|]. split.
  + unfold grouped_inv. cbn [g_data g_stack].
    assert (Hma : (mid - left0) mod n = 0).
    { unfold mid. replace (a + c * n - left0) with (a - left0 + c * n) by lia.
      now rewrite Z_mod_plus_full. }
    split; [reflexivity|]. split; [|split; [exact Hfr|split; [exact Hal|]]].
    { apply chain_cons; [|lia]. apply chain_cons; [exact Hc1|lia]. }
    split; [repeat constructor; assumption|].
    split; [unfold data'; rewrite (sort_range_perm_at ps); assumption|].
    split.
    { intros d p Hp. rewrite Hout' by lia. now apply Hout. }
    intros d p p' Hp Hpp' Hp' Hg Hfree.
    assert (Hold : forall p0 p0',
               left0 <= p0 -> p0 < p0' -> p0' < right0 ->
               (p0 - left0) / n < (p0' - left0) / n ->
               ~ (a <= p0 /\ p0' < frontier) ->
               (p0 < a -> a <= p0') ->
               compare (at_ d (g_data s) p0') (at_ d (g_data s) p0) = false).
    { intros p0 p0' H1 H2 H3 H4 H5 H6. apply Hord; try assumption.
      intros a' b' [E|Hin]; [injection E as <- <-; exact H5|].
      destruct (Hrs a' b' Hin) as (_ & _ & Hb'). intros [H7 H8]. lia. }
    destruct (Z_lt_le_dec p a) as [Hpa|Hpa], (Z_lt_le_dec p' frontier) as [Hpf|Hpf].
    * (* p before the range *)
      destruct (Z_lt_le_dec p' a) as [Hp'a|Hp'a].
      -- rewrite !Hout' by lia. apply Hord; try assumption.
         intros a' b' [E|Hin]; [injection E as <- <-; lia|].
         apply Hfree. right. now right.
      -- destruct (Hfrom d p' ltac:(lia)) as (p0 & Hp0 & ->).
         rewrite (Hout' d p) by lia.
         apply Hold; try lia. now apply (group_below left0 n a).
    * rewrite !Hout' by lia. apply Hold; try assumption; lia.
    * (* both in the range *)
      destruct (Z_lt_le_dec p mid) as [Hpm|Hpm], (Z_lt_le_dec p' mid) as [Hp'm|Hp'm].
      -- exfalso. apply (Hfree a mid); [right; now left|lia].
      -- rewrite !Hin' by lia. apply Hsplit; lia.
      -- lia.
      -- exfalso. apply (Hfree mid frontier); [now left|lia].
    * (* p' after the range *)
      destruct (Z_lt_le_dec p frontier) as [Hpin|Hpafter].
      -- destruct (Hfrom d p ltac:(lia)) as (p0 & Hp0 & ->).
         rewrite (Hout' d p') by lia.
         destruct Hal as [->|Hal]; [lia|].
         apply Hold; try lia. now apply (group_below left0 n frontier).
      -- rewrite !Hout' by lia. apply Hold; try assumption; lia.
  + unfold group_weight. cbn [fold_right fst snd]. lia.
Qed.

Lemma grouped_done frontier s :
inv frontier [] s -> step s = Some (Return s).
Proof. intros (Hst & _). unfold grouped_step. now rewrite Hst. Qed.

Lemma grouped_runs fuel :
forall frontier rs s,
  inv frontier rs s -> group_weight rs < Z.of_nat fuel ->
  exists s', loop fuel n compare s = Some s' /\ exists frontier', inv frontier' [] s'.
Proof.
induction fuel as [|fuel IH]; intros frontier rs s Hinv Hw.
- pose proof (group_weight_pos rs). lia.
- cbn [grouped_loop]. destruct rs as [|[a b] rs].
  + rewrite (grouped_done frontier s Hinv). exists s. split; [reflexivity|now exists frontier].
  + assert (b = frontier) as ->.
    { destruct Hinv as (_ & Hch & _). now inversion Hch. }
    destruct (grouped_turn frontier a rs s Hinv) as (s' & f' & rs' & -> & Hinv' & Hlt).
    apply (IH f' rs' s' Hinv'). lia.
Qed.

Lemma grouped_ends fuel :
forall frontier rs s s',
  inv frontier rs s -> loop fuel n compare s = Some s' ->
  exists frontier', inv frontier' [] s'.
Proof.
induction fuel as [|fuel IH]; intros frontier rs s s' Hinv H; [discriminate|].
cbn [grouped_loop] in H. destruct rs as [|[a b] rs].
- rewrite (grouped_done frontier s Hinv) in H. injection H as <-. now exists frontier.
- assert (b = frontier) as ->.
  { destruct Hinv as (_ & Hch & _). now inversion Hch. }
  destruct (grouped_turn frontier a rs s Hinv) as (s1 & f' & rs' & E & Hinv' & _).
  rewrite E in H. exact (IH f' rs' s1 s' Hinv' H).
Qed.

Lemma grouped_start :
inv right0 [(left0, right0)] {| g_data := data0; g_stack := [right0; left0] |}.
Proof.
unfold grouped_inv. cbn [g_data g_stack].
split; [reflexivity|]. split; [apply chain_cons; [constructor|lia]|].
split; [lia|]. split; [now left|]. split.
- constructor; [|constructor]. cbn [fst]. now rewrite Z.sub_diag, Z.mod_0_l by lia.
- split; [reflexivity|]. split; [reflexivity|].
  intros d p p' Hp Hpp Hp' _ Hfree. exfalso.
  apply (Hfree left0 right0); [now left|lia].
Qed.

End GroupedLoop.

(** The reference routine meets the contract of [std::partial_sort] for
    the order of the integers. *)
Lemma insert_sorted_Z x l :
  StronglySorted Z.le l -> StronglySorted Z.le (insert_sorted Z.ltb x l).
Proof.
  induction 1 as [|y l Hs IH Hy]; simpl; [repeat constructor|].
  destruct (Z.ltb_spec y x) as [Hlt|Hge].
  - constructor; [exact IH|].
    apply (Permutation_Forall (Permutation_sym (insert_sorted_perm Z.ltb x l))).
    constructor; [lia|exact Hy].
  - constructor; [now constructor|]. constructor; [lia|].
    eapply Forall_impl; [|exact Hy]. simpl. intros z Hz. lia.
Qed.

Lemma insertion_sort_sorted_Z l : StronglySorted Z.le (insertion_sort Z Z.ltb l).
Proof.
  induction l as [|x l IH]; simpl; [constructor|]. now apply insert_sorted_Z.
Qed.

Lemma partial_sort_all_ok : partial_sort_ok partial_sort_all Z.ltb.
Proof.
  intros range m Hm. unfold partial_sort_all. split.
  - apply insertion_sort_permutes.
  - intros d i j Hi Hj.
    assert (Hlen : length (insertion_sort Z Z.ltb range) = length range)
      by (apply Permutation_length, insertion_sort_permutes).
    pose proof (StronglySorted_nth Z.le _ d (insertion_sort_sorted_Z range)
                                   (Z.to_nat i) (Z.to_nat j) ltac:(lia)) as H.
    unfold at_. apply Z.ltb_ge. exact H.
Qed.

(* ================================================================== *)
(** * What the packers store *)

Lemma stored_edges_count latToY t :
  index_ok latToY t = true ->
  total_objects (m_leaves t) = Z.of_nat (length (stored_edges (m_leaves t))).
Proof.
  intros Hok.
  assert (Hall : Forall (fun l => 0 <= object_count l
                                  <= Z.of_nat (length (objects l))) (m_leaves t)).
  { apply Forall_forall. intros lf Hlf.
    destruct (In_nth _ _ (LeafNode_default 0) Hlf) as (k & Hk & <-).
    pose proof (leaf_count_within latToY t (Z.of_nat k) Hok ltac:(lia)) as H.
    unfold leaf_at, at_ in H. now rewrite Nat2Z.id in H. }
  unfold total_objects, stored_edges.
  induction Hall as [|lf leaves Hlf _ IH]; simpl; [reflexivity|].
  rewrite length_app, Nat2Z.inj_add, <- IH.
  unfold stored_objects. rewrite length_firstn. lia.
Qed.

(** The order in which a packer has stored the objects. *)
Lemma built_order BRANCHING_FACTOR LEAF_NODE_SIZE_ latToY centroid GetHilbertCode sort
      blocked_ranges cs input t sorted :
  2 <= BRANCHING_FACTOR -> 1 <= LEAF_NODE_SIZE_ ->
  sort_permutes sort ->
  input <> [] ->
  3 * Z.of_nat (length input) < 2147483648 ->
  Forall (edge_int32 latToY cs) input ->
  (PackWithHilbert BRANCHING_FACTOR LEAF_NODE_SIZE_ latToY centroid GetHilbertCode
                   sort cs input = Some t
   /\ sorted = hilbert_order latToY centroid GetHilbertCode sort cs input)
  \/ (PackWithSTR BRANCHING_FACTOR LEAF_NODE_SIZE_ latToY centroid sort
                  blocked_ranges cs input = Some t
      /\ sorted = str_order LEAF_NODE_SIZE_ centroid sort blocked_ranges cs input) ->
  Permutation sorted input /\ stored_edges (m_leaves t) = sorted.
Proof.
  intros HB HL Hsort Hne Hsize Hcoords Ht.
  assert (H : exists prepare,
             pack_sorted BRANCHING_FACTOR LEAF_NODE_SIZE_ latToY cs prepare sorted = Some t
             /\ (forall l, Permutation (prepare l) l)
             /\ Permutation sorted input).
  { destruct Ht as [[Ht ->]|[Ht ->]].
    - exists (fun level => level). split; [exact Ht|]. split; [reflexivity|].
      apply hilbert_order_perm; [exact Hsort|unfold UINT32_MOD; lia].
    - exists (str_prepare BRANCHING_FACTOR sort blocked_ranges).
      split; [exact Ht|]. split; [now apply str_prepare_perm|now apply str_order_perm]. }
  destruct H as (prepare & Hpack & Hprep & Hperm).
  split; [exact Hperm|].
  destruct (pack_sorted_ok BRANCHING_FACTOR LEAF_NODE_SIZE_ latToY cs prepare sorted
                           HB HL Hprep)
    as (t0 & Ht0 & _ & _ & _ & Hst & _).
  - intros E. rewrite E in Hperm. apply Permutation_nil in Hperm. congruence.
  - rewrite (Permutation_length Hperm). exact Hsize.
  - apply (Permutation_Forall (Permutation_sym Hperm)).
    eapply Forall_impl; [|exact Hcoords]. intros e. apply edge_int32_proper.
  - rewrite Hpack in Ht0. injection Ht0 as <-. exact Hst.
Qed.

(* ================================================================== *)
(** * Further properties of the queries *)



(** X2.  [Nearest (input_coordinate, max_results)] on a well-formed and
    linked index returns, and what it returns are the [max_results]
    nearest stored objects: at most [max_results] of them, all stored,
    and every stored object that is not among them is at least as far
    from the query point as each of them.  When it returns fewer than
    [max_results], it returns every stored object. *)
Theorem Nearest_max_returns_the_nearest :
  forall latToY nearest_on_segment t q max_results,
    index_ok latToY t = true ->
    all_linked t = true ->
    foot_on_segment latToY nearest_on_segment ->
    (exists fuel results,
        Nearest_max latToY nearest_on_segment fuel t q max_results = Some (results, t))
    /\ forall fuel results t',
        Nearest_max latToY nearest_on_segment fuel t q max_results = Some (results, t') ->
        Z.of_nat (length results) <= Z.max 0 max_results
        /\ (forall r, In r results -> stored t r)
        /\ (forall e, stored t e ->
                      In e results
                      \/ forall r, In r results ->
                                   result_distance latToY nearest_on_segment t q r
                                   <= result_distance latToY nearest_on_segment t q e)
        /\ (Z.of_nat (length results) < max_results ->
            forall e, stored t e -> In e results).
Proof.
  intros latToY nearest_on_segment t q max_results Hok Hlinked Hfoot.
  now apply Nearest_max_on_index.
Qed.

Lemma Nearest_max_returns_the_nearest_witness :
  exists results,
    Nearest_max UnitSquare.latToY (nearest_on_segment_exact UnitSquare.latToY) 50
                UnitSquare.deep_tree {| lon := 100000; lat := 200000 |} 3
    = Some (results, UnitSquare.deep_tree)
    /\ length results = 3%nat
    /\ forall e, stored UnitSquare.deep_tree e ->
                 In e results
                 \/ forall r, In r results ->
                              result_distance UnitSquare.latToY
                                              (nearest_on_segment_exact UnitSquare.latToY)
                                              UnitSquare.deep_tree
                                              {| lon := 100000; lat := 200000 |} r
                              <= result_distance UnitSquare.latToY
                                                 (nearest_on_segment_exact UnitSquare.latToY)
                                                 UnitSquare.deep_tree
                                                 {| lon := 100000; lat := 200000 |} e.
Proof.
  eexists. split; [vm_compute; reflexivity|].
  match goal with
  | |- length ?results = _ /\ _ =>
      pose proof (proj2 (Nearest_max_returns_the_nearest
                           UnitSquare.latToY (nearest_on_segment_exact UnitSquare.latToY)
                           UnitSquare.deep_tree {| lon := 100000; lat := 200000 |} 3
                           eq_refl eq_refl (exact_foot_on_segment UnitSquare.latToY))
                        50%nat results UnitSquare.deep_tree) as Hrun
  end.
  destruct Hrun as (_ & _ & Hnear & _); [vm_compute; reflexivity|].
  split; [reflexivity|exact Hnear].
Defined.

(** X3.  Building and searching compose.  For a non-empty input whose
    projected coordinates are [int32] and whose size leaves room in the
    31 bits of a child index, the index that [PackWithHilbert] returns,
    and the one that [PackWithSTR] returns, answers every box query
    from the input alone: [SearchInBox] returns, and an edge is among
    the results exactly when it is an edge of the input whose geographic
    bounding box meets the query rectangle. *)
Theorem SearchInBox_after_build :
  forall BRANCHING_FACTOR LEAF_NODE_SIZE_ latToY centroid GetHilbertCode sort
         blocked_ranges (m_coordinate_list_ : list Coordinate)
         (input_data_vector : list EdgeData),
    2 <= BRANCHING_FACTOR -> 1 <= LEAF_NODE_SIZE_ ->
    sort_permutes sort ->
    monotone latToY ->
    input_data_vector <> [] ->
    3 * Z.of_nat (length input_data_vector) < 2147483648 ->
    Forall (edge_int32 latToY m_coordinate_list_) input_data_vector ->
    (exists t,
        PackWithHilbert BRANCHING_FACTOR LEAF_NODE_SIZE_ latToY centroid GetHilbertCode
                        sort m_coordinate_list_ input_data_vector = Some t)
    /\ (exists t,
           PackWithSTR BRANCHING_FACTOR LEAF_NODE_SIZE_ latToY centroid sort
                       blocked_ranges m_coordinate_list_ input_data_vector = Some t)
    /\ forall t,
        PackWithHilbert BRANCHING_FACTOR LEAF_NODE_SIZE_ latToY centroid GetHilbertCode
                        sort m_coordinate_list_ input_data_vector = Some t
        \/ PackWithSTR BRANCHING_FACTOR LEAF_NODE_SIZE_ latToY centroid sort
                       blocked_ranges m_coordinate_list_ input_data_vector = Some t ->
        forall search_rectangle,
          (exists fuel results,
              SearchInBox latToY fuel t search_rectangle = Some (results, t))
          /\ forall fuel results t',
              SearchInBox latToY fuel t search_rectangle = Some (results, t') ->
              forall e, In e results
                        <-> (In e input_data_vector
                             /\ Rectangle.Intersects (edge_bbox m_coordinate_list_ e)
                                                     search_rectangle = true).
Proof.
  intros B L latToY centroid GetHilbertCode sort blocked_ranges cs input
         HB HL Hsort Hmono Hne Hsize Hcoords.
  destruct (PackWithHilbert_ok B L latToY centroid GetHilbertCode sort cs Hsort HB HL
                               input Hne Hsize Hcoords)
    as (th & Hth & Hokh & Hlh & _ & Hph & Hch).
  destruct (PackWithSTR_ok B L latToY centroid sort blocked_ranges cs Hsort HB HL
                           input Hne Hsize Hcoords)
    as (ts & Hts & Hoks & Hls & _ & Hps & Hcs).
  split; [now exists th|]. split; [now exists ts|].
  intros t Ht R.
  assert (H : index_ok latToY t = true /\ all_linked t = true
              /\ Permutation (stored_edges (m_leaves t)) input
              /\ m_coordinate_list t = cs).
  { destruct Ht as [Ht|Ht]; rewrite Ht in *.
    - injection Hth as <-. repeat split; assumption.
    - injection Hts as <-. repeat split; assumption. }
  destruct H as (Hok & Hl & Hp & Hc).
  now apply SearchInBox_on_built.
Qed.

Lemma SearchInBox_after_build_witness :
  exists results,
    SearchInBox UnitSquare.latToY 50 UnitSquare.tree
                {| min_lon := -100000; max_lon := 600000;
                   min_lat := -100000; max_lat := 600000 |}
    = Some (results, UnitSquare.tree)
    /\ length results = 2%nat
    /\ forall e,
        In e results
        <-> (In e UnitSquare.edges
             /\ Rectangle.Intersects (edge_bbox UnitSquare.coordinates e)
                                     {| min_lon := -100000; max_lon := 600000;
                                        min_lat := -100000; max_lat := 600000 |} = true).
Proof.
  eexists. split; [vm_compute; reflexivity|]. split; [reflexivity|].
  destruct (SearchInBox_after_build
              4 2 UnitSquare.latToY midpoint UnitSquare.GetHilbertCode insertion_sort
              one_range UnitSquare.coordinates UnitSquare.edges)
    as (_ & _ & Hall).
  - lia.
  - lia.
  - exact insertion_sort_permutes.
  - intros a b H. exact H.
  - discriminate.
  - vm_compute. reflexivity.
  - apply edge_int32b_spec. vm_compute. reflexivity.
  - apply (proj2 (Hall UnitSquare.tree
                       ltac:(left; vm_compute; reflexivity)
                       {| min_lon := -100000; max_lon := 600000;
                          min_lat := -100000; max_lat := 600000 |})
                 50%nat _ UnitSquare.tree).
    vm_compute. reflexivity.
Defined.

(** X4.  Building and the nearest-neighbour query compose.  On the
    index that [PackWithHilbert] or [PackWithSTR] returns for a
    non-empty input within the [int32] and 31-bit limits,
    [Nearest (input_coordinate, max_results)] returns at most
    [max_results] edges, all of them edges of the input, and every edge
    of the input that is not returned is at least as far from the query
    point as each returned one; when fewer than [max_results] come
    back, they are all the edges of the input. *)
Theorem Nearest_after_build :
  forall BRANCHING_FACTOR LEAF_NODE_SIZE_ latToY centroid GetHilbertCode sort
         blocked_ranges nearest_on_segment (m_coordinate_list_ : list Coordinate)
         (input_data_vector : list EdgeData),
    2 <= BRANCHING_FACTOR -> 1 <= LEAF_NODE_SIZE_ ->
    sort_permutes sort ->
    foot_on_segment latToY nearest_on_segment ->
    input_data_vector <> [] ->
    3 * Z.of_nat (length input_data_vector) < 2147483648 ->
    Forall (edge_int32 latToY m_coordinate_list_) input_data_vector ->
    forall t,
      PackWithHilbert BRANCHING_FACTOR LEAF_NODE_SIZE_ latToY centroid GetHilbertCode
                      sort m_coordinate_list_ input_data_vector = Some t
      \/ PackWithSTR BRANCHING_FACTOR LEAF_NODE_SIZE_ latToY centroid sort
                     blocked_ranges m_coordinate_list_ input_data_vector = Some t ->
      forall input_coordinate max_results,
        (exists fuel results,
            Nearest_max latToY nearest_on_segment fuel t input_coordinate max_results
            = Some (results, t))
        /\ forall fuel results t',
            Nearest_max latToY nearest_on_segment fuel t input_coordinate max_results
            = Some (results, t') ->
            Z.of_nat (length results) <= Z.max 0 max_results
            /\ (forall r, In r results -> In r input_data_vector)
            /\ (forall e, In e input_data_vector ->
                          In e results
                          \/ forall r, In r results ->
                                       result_distance latToY nearest_on_segment t
                                                       input_coordinate r
                                       <= result_distance latToY nearest_on_segment t
                                                          input_coordinate e)
            /\ (Z.of_nat (length results) < max_results ->
                forall e, In e input_data_vector -> In e results).
Proof.
  intros B L latToY centroid GetHilbertCode sort blocked_ranges nos cs input
         HB HL Hsort Hfoot Hne Hsize Hcoords t Ht q k.
  assert (H : index_ok latToY t = true /\ all_linked t = true
              /\ Permutation (stored_edges (m_leaves t)) input).
  { destruct Ht as [Ht|Ht].
    - destruct (PackWithHilbert_ok B L latToY centroid GetHilbertCode sort cs Hsort HB HL
                                   input Hne Hsize Hcoords)
        as (t0 & Ht0 & Hok & Hl & _ & Hp & _).
      rewrite Ht in Ht0. injection Ht0 as <-. repeat split; assumption.
    - destruct (PackWithSTR_ok B L latToY centroid sort blocked_ranges cs Hsort HB HL
                               input Hne Hsize Hcoords)
        as (t0 & Ht0 & Hok & Hl & _ & Hp & _).
      rewrite Ht in Ht0. injection Ht0 as <-. repeat split; assumption. }
  destruct H as (Hok & Hl & Hp).
  assert (Hst : forall e, stored t e <-> In e input).
  { intros e. rewrite (stored_In latToY t e Hok). split.
    - apply (Permutation_in _ Hp).
    - apply (Permutation_in _ (Permutation_sym Hp)). }
  destruct (Nearest_max_on_index latToY nos t q k Hok Hl Hfoot) as [Hex Hall].
  split; [exact Hex|]. intros fuel results t' H.
  destruct (Hall fuel results t' H) as (Hlen & Hres & Hnear & Hfew).
  split; [exact Hlen|]. split; [|split].
  - intros r Hr. apply Hst. now apply Hres.
  - intros e He. apply Hnear. now apply Hst.
  - intros Hk e He. apply (Hfew Hk). now apply Hst.
Qed.

Lemma Nearest_after_build_witness :
  exists results,
    Nearest_max UnitSquare.latToY (nearest_on_segment_exact UnitSquare.latToY) 50
                UnitSquare.tree {| lon := 100000; lat := 200000 |} 2
    = Some (results, UnitSquare.tree)
    /\ length results = 2%nat
    /\ (forall r, In r results -> In r UnitSquare.edges)
    /\ forall e, In e UnitSquare.edges ->
                 In e results
                 \/ forall r, In r results ->
                              result_distance UnitSquare.latToY
                                              (nearest_on_segment_exact UnitSquare.latToY)
                                              UnitSquare.tree
                                              {| lon := 100000; lat := 200000 |} r
                              <= result_distance UnitSquare.latToY
                                                 (nearest_on_segment_exact UnitSquare.latToY)
                                                 UnitSquare.tree
                                                 {| lon := 100000; lat := 200000 |} e.
Proof.
  eexists. split; [vm_compute; reflexivity|].
  match goal with
  | |- length ?results = _ /\ _ =>
      pose proof (fun H1 H2 H3 H4 H5 H6 H7 H8 =>
                    proj2 (Nearest_after_build
                             4 2 UnitSquare.latToY midpoint UnitSquare.GetHilbertCode
                             insertion_sort one_range
                             (nearest_on_segment_exact UnitSquare.latToY)
                             UnitSquare.coordinates UnitSquare.edges
                             H1 H2 H3 H4 H5 H6 H7 UnitSquare.tree H8
                             {| lon := 100000; lat := 200000 |} 2)
                          50%nat results UnitSquare.tree) as Hrun
  end.
  destruct Hrun as (_ & Hres & Hnear & _).
  - lia.
  - lia.
  - exact insertion_sort_permutes.
  - apply exact_foot_on_segment.
  - discriminate.
  - vm_compute. reflexivity.
  - apply edge_int32b_spec. vm_compute. reflexivity.
  - left. vm_compute. reflexivity.
  - vm_compute. reflexivity.
  - split; [reflexivity|]. split; assumption.
Defined.

(** X5.  The rectangle of the root after a build.  In the index that
    [PackWithHilbert] or [PackWithSTR] returns for a non-empty input
    within the [int32] and 31-bit limits, the rectangle of the root
    (node 0 of the array, after the reversal) is the union of the
    projected boxes of all edges of the input, in whatever order the
    packer has stored them: it holds the projected box of every input
    edge. *)
Theorem root_rectangle_after_build :
  forall BRANCHING_FACTOR LEAF_NODE_SIZE_ latToY centroid GetHilbertCode sort
         blocked_ranges (m_coordinate_list_ : list Coordinate)
         (input_data_vector : list EdgeData),
    2 <= BRANCHING_FACTOR -> 1 <= LEAF_NODE_SIZE_ ->
    sort_permutes sort ->
    input_data_vector <> [] ->
    3 * Z.of_nat (length input_data_vector) < 2147483648 ->
    Forall (edge_int32 latToY m_coordinate_list_) input_data_vector ->
    forall t,
      PackWithHilbert BRANCHING_FACTOR LEAF_NODE_SIZE_ latToY centroid GetHilbertCode
                      sort m_coordinate_list_ input_data_vector = Some t
      \/ PackWithSTR BRANCHING_FACTOR LEAF_NODE_SIZE_ latToY centroid sort
                     blocked_ranges m_coordinate_list_ input_data_vector = Some t ->
      minimum_bounding_rectangle (node_at t 0)
      = union_of (map (projected_box latToY m_coordinate_list_) input_data_vector)
      /\ forall e, In e input_data_vector ->
                   Rectangle.inside (projected_box latToY m_coordinate_list_ e)
                                    (minimum_bounding_rectangle (node_at t 0)) = true.
Proof.
  intros B L latToY centroid GetHilbertCode sort blocked_ranges cs input
         HB HL Hsort Hne Hsize Hcoords t Ht.
  assert (H : index_ok latToY t = true /\ all_linked t = true /\ mbr_exact latToY t
              /\ Permutation (stored_edges (m_leaves t)) input
              /\ m_coordinate_list t = cs).
  { destruct Ht as [Ht|Ht].
    - destruct (PackWithHilbert_ok B L latToY centroid GetHilbertCode sort cs Hsort HB HL
                                   input Hne Hsize Hcoords)
        as (t0 & Ht0 & Hok & Hl & Hex & Hp & Hc).
      rewrite Ht in Ht0. injection Ht0 as <-. repeat split; try assumption; apply Hex.
    - destruct (PackWithSTR_ok B L latToY centroid sort blocked_ranges cs Hsort HB HL
                               input Hne Hsize Hcoords)
        as (t0 & Ht0 & Hok & Hl & Hex & Hp & Hc).
      rewrite Ht in Ht0. injection Ht0 as <-. repeat split; try assumption; apply Hex. }
  destruct H as (Hok & Hl & Hex & Hp & Hc).
  assert (E : minimum_bounding_rectangle (node_at t 0)
              = union_of (map (projected_box latToY cs) input)).
  { rewrite (root_is_union latToY t Hok Hex Hl), Hc.
    apply union_of_perm. now apply Permutation_map. }
  split; [exact E|].
  intros e He. rewrite E. apply union_of_upper. now apply in_map.
Qed.

Lemma root_rectangle_after_build_witness :
  minimum_bounding_rectangle (node_at UnitSquare.tree 0)
  = {| min_lon := 0; max_lon := 1000000; min_lat := 0; max_lat := 1000000 |}.
Proof.
  rewrite (proj1 (root_rectangle_after_build
                    4 2 UnitSquare.latToY midpoint UnitSquare.GetHilbertCode insertion_sort
                    one_range UnitSquare.coordinates UnitSquare.edges
                    ltac:(lia) ltac:(lia) insertion_sort_permutes ltac:(discriminate)
                    ltac:(vm_compute; reflexivity)
                    ltac:(apply edge_int32b_spec; vm_compute; reflexivity)
                    UnitSquare.tree ltac:(left; vm_compute; reflexivity))).
  vm_compute. reflexivity.
Defined.

(** X6.  The layout of the leaf file.  [PackWithHilbert] and
    [PackWithSTR] write the edges to the leaf file in the order they
    have sorted them into (ascending Hilbert value, or longitude then
    latitude of the centroid), [LEAF_NODE_SIZE] to a page: for [n]
    edges there are [ceil (n / LEAF_NODE_SIZE)] pages, page [l] holds
    the edges [l * LEAF_NODE_SIZE], [l * LEAF_NODE_SIZE + 1], ... of the
    sorted array, so every page but the last is full and the last one
    is not empty; the object array of every page has [LEAF_NODE_SIZE]
    entries. *)
Theorem leaf_file_layout :
  forall BRANCHING_FACTOR LEAF_NODE_SIZE_ latToY centroid GetHilbertCode sort
         blocked_ranges (m_coordinate_list_ : list Coordinate)
         (input_data_vector : list EdgeData),
    2 <= BRANCHING_FACTOR -> 1 <= LEAF_NODE_SIZE_ ->
    sort_permutes sort ->
    input_data_vector <> [] ->
    3 * Z.of_nat (length input_data_vector) < 2147483648 ->
    Forall (edge_int32 latToY m_coordinate_list_) input_data_vector ->
    forall t sorted,
      (PackWithHilbert BRANCHING_FACTOR LEAF_NODE_SIZE_ latToY centroid GetHilbertCode
                       sort m_coordinate_list_ input_data_vector = Some t
       /\ sorted = hilbert_order latToY centroid GetHilbertCode sort
                                 m_coordinate_list_ input_data_vector)
      \/ (PackWithSTR BRANCHING_FACTOR LEAF_NODE_SIZE_ latToY centroid sort
                      blocked_ranges m_coordinate_list_ input_data_vector = Some t
          /\ sorted = str_order LEAF_NODE_SIZE_ centroid sort blocked_ranges
                                m_coordinate_list_ input_data_vector) ->
      let n := Z.of_nat (length input_data_vector) in
      Permutation sorted input_data_vector
      /\ Z.of_nat (length (m_leaves t)) = (n + LEAF_NODE_SIZE_ - 1) / LEAF_NODE_SIZE_
      /\ forall l, 0 <= l < Z.of_nat (length (m_leaves t)) ->
                   object_count (leaf_at t l) = Z.min LEAF_NODE_SIZE_ (n - l * LEAF_NODE_SIZE_)
                   /\ 1 <= object_count (leaf_at t l)
                   /\ Z.of_nat (length (objects (leaf_at t l))) = LEAF_NODE_SIZE_
                   /\ stored_objects (leaf_at t l)
                      = firstn (Z.to_nat LEAF_NODE_SIZE_)
                               (skipn (Z.to_nat (l * LEAF_NODE_SIZE_)) sorted).
Proof.
  intros B L latToY centroid GetHilbertCode sort blocked_ranges cs input
         HB HL Hsort Hne Hsize Hcoords t sorted Ht n.
  assert (H : Permutation sorted input
              /\ exists prepare,
                  pack_sorted B L latToY cs prepare sorted = Some t).
  { destruct Ht as [[Ht ->]|[Ht ->]].
    - split; [apply hilbert_order_perm; [exact Hsort|unfold UINT32_MOD; lia]|].
      eexists. exact Ht.
    - split; [now apply str_order_perm|]. eexists. exact Ht. }
  destruct H as (Hperm & prepare & Hpack).
  split; [exact Hperm|].
  assert (Hlen : Z.of_nat (length sorted) = n)
    by (unfold n; now rewrite (Permutation_length Hperm)).
  destruct (pack_sorted_layout B L latToY cs prepare sorted HB HL) with (t := t)
    as [Hcount Hpage].
  - intros E. rewrite E in Hperm. apply Permutation_nil in Hperm. congruence.
  - lia.
  - apply (Permutation_Forall (Permutation_sym Hperm)).
    eapply Forall_impl; [|exact Hcoords]. intros e. apply edge_int32_proper.
  - exact Hpack.
  - rewrite Hlen in Hcount. split; [exact Hcount|].
    intros l Hl. destruct (Hpage l Hl) as [-> Hlt].
    assert (Hchunk : Z.of_nat (length (firstn (Z.to_nat L)
                                              (skipn (Z.to_nat (l * L)) sorted)))
                     = Z.min L (n - l * L)).
    { rewrite length_firstn, length_skipn. lia. }
    rewrite stored_leaf_of. unfold leaf_of. cbn [object_count objects].
    split; [exact Hchunk|]. split; [lia|]. split; [|reflexivity].
    rewrite length_app, repeat_length. lia.
Qed.

Lemma leaf_file_layout_witness :
  Z.of_nat (length (m_leaves UnitSquare.tree)) = 2
  /\ map u (stored_objects (leaf_at UnitSquare.tree 1)) = [1; 2].
Proof.
  assert (Ht : PackWithHilbert 4 2 UnitSquare.latToY midpoint UnitSquare.GetHilbertCode
                               insertion_sort UnitSquare.coordinates UnitSquare.edges
               = Some UnitSquare.tree) by (vm_compute; reflexivity).
  pose proof (leaf_file_layout
                4 2 UnitSquare.latToY midpoint UnitSquare.GetHilbertCode insertion_sort
                one_range UnitSquare.coordinates UnitSquare.edges
                ltac:(lia) ltac:(lia) insertion_sort_permutes ltac:(discriminate)
                ltac:(vm_compute; reflexivity)
                ltac:(apply edge_int32b_spec; vm_compute; reflexivity)
                UnitSquare.tree _ (or_introl (conj Ht eq_refl)))
    as H.
  cbv zeta in H. destruct H as (_ & Hcount & Hpage).
  split; [exact Hcount|].
  assert (H1 : 0 <= 1 < Z.of_nat (length (m_leaves UnitSquare.tree)))
    by (rewrite Hcount; vm_compute; split; [discriminate|reflexivity]).
  destruct (Hpage 1 H1) as (_ & _ & _ & ->).
  vm_compute. reflexivity.
Defined.

(** X7.  The OMT packer never stores its whole input.  Whatever the
    input, the leaf capacity, the sort and the three rounded
    floating-point expressions: when [PackWithOMT] returns, the input
    has at least [BRANCHING_FACTOR] edges (for fewer, the first range is
    a leaf and the node it is attached to does not exist), the object
    counts of the pages it has written sum to less than the number of
    input edges, and so the edges stored in the pages are fewer than,
    and no rearrangement of, the input. *)
Theorem PackWithOMT_never_stores_all :
  forall BRANCHING_FACTOR LEAF_NODE_SIZE_ latToY centroid sort
         (m_coordinate_list_ : list Coordinate) ceil_log_ratio ceil_div_pow ceil_sqrt
         fuel (input_data_vector : list EdgeData) search_tree leaves,
    1 <= BRANCHING_FACTOR ->
    PackWithOMT BRANCHING_FACTOR LEAF_NODE_SIZE_ latToY centroid sort
                m_coordinate_list_ ceil_log_ratio ceil_div_pow ceil_sqrt
                fuel input_data_vector = Some (search_tree, leaves) ->
    BRANCHING_FACTOR <= Z.of_nat (length input_data_vector)
    /\ total_objects leaves < Z.of_nat (length input_data_vector)
    /\ (length (stored_edges leaves) < length input_data_vector)%nat
    /\ ~ Permutation (stored_edges leaves) input_data_vector.
Proof.
  intros B L latToY centroid sort cs clr cdp csq fuel input tree leaves HB H.
  destruct (PackWithOMT_short B L latToY centroid sort cs clr cdp csq HB
                              fuel input tree leaves H) as (Hn & Hcount & Hless).
  pose proof (stored_edges_le leaves Hcount) as Hle.
  split; [exact Hn|]. split; [exact Hless|].
  assert (Hlt : (length (stored_edges leaves) < length input)%nat) by lia.
  split; [exact Hlt|].
  intros Hperm. apply Permutation_length in Hperm. lia.
Qed.

Lemma PackWithOMT_never_stores_all_witness :
  exists search_tree leaves,
    Chain.omt = Some (search_tree, leaves)
    /\ length Chain.edges = 128%nat
    /\ (length (stored_edges leaves) < 128)%nat.
Proof.
  assert (E : exists search_tree leaves, Chain.omt = Some (search_tree, leaves)).
  { eexists. eexists. vm_compute. reflexivity. }
  destruct E as (tree & leaves & E). exists tree, leaves.
  split; [exact E|]. split; [reflexivity|].
  destruct (PackWithOMT_never_stores_all
              128 (LEAF_NODE_SIZE 4096 20) UnitSquare.latToY midpoint insertion_sort
              Chain.coordinates ceil_log_ratio_exact ceil_div_pow_exact ceil_sqrt_exact
              10%nat Chain.edges tree leaves ltac:(lia) E)
    as (_ & _ & Hlt & _).
  exact Hlt.
Defined.

(** X8.  The packers rely on [LEAF_NODE_SIZE >= 1] and
    [BRANCHING_FACTOR >= 2], which nothing in the class checks.  With a
    leaf capacity of 0, or a branching factor of 0, the leaf loop of
    [PackWithHilbert] and [PackWithSTR] takes no object from a non-empty
    input and so never ends, however many turns it is given; a page size
    below [20 + sizeof (EdgeDataT)] gives that capacity.  With a
    branching factor of 1 the loop over the levels never ends once a
    level has more than one node: every parent gets one child, so the
    next level is as long. *)
Theorem packers_need_room :
  forall LEAF_NODE_SIZE_ BRANCHING_FACTOR latToY (m_coordinate_list_ : list Coordinate),
    (forall LEAF_PAGE_SIZE sizeof_edge,
        0 < sizeof_edge -> 20 <= LEAF_PAGE_SIZE < 20 + sizeof_edge ->
        LEAF_NODE_SIZE LEAF_PAGE_SIZE sizeof_edge = 0)
    /\ (forall fuel node_index objs leaf_node_file tree_nodes_in_level,
           LEAF_NODE_SIZE_ <= 0 \/ BRANCHING_FACTOR <= 0 ->
           objs <> [] ->
           pack_leaves BRANCHING_FACTOR LEAF_NODE_SIZE_ latToY m_coordinate_list_
                       fuel node_index objs leaf_node_file tree_nodes_in_level = None)
    /\ (forall prepare fuel tree_nodes_in_level search_tree,
           (forall l, length (prepare l) = length l) ->
           1 < Z.of_nat (length tree_nodes_in_level) ->
           pack_levels 1 prepare fuel tree_nodes_in_level search_tree = None).
Proof.
  intros L B latToY cs. split; [|split].
  - intros P E HE HP. unfold LEAF_NODE_SIZE. apply Z.div_small. lia.
  - intros fuel node_index objs file level Hdeg Hne. now apply pack_leaves_stuck.
  - intros prepare fuel level st Hprep Hl. now apply pack_levels_stuck.
Qed.

Lemma packers_need_room_witness :
  LEAF_NODE_SIZE 32 20 = 0
  /\ pack_leaves 4 (LEAF_NODE_SIZE 32 20) UnitSquare.latToY UnitSquare.coordinates
                 1000 0 UnitSquare.edges [] [] = None
  /\ pack_levels 1 (fun level => level) 1000
                 [TreeNode_default 1; TreeNode_default 1] [] = None.
Proof.
  destruct (packers_need_room (LEAF_NODE_SIZE 32 20) 4 UnitSquare.latToY
                              UnitSquare.coordinates) as (H1 & H2 & H3).
  split; [apply H1; lia|]. split.
  - apply H2; [left; vm_compute; discriminate|discriminate].
  - apply H3; [reflexivity|simpl; lia].
Defined.

(** X9.  [SearchInBox] on a built index returns no edge more often than
    the input holds it.  On the index that [PackWithHilbert] or
    [PackWithSTR] returns, the results of a box query are, up to their
    order, the edges of the input whose geographic bounding box meets
    the query rectangle, each as many times as it occurs in the input:
    every leaf and every node is the child of exactly one node, so the
    traversal visits each leaf once. *)
Theorem SearchInBox_after_build_counts :
  forall BRANCHING_FACTOR LEAF_NODE_SIZE_ latToY centroid GetHilbertCode sort
         blocked_ranges (m_coordinate_list_ : list Coordinate)
         (input_data_vector : list EdgeData),
    2 <= BRANCHING_FACTOR -> 1 <= LEAF_NODE_SIZE_ ->
    sort_permutes sort ->
    monotone latToY ->
    input_data_vector <> [] ->
    3 * Z.of_nat (length input_data_vector) < 2147483648 ->
    Forall (edge_int32 latToY m_coordinate_list_) input_data_vector ->
    forall t,
      PackWithHilbert BRANCHING_FACTOR LEAF_NODE_SIZE_ latToY centroid GetHilbertCode
                      sort m_coordinate_list_ input_data_vector = Some t
      \/ PackWithSTR BRANCHING_FACTOR LEAF_NODE_SIZE_ latToY centroid sort
                     blocked_ranges m_coordinate_list_ input_data_vector = Some t ->
      tree_shaped t
      /\ forall search_rectangle fuel results t',
          SearchInBox latToY fuel t search_rectangle = Some (results, t') ->
          Permutation results
                      (filter (fun e => Rectangle.Intersects
                                          (edge_bbox m_coordinate_list_ e)
                                          search_rectangle)
                              input_data_vector).
Proof.
  intros B L latToY centroid GetHilbertCode sort blocked_ranges cs input
         HB HL Hsort Hmono Hne Hsize Hcoords t Ht.
  destruct (built_index B L latToY centroid GetHilbertCode sort blocked_ranges cs input t
                        HB HL Hsort Hne Hsize Hcoords Ht)
    as (Hok & Hlinked & Hshape & Hperm & Hcs).
  split; [exact Hshape|].
  intros R fuel results t' H.
  rewrite (SearchInBox_perm latToY t R Hmono Hok Hlinked Hshape fuel results t' H).
  rewrite Hcs. now apply filter_perm.
Qed.

Lemma SearchInBox_after_build_counts_witness :
  exists results,
    SearchInBox UnitSquare.latToY 50 UnitSquare.tree
                {| min_lon := -100000; max_lon := 600000;
                   min_lat := -100000; max_lat := 600000 |}
    = Some (results, UnitSquare.tree)
    /\ Permutation results [UnitSquare.edge 0 1 0 true; UnitSquare.edge 0 2 2 true].
Proof.
  eexists. split; [vm_compute; reflexivity|].
  destruct (SearchInBox_after_build_counts
              4 2 UnitSquare.latToY midpoint UnitSquare.GetHilbertCode insertion_sort
              one_range UnitSquare.coordinates UnitSquare.edges)
    with (t := UnitSquare.tree) as (_ & Hall).
  - lia.
  - lia.
  - exact insertion_sort_permutes.
  - intros a b H. exact H.
  - discriminate.
  - vm_compute. reflexivity.
  - apply edge_int32b_spec. vm_compute. reflexivity.
  - left. vm_compute. reflexivity.
  - apply (Hall {| min_lon := -100000; max_lon := 600000;
                   min_lat := -100000; max_lat := 600000 |} 50%nat _ UnitSquare.tree).
    vm_compute. reflexivity.
Defined.





(** X12.  [grouped_partial_sort (left, right, n, compare)], for a group
    size [n >= 1], a range within the array, a [std::partial_sort] that
    keeps its contract for [compare], and a quotient
    [ceil (distance / n / 2.)] that the floating-point arithmetic gives
    exactly: the loop ends, whatever the length of the range (the
    rounding up makes both parts of every split shorter than the range);
    the array is rearranged, and outside the range it is left alone;
    and afterwards the range is sorted by groups of [n]: no element is
    less than an element of an earlier group. *)
Theorem grouped_partial_sort_groups :
  forall (A : Type) partial_sort ceil_half_ratio (compare : A -> A -> bool)
         (data : list A) left_ right_ n,
    1 <= n ->
    0 <= left_ <= right_ ->
    right_ <= Z.of_nat (length data) ->
    partial_sort_ok partial_sort compare ->
    (forall d, n < d -> ceil_half_ratio d n = ceil_half_ratio_exact d n) ->
    (exists fuel result,
        grouped_partial_sort A partial_sort ceil_half_ratio fuel data left_ right_ n compare
        = Some result)
    /\ forall fuel result,
        grouped_partial_sort A partial_sort ceil_half_ratio fuel data left_ right_ n compare
        = Some result ->
        Permutation result data
        /\ (forall d p, 0 <= p < left_ \/ right_ <= p -> at_ d result p = at_ d data p)
        /\ (forall d p p',
               left_ <= p -> p < p' -> p' < right_ ->
               (p - left_) / n < (p' - left_) / n ->
               compare (at_ d result p') (at_ d result p) = false).
Proof.
  intros A partial_sort chr compare data left0 right0 n Hn Hlr Hr Hps Hceil.
  pose proof (grouped_start A compare n left0 right0 data Hn (conj Hlr Hr)) as H0.
  split.
  - destruct (grouped_runs A partial_sort chr compare n left0 right0 data Hn Hps Hceil
                           (conj Hlr Hr)
                           (S (Z.to_nat (group_weight [(left0, right0)])))
                           right0 [(left0, right0)] _ H0)
      as (s' & E & _).
    { pose proof (group_weight_pos [(left0, right0)]). lia. }
    eexists. exists (g_data s'). unfold grouped_partial_sort. now rewrite E.
  - intros fuel result H. unfold grouped_partial_sort in H.
    destruct (grouped_loop A partial_sort chr fuel n compare _) as [s'|] eqn:E;
      [|discriminate].
    injection H as <-.
    destruct (grouped_ends A partial_sort chr compare n left0 right0 data Hn Hps Hceil
                           (conj Hlr Hr) fuel right0 [(left0, right0)] _ s' H0 E)
      as (f' & _ & _ & _ & _ & _ & Hperm & Hout & Hord).
    split; [exact Hperm|]. split; [exact Hout|].
    intros d p p' Hp Hpp Hp' Hg. apply Hord; try assumption. intros a b [].
Qed.

Lemma grouped_partial_sort_groups_witness :
  grouped_partial_sort Z partial_sort_all ceil_half_ratio_exact 20
                       [9; 5; 3; 8; 1; 7; 2; 6; 4; 0] 1 8 2 Z.ltb
  = Some [9; 1; 2; 3; 5; 6; 7; 8; 4; 0]
  /\ forall fuel result,
      grouped_partial_sort Z partial_sort_all ceil_half_ratio_exact fuel
                           [9; 5; 3; 8; 1; 7; 2; 6; 4; 0] 1 8 2 Z.ltb
      = Some result ->
      Permutation result [9; 5; 3; 8; 1; 7; 2; 6; 4; 0].
Proof.
  split; [vm_compute; reflexivity|].
  intros fuel result H.
  apply (proj2 (grouped_partial_sort_groups
                  Z partial_sort_all ceil_half_ratio_exact Z.ltb
                  [9; 5; 3; 8; 1; 7; 2; 6; 4; 0] 1 8 2
                  ltac:(lia) ltac:(lia) ltac:(simpl; lia)
                  partial_sort_all_ok (fun d _ => eq_refl))
               fuel result H).
Defined.

(** X13.  The Hilbert and the STR packer store every edge once.  For a
    non-empty input within the [int32] and 31-bit limits the index they
    return holds, leaf after leaf, exactly the edges of the input in the
    order the packer has sorted them into, so the object counts of the
    leaves sum to the number of input edges; the index is well formed
    (children further down the node array than their parent, child
    rectangles valid and inside the parent's, leaf rectangles over the
    end points of their edges), every leaf and every node but the root
    is a child, and none is a child twice. *)
Theorem packed_index_stores_every_edge_once :
  forall BRANCHING_FACTOR LEAF_NODE_SIZE_ latToY centroid GetHilbertCode sort
         blocked_ranges (m_coordinate_list_ : list Coordinate)
         (input_data_vector : list EdgeData),
    2 <= BRANCHING_FACTOR -> 1 <= LEAF_NODE_SIZE_ ->
    sort_permutes sort ->
    input_data_vector <> [] ->
    3 * Z.of_nat (length input_data_vector) < 2147483648 ->
    Forall (edge_int32 latToY m_coordinate_list_) input_data_vector ->
    forall t sorted,
      (PackWithHilbert BRANCHING_FACTOR LEAF_NODE_SIZE_ latToY centroid GetHilbertCode
                       sort m_coordinate_list_ input_data_vector = Some t
       /\ sorted = hilbert_order latToY centroid GetHilbertCode sort
                                 m_coordinate_list_ input_data_vector)
      \/ (PackWithSTR BRANCHING_FACTOR LEAF_NODE_SIZE_ latToY centroid sort
                      blocked_ranges m_coordinate_list_ input_data_vector = Some t
          /\ sorted = str_order LEAF_NODE_SIZE_ centroid sort blocked_ranges
                                m_coordinate_list_ input_data_vector) ->
      stored_edges (m_leaves t) = sorted
      /\ Permutation (stored_edges (m_leaves t)) input_data_vector
      /\ total_objects (m_leaves t) = Z.of_nat (length input_data_vector)
      /\ m_coordinate_list t = m_coordinate_list_
      /\ index_ok latToY t = true
      /\ all_linked t = true
      /\ tree_shaped t.
Proof.
  intros B L latToY centroid GetHilbertCode sort blocked_ranges cs input
         HB HL Hsort Hne Hsize Hcoords t sorted Ht.
  destruct (built_order B L latToY centroid GetHilbertCode sort blocked_ranges cs input
                        t sorted HB HL Hsort Hne Hsize Hcoords Ht) as [_ Horder].
  assert (Ht' : PackWithHilbert B L latToY centroid GetHilbertCode sort cs input = Some t
                \/ PackWithSTR B L latToY centroid sort blocked_ranges cs input = Some t)
    by (destruct Ht as [[Ht _]|[Ht _]]; [now left|now right]).
  destruct (built_index B L latToY centroid GetHilbertCode sort blocked_ranges cs input t
                        HB HL Hsort Hne Hsize Hcoords Ht')
    as (Hok & Hlinked & Hshape & Hperm & Hcs).
  split; [exact Horder|]. split; [exact Hperm|]. split.
  - rewrite (stored_edges_count latToY t Hok). now rewrite (Permutation_length Hperm).
  - split; [exact Hcs|]. split; [exact Hok|]. split; [exact Hlinked|exact Hshape].
Qed.

Lemma packed_index_stores_every_edge_once_witness :
  map u (stored_edges (m_leaves UnitSquare.tree)) = [0; 0; 1; 2]
  /\ Permutation (stored_edges (m_leaves UnitSquare.tree)) UnitSquare.edges
  /\ total_objects (m_leaves UnitSquare.tree) = 4.
Proof.
  assert (Ht : PackWithHilbert 4 2 UnitSquare.latToY midpoint UnitSquare.GetHilbertCode
                               insertion_sort UnitSquare.coordinates UnitSquare.edges
               = Some UnitSquare.tree) by (vm_compute; reflexivity).
  destruct (packed_index_stores_every_edge_once
              4 2 UnitSquare.latToY midpoint UnitSquare.GetHilbertCode insertion_sort
              one_range UnitSquare.coordinates UnitSquare.edges
              ltac:(lia) ltac:(lia) insertion_sort_permutes ltac:(discriminate)
              ltac:(vm_compute; reflexivity)
              ltac:(apply edge_int32b_spec; vm_compute; reflexivity)
              UnitSquare.tree _ (or_introl (conj Ht eq_refl)))
    as (Horder & Hperm & Hcount & _).
  split; [|split; [exact Hperm|exact Hcount]].
  rewrite Horder. vm_compute. reflexivity.
Defined.
